(** * lucanthrope: buffered index streams over the in-memory directory

    A shallow embedding of
      - include/lucanthrope/IO/IndexIOBase.h, IndexInput.h, IndexOutput.h
      - lib/IO/IndexInput.cpp, IndexOutput.cpp
      - lib/IO/RAMFileIndexInput.h, RAMFileIndexOutput.h
      - include/lucanthrope/storage/RAMDirectory.h, lib/storage/RAMDirectory.cpp
      - lib/storage/RAMDirectoryLockFile.h
      - tests/RAMDirectory_single_thread_test.cpp
    followed by the properties of the storage engine that were checked
    against it.

    Conventions of the embedding.
      - C++ unsigned integers are [Z] with the wrap-around written out
        ([u8], [u32], [u64]); [size_t] is taken to be 64 bits wide.
      - A [char] is the value of its bit pattern, a [Z] in [0, 256).
      - Heap objects ([RAMFile]) live in an explicit store indexed by
        addresses; the file table maps names to pointers, so that the table
        and every open reader alias the same object.
      - The memory blocks of a file are lists of cells; a cell that was never
        stored to is [None].
      - Every operation is a function from the state of the program to a
        [Result]: normal return, a thrown [Exception] or a fatal stop (failed
        [assert], undefined behaviour). The mutex of the directory is held
        for the whole of every table operation, so each operation is one
        atomic step.
      - [new] and [push_back] are taken to succeed: no [std::bad_alloc].
      - One [RAMDirectory] is modelled; its file table, the heap of its
        files and the counter of the shared placeholder make up [World].
      - The loops of the streams recurse on a bound that is computed from
        their arguments; running out of it is the stop [NoFuel], and the
        properties show that it does not happen. *)

From stdpp Require Import gmap strings list fin_maps.
From Stdlib Require Import ZArith Lia.

Local Open Scope Z_scope.

(** ** Machine integers *)

Definition u8 (x : Z) : Z := x mod 2 ^ 8.
Definition u32 (x : Z) : Z := x mod 2 ^ 32.
Definition u64 (x : Z) : Z := x mod 2 ^ 64.

Definition INT_MAX : Z := 2 ^ 31 - 1.
Definition INT_MIN : Z := - 2 ^ 31.

(** ** Outcomes: common/Exception.h and the fatal stops *)

Inductive Code :=
| FileAlreadyExistsException
| FileNotFoundException
| IOErrorException
| IndexCorruptionException.

Inductive fatal :=
| AssertionFailed (msg : string)  (* assert(...) does not hold *)
| OutOfBounds                     (* vector or block indexed out of range *)
| UninitializedRead               (* load of a byte that was never stored *)
| DanglingPointer                 (* access to a RAMFile that was deleted *)
| SignedOverflow                  (* ++/-- on an int leaves its range *)
| NullPointer                     (* access through a null pointer *)
| InvalidDelete                   (* delete of an object not made by new *)
| InvalidatedIterator             (* ++ on an iterator to an erased entry *)
| NoFuel.                         (* the loop bound of the embedding ran out *)

Inductive Result (S A : Type) :=
| Ok (a : A) (s : S)
| Throw (c : Code) (s : S)
| Fatal (f : fatal).

Arguments Ok {S A} a s.
Arguments Throw {S A} c s.
Arguments Fatal {S A} f.

(** A computation over a state [S]. *)
Definition M (S A : Type) : Type := S -> Result S A.

Definition ret {S A} (a : A) : M S A := fun s => Ok a s.

Definition bind {S A B} (m : M S A) (k : A -> M S B) : M S B :=
  fun s =>
    match m s with
    | Ok a s' => k a s'
    | Throw c s' => Throw c s'
    | Fatal f => Fatal f
    end.

Definition throw {S A} (c : Code) : M S A := fun s => Throw c s.
Definition abort {S A} (f : fatal) : M S A := fun _ => Fatal f.
Definition get {S} : M S S := fun s => Ok s s.
Definition put {S} (s : S) : M S unit := fun _ => Ok tt s.

(** [assert(b && msg)] *)
Definition assert {S} (b : bool) (msg : string) : M S unit :=
  if b then ret tt else abort (AssertionFailed msg).

Notation "'let*' x ':=' m 'in' k" := (bind m (fun x => k))
  (at level 10, x name, m at level 100, k at level 200, only parsing).
Notation "'let*' ' p ':=' m 'in' k" :=
  (bind m (fun x => match x with p => k end))
  (at level 10, p pattern, m at level 100, k at level 200, only parsing).

(** ** RAMDirectory.h: RAMFile and the state of the program *)

Definition kBlockSize : Z := 4096.

(** One memory block, [new char[kBlockSize]]: its bytes are indeterminate
    until they are stored to. *)
Abbreviation block := (list (option Z)).

Definition new_block : block := replicate (Z.to_nat kBlockSize) None.

Module RAMFile.
Record t := mk {
  blocks_ : list block;  (* std::vector<char *> *)
  length : Z;            (* uint64_t *)
  refs_ : Z;             (* mutable int *)
  name : string
}.

(** RAMFile(RAMDirectory *d, const std::string &fname) *)
Definition create (fname : string) : t :=
  {| blocks_ := []; length := 0; refs_ := 0; name := fname |}.

Definition set_blocks (bs : list block) (f : t) : t :=
  {| blocks_ := bs; length := length f; refs_ := refs_ f; name := name f |}.
Definition set_length (n : Z) (f : t) : t :=
  {| blocks_ := blocks_ f; length := n; refs_ := refs_ f; name := name f |}.
Definition set_refs (n : Z) (f : t) : t :=
  {| blocks_ := blocks_ f; length := length f; refs_ := n; name := name f |}.

(** void alloc() *)
Definition alloc (f : t) : t := set_blocks (blocks_ f ++ [new_block]) f.

(** uint64_t size() const *)
Definition size (f : t) : Z := length f.
End RAMFile.

(** A [RAMFile *] stored in the table: the address of the static
    [dummy_file], or of an object made by [new RAMFile]. *)
Inductive fileptr :=
| dummy
| heap_file (l : nat).

Global Instance fileptr_eq_dec : EqDecision fileptr.
Proof. solve_decision. Defined.

Record World := mkWorld {
  files : gmap string fileptr;   (* RAMDirectory::files *)
  heap : gmap nat RAMFile.t;     (* the RAMFile objects that are alive *)
  dummy_refs : Z                 (* RAMDirectory::dummy_file.refs_ *)
}.

Definition set_files (m : gmap string fileptr) (w : World) : World :=
  {| files := m; heap := heap w; dummy_refs := dummy_refs w |}.
Definition set_heap (h : gmap nat RAMFile.t) (w : World) : World :=
  {| files := files w; heap := h; dummy_refs := dummy_refs w |}.
Definition set_dummy_refs (n : Z) (w : World) : World :=
  {| files := files w; heap := heap w; dummy_refs := n |}.

(** A new directory in a program that holds no file. *)
Definition empty_world : World :=
  {| files := ∅; heap := ∅; dummy_refs := 0 |}.

(** [const RAMDirectory::RAMFile RAMDirectory::dummy_file;] built by
    [RAMFile() {}]: no block, length 0. Only [refs_] is mutable. *)
Definition dummy_file (w : World) : RAMFile.t :=
  {| RAMFile.blocks_ := []; RAMFile.length := 0;
     RAMFile.refs_ := dummy_refs w; RAMFile.name := "" |}.

(** [*p] *)
Definition load (l : nat) : M World RAMFile.t :=
  fun w => match heap w !! l with
           | Some f => Ok f w
           | None => Fatal DanglingPointer
           end.

Definition store (l : nat) (f : RAMFile.t) : M World unit :=
  fun w => match heap w !! l with
           | Some _ => Ok tt (set_heap (<[l := f]> (heap w)) w)
           | None => Fatal DanglingPointer
           end.

(** [new RAMFile(d, fname)] *)
Definition new_RAMFile (fname : string) : M World nat :=
  fun w => let l := fresh (dom (heap w)) in
           Ok l (set_heap (<[l := RAMFile.create fname]> (heap w)) w).

(** [delete file], which runs [~RAMFile()]: the reference count must be 0. *)
Definition delete_RAMFile (l : nat) : M World unit :=
  let* f := load l in
  let* _ := assert (RAMFile.refs_ f =? 0) "Reference count is not zero" in
  fun w => Ok tt (set_heap (delete l (heap w)) w).

(** [--n] and [++n] on an [int]. *)
Definition decr_int {S} (n : Z) : M S Z :=
  if n =? INT_MIN then abort SignedOverflow else ret (n - 1).
Definition incr_int {S} (n : Z) : M S Z :=
  if n =? INT_MAX then abort SignedOverflow else ret (n + 1).

(** [v[i]] on a vector or an array, [i] being a [size_t]. *)
Definition at_ {A} (v : list A) (i : Z) : option A :=
  if i <? 0 then None else v !! Z.to_nat i.

Definition vsize {A} (v : list A) : Z := Z.of_nat (List.length v).

(** ** IndexIOBase.h, IndexOutput.h, IndexInput.h: the buffer state

    [bufStart], [bufCur], [bufEnd] (and [sentinel]) always point into one and
    the same memory block. They are kept as offsets from the first byte of
    that block, and [buf] is the index of the block in [file->blocks_]; it is
    [None] as long as [bufStart] is [nullptr], when the offsets are all 0. *)

Definition kMaxVarintLength32 : Z := 5.
Definition kMaxVarintLength64 : Z := 10.

Module Output.
(** RAMFileIndexOutput, with the members of IndexOutput and IndexIOBase. *)
Record t := mk {
  buf : option Z;
  bufStart : Z;
  bufCur : Z;
  bufEnd : Z;
  pos : Z;            (* uint64_t *)
  file : nat;         (* RAMDirectory::RAMFile * *)
  current_block : Z   (* size_t *)
}.

Definition set_pos (n : Z) (o : t) : t :=
  mk (buf o) (bufStart o) (bufCur o) (bufEnd o) n (file o) (current_block o).
Definition set_bufCur (n : Z) (o : t) : t :=
  mk (buf o) (bufStart o) n (bufEnd o) (pos o) (file o) (current_block o).
Definition set_bufStart (n : Z) (o : t) : t :=
  mk (buf o) n (bufCur o) (bufEnd o) (pos o) (file o) (current_block o).
Definition set_current_block (n : Z) (o : t) : t :=
  mk (buf o) (bufStart o) (bufCur o) (bufEnd o) (pos o) (file o) n.

(** IndexIOBase::set(blocks_[b], size) *)
Definition set (b : Z) (size : Z) (o : t) : t :=
  mk (Some b) 0 (bufCur o) size (pos o) (file o) (current_block o).

(** RAMFileIndexOutput(RAMDirectory *d, const std::string &fname), once
    the RAMFile has been allocated at [l]. *)
Definition create (l : nat) : t := mk None 0 0 0 0 l 0.

Definition hasBuffer (o : t) : bool := bool_decide (is_Some (buf o)).
Definition getBufferSize (o : t) : Z := u64 (bufEnd o - bufStart o).
Definition getCurrentPosition (o : t) : Z := pos o.
Definition getNumWritableBytes (o : t) : Z := u64 (bufCur o - bufStart o).
Definition available (o : t) : Z := u64 (bufEnd o - bufCur o).
Definition supportsExternalBuffer (o : t) : bool := false.
Definition preferredBufferSize (o : t) : Z := kBlockSize.
End Output.

Module Input.
(** RAMFileIndexInput, with the members of IndexInput and IndexIOBase. *)
Record t := mk {
  buf : option Z;
  bufStart : Z;
  bufCur : Z;
  bufEnd : Z;
  pos : Z;               (* uint64_t *)
  sentinel : Z;
  file : nat;            (* RAMDirectory::RAMFile * *)
  current_block : Z;     (* size_t *)
  last_block : Z;        (* size_t *)
  last_block_bytes : Z   (* size_t *)
}.

Definition set_pos (n : Z) (i : t) : t :=
  mk (buf i) (bufStart i) (bufCur i) (bufEnd i) n (sentinel i) (file i)
     (current_block i) (last_block i) (last_block_bytes i).
Definition set_bufCur (n : Z) (i : t) : t :=
  mk (buf i) (bufStart i) n (bufEnd i) (pos i) (sentinel i) (file i)
     (current_block i) (last_block i) (last_block_bytes i).
Definition set_sentinel (n : Z) (i : t) : t :=
  mk (buf i) (bufStart i) (bufCur i) (bufEnd i) (pos i) n (file i)
     (current_block i) (last_block i) (last_block_bytes i).
Definition set_current_block (n : Z) (i : t) : t :=
  mk (buf i) (bufStart i) (bufCur i) (bufEnd i) (pos i) (sentinel i) (file i)
     n (last_block i) (last_block_bytes i).

(** IndexIOBase::set(blocks_[b], size) *)
Definition set (b : Z) (size : Z) (i : t) : t :=
  mk (Some b) 0 (bufCur i) size (pos i) (sentinel i) (file i)
     (current_block i) (last_block i) (last_block_bytes i).

Definition hasBuffer (i : t) : bool := bool_decide (is_Some (buf i)).
Definition getBufferSize (i : t) : Z := u64 (bufEnd i - bufStart i).
Definition getCurrentPosition (i : t) : Z := pos i.
Definition getNumReadableBytes (i : t) : Z := u64 (sentinel i - bufCur i).
Definition hasPendingData (i : t) : bool := 0 <? getNumReadableBytes i.
Definition supportsExternalBuffer (i : t) : bool := false.
End Input.

(** RAMFileIndexInput(RAMDirectory::RAMFile *f) *)
Definition new_RAMFileIndexInput (l : nat) : M World Input.t :=
  let* f := load l in
  let* _ := assert (negb (RAMFile.length f =? 0)) "File is empty!" in
  ret (Input.mk None 0 0 0 0 0 l 0
         (u64 ((RAMFile.length f - 1) / kBlockSize + 1))
         (u64 ((RAMFile.length f - 1) mod kBlockSize + 1))).

(** RAMDirectoryLockFile: the directory is the only one of the program, so
    the lock keeps its name. *)
Record RAMDirectoryLockFile := { lock_name : string }.

(** ** RAMDirectory.cpp *)

(** [*p] for a pointer taken from the table. *)
Definition load_ptr (p : fileptr) : M World RAMFile.t :=
  match p with
  | dummy => fun w => Ok (dummy_file w) w
  | heap_file l => load l
  end.

(** [p->refs_ = n] *)
Definition store_refs (p : fileptr) (n : Z) : M World unit :=
  match p with
  | dummy => fun w => Ok tt (set_dummy_refs n w)
  | heap_file l => let* f := load l in store l (RAMFile.set_refs n f)
  end.

(** [delete p]; the dummy file is a static object. *)
Definition delete_ptr (p : fileptr) : M World unit :=
  match p with
  | dummy => abort InvalidDelete
  | heap_file l => delete_RAMFile l
  end.

(** [files.erase(...)] and [files[fname] = p] *)
Definition erase (fname : string) : M World unit :=
  fun w => Ok tt (set_files (delete fname (files w)) w).
Definition assign (fname : string) (p : fileptr) : M World unit :=
  fun w => Ok tt (set_files (<[fname := p]> (files w)) w).

(** void RAMDirectory::commit(const std::string &fname, RAMFile *file) *)
Definition commit (fname : string) (file : nat) : M World unit :=
  let* w := get in
  let* _ := assert (bool_decide (files w !! fname = Some dummy))
      "File name is not registered, RAMDirectory's invariants do not hold!" in
  let* _ := store_refs (heap_file file) 1 in
  assign fname (heap_file file).

(** void RAMDirectory::unrefReader(const RAMFile *file) *)
Definition unrefReader (file : nat) : M World unit :=
  let* f := load file in
  let* c := decr_int (RAMFile.refs_ f) in
  let* _ := store_refs (heap_file file) c in
  if c =? 0 then delete_RAMFile file else ret tt.

(** void RAMDirectory::releaseLock(const std::string &fname) *)
Definition releaseLock (fname : string) : M World unit :=
  let* w := get in
  match files w !! fname with
  | None => ret tt  (* a warning goes to std::cerr *)
  | Some p =>
      let* _ := assert (bool_decide (p = dummy))
          "Lock file refers to unknown RAMFile, RAMDirectory's invariants do not hold!" in
      erase fname
  end.

(** ~RAMDirectoryLockFile() *)
Definition release (lock : RAMDirectoryLockFile) : M World unit :=
  releaseLock (lock_name lock).

(** std::vector<std::string> RAMDirectory::listAll(); the order is the one
    in which the table enumerates its entries. *)
Definition listAll : M World (list string) :=
  let* w := get in ret ((map_to_list (files w)).*1).

(** void RAMDirectory::deleteFile(const std::string &fname) *)
Definition deleteFile (fname : string) : M World unit :=
  let* w := get in
  match files w !! fname with
  | Some file =>
      let* _ := assert (negb (bool_decide (file = dummy)))
          "Attempt to delete an uncommited file; a file may be deleted only after it were commited" in
      let* _ := erase fname in
      let* f := load_ptr file in
      let* ref_count := decr_int (RAMFile.refs_ f) in
      let* _ := store_refs file ref_count in
      if ref_count =? 0 then delete_ptr file else ret tt
  | None => throw FileNotFoundException
  end.

(** uint64_t RAMDirectory::fileLength(const std::string &fname) *)
Definition fileLength (fname : string) : M World Z :=
  let* w := get in
  match files w !! fname with
  | None => throw FileNotFoundException
  | Some p => let* f := load_ptr p in ret (RAMFile.length f)
  end.

(** std::unique_ptr<IndexOutput> RAMDirectory::createOutput(fname) *)
Definition createOutput (fname : string) : M World Output.t :=
  let* w := get in
  match files w !! fname with
  | Some _ => throw FileAlreadyExistsException
  | None =>
      let* l := new_RAMFile fname in
      let output := Output.create l in
      let* _ := assign fname dummy in
      ret output
  end.

(** void RAMDirectory::rename(src, target) *)
Definition rename (src target : string) : M World unit :=
  let* w := get in
  match files w !! src with
  | None => throw FileNotFoundException
  | Some p =>
      match files w !! target with
      | Some _ => throw FileAlreadyExistsException
      | None => let* _ := assign target p in erase src
      end
  end.

(** std::unique_ptr<IndexInput> RAMDirectory::openInput(fname) *)
Definition openInput (fname : string) : M World Input.t :=
  let* w := get in
  match files w !! fname with
  | None => throw FileNotFoundException
  | Some file =>
      match file with
      | dummy =>
          abort (AssertionFailed
            "Attempt to read an uncommited file; a file may be read only after it were commited")
      | heap_file l =>
          let* input := new_RAMFileIndexInput l in
          let* f := load l in
          let* n := incr_int (RAMFile.refs_ f) in
          let* _ := store_refs file n in
          ret input
      end
  end.

(** std::unique_ptr<LockFile> RAMDirectory::obtainLock(fname); [None] is
    the empty [unique_ptr]. *)
Definition obtainLock (fname : string) : M World (option RAMDirectoryLockFile) :=
  let* w := get in
  match files w !! fname with
  | Some _ => ret None  (* lock is held by someone *)
  | None =>
      let lock := {| lock_name := fname |} in
      let* _ := assign fname dummy in
      ret (Some lock)
  end.

(** bool RAMDirectory::fileExists(const std::string &fname) *)
Definition fileExists (fname : string) : M World bool :=
  let* w := get in
  ret (match files w !! fname with Some _ => true | None => false end).

(** [pair.first.size() >= size && segment == pair.first.substr(0, size)] *)
Definition has_prefix (segment fname : string) : bool :=
  (String.length segment <=? String.length fname)%nat
  && bool_decide (segment = String.substring 0 (String.length segment) fname).

(** The body of the loop of [deleteSegment] at an entry that matches. *)
Definition deleteSegment_entry (entry : string * fileptr) : M World unit :=
  let* _ := assert (bool_decide (entry.2 = dummy))
      "Attempt to delete an uncommited file in exception handler; it is should not be possible with RAMDirectory's invariants, something is broken!" in
  let file := entry.2 in
  let* _ := erase entry.1 in
  let* f := load_ptr file in
  let* c := decr_int (RAMFile.refs_ f) in
  let* _ := store_refs file c in
  if c =? 0 then delete_ptr file else ret tt.

(** The range-based [for] over [files]. Erasing the entry the loop stands
    on invalidates its iterator, and the loop then increments it. *)
Fixpoint deleteSegment_loop (segment : string) (entries : list (string * fileptr))
  : M World unit :=
  match entries with
  | [] => ret tt
  | entry :: rest =>
      if has_prefix segment entry.1 then
        let* _ := deleteSegment_entry entry in
        abort InvalidatedIterator
      else deleteSegment_loop segment rest
  end.

(** void RAMDirectory::deleteSegment(const std::string &segment) noexcept *)
Definition deleteSegment (segment : string) : M World unit :=
  let* w := get in deleteSegment_loop segment (map_to_list (files w)).

(** The body of the loop of ~RAMDirectory() at an entry with the pointer
    [p]. *)
Definition RAMDirectory_dtor_entry (p : fileptr) : M World unit :=
  match p with
  | dummy => ret tt
  | heap_file l =>
      let* f := load l in
      let* _ := assert (RAMFile.refs_ f =? 1)
          "Attempt to deallocate a file that is open for reading!" in
      let* c := decr_int (RAMFile.refs_ f) in
      let* _ := store_refs p c in
      delete_ptr p
  end.

Fixpoint RAMDirectory_dtor_loop (entries : list (string * fileptr))
  : M World unit :=
  match entries with
  | [] => ret tt
  | entry :: rest =>
      let* _ := RAMDirectory_dtor_entry entry.2 in
      RAMDirectory_dtor_loop rest
  end.

(** RAMDirectory::~RAMDirectory(), the body of the destructor. *)
Definition RAMDirectory_dtor : M World unit :=
  let* w := get in RAMDirectory_dtor_loop (map_to_list (files w)).

(** ** Access to the bytes of a block *)

(** [blocks_[b][off] = c] in the file at [l]. *)
Definition poke (l : nat) (b off c : Z) : M World unit :=
  let* f := load l in
  match at_ (RAMFile.blocks_ f) b with
  | None => abort OutOfBounds
  | Some blk =>
      if (0 <=? off) && (off <? vsize blk) then
        store l (RAMFile.set_blocks
                   (<[Z.to_nat b := <[Z.to_nat off := Some c]> blk]>
                      (RAMFile.blocks_ f)) f)
      else abort OutOfBounds
  end.

(** [blocks_[b][off]] in the file at [l]. *)
Definition peek (l : nat) (b off : Z) : M World Z :=
  let* f := load l in
  match at_ (RAMFile.blocks_ f) b with
  | None => abort OutOfBounds
  | Some blk =>
      match at_ blk off with
      | None => abort OutOfBounds
      | Some None => abort UninitializedRead
      | Some (Some c) => ret c
      end
  end.

(** [&blocks_[b]]: taking the address of a block that does not exist. *)
Definition block_exists (l : nat) (b : Z) : M World unit :=
  let* f := load l in
  match at_ (RAMFile.blocks_ f) b with
  | None => abort OutOfBounds
  | Some _ => ret tt
  end.

(** ** RAMFileIndexOutput.h and IndexOutput.cpp *)

(** [bufCur[i] = c] *)
Definition put_at (o : Output.t) (i c : Z) : M World unit :=
  match Output.buf o with
  | None => abort NullPointer
  | Some b => poke (Output.file o) b (Output.bufCur o + i) c
  end.

(** [std::memcpy(bufCur + i, ptr, size)] *)
Fixpoint memcpy_to (o : Output.t) (i : Z) (ptr : list Z) : M World unit :=
  match ptr with
  | [] => ret tt
  | c :: ptr' => let* _ := put_at o i c in memcpy_to o (i + 1) ptr'
  end.

(** void RAMFileIndexOutput::initInternalBuffer() *)
Definition Output_initInternalBuffer (o : Output.t) : M World Output.t :=
  let* f := load (Output.file o) in
  let* _ := store (Output.file o) (RAMFile.alloc f) in
  let* _ := block_exists (Output.file o) 0 in
  let o := Output.set 0 kBlockSize o in
  ret (Output.set_bufCur (Output.bufStart o) o).

(** [if (file->length < pos) file->length = pos;] *)
Definition update_length (o : Output.t) : M World unit :=
  let* f := load (Output.file o) in
  if RAMFile.length f <? Output.pos o
  then store (Output.file o) (RAMFile.set_length (Output.pos o) f)
  else ret tt.

(** void RAMFileIndexOutput::writeImpl() *)
Definition writeImpl (o : Output.t) : M World Output.t :=
  let* _ := update_length o in
  if Output.bufCur o =? Output.bufEnd o then
    let* f := load (Output.file o) in
    let* _ :=
      if Output.current_block o =? u64 (vsize (RAMFile.blocks_ f) - 1)
      then store (Output.file o) (RAMFile.alloc f)
      else ret tt in
    let o := Output.set_current_block (u64 (Output.current_block o + 1)) o in
    let* _ := block_exists (Output.file o) (Output.current_block o) in
    ret (Output.set (Output.current_block o) kBlockSize o)
  else ret (Output.set_bufStart (Output.bufCur o) o).

(** void IndexOutput::flushNonEmpty() *)
Definition flushNonEmpty (o : Output.t) : M World Output.t :=
  let* _ := assert (negb (Output.getNumWritableBytes o =? 0))
                   "Buffer is currently empty!" in
  let* o := writeImpl o in
  ret (Output.set_bufCur (Output.bufStart o) o).

(** void IndexOutput::flush() *)
Definition flush (o : Output.t) : M World Output.t :=
  if negb (Output.bufCur o =? Output.bufStart o) then flushNonEmpty o else ret o.

(** virtual void IndexOutput::sync() *)
Definition sync (o : Output.t) : M World Output.t := flush o.

(** void IndexOutput::copyToBuffer(const char *ptr, size_t size); [ptr] is
    given with its [size] bytes. *)
Definition copyToBuffer (ptr : list Z) (o : Output.t) : M World Output.t :=
  let size := vsize ptr in
  let* _ := assert (size <=? Output.available o) "Buffer overrun!" in
  let* _ :=
    match ptr with
    | [p0; p1; p2; p3] =>
        let* _ := put_at o 3 p3 in let* _ := put_at o 2 p2 in
        let* _ := put_at o 1 p1 in put_at o 0 p0
    | [p0; p1; p2] =>
        let* _ := put_at o 2 p2 in let* _ := put_at o 1 p1 in put_at o 0 p0
    | [p0; p1] => let* _ := put_at o 1 p1 in put_at o 0 p0
    | [p0] => put_at o 0 p0
    | [] => ret tt
    | _ => memcpy_to o 0 ptr
    end in
  ret (Output.set_bufCur (Output.bufCur o + size) o).

(** IndexOutput &IndexOutput::writeByte(char c). The call to itself is made
    once at most, after the buffer was created. *)
Fixpoint writeByte_rec (fuel : nat) (c : Z) (o : Output.t) : M World Output.t :=
  match fuel with
  | O => abort NoFuel
  | S fuel =>
      let store_byte (o : Output.t) : M World Output.t :=
        let o := Output.set_pos (u64 (Output.pos o + 1)) o in
        let* _ := put_at o 0 c in
        ret (Output.set_bufCur (Output.bufCur o + 1) o) in
      if Output.available o =? 0 then
        if negb (Output.hasBuffer o) then
          let* o := Output_initInternalBuffer o in
          writeByte_rec fuel c o
        else
          let* o := flushNonEmpty o in store_byte o
      else store_byte o
  end.

Definition writeByte (c : Z) (o : Output.t) : M World Output.t :=
  writeByte_rec 2 c o.

(** IndexOutput &IndexOutput::write(const char *ptr, size_t size). Every
    call to itself but the first two has fewer bytes left to write. *)
Fixpoint write_rec (fuel : nat) (ptr : list Z) (o : Output.t) : M World Output.t :=
  match fuel with
  | O => abort NoFuel
  | S fuel =>
      let size := vsize ptr in
      if Output.available o <? size then
        if negb (Output.hasBuffer o) then
          let* o := Output_initInternalBuffer o in
          write_rec fuel ptr o
        else
          let avail := Output.available o in
          let* o := copyToBuffer (take (Z.to_nat avail) ptr) o in
          let o := Output.set_pos (u64 (Output.pos o + avail)) o in
          let* o := flushNonEmpty o in
          write_rec fuel (drop (Z.to_nat avail) ptr) o
      else
        let* o := copyToBuffer ptr o in
        ret (Output.set_pos (u64 (Output.pos o + size)) o)
  end.

Definition write (ptr : list Z) (o : Output.t) : M World Output.t :=
  write_rec (List.length ptr + 3) ptr o.

(** IndexOutput &IndexOutput::writeInt32(uint32_t num) *)
Definition writeInt32 (num : Z) (o : Output.t) : M World Output.t :=
  write [u8 num; u8 (num ≫ 8); u8 (num ≫ 16); u8 (num ≫ 24)] o.

(** IndexOutput &IndexOutput::writeInt64(uint64_t num) *)
Definition writeInt64 (num : Z) (o : Output.t) : M World Output.t :=
  write [u8 num; u8 (num ≫ 8); u8 (num ≫ 16); u8 (num ≫ 24);
         u8 (num ≫ 32); u8 (num ≫ 40); u8 (num ≫ 48); u8 (num ≫ 56)] o.

(** The bytes [buf[0 .. curr - buf)] that writeVarint32 passes to write. *)
Definition varint32_bytes (num : Z) : list Z :=
  let B := 128 in
  if num <? 1 ≪ 7 then
    [u8 num]
  else if num <? 1 ≪ 14 then
    [u8 (Z.lor num B); u8 (num ≫ 7)]
  else if num <? 1 ≪ 21 then
    [u8 (Z.lor num B); u8 (Z.lor (num ≫ 7) B); u8 (num ≫ 14)]
  else if num <? 1 ≪ 28 then
    [u8 (Z.lor (num ≫ 7) B); u8 (Z.lor (num ≫ 14) B); u8 (num ≫ 21)]
  else
    [u8 (Z.lor num B); u8 (Z.lor (num ≫ 7) B); u8 (Z.lor (num ≫ 14) B);
     u8 (Z.lor (num ≫ 21) B); u8 (num ≫ 28)].

(** IndexOutput &IndexOutput::writeVarint32(uint32_t num) *)
Definition writeVarint32 (num : Z) (o : Output.t) : M World Output.t :=
  write (varint32_bytes num) o.

(** The loop of writeVarint64 over [buf], which has [room] bytes left. *)
Fixpoint varint64_bytes (room : nat) (num : Z) : option (list Z) :=
  match room with
  | O => None
  | S room =>
      if 128 <=? num
      then cons (u8 (Z.lor num 128)) <$> varint64_bytes room (num ≫ 7)
      else Some [u8 num]
  end.

(** IndexOutput &IndexOutput::writeVarint64(uint64_t num) *)
Definition writeVarint64 (num : Z) (o : Output.t) : M World Output.t :=
  match varint64_bytes (Z.to_nat kMaxVarintLength64) num with
  | None => abort OutOfBounds
  | Some buf => write buf o
  end.

(** IndexOutput &IndexOutput::writeString(std::string_view str) *)
Definition writeString (str : list Z) (o : Output.t) : M World Output.t :=
  let* o := writeVarint32 (u32 (vsize str)) o in
  write str o.

(** void RAMFileIndexOutput::seek(uint64_t seek_pos) *)
Definition Output_seek (seek_pos : Z) (o : Output.t) : M World Output.t :=
  let* _ := update_length o in
  let* f := load (Output.file o) in
  let* _ := assert (seek_pos <=? RAMFile.length f)
      "Seeking past one-past-the-end of file is not supported!" in
  let o := Output.set_current_block (seek_pos / kBlockSize) o in
  let* _ :=
    if Output.current_block o =? vsize (RAMFile.blocks_ f)
    then store (Output.file o) (RAMFile.alloc f)
    else ret tt in
  let offset_in_current_block := seek_pos mod kBlockSize in
  let* _ := block_exists (Output.file o) (Output.current_block o) in
  let o := Output.set (Output.current_block o) kBlockSize o in
  let o := Output.set_bufCur (Output.bufStart o + offset_in_current_block) o in
  ret (Output.set_pos seek_pos o).

(** ~RAMFileIndexOutput(), with RAMFile::finish_writing() *)
Definition Output_close (o : Output.t) : M World unit :=
  let* _ := update_length o in
  let* f := load (Output.file o) in
  commit (RAMFile.name f) (Output.file o).

(** ** RAMFileIndexInput.h and IndexInput.cpp *)

(** [bufCur[k]] *)
Definition get_at (i : Input.t) (k : Z) : M World Z :=
  match Input.buf i with
  | None => abort NullPointer
  | Some b => peek (Input.file i) b (Input.bufCur i + k)
  end.

(** The [n] bytes that [std::memcpy(ptr, bufCur + k, n)] copies. *)
Fixpoint memcpy_from (i : Input.t) (k : Z) (n : nat) : M World (list Z) :=
  match n with
  | O => ret []
  | S n =>
      let* c := get_at i k in
      let* cs := memcpy_from i (k + 1) n in
      ret (c :: cs)
  end.

(** [sentinel = bufCur + last_block_bytes] in the last block, [bufEnd] in
    the others; [last] is the test the source makes. *)
Definition place_sentinel (last : bool) (start : Z) (i : Input.t) : Input.t :=
  if last then Input.set_sentinel (start + Input.last_block_bytes i) i
  else Input.set_sentinel (Input.bufEnd i) i.

(** void RAMFileIndexInput::initInternalBuffer() *)
Definition Input_initInternalBuffer (i : Input.t) : M World Input.t :=
  let* _ := block_exists (Input.file i) 0 in
  let i := Input.set 0 kBlockSize i in
  let i := Input.set_bufCur (Input.bufStart i) i in
  ret (place_sentinel (Input.last_block i =? 0) (Input.bufCur i) i).

(** bool RAMFileIndexInput::fillImpl() *)
Definition fillImpl (i : Input.t) : M World (bool * Input.t) :=
  let* _ := assert (negb (Input.hasPendingData i)) "Buffer is not empty!" in
  if negb (Input.hasBuffer i) then
    let* i := Input_initInternalBuffer i in ret (true, i)
  else if Input.current_block i =? Input.last_block i then (* EOF *)
    ret (false, i)
  else
    let i := Input.set_current_block (u64 (Input.current_block i + 1)) i in
    let* _ := block_exists (Input.file i) (Input.current_block i) in
    let i := Input.set (Input.current_block i) kBlockSize i in
    let i := Input.set_bufCur (Input.bufStart i) i in
    ret (true,
         place_sentinel (Input.current_block i =? Input.last_block i)
                        (Input.bufCur i) i).

(** bool IndexInput::eof() *)
Definition eof (i : Input.t) : M World (bool * Input.t) :=
  if Input.hasPendingData i then ret (false, i)
  else let* '(filled, i) := fillImpl i in ret (negb filled, i).

(** char IndexInput::readByte() *)
Definition readByte (i : Input.t) : M World (Z * Input.t) :=
  let* '(e, i) := eof i in
  if e : bool then throw IndexCorruptionException
  else
    let i := Input.set_pos (u64 (Input.pos i + 1)) i in
    let* c := get_at i 0 in
    ret (c, Input.set_bufCur (Input.bufCur i + 1) i).

(** The loop of IndexInput::read; [copied] are the bytes [ptr[0 ..
    bytes_copied)] written so far. *)
Fixpoint read_loop (fuel : nat) (size : Z) (copied : list Z) (i : Input.t)
  : M World (list Z * Input.t) :=
  match fuel with
  | O => abort NoFuel
  | S fuel =>
      let bytes_copied := vsize copied in
      if bytes_copied <? size then
        let* '(e, i) := eof i in
        if e : bool then ret (copied, i)
        else
          let bytes_to_copy :=
            Z.min (Input.getNumReadableBytes i) (size - bytes_copied) in
          let* bs := memcpy_from i 0 (Z.to_nat bytes_to_copy) in
          let i := Input.set_bufCur (Input.bufCur i + bytes_to_copy) i in
          read_loop fuel size (copied ++ bs) i
      else ret (copied, i)
  end.

(** size_t IndexInput::read(char *ptr, size_t size): the bytes put into
    [ptr]; their number is the value returned. *)
Definition read (size : Z) (i : Input.t) : M World (list Z * Input.t) :=
  let* '(copied, i) := read_loop (Z.to_nat size + 1) size [] i in
  ret (copied, Input.set_pos (u64 (Input.pos i + vsize copied)) i).

(** [buffer[k]] of a local array that holds [buffer]. *)
Definition byte_of (buffer : list Z) (k : nat) : Z := default 0 (buffer !! k).

(** uint32_t IndexInput::readInt32() *)
Definition readInt32 (i : Input.t) : M World (Z * Input.t) :=
  let* '(buffer, i) := read 4 i in
  if vsize buffer <? 4 then throw IndexCorruptionException
  else
    ret (Z.lor (Z.lor (Z.lor
           (byte_of buffer 0)
           (u32 (byte_of buffer 1 ≪ 8)))
           (u32 (byte_of buffer 2 ≪ 16)))
           (u32 (byte_of buffer 3 ≪ 24)), i).

(** uint64_t IndexInput::readInt64() *)
Definition readInt64 (i : Input.t) : M World (Z * Input.t) :=
  let* '(buffer, i) := read 8 i in
  if vsize buffer <? 8 then throw IndexCorruptionException
  else
    ret (Z.lor (Z.lor (Z.lor (Z.lor (Z.lor (Z.lor (Z.lor
           (byte_of buffer 0)
           (u64 (byte_of buffer 1 ≪ 8)))
           (u64 (byte_of buffer 2 ≪ 16)))
           (u64 (byte_of buffer 3 ≪ 24)))
           (u64 (byte_of buffer 4 ≪ 32)))
           (u64 (byte_of buffer 5 ≪ 40)))
           (u64 (byte_of buffer 6 ≪ 48)))
           (u64 (byte_of buffer 7 ≪ 56)), i).

(** The loop shared by readVarint32 and readVarint64: [wrap] is the width
    of the result, [room] the number of bytes the loop may still decode. *)
Fixpoint readVarint_loop (wrap : Z -> Z) (room : nat) (bytes_decoded : Z)
    (result : Z) (i : Input.t) : M World (Z * Input.t) :=
  match room with
  | O => throw IndexCorruptionException
  | S room =>
      let* '(e, i) := eof i in
      if e : bool then throw IndexCorruptionException
      else
        let* '(c, i) := readByte i in
        let byte := u8 c in
        let result :=
          Z.lor result (wrap (Z.land byte 127 ≪ (7 * bytes_decoded))) in
        let bytes_decoded := bytes_decoded + 1 in
        if Z.land byte 128 =? 0 then ret (result, i)
        else readVarint_loop wrap room bytes_decoded result i
  end.

(** uint64_t IndexInput::readVarint64() *)
Definition readVarint64 (i : Input.t) : M World (Z * Input.t) :=
  readVarint_loop u64 (Z.to_nat kMaxVarintLength64) 0 0 i.

(** uint32_t IndexInput::readVarint32() *)
Definition readVarint32 (i : Input.t) : M World (Z * Input.t) :=
  readVarint_loop u32 (Z.to_nat kMaxVarintLength32) 0 0 i.

(** [while (size--) buff.push_back(readByte());] *)
Fixpoint readString_loop (size : nat) (buff : list Z) (i : Input.t)
  : M World (list Z * Input.t) :=
  match size with
  | O => ret (buff, i)
  | S size =>
      let* '(c, i) := readByte i in
      readString_loop size (buff ++ [c]) i
  end.

(** void IndexInput::readString(std::string &buff): the new contents of
    [buff]. *)
Definition readString (i : Input.t) : M World (list Z * Input.t) :=
  let* '(size, i) := readVarint32 i in
  readString_loop (Z.to_nat size) [] i.

(** void RAMFileIndexInput::seek(uint64_t seek_pos) *)
Definition Input_seek (seek_pos : Z) (i : Input.t) : M World Input.t :=
  let* f := load (Input.file i) in
  let* _ := assert (seek_pos <? RAMFile.length f)
      "Seeking past the end of  file is not supported!" in
  let i := Input.set_current_block (seek_pos / kBlockSize) i in
  let block_offset := seek_pos mod kBlockSize in
  let* _ := block_exists (Input.file i) (Input.current_block i) in
  let i := Input.set (Input.current_block i) kBlockSize i in
  let i := Input.set_bufCur (Input.bufStart i + block_offset) i in
  ret (place_sentinel (Input.current_block i =? Input.last_block i)
                      (Input.bufStart i) i).

(** ~RAMFileIndexInput(), with RAMFile::finish_reading() *)
Definition Input_close (i : Input.t) : M World unit :=
  unrefReader (Input.file i).

(** ** tests/RAMDirectory_single_thread_test.cpp *)

(** tests/RAMDirectory_single_thread_test.cpp: the block of main() that is
    run on a new directory, with the values of its local variables; the
    objects of the block are destroyed at its end, the reader before the
    directory. *)
Definition RAMDirectory_single_thread_test (return_statement : list Z)
    (max_uint32_t max_uint64_t varint32 varint64 : Z) : M World unit :=
  let* file := createOutput "test_file" in
  let* file := writeInt64 0 file in (* skip 8 bytes *)
  let* file := writeString return_statement file in
  let* file := writeVarint64 varint64 file in
  let* file := writeInt32 max_uint32_t file in
  let* file := writeVarint32 varint32 file in
  let* file := Output_seek 0 file in
  let* file := writeInt64 max_uint64_t file in
  let* files := listAll in
  let* _ := assert ((vsize files =? 1)
                    && bool_decide (last files = Some "test_file"))
                   "files.size() == 1 && files.back() == test_file" in
  let* _ := Output_close file in
  let* input := openInput "test_file" in
  let* '(n, input) := readInt64 input in
  let* _ := assert (n =? max_uint64_t)
                   "input->readInt64() == max_uint64_t" in
  let* '(buf, input) := readString input in
  let* _ := assert (bool_decide (buf = return_statement))
                   "buf == return_statement" in
  let* '(n, input) := readVarint64 input in
  let* _ := assert (n =? varint64) "input->readVarint64() == varint64" in
  let* '(n, input) := readInt32 input in
  let* _ := assert (n =? max_uint32_t)
                   "input->readInt32() == max_uint32_t" in
  let* '(n, input) := readVarint32 input in
  let* _ := assert (n =? varint32) "input->readVarint32() == varint32" in
  let* input := Input_seek 8 input in
  let* '(buf, input) := readString input in
  let* _ := assert (bool_decide (buf = return_statement))
                   "buf == return_statement" in
  let* _ := Input_close input in
  RAMDirectory_dtor.

(** * Notions used in the properties *)

(** The states of a name in the table (spec, section 3). *)
Definition absent (w : World) (fname : string) : Prop :=
  files w !! fname = None.

Definition placeholder (w : World) (fname : string) : Prop :=
  files w !! fname = Some dummy.

Definition committed (w : World) (fname : string) (l : nat) : Prop :=
  files w !! fname = Some (heap_file l).

Definition occupied (w : World) (fname : string) : Prop :=
  is_Some (files w !! fname).

(** A directory in which a writer for "f" is open, and nothing else. *)
Definition world_writing : World :=
  {| files := {["f" := dummy]};
     heap := {[0%nat := RAMFile.create "f"]};
     dummy_refs := 0 |}.

(** What an operation returns, apart from the state. *)
Inductive Outcome (A : Type) :=
| Returns (a : A)
| Throws (c : Code)
| Stops (f : fatal).

Arguments Returns {A} a.
Arguments Throws {A} c.
Arguments Stops {A} f.

(** The outcome of a result. *)
Definition outcome {S A} (r : Result S A) : Outcome A :=
  match r with
  | Ok a _ => Returns a
  | Throw c _ => Throws c
  | Fatal f => Stops f
  end.

(** The result that has outcome [o] and leaves the state [s] as it is. *)
Definition unchanged {S A} (o : Outcome A) (s : S) : Result S A :=
  match o with
  | Returns a => Ok a s
  | Throws c => Throw c s
  | Stops f => Fatal f
  end.

(** Two states in which the file at [l] has the same blocks and length. *)
Definition same_data (l : nat) (w w' : World) : Prop :=
  (λ f, (RAMFile.blocks_ f, RAMFile.length f)) <$> heap w !! l
  = (λ f, (RAMFile.blocks_ f, RAMFile.length f)) <$> heap w' !! l.

(** [m] changes nothing, its outcome depends on the state through the data
    of the file at [l] only, and what it returns satisfies [P]. *)
Definition reads_only {A} (l : nat) (P : A -> Prop) (m : M World A) : Prop :=
  forall w w', same_data l w w' ->
    exists o, m w = unchanged o w /\ m w' = unchanged o w' /\
              forall a, o = Returns a -> P a.

(** The reader that an operation returns still reads the file at [l]. *)
Definition on_file (l : nat) {A} (r : A * Input.t) : Prop :=
  Input.file r.2 = l.

(** The heap after one reference to the file [f] at [l] is given up. *)
Definition drop_ref (l : nat) (f : RAMFile.t) (h : gmap nat RAMFile.t)
  : gmap nat RAMFile.t :=
  if RAMFile.refs_ f - 1 =? 0 then delete l h
  else <[l := RAMFile.set_refs (RAMFile.refs_ f - 1) f]> h.

(** The readers [rs] are closed one after the other. *)
Fixpoint close_all (rs : list Input.t) : M World unit :=
  match rs with
  | [] => ret tt
  | r :: rs => let* _ := Input_close r in close_all rs
  end.

(** Every read operation of a reader of the file at [l] has in [w'] the
    outcome it has in [w]: the same value and the same reader afterwards. *)
Definition reads_alike (l : nat) (w w' : World) : Prop :=
  forall r, Input.file r = l ->
    (forall n, outcome (read n r w') = outcome (read n r w)) /\
    outcome (readByte r w') = outcome (readByte r w) /\
    outcome (readInt32 r w') = outcome (readInt32 r w) /\
    outcome (readInt64 r w') = outcome (readInt64 r w) /\
    outcome (readVarint32 r w') = outcome (readVarint32 r w) /\
    outcome (readVarint64 r w') = outcome (readVarint64 r w) /\
    outcome (readString r w') = outcome (readString r w) /\
    outcome (eof r w') = outcome (eof r w) /\
    (forall p, outcome (Input_seek p r w') = outcome (Input_seek p r w)).

(** The one-byte file "f" with [refs] references. *)
Definition file_f (refs : Z) : RAMFile.t :=
  {| RAMFile.blocks_ := [<[0%nat := Some 7]> new_block];
     RAMFile.length := 1; RAMFile.refs_ := refs; RAMFile.name := "f" |}.

(** A reader of the file at address 0 that has not read yet. *)
Definition reader_f : Input.t := Input.mk None 0 0 0 0 0 0%nat 0 1 1.

(** Commit "f" and open it twice. *)
Definition two_readers : M World (Input.t * Input.t) :=
  let* o := createOutput "f" in
  let* o := writeByte 7 o in
  let* _ := Output_close o in
  let* r1 := openInput "f" in
  let* r2 := openInput "f" in
  ret (r1, r2).

(** The directory with "f" committed and open in two readers. *)
Definition world_two_readers : World :=
  {| files := {["f" := heap_file 0]};
     heap := {[0%nat := file_f 3]};
     dummy_refs := 0 |}.

(** The bytes of a string. *)
Fixpoint bytes_of_string (s : string) : list Z :=
  match s with
  | EmptyString => []
  | String a s => Z.of_N (Ascii.N_of_ascii a) :: bytes_of_string s
  end.

(** std::numeric_limits<uint64_t>::max() *)
Definition UINT64_MAX : Z := 2 ^ 64 - 1.

(** Create "f", write the largest uint64_t, the string "hello" and the
    varint32 300, close; open "f", read them back and ask for eof. *)
Definition example_scenario : M World (Z * list Z * Z * bool * Input.t) :=
  let* o := createOutput "f" in
  let* o := writeInt64 UINT64_MAX o in
  let* o := writeString (bytes_of_string "hello") o in
  let* o := writeVarint32 300 o in
  let* _ := Output_close o in
  let* i := openInput "f" in
  let* '(a, i) := readInt64 i in
  let* '(b, i) := readString i in
  let* '(c, i) := readVarint32 i in
  let* '(e, i) := eof i in
  ret (a, b, c, e, i).

(** Commit the one-byte file "seg1_a", then delete the segment "seg1_". *)
Definition delete_committed_segment : M World unit :=
  let* o := createOutput "seg1_a" in
  let* o := writeByte 7 o in
  let* _ := Output_close o in
  deleteSegment "seg1_".

(** The block [blk] after the bytes [cs] were stored from offset [off] on. *)
Definition blit (off : nat) (cs : list Z) (blk : block) : block :=
  take off blk ++ (Some <$> cs) ++ drop (off + List.length cs) blk.

(** The state in which block [cb] of the file [f] at [l] is [blk]. *)
Definition with_block (l : nat) (f : RAMFile.t) (cb : nat) (blk : block)
    (w : World) : World :=
  set_heap (<[l := RAMFile.set_blocks (<[cb := blk]> (RAMFile.blocks_ f)) f]>
              (heap w)) w.

(** The cell of the file at position [q] of the stream. *)
Definition cell (f : RAMFile.t) (q : Z) : option (option Z) :=
  match at_ (RAMFile.blocks_ f) (q / kBlockSize) with
  | Some blk => at_ blk (q mod kBlockSize)
  | None => None
  end.

(** The file has the bytes [data] at the positions from 0 on. *)
Definition holds (f : RAMFile.t) (data : list Z) : Prop :=
  forall (q : nat) (c : Z),
    data !! q = Some c -> cell f (Z.of_nat q) = Some (Some c).

(** Every block has [kBlockSize] cells. *)
Definition full_blocks (bs : list block) : Prop :=
  Forall (λ b, vsize b = kBlockSize) bs.

(** What the writes leave alone in the file. *)
Definition same_file (f f' : RAMFile.t) : Prop :=
  RAMFile.name f' = RAMFile.name f /\ RAMFile.refs_ f' = RAMFile.refs_ f.

(** The state in which the file at [l] is [f]. *)
Definition with_file (l : nat) (f : RAMFile.t) (w : World) : World :=
  set_heap (<[l := f]> (heap w)) w.

(** The writer [o] has written [written] to its file [f] since it was
    created, by calls to the write functions only. *)
Record writing (o : Output.t) (f : RAMFile.t) (written : list Z) : Prop := {
  writing_blocks : full_blocks (RAMFile.blocks_ f);
  writing_holds : holds f written;
  writing_pos : Output.pos o = vsize written;
  writing_length : RAMFile.length f <= Output.pos o;
  writing_buf :
    match Output.buf o with
    | None =>
        RAMFile.blocks_ f = [] /\ Output.bufCur o = 0 /\ Output.bufEnd o = 0 /\
        Output.bufStart o = 0 /\ Output.current_block o = 0 /\ Output.pos o = 0
    | Some cb =>
        0 <= cb /\ Output.current_block o = cb /\ Output.bufStart o = 0 /\
        Output.bufEnd o = kBlockSize /\ 0 <= Output.bufCur o <= kBlockSize /\
        vsize (RAMFile.blocks_ f) = cb + 1 /\
        Output.pos o = cb * kBlockSize + Output.bufCur o
    end
}.

(** The calls that write_rec makes before it returns. *)
Definition write_calls (ptr : list Z) (o : Output.t) : nat :=
  (List.length ptr +
   match Output.buf o with
   | None => 2
   | Some _ => if (Output.bufCur o =? kBlockSize)%Z then 1 else 0
   end)%nat.

(** The file [f] is the one in which [data] was stored. *)
Record stored (f : RAMFile.t) (data : list Z) : Prop := {
  stored_blocks : full_blocks (RAMFile.blocks_ f);
  stored_holds : holds f data;
  stored_length : RAMFile.length f = vsize data;
  stored_small : vsize data < 2 ^ 64
}.

(** The reader [i] of the file [f] stands in front of position [q]. *)
Record reading (i : Input.t) (f : RAMFile.t) (q : Z) : Prop := {
  reading_last_block :
    Input.last_block i = (RAMFile.length f - 1) / kBlockSize + 1;
  reading_buf :
    match Input.buf i with
    | None =>
        q = 0 /\ Input.bufCur i = 0 /\ Input.sentinel i = 0 /\
        Input.current_block i = 0
    | Some cb =>
        0 <= cb /\ Input.current_block i = cb /\ cb < Input.last_block i /\
        Input.bufStart i = 0 /\ Input.bufEnd i = kBlockSize /\
        Input.sentinel i = kBlockSize /\ 0 <= Input.bufCur i <= kBlockSize /\
        q = cb * kBlockSize + Input.bufCur i
    end
}.

(** Successive calls of write, one for each chunk. *)
Fixpoint write_all (chunks : list (list Z)) (o : Output.t) : M World Output.t :=
  match chunks with
  | [] => ret o
  | ptr :: chunks => let* o := write ptr o in write_all chunks o
  end.

(** Write the chunks to a new file, commit it, open it, seek to [p] and
    read up to the end of what was written. *)
Definition seek_and_read (fname : string) (chunks : list (list Z)) (p : Z)
  : M World (list Z * Input.t) :=
  let* o := createOutput fname in
  let* o := write_all chunks o in
  let* _ := Output_close o in
  let* i := openInput fname in
  let* i := Input_seek p i in
  read (vsize (concat chunks) - p) i.

(** Write the chunks to a new file, commit it, open it, read all of it and
    ask for eof. *)
Definition read_to_end (fname : string) (chunks : list (list Z))
  : M World (list Z * bool) :=
  let* o := createOutput fname in
  let* o := write_all chunks o in
  let* _ := Output_close o in
  let* i := openInput fname in
  let* '(bs, i) := read (vsize (concat chunks)) i in
  let* '(e, _) := eof i in
  ret (bs, e).

(** The value of a sequence of groups of seven bits, lowest group first. *)
Fixpoint leb_value (bs : list Z) : Z :=
  match bs with
  | [] => 0
  | b :: bs => b mod 128 + 128 * leb_value bs
  end.

(** LEB128: bytes with the continuation bit, then one byte without. *)
Fixpoint leb128 (bs : list Z) : Prop :=
  match bs with
  | [] => False
  | b :: bs' =>
      match bs' with
      | [] => 0 <= b < 128
      | _ :: _ => 128 <= b < 256 /\ leb128 bs'
      end
  end.

(** The number of bytes of the LEB128 encoding of [v], by the table of its
    boundaries: 1 below 2^7, 2 below 2^14, and so on up to [most]. *)
Fixpoint leb_length (most : nat) (v : Z) : nat :=
  match most with
  | O => 0
  | S most => if v <? 128 then 1 else S (leb_length most (v / 128))
  end.

(** The bytes [bs] are in [data] from position [q] on. *)
Definition at_position (data : list Z) (q : Z) (bs : list Z) : Prop :=
  take (List.length bs) (drop (Z.to_nat q) data) = bs.

(** Write [v] with [put] to a new file and commit it; what [get] reads
    from the file, and the length of the file. *)
Definition roundtrip {V : Type} (put : V -> Output.t -> M World Output.t)
    (get : Input.t -> M World (V * Input.t)) (fname : string) (v : V)
  : M World (V * Z) :=
  let* o := createOutput fname in
  let* o := put v o in
  let* _ := Output_close o in
  let* size := fileLength fname in
  let* i := openInput fname in
  let* '(x, _) := get i in
  ret (x, size).


(** Write the chunks to a new file and commit it; the length the directory
    then reports for the name. *)
Definition write_and_measure (fname : string) (chunks : list (list Z))
  : M World Z :=
  let* o := createOutput fname in
  let* o := write_all chunks o in
  let* _ := Output_close o in
  fileLength fname.

(** Delete the file [fname] and write a new file of that name. *)
Definition replace_file (fname : string) (chunks : list (list Z))
  : M World unit :=
  let* _ := deleteFile fname in
  let* o := createOutput fname in
  let* o := write_all chunks o in
  Output_close o.

(** The directory with the file "f" of one byte committed, no reader. *)
Definition world_committed : World :=
  {| files := {["f" := heap_file 0]};
     heap := {[0%nat := file_f 1]};
     dummy_refs := 0 |}.

(** [fname] begins with [segment]. *)
Definition starts_with (segment fname : string) : Prop :=
  exists rest, fname = segment +:+ rest.

(** Every file of the table is alive, and no two names share a file. *)
Definition table_sound (w : World) : Prop :=
  (forall fname l, committed w fname l -> is_Some (heap w !! l)) /\
  (forall n1 n2 l, committed w n1 l -> committed w n2 l -> n1 = n2).

(** No two entries of the list share a file. *)
Definition distinct_files (entries : list (string * fileptr)) : Prop :=
  forall (i j : nat) n1 n2 l,
    entries !! i = Some (n1, heap_file l) ->
    entries !! j = Some (n2, heap_file l) -> i = j.

(** The directory with the file "f" committed and a lock held. *)
Definition world_committed_locked : World :=
  {| files := {["f" := heap_file 0; "write.lock" := dummy]};
     heap := {[0%nat := file_f 1]};
     dummy_refs := 0 |}.

(** The bytes of a file that holds [content], after [ptr] was stored from
    position [q] on. *)
Definition overwrite (q : nat) (ptr content : list Z) : list Z :=
  take q content ++ ptr ++ drop (q + List.length ptr) content.

(** The writer [o] stands at position [Output.pos o] of its file [f], whose
    bytes are [content]: what was written up to now, by the write functions,
    flush and seek. *)
Record editing (o : Output.t) (f : RAMFile.t) (content : list Z) : Prop := {
  editing_blocks : full_blocks (RAMFile.blocks_ f);
  editing_holds : holds f content;
  editing_pos : 0 <= Output.pos o <= vsize content;
  editing_length : vsize content = Z.max (RAMFile.length f) (Output.pos o);
  editing_room : vsize content <= vsize (RAMFile.blocks_ f) * kBlockSize;
  editing_tight :
    vsize (RAMFile.blocks_ f) * kBlockSize <= vsize content + kBlockSize;
  editing_buf :
    match Output.buf o with
    | None =>
        RAMFile.blocks_ f = [] /\ Output.bufCur o = 0 /\ Output.bufEnd o = 0 /\
        Output.bufStart o = 0 /\ Output.current_block o = 0 /\ Output.pos o = 0
    | Some cb =>
        0 <= cb /\ Output.current_block o = cb /\
        0 <= Output.bufStart o < kBlockSize /\
        Output.bufStart o <= Output.bufCur o <= kBlockSize /\
        Output.bufEnd o = kBlockSize /\
        cb < vsize (RAMFile.blocks_ f) /\
        Output.pos o = cb * kBlockSize + Output.bufCur o
    end
}.

(** The bytes [buf] that writeInt32 and writeInt64 pass to write. *)
Definition int32_bytes (num : Z) : list Z :=
  [u8 num; u8 (num ≫ 8); u8 (num ≫ 16); u8 (num ≫ 24)].

Definition int64_bytes (num : Z) : list Z :=
  [u8 num; u8 (num ≫ 8); u8 (num ≫ 16); u8 (num ≫ 24);
   u8 (num ≫ 32); u8 (num ≫ 40); u8 (num ≫ 48); u8 (num ≫ 56)].

(** The calls that a client makes on a writer. *)
Inductive wcall :=
| WriteByte (c : Z)
| Write (ptr : list Z)
| WriteInt32 (num : Z)
| WriteInt64 (num : Z)
| WriteVarint32 (num : Z)
| WriteVarint64 (num : Z)
| WriteString (str : list Z)
| Flush
| Sync
| Seek (seek_pos : Z).

Definition call (c : wcall) (o : Output.t) : M World Output.t :=
  match c with
  | WriteByte c => writeByte c o
  | Write ptr => write ptr o
  | WriteInt32 num => writeInt32 num o
  | WriteInt64 num => writeInt64 num o
  | WriteVarint32 num => writeVarint32 num o
  | WriteVarint64 num => writeVarint64 num o
  | WriteString str => writeString str o
  | Flush => flush o
  | Sync => sync o
  | Seek seek_pos => Output_seek seek_pos o
  end.

Fixpoint calls (cs : list wcall) (o : Output.t) : M World Output.t :=
  match cs with
  | [] => ret o
  | c :: cs => let* o := call c o in calls cs o
  end.

(** A file as a sequence of bytes with the position of its writer: the
    bytes [bs] are stored at the position, which moves behind them. *)
Definition store_at (bs : list Z) (st : list Z * Z) : option (list Z * Z) :=
  if st.2 + vsize bs <? 2 ^ 64
  then Some (overwrite (Z.to_nat st.2) bs st.1, st.2 + vsize bs)
  else None.

(** What a call does to the bytes of the file and to the position; [None]
    when the position would leave the range of uint64_t, or when seek is
    given a position behind the end of the file. *)
Definition step (c : wcall) (st : list Z * Z) : option (list Z * Z) :=
  match c with
  | WriteByte c => store_at [c] st
  | Write ptr => store_at ptr st
  | WriteInt32 num => store_at (int32_bytes num) st
  | WriteInt64 num => store_at (int64_bytes num) st
  | WriteVarint32 num => store_at (varint32_bytes num) st
  | WriteVarint64 num =>
      match varint64_bytes (Z.to_nat kMaxVarintLength64) num with
      | Some bs => store_at bs st
      | None => None
      end
  | WriteString str =>
      match store_at (varint32_bytes (u32 (vsize str))) st with
      | Some st => store_at str st
      | None => None
      end
  | Flush | Sync => Some st
  | Seek seek_pos =>
      if (0 <=? seek_pos) && (seek_pos <=? vsize st.1)
      then Some (st.1, seek_pos) else None
  end.

Fixpoint steps (cs : list wcall) (st : list Z * Z) : option (list Z * Z) :=
  match cs with
  | [] => Some st
  | c :: cs =>
      match step c st with
      | Some st => steps cs st
      | None => None
      end
  end.

(** Create the file [fname], make the calls on its writer and close it. *)
Definition write_file (fname : string) (cs : list wcall) : M World unit :=
  let* o := createOutput fname in
  let* o := calls cs o in
  Output_close o.

(** A file with its position, as [steps] has them. *)
Definition file_state (st : list Z * Z) : Prop :=
  0 <= st.2 <= vsize st.1 /\ vsize st.1 < 2 ^ 64.

(** What a call on the writer of the file at [l] leaves: the writer [o'] on
    the file [f'] in the state [st']. *)
Definition called (l : nat) (f : RAMFile.t) (w : World) (st' : list Z * Z)
    (r : Result World Output.t) : Prop :=
  exists o' f',
    r = Ok o' (with_file l f' w) /\ editing o' f' st'.1 /\
    Output.pos o' = st'.2 /\ Output.file o' = l /\ same_file f f'.

(** The calls that a client makes on a reader, and what they give. *)
Inductive rcall :=
| ReadByte
| Read (size : Z)
| ReadInt32
| ReadInt64
| ReadVarint32
| ReadVarint64
| ReadString
| SeekTo (seek_pos : Z).

Inductive answer :=
| Char (c : Z)
| Bytes (bs : list Z)
| Number (n : Z)
| Moved.

Definition ask (c : rcall) (i : Input.t) : M World (answer * Input.t) :=
  match c with
  | ReadByte => let* '(c, i) := readByte i in ret (Char c, i)
  | Read size => let* '(bs, i) := read size i in ret (Bytes bs, i)
  | ReadInt32 => let* '(n, i) := readInt32 i in ret (Number n, i)
  | ReadInt64 => let* '(n, i) := readInt64 i in ret (Number n, i)
  | ReadVarint32 => let* '(n, i) := readVarint32 i in ret (Number n, i)
  | ReadVarint64 => let* '(n, i) := readVarint64 i in ret (Number n, i)
  | ReadString => let* '(s, i) := readString i in ret (Bytes s, i)
  | SeekTo seek_pos => let* i := Input_seek seek_pos i in ret (Moved, i)
  end.

Fixpoint asks (cs : list rcall) (i : Input.t)
  : M World (list answer * Input.t) :=
  match cs with
  | [] => ret ([], i)
  | c :: cs =>
      let* '(a, i) := ask c i in
      let* '(rest, i) := asks cs i in
      ret (a :: rest, i)
  end.

(** Open the file [fname], make the calls on the reader and close it. *)
Definition read_file (fname : string) (cs : list rcall)
  : M World (list answer) :=
  let* i := openInput fname in
  let* '(answers, i) := asks cs i in
  let* _ := Input_close i in
  ret answers.

(** The value of bytes in little-endian order. *)
Fixpoint le_value (bs : list Z) : Z :=
  match bs with
  | [] => 0
  | b :: bs => b + 256 * le_value bs
  end.

Definition is_byte (b : Z) : bool := (0 <=? b) && (b <? 256).

(** The [n] bytes of [content] from position [q] on, if they are there. *)
Definition slice (content : list Z) (q : Z) (n : Z) : option (list Z) :=
  if (0 <=? n) && (q + n <=? vsize content)
  then Some (take (Z.to_nat n) (drop (Z.to_nat q) content))
  else None.

(** A fixed-width number of [n] bytes at position [q]. *)
Definition fixed_at (content : list Z) (q : Z) (n : Z) : option (Z * Z) :=
  match slice content q n with
  | Some bs => if forallb is_byte bs then Some (le_value bs, q + n) else None
  | None => None
  end.

(** A LEB128 number of at most [room] bytes in front of [bs]: its value and
    the number of its bytes. *)
Fixpoint leb_decode (room : nat) (bs : list Z) : option (Z * Z) :=
  match room, bs with
  | S room, b :: bs =>
      if negb (is_byte b) then None
      else if b <? 128 then Some (b, 1)
      else
        match leb_decode room bs with
        | Some (v, n) => Some (b mod 128 + 128 * v, n + 1)
        | None => None
        end
  | _, _ => None
  end.

(** A varint of at most [room] bytes at position [q], whose value is below
    [bound]. *)
Definition varint_at (room : nat) (bound : Z) (content : list Z) (q : Z)
  : option (Z * Z) :=
  match leb_decode room (drop (Z.to_nat q) content) with
  | Some (v, n) => if v <? bound then Some (v, q + n) else None
  | None => None
  end.

(** What a call on a reader that stands at position [q] of a file with the
    bytes [content] gives, and the position behind it; [None] when the bytes
    that the call asks for are not all there, or are no bytes of a number. *)
Definition parse (c : rcall) (content : list Z) (q : Z) : option (answer * Z) :=
  match c with
  | ReadByte =>
      match content !! Z.to_nat q with
      | Some c => Some (Char c, q + 1)
      | None => None
      end
  | Read size =>
      match slice content q size with
      | Some bs => Some (Bytes bs, q + size)
      | None => None
      end
  | ReadInt32 =>
      match fixed_at content q 4 with
      | Some (n, q) => Some (Number n, q)
      | None => None
      end
  | ReadInt64 =>
      match fixed_at content q 8 with
      | Some (n, q) => Some (Number n, q)
      | None => None
      end
  | ReadVarint32 =>
      match varint_at 5 (2 ^ 32) content q with
      | Some (n, q) => Some (Number n, q)
      | None => None
      end
  | ReadVarint64 =>
      match varint_at 10 (2 ^ 64) content q with
      | Some (n, q) => Some (Number n, q)
      | None => None
      end
  | ReadString =>
      match varint_at 5 (2 ^ 32) content q with
      | Some (n, q) =>
          match slice content q n with
          | Some bs => Some (Bytes bs, q + n)
          | None => None
          end
      | None => None
      end
  | SeekTo seek_pos =>
      if (0 <=? seek_pos) && (seek_pos <? vsize content)
      then Some (Moved, seek_pos) else None
  end.

Fixpoint parses (cs : list rcall) (content : list Z) (q : Z)
  : option (list answer) :=
  match cs with
  | [] => Some []
  | c :: cs =>
      match parse c content q with
      | Some (a, q) =>
          match parses cs content q with
          | Some rest => Some (a :: rest)
          | None => None
          end
      | None => None
      end
  end.

(** What a call on a reader of the file [f] at [l], which stores [data],
    leaves: the answer [a], the state [w] as it was, and a reader at
    position [q']. *)
Definition asked (l : nat) (f : RAMFile.t) (data : list Z) (w : World)
    (a : answer) (q' : Z) (r : Result World (answer * Input.t)) : Prop :=
  exists i',
    r = Ok (a, i') w /\ reading i' f q' /\ Input.file i' = l /\
    0 <= q' <= vsize data.

(** Write a file with the calls [cs], then read it with the calls [rs]. *)
Definition write_then_read (fname : string) (cs : list wcall)
    (rs : list rcall) : M World (list answer) :=
  let* _ := write_file fname cs in
  read_file fname rs.

(** The calls of [cs] that write. *)
Definition writes (c : wcall) : bool :=
  match c with
  | Flush | Sync => false
  | _ => true
  end.

(** The values that the streams write and read, with the call that writes
    a value, the call that reads it and the answer of that call. *)
Inductive value :=
| VByte (c : Z)
| VBytes (bs : list Z)
| VInt32 (n : Z)
| VInt64 (n : Z)
| VVarint32 (n : Z)
| VVarint64 (n : Z)
| VString (s : list Z).

Definition put_call (v : value) : wcall :=
  match v with
  | VByte c => WriteByte c
  | VBytes bs => Write bs
  | VInt32 n => WriteInt32 n
  | VInt64 n => WriteInt64 n
  | VVarint32 n => WriteVarint32 n
  | VVarint64 n => WriteVarint64 n
  | VString s => WriteString s
  end.

Definition get_call (v : value) : rcall :=
  match v with
  | VByte _ => ReadByte
  | VBytes bs => Read (vsize bs)
  | VInt32 _ => ReadInt32
  | VInt64 _ => ReadInt64
  | VVarint32 _ => ReadVarint32
  | VVarint64 _ => ReadVarint64
  | VString _ => ReadString
  end.

Definition answer_of (v : value) : answer :=
  match v with
  | VByte c => Char c
  | VBytes bs => Bytes bs
  | VInt32 n | VInt64 n | VVarint32 n | VVarint64 n => Number n
  | VString s => Bytes s
  end.

(** The bytes that the call [put_call v] stores. *)
Definition encoding (v : value) : list Z :=
  match v with
  | VByte c => [c]
  | VBytes bs => bs
  | VInt32 n => int32_bytes n
  | VInt64 n => int64_bytes n
  | VVarint32 n => varint32_bytes n
  | VVarint64 n =>
      default [] (varint64_bytes (Z.to_nat kMaxVarintLength64) n)
  | VString s => varint32_bytes (u32 (vsize s)) ++ s
  end.

(** The numbers of which writeVarint32 writes every group of seven bits:
    those outside the range from 2^21 to 2^28 - 1. *)
Definition whole_varint32 (n : Z) : bool :=
  (0 <=? n) && (n <? 2 ^ 32) && negb ((2 ^ 21 <=? n) && (n <? 2 ^ 28)).

(** The values in the range of their type. *)
Definition fits (v : value) : bool :=
  match v with
  | VByte c => true
  | VBytes bs => true
  | VInt32 n => (0 <=? n) && (n <? 2 ^ 32)
  | VInt64 n => (0 <=? n) && (n <? 2 ^ 64)
  | VVarint32 n => whole_varint32 n
  | VVarint64 n => (0 <=? n) && (n <? 2 ^ 64)
  | VString s => whole_varint32 (vsize s)
  end.

(** The values that main() gives to its local variables. *)
Definition test_return_statement : list Z :=
  bytes_of_string
    "The expr-or-braced-init-list of a return statement is called its operand. A return statement with no operand shall be used only in a function whose return type is cv void, a constructor, or a destructor. A return statement with an operand of type void shall be used only in a function that has a cv void return type. A return statement with any other operand shall be used only in a function that has a return type other than cv void; the return statement initializes the returned reference or prvalue result object of the (explicit or implicit) function call by copy-initialization from the operand.".

Definition UINT32_MAX : Z := 2 ^ 32 - 1.

(** The calls [cs] on the writer [o], then [k] on the writer they leave. *)
Fixpoint thread {A} (cs : list wcall) (k : Output.t -> M World A)
    (o : Output.t) : M World A :=
  match cs with
  | [] => k o
  | c :: cs => let* o := call c o in thread cs k o
  end.

(** Write the chunks to a new file and commit it, open it, seek to [p] and
    read [n] bytes; the position that the reader reports then. *)
Definition position_after_seek (fname : string) (chunks : list (list Z))
    (p n : Z) : M World Z :=
  let* o := createOutput fname in
  let* o := write_all chunks o in
  let* _ := Output_close o in
  let* i := openInput fname in
  let* i := Input_seek p i in
  let* '(_, i) := read n i in
  ret (Input.getCurrentPosition i).

(** What the test writes behind the first eight bytes of its file. *)
Definition test_values (return_statement : list Z)
    (max_uint32_t varint32 varint64 : Z) : list value :=
  [VString return_statement; VVarint64 varint64; VInt32 max_uint32_t;
   VVarint32 varint32].

(** The result [r] of a call in the state [w], on a stream of the file [f]
    at [l]: when the call returns or throws, the state differs from [w] in
    the file at [l] at most, which has kept its name and its reference
    count; when it stops, it is not for the file being freed. *)
Definition kept {A} (l : nat) (P : A -> Prop) (f : RAMFile.t) (w : World)
    (r : Result World A) : Prop :=
  match r with
  | Ok a w' => P a /\ exists f', w' = with_file l f' w /\ same_file f f'
  | Throw _ w' => exists f', w' = with_file l f' w /\ same_file f f'
  | Fatal e => e <> DanglingPointer
  end.

Definition keeps {A} (l : nat) (P : A -> Prop) (m : M World A) : Prop :=
  forall w f, heap w !! l = Some f -> kept l P f w (m w).

(** The writer that a call returns still writes the file at [l]. *)
Definition to_file (l : nat) (o : Output.t) : Prop := Output.file o = l.

(** A program that uses the directory: the state of the directory and of
    the files, and the writers and the readers that the program holds. *)
Record Program := mkProgram {
  dir : World;
  outputs : list Output.t;
  inputs : list Input.t
}.

(** The calls on the directory that give no stream. *)
Inductive dcall :=
| DeleteFile (fname : string)
| Rename (src target : string)
| FileLength (fname : string)
| FileExists (fname : string)
| ListAll
| ObtainLock (fname : string)
| ReleaseLock (fname : string)
| DeleteSegment (segment : string).

Definition directory_call (c : dcall) : M World unit :=
  match c with
  | DeleteFile fname => deleteFile fname
  | Rename src target => rename src target
  | FileLength fname => let* _ := fileLength fname in ret tt
  | FileExists fname => let* _ := fileExists fname in ret tt
  | ListAll => let* _ := listAll in ret tt
  | ObtainLock fname => let* _ := obtainLock fname in ret tt
  | ReleaseLock fname => releaseLock fname
  | DeleteSegment segment => deleteSegment segment
  end.

(** The state [w'] after a call that returned, or that threw an exception
    which the program caught. *)
Definition leaves {A} (r : Result World A) (w' : World) : Prop :=
  match r with
  | Ok _ w => w' = w
  | Throw _ w => w' = w
  | Fatal _ => False
  end.

(** One call of the program on the directory or on a stream that it holds.
    A stream that is closed is destroyed. A call that stops the program is no
    step. After a call that threw, a reader is in a state that the embedding
    does not give; it is still a reader of its file. *)
Inductive program_step (s : Program) : Program -> Prop :=
| step_createOutput fname o w' :
    createOutput fname (dir s) = Ok o w' ->
    program_step s (mkProgram w' (o :: outputs s) (inputs s))
| step_createOutput_throws fname c w' :
    createOutput fname (dir s) = Throw c w' ->
    program_step s (mkProgram w' (outputs s) (inputs s))
| step_call k c o o' w' :
    outputs s !! k = Some o -> call c o (dir s) = Ok o' w' ->
    program_step s (mkProgram w' (<[k := o']> (outputs s)) (inputs s))
| step_Output_close k o w' :
    outputs s !! k = Some o -> Output_close o (dir s) = Ok tt w' ->
    program_step s (mkProgram w' (delete k (outputs s)) (inputs s))
| step_openInput fname i w' :
    openInput fname (dir s) = Ok i w' ->
    program_step s (mkProgram w' (outputs s) (i :: inputs s))
| step_openInput_throws fname c w' :
    openInput fname (dir s) = Throw c w' ->
    program_step s (mkProgram w' (outputs s) (inputs s))
| step_ask k c i a i' w' :
    inputs s !! k = Some i -> ask c i (dir s) = Ok (a, i') w' ->
    program_step s (mkProgram w' (outputs s) (<[k := i']> (inputs s)))
| step_ask_throws k c i e i' w' :
    inputs s !! k = Some i -> ask c i (dir s) = Throw e w' ->
    Input.file i' = Input.file i ->
    program_step s (mkProgram w' (outputs s) (<[k := i']> (inputs s)))
| step_eof k i b i' w' :
    inputs s !! k = Some i -> eof i (dir s) = Ok (b, i') w' ->
    program_step s (mkProgram w' (outputs s) (<[k := i']> (inputs s)))
| step_Input_close k i w' :
    inputs s !! k = Some i -> Input_close i (dir s) = Ok tt w' ->
    program_step s (mkProgram w' (outputs s) (delete k (inputs s)))
| step_directory c w' :
    leaves (directory_call c (dir s)) w' ->
    program_step s (mkProgram w' (outputs s) (inputs s)).

(** The program that has made a directory and nothing else. *)
Definition new_program : Program := mkProgram empty_world [] [].

(** The states that a program gets to. *)
Definition reachable (s : Program) : Prop := rtc program_step new_program s.

(** The number of the streams of [xs] on the file at [l]. *)
Fixpoint streams_on {A} (file : A -> nat) (l : nat) (xs : list A) : Z :=
  match xs with
  | [] => 0
  | x :: xs => (if decide (file x = l) then 1 else 0) + streams_on file l xs
  end.

Definition readers (s : Program) (l : nat) : Z :=
  streams_on Input.file l (inputs s).
Definition writers (s : Program) (l : nat) : Z :=
  streams_on Output.file l (outputs s).

(** The reference counts are right: a file has one name at most; the count
    of a committed file is one more than the number of its readers, and it
    has no writer; a file without a name is either the file of one writer,
    with the count 0 and no reader, or a deleted file that is kept for its
    readers, of which the count is the number; and no stream is left on a
    file that was freed. *)
Record sound (s : Program) : Prop := {
  sound_names : forall n1 n2 l,
    committed (dir s) n1 l -> committed (dir s) n2 l -> n1 = n2;
  sound_committed : forall n l,
    committed (dir s) n l ->
    exists f, heap (dir s) !! l = Some f /\
              RAMFile.refs_ f = 1 + readers s l /\ writers s l = 0;
  sound_detached : forall l f,
    heap (dir s) !! l = Some f -> (forall n, ~ committed (dir s) n l) ->
    RAMFile.refs_ f = readers s l /\
    (writers s l = 1 /\ readers s l = 0 \/
     writers s l = 0 /\ 1 <= readers s l);
  sound_freed : forall l,
    heap (dir s) !! l = None -> readers s l = 0 /\ writers s l = 0
}.

(** The call did not find its file freed. *)
Definition finds_file {A} (r : Result World A) : Prop :=
  r <> Fatal DanglingPointer.

(** The program that has committed the one-byte file "f" and holds two
    readers of it. *)
Definition program_two_readers : Program :=
  mkProgram world_two_readers [] [reader_f; reader_f].

(** The program that has committed the one-byte file "f" and holds no
    stream. *)
Definition program_committed : Program := mkProgram world_committed [] [].

(** * Properties *)

(** ** Running the monad *)

Lemma bind_Ok {S A B} (m : M S A) (k : A -> M S B) (s s' : S) (a : A) :
  m s = Ok a s' -> bind m k s = k a s'.
Proof. unfold bind. by intros ->. Qed.

Lemma bind_Throw {S A B} (m : M S A) (k : A -> M S B) (s s' : S) (c : Code) :
  m s = Throw c s' -> bind m k s = Throw c s'.
Proof. unfold bind. by intros ->. Qed.

Lemma bind_Fatal {S A B} (m : M S A) (k : A -> M S B) (s : S) (f : fatal) :
  m s = Fatal f -> bind m k s = Fatal f.
Proof. unfold bind. by intros ->. Qed.

Lemma bind_get {S B} (k : S -> M S B) (s : S) : bind get k s = k s s.
Proof. reflexivity. Qed.

Lemma bind_ret {S A B} (a : A) (k : A -> M S B) (s : S) :
  bind (ret a) k s = k a s.
Proof. reflexivity. Qed.

Lemma assert_true {S} (msg : string) (s : S) : assert true msg s = Ok tt s.
Proof. reflexivity. Qed.

Lemma assert_false {S} (msg : string) (s : S) :
  assert false msg s = Fatal (AssertionFailed msg).
Proof. reflexivity. Qed.

Lemma load_Some (l : nat) (f : RAMFile.t) (w : World) :
  heap w !! l = Some f -> load l w = Ok f w.
Proof. unfold load. by intros ->. Qed.

Lemma store_Some (l : nat) (f g : RAMFile.t) (w : World) :
  heap w !! l = Some f -> store l g w = Ok tt (set_heap (<[l := g]> (heap w)) w).
Proof. unfold store. by intros ->. Qed.

Lemma occupied_cases (w : World) (fname : string) :
  occupied w fname <-> placeholder w fname \/ exists l, committed w fname l.
Proof.
  unfold occupied, placeholder, committed. split.
  - intros [[|l] H]; [by left | right; by exists l].
  - intros [H | [l H]]; rewrite H; by eexists.
Qed.

(** ** createOutput *)

Lemma createOutput_occupied (w : World) (fname : string) :
  occupied w fname ->
  createOutput fname w = Throw FileAlreadyExistsException w.
Proof.
  intros [p Hp]. unfold createOutput. rewrite bind_get, Hp. reflexivity.
Qed.

Lemma createOutput_absent (w : World) (fname : string) :
  absent w fname ->
  let l := fresh (dom (heap w)) in
  createOutput fname w =
    Ok (Output.create l)
       {| files := <[fname := dummy]> (files w);
          heap := <[l := RAMFile.create fname]> (heap w);
          dummy_refs := dummy_refs w |}.
Proof.
  intros Hp. unfold createOutput. rewrite bind_get, Hp. reflexivity.
Qed.

Lemma fresh_not_allocated (w : World) : heap w !! fresh (dom (heap w)) = None.
Proof. apply not_elem_of_dom, is_fresh. Qed.

(** C5. createOutput on a name that is occupied, by a placeholder or by a
    committed file, throws FileAlreadyExists and leaves the state of the
    program as it was. On an absent name it returns a writer without a
    buffer, at position 0, bound to a RAMFile that was not allocated before
    and that has no block, length 0 and no reference; the name becomes a
    placeholder and nothing else changes in the table. *)
Theorem createOutput_spec (w : World) (fname : string) :
  (occupied w fname ->
   createOutput fname w = Throw FileAlreadyExistsException w) /\
  (absent w fname ->
   exists o w',
     createOutput fname w = Ok o w' /\
     files w' = <[fname := dummy]> (files w) /\
     placeholder w' fname /\
     heap w !! Output.file o = None /\
     heap w' = <[Output.file o := RAMFile.create fname]> (heap w) /\
     RAMFile.blocks_ (RAMFile.create fname) = [] /\
     RAMFile.length (RAMFile.create fname) = 0 /\
     dummy_refs w' = dummy_refs w /\
     Output.hasBuffer o = false /\ Output.pos o = 0).
Proof.
  split.
  - apply createOutput_occupied.
  - intros Hp. eexists _, _. split; [by apply createOutput_absent |].
    simpl. repeat split; try reflexivity.
    + unfold placeholder. simpl. apply lookup_insert_eq.
    + apply fresh_not_allocated.
Qed.

Lemma createOutput_spec_witness :
  (occupied world_writing "f" /\
   createOutput "f" world_writing
   = Throw FileAlreadyExistsException world_writing) /\
  (absent empty_world "f" /\
   exists o w',
     createOutput "f" empty_world = Ok o w' /\
     files w' = <["f" := dummy]> (files empty_world) /\
     placeholder w' "f" /\
     heap empty_world !! Output.file o = None /\
     heap w' = <[Output.file o := RAMFile.create "f"]> (heap empty_world) /\
     RAMFile.blocks_ (RAMFile.create "f") = [] /\
     RAMFile.length (RAMFile.create "f") = 0 /\
     dummy_refs w' = dummy_refs empty_world /\
     Output.hasBuffer o = false /\ Output.pos o = 0).
Proof.
  assert (H1 : occupied world_writing "f") by (eexists; reflexivity).
  assert (H2 : absent empty_world "f") by reflexivity.
  split; split; try assumption.
  - exact (proj1 (createOutput_spec world_writing "f") H1).
  - exact (proj2 (createOutput_spec empty_world "f") H2).
Defined.

(** ** Operations on a name that is absent *)

(** C6. On a name that is not in the table, openInput, fileLength and
    deleteFile each throw FileNotFound, and the state of the program is the
    one before the call. *)
Theorem absent_FileNotFound (w : World) (fname : string) :
  absent w fname ->
  openInput fname w = Throw FileNotFoundException w /\
  fileLength fname w = Throw FileNotFoundException w /\
  deleteFile fname w = Throw FileNotFoundException w.
Proof.
  intros Hp. unfold openInput, fileLength, deleteFile.
  rewrite !bind_get, Hp. repeat split.
Qed.

Lemma absent_FileNotFound_witness :
  absent world_writing "g" /\
  openInput "g" world_writing = Throw FileNotFoundException world_writing /\
  fileLength "g" world_writing = Throw FileNotFoundException world_writing /\
  deleteFile "g" world_writing = Throw FileNotFoundException world_writing.
Proof.
  assert (H : absent world_writing "g") by reflexivity.
  split; [assumption |]. exact (absent_FileNotFound world_writing "g" H).
Defined.

(** ** Locks *)

Lemma obtainLock_occupied (w : World) (fname : string) :
  occupied w fname -> obtainLock fname w = Ok None w.
Proof.
  intros [p Hp]. unfold obtainLock. rewrite bind_get, Hp. reflexivity.
Qed.

Lemma obtainLock_absent (w : World) (fname : string) :
  absent w fname ->
  obtainLock fname w
  = Ok (Some {| lock_name := fname |})
       (set_files (<[fname := dummy]> (files w)) w).
Proof.
  intros Hp. unfold obtainLock. rewrite bind_get, Hp. reflexivity.
Qed.

Lemma release_placeholder (w : World) (fname : string) :
  placeholder w fname ->
  release {| lock_name := fname |} w
  = Ok tt (set_files (delete fname (files w)) w).
Proof.
  intros Hp. unfold release, releaseLock. simpl.
  rewrite bind_get, Hp. reflexivity.
Qed.

Lemma set_files_id (w : World) : set_files (files w) w = w.
Proof. by destruct w. Qed.

(** C8. obtainLock never waits: it is a total function of the state. On a
    name that is occupied, by an outstanding lock or otherwise, it returns no
    handle and changes nothing. On an absent name it returns a handle and
    makes the name a placeholder; until that handle is released a second
    obtainLock on the name returns no handle; releasing the handle removes
    the entry, which gives back the state before the lock was taken, and
    obtainLock then returns a handle again. *)
Theorem obtainLock_exclusive (w : World) (fname : string) :
  (occupied w fname -> obtainLock fname w = Ok None w) /\
  (absent w fname ->
   exists lock w1 w2 lock' w3,
     obtainLock fname w = Ok (Some lock) w1 /\
     placeholder w1 fname /\
     obtainLock fname w1 = Ok None w1 /\
     release lock w1 = Ok tt w2 /\
     absent w2 fname /\ w2 = w /\
     obtainLock fname w2 = Ok (Some lock') w3).
Proof.
  split; [apply obtainLock_occupied |].
  intros Hp. pose proof (obtainLock_absent w fname Hp) as H1.
  set (w1 := set_files (<[fname := dummy]> (files w)) w) in *.
  assert (Hw1 : placeholder w1 fname).
  { unfold placeholder, w1. simpl. apply lookup_insert_eq. }
  assert (Hw2 : set_files (delete fname (files w1)) w1 = w).
  { unfold w1. destruct w as [fs h d]. unfold set_files. simpl in *.
    f_equal. rewrite delete_insert_eq. by apply delete_id. }
  exists {| lock_name := fname |}, w1, w, {| lock_name := fname |}, w1.
  repeat split; try assumption.
  - apply obtainLock_occupied. by eexists.
  - by rewrite (release_placeholder w1 fname Hw1), Hw2.
Qed.

Lemma obtainLock_exclusive_witness :
  (occupied world_writing "f" /\
   obtainLock "f" world_writing = Ok None world_writing) /\
  (absent empty_world "write.lock" /\
   exists lock w1 w2 lock' w3,
     obtainLock "write.lock" empty_world = Ok (Some lock) w1 /\
     placeholder w1 "write.lock" /\
     obtainLock "write.lock" w1 = Ok None w1 /\
     release lock w1 = Ok tt w2 /\
     absent w2 "write.lock" /\ w2 = empty_world /\
     obtainLock "write.lock" w2 = Ok (Some lock') w3).
Proof.
  assert (H1 : occupied world_writing "f") by (eexists; reflexivity).
  assert (H2 : absent empty_world "write.lock") by reflexivity.
  split; split; try assumption.
  - exact (proj1 (obtainLock_exclusive world_writing "f") H1).
  - exact (proj2 (obtainLock_exclusive empty_world "write.lock") H2).
Defined.

(** ** fileLength on a placeholder *)

Lemma fileLength_dummy (w : World) (fname : string) :
  placeholder w fname -> fileLength fname w = Ok 0 w.
Proof.
  intros Hp. unfold fileLength. rewrite bind_get, Hp. reflexivity.
Qed.

(** C9. A name in placeholder state has length 0, the length of the dummy
    file, instead of a FileNotFound failure; this is the state of a name
    right after createOutput and right after obtainLock. *)
Theorem fileLength_placeholder (w : World) (fname : string) :
  (placeholder w fname -> fileLength fname w = Ok 0 w) /\
  (absent w fname ->
   (exists o w', createOutput fname w = Ok o w' /\
                 fileLength fname w' = Ok 0 w') /\
   (exists lock w', obtainLock fname w = Ok (Some lock) w' /\
                    fileLength fname w' = Ok 0 w')).
Proof.
  split; [apply fileLength_dummy |].
  intros Hp. split.
  - eexists _, _. split; [by apply createOutput_absent |].
    apply fileLength_dummy. unfold placeholder. simpl. apply lookup_insert_eq.
  - eexists _, _. split; [by apply obtainLock_absent |].
    apply fileLength_dummy. unfold placeholder. simpl. apply lookup_insert_eq.
Qed.

Lemma fileLength_placeholder_witness :
  (placeholder world_writing "f" /\
   fileLength "f" world_writing = Ok 0 world_writing) /\
  (absent empty_world "f" /\
   (exists o w', createOutput "f" empty_world = Ok o w' /\
                 fileLength "f" w' = Ok 0 w') /\
   (exists lock w', obtainLock "f" empty_world = Ok (Some lock) w' /\
                    fileLength "f" w' = Ok 0 w')).
Proof.
  assert (H1 : placeholder world_writing "f") by reflexivity.
  assert (H2 : absent empty_world "f") by reflexivity.
  split; split; try assumption.
  - exact (proj1 (fileLength_placeholder world_writing "f") H1).
  - exact (proj2 (fileLength_placeholder empty_world "f") H2).
Defined.

(** ** Closing a writer *)

Lemma update_length_spec (o : Output.t) (w : World) (f : RAMFile.t) :
  heap w !! Output.file o = Some f ->
  exists w',
    update_length o w = Ok tt w' /\
    files w' = files w /\ dummy_refs w' = dummy_refs w /\
    heap w' = <[Output.file o :=
                  RAMFile.set_length (Z.max (RAMFile.length f) (Output.pos o)) f]>
                (heap w).
Proof.
  intros Hf. unfold update_length. rewrite (bind_Ok _ _ _ _ _ (load_Some _ _ _ Hf)).
  destruct (Z.ltb_spec (RAMFile.length f) (Output.pos o)).
  - eexists. split; [by apply (store_Some _ f) |]. simpl.
    repeat split. by rewrite Z.max_r by lia.
  - exists w. repeat split. rewrite Z.max_l by lia.
    symmetry. apply insert_id. rewrite Hf. by destruct f.
Qed.

Lemma Output_close_spec (o : Output.t) (w : World) (f : RAMFile.t) :
  heap w !! Output.file o = Some f ->
  placeholder w (RAMFile.name f) ->
  Output_close o w =
    Ok tt {| files := <[RAMFile.name f := heap_file (Output.file o)]> (files w);
             heap := <[Output.file o :=
                         RAMFile.set_refs 1
                           (RAMFile.set_length
                              (Z.max (RAMFile.length f) (Output.pos o)) f)]>
                       (heap w);
             dummy_refs := dummy_refs w |}.
Proof.
  intros Hf Hp. unfold Output_close.
  destruct (update_length_spec o w f Hf) as (w' & Hu & Hfs & Hd & Hh).
  rewrite (bind_Ok _ _ _ _ _ Hu).
  set (f' := RAMFile.set_length _ f) in *.
  assert (Hf' : heap w' !! Output.file o = Some f')
    by (rewrite Hh; apply lookup_insert_eq).
  rewrite (bind_Ok _ _ _ _ _ (load_Some _ _ _ Hf')).
  unfold commit. rewrite bind_get. simpl.
  rewrite bool_decide_true by (by rewrite Hfs).
  unfold store_refs, assign, bind, load, store. simpl. rewrite Hf'.
  simpl. rewrite Hf'. f_equal.
  unfold set_files, set_heap. simpl. rewrite Hfs, Hd, Hh, insert_insert_eq.
  reflexivity.
Qed.

(** ** Opening an empty file *)

Lemma openInput_committed (w : World) (fname : string) (l : nat) (f : RAMFile.t) :
  committed w fname l -> heap w !! l = Some f ->
  openInput fname w =
    if RAMFile.length f =? 0 then Fatal (AssertionFailed "File is empty!")
    else if RAMFile.refs_ f =? INT_MAX then Fatal SignedOverflow
    else Ok (Input.mk None 0 0 0 0 0 l 0
               (u64 ((RAMFile.length f - 1) / kBlockSize + 1))
               (u64 ((RAMFile.length f - 1) mod kBlockSize + 1)))
            (set_heap (<[l := RAMFile.set_refs (RAMFile.refs_ f + 1) f]> (heap w)) w).
Proof.
  intros Hc Hf. unfold openInput. rewrite bind_get, Hc.
  unfold new_RAMFileIndexInput, incr_int, store_refs, bind, load, store.
  rewrite Hf. destruct (RAMFile.length f =? 0); simpl; [done |].
  rewrite Hf. destruct (RAMFile.refs_ f =? INT_MAX); simpl; [done |].
  rewrite Hf. simpl. by rewrite Hf.
Qed.

(** C10. A reader is only ever attached to a committed file of length other
    than 0. A file that is created and closed with nothing written is
    committed with length 0, and openInput on it stops at the assertion of
    the constructor of the reader; no reader that reports eof is returned. *)
Theorem openInput_empty_file (w : World) (fname : string) :
  (forall i w', openInput fname w = Ok i w' ->
     exists f, committed w fname (Input.file i) /\
               heap w !! Input.file i = Some f /\ RAMFile.length f <> 0) /\
  (absent w fname ->
   exists o w1 w2 l f,
     createOutput fname w = Ok o w1 /\
     Output_close o w1 = Ok tt w2 /\
     committed w2 fname l /\ heap w2 !! l = Some f /\ RAMFile.length f = 0 /\
     fileLength fname w2 = Ok 0 w2 /\
     openInput fname w2 = Fatal (AssertionFailed "File is empty!")).
Proof.
  split.
  - intros i w' H. unfold openInput in H. rewrite bind_get in H.
    destruct (files w !! fname) as [[|l]|] eqn:Hl; try discriminate.
    unfold new_RAMFileIndexInput, bind, load in H.
    destruct (heap w !! l) as [f|] eqn:Hf; try discriminate.
    destruct (RAMFile.length f =? 0) eqn:Hlen; simpl in H; try discriminate.
    rewrite Hf in H. unfold incr_int in H.
    destruct (RAMFile.refs_ f =? INT_MAX); simpl in H; try discriminate.
    unfold store_refs, bind, load, store in H. rewrite Hf in H. simpl in H.
    rewrite Hf in H. injection H as <- <-. simpl.
    exists f. repeat split; try assumption. lia.
  - intros Hp. rewrite (createOutput_absent w fname Hp).
    set (l := fresh (dom (heap w))).
    set (w1 := {| files := _; heap := _; dummy_refs := _ |}).
    assert (Hf : heap w1 !! Output.file (Output.create l) = Some (RAMFile.create fname))
      by (simpl; apply lookup_insert_eq).
    assert (Hph : placeholder w1 (RAMFile.name (RAMFile.create fname)))
      by (unfold placeholder; simpl; apply lookup_insert_eq).
    pose proof (Output_close_spec _ _ _ Hf Hph) as Hclose.
    set (w2 := {| files := _; heap := _; dummy_refs := _ |}) in Hclose.
    set (f := RAMFile.set_refs 1 _) in *.
    assert (Hc : committed w2 fname l)
      by (unfold committed; simpl; apply lookup_insert_eq).
    assert (Hh : heap w2 !! l = Some f) by (simpl; apply lookup_insert_eq).
    exists (Output.create l), w1, w2, l, f. repeat split; try assumption.
    + unfold fileLength. rewrite bind_get, Hc. simpl.
      unfold bind, load. by rewrite Hh.
    + by rewrite (openInput_committed w2 fname l f Hc Hh).
Qed.

Lemma openInput_empty_file_witness :
  absent empty_world "f" /\
  exists o w1 w2 l f,
    createOutput "f" empty_world = Ok o w1 /\
    Output_close o w1 = Ok tt w2 /\
    committed w2 "f" l /\ heap w2 !! l = Some f /\ RAMFile.length f = 0 /\
    fileLength "f" w2 = Ok 0 w2 /\
    openInput "f" w2 = Fatal (AssertionFailed "File is empty!").
Proof.
  assert (H : absent empty_world "f") by reflexivity.
  split; [assumption |].
  exact (proj2 (openInput_empty_file empty_world "f") H).
Defined.

(** ** What an operation returns, apart from the state *)

Lemma outcome_unchanged {S A} (o : Outcome A) (s : S) :
  outcome (unchanged o s) = o.
Proof. by destruct o. Qed.

(** ** Readers only look at the blocks and the length of their file *)

Lemma reads_only_outcome {A} (l : nat) (P : A -> Prop) (m : M World A)
    (w w' : World) :
  reads_only l P m -> same_data l w w' -> outcome (m w') = outcome (m w).
Proof.
  intros Hm Hs. destruct (Hm w w' Hs) as (o & -> & -> & _).
  by rewrite !outcome_unchanged.
Qed.

Section reads_only.
Context (l : nat).

Lemma reads_only_ret {A} (P : A -> Prop) (a : A) :
  P a -> reads_only l P (ret a).
Proof.
  intros Ha w w' _. exists (Returns a). repeat split. by intros ? [= <-].
Qed.

Lemma reads_only_throw {A} (P : A -> Prop) (c : Code) :
  reads_only l P (throw c).
Proof. intros w w' _. by exists (Throws c). Qed.

Lemma reads_only_abort {A} (P : A -> Prop) (f : fatal) :
  reads_only l P (abort f).
Proof. intros w w' _. by exists (Stops f). Qed.

Lemma reads_only_assert (b : bool) (msg : string) :
  reads_only l (λ _, b = true) (assert b msg).
Proof. destruct b; [by apply reads_only_ret | apply reads_only_abort]. Qed.

Lemma reads_only_bind {A B} (P : A -> Prop) (Q : B -> Prop)
    (m : M World A) (k : A -> M World B) :
  reads_only l P m -> (forall a, P a -> reads_only l Q (k a)) ->
  reads_only l Q (bind m k).
Proof.
  intros Hm Hk w w' Hs. destruct (Hm w w' Hs) as (o & Hw & Hw' & HP).
  unfold bind. rewrite Hw, Hw'. destruct o as [a| |]; simpl.
  - apply (Hk a (HP a eq_refl) w w' Hs).
  - by eexists (Throws _).
  - by eexists (Stops _).
Qed.

Lemma reads_only_weaken {A} (P Q : A -> Prop) (m : M World A) :
  (forall a, P a -> Q a) -> reads_only l P m -> reads_only l Q m.
Proof.
  intros HPQ Hm w w' Hs. destruct (Hm w w' Hs) as (o & Hw & Hw' & HP).
  exists o. eauto.
Qed.

(** A continuation that uses the blocks and the length of the loaded
    file, not its reference count. *)
Lemma reads_only_load {B} (Q : B -> Prop) (k : RAMFile.t -> M World B) :
  (forall f f', RAMFile.blocks_ f = RAMFile.blocks_ f' ->
                RAMFile.length f = RAMFile.length f' -> k f = k f') ->
  (forall f, reads_only l Q (k f)) ->
  reads_only l Q (bind (load l) k).
Proof.
  intros Hk1 Hk2 w w' Hs. unfold bind, load. pose proof Hs as Hs'.
  unfold same_data in Hs'.
  destruct (heap w !! l) as [f|], (heap w' !! l) as [f'|];
    simpl in Hs'; try discriminate.
  - injection Hs' as Hb Hlen. rewrite (Hk1 f f' Hb Hlen). by apply Hk2.
  - by exists (Stops DanglingPointer).
Qed.

Lemma reads_only_peek (b off : Z) : reads_only l (λ _, True) (peek l b off).
Proof.
  unfold peek. apply reads_only_load.
  - by intros f f' -> _.
  - intros f. destruct (at_ _ b) as [blk|]; [|apply reads_only_abort].
    destruct (at_ blk off) as [[c|]|];
      [by apply reads_only_ret | apply reads_only_abort ..].
Qed.

Lemma reads_only_block_exists (b : Z) :
  reads_only l (λ _, True) (block_exists l b).
Proof.
  unfold block_exists. apply reads_only_load.
  - by intros f f' -> _.
  - intros f. destruct (at_ _ b);
      [by apply reads_only_ret | apply reads_only_abort].
Qed.

Lemma reads_only_get_at (i : Input.t) (k : Z) :
  Input.file i = l -> reads_only l (λ _, True) (get_at i k).
Proof.
  intros Hi. unfold get_at. rewrite Hi.
  destruct (Input.buf i); [apply reads_only_peek | apply reads_only_abort].
Qed.

Lemma reads_only_memcpy_from (i : Input.t) (n : nat) (k : Z) :
  Input.file i = l -> reads_only l (λ _, True) (memcpy_from i k n).
Proof.
  intros Hi. revert k. induction n as [|n IH]; intros k; simpl.
  - by apply reads_only_ret.
  - eapply reads_only_bind; [by apply reads_only_get_at |]. intros c _.
    eapply reads_only_bind; [apply IH |]. intros cs _.
    by apply reads_only_ret.
Qed.

Lemma place_sentinel_file (b : bool) (s : Z) (i : Input.t) :
  Input.file (place_sentinel b s i) = Input.file i.
Proof. by destruct b. Qed.

Lemma reads_only_fillImpl (i : Input.t) :
  Input.file i = l -> reads_only l (on_file l) (fillImpl i).
Proof.
  intros Hi. unfold fillImpl.
  eapply reads_only_bind; [apply reads_only_assert |]. intros _ _.
  destruct (negb (Input.hasBuffer i)).
  - eapply reads_only_bind with (P := λ i', Input.file i' = l).
    + unfold Input_initInternalBuffer. rewrite Hi.
      eapply reads_only_bind; [apply reads_only_block_exists |]. intros _ _.
      apply reads_only_ret. by rewrite place_sentinel_file.
    + intros i' Hi'. by apply reads_only_ret.
  - destruct (_ =? _); [by apply reads_only_ret |]. simpl. rewrite Hi.
    eapply reads_only_bind; [apply reads_only_block_exists |]. intros _ _.
    apply reads_only_ret. unfold on_file. simpl.
    by rewrite place_sentinel_file.
Qed.

Lemma reads_only_eof (i : Input.t) :
  Input.file i = l -> reads_only l (on_file l) (eof i).
Proof.
  intros Hi. unfold eof. destruct (Input.hasPendingData i).
  - by apply reads_only_ret.
  - eapply reads_only_bind; [by apply reads_only_fillImpl |].
    intros [b i'] Hi'. by apply reads_only_ret.
Qed.

Lemma reads_only_readByte (i : Input.t) :
  Input.file i = l -> reads_only l (on_file l) (readByte i).
Proof.
  intros Hi. unfold readByte.
  eapply reads_only_bind; [by apply reads_only_eof |].
  intros [[] i'] Hi'; [apply reads_only_throw |].
  eapply reads_only_bind; [by apply reads_only_get_at |]. intros c _.
  by apply reads_only_ret.
Qed.

Lemma reads_only_read_loop (fuel : nat) (size : Z) (copied : list Z)
    (i : Input.t) :
  Input.file i = l -> reads_only l (on_file l) (read_loop fuel size copied i).
Proof.
  revert copied i. induction fuel as [|fuel IH]; intros copied i Hi; simpl.
  - apply reads_only_abort.
  - destruct (_ <? _); [|by apply reads_only_ret].
    eapply reads_only_bind; [by apply reads_only_eof |].
    intros [[] i'] Hi'; [by apply reads_only_ret |].
    eapply reads_only_bind; [by apply reads_only_memcpy_from |].
    intros bs _. by apply IH.
Qed.

Lemma reads_only_read (size : Z) (i : Input.t) :
  Input.file i = l -> reads_only l (on_file l) (read size i).
Proof.
  intros Hi. unfold read.
  eapply reads_only_bind; [by apply reads_only_read_loop |].
  intros [copied i'] Hi'. by apply reads_only_ret.
Qed.

Lemma reads_only_readInt32 (i : Input.t) :
  Input.file i = l -> reads_only l (on_file l) (readInt32 i).
Proof.
  intros Hi. unfold readInt32.
  eapply reads_only_bind; [by apply reads_only_read |].
  intros [buffer i'] Hi'.
  destruct (_ <? _); [apply reads_only_throw | by apply reads_only_ret].
Qed.

Lemma reads_only_readInt64 (i : Input.t) :
  Input.file i = l -> reads_only l (on_file l) (readInt64 i).
Proof.
  intros Hi. unfold readInt64.
  eapply reads_only_bind; [by apply reads_only_read |].
  intros [buffer i'] Hi'.
  destruct (_ <? _); [apply reads_only_throw | by apply reads_only_ret].
Qed.

Lemma reads_only_readVarint_loop (wrap : Z -> Z) (room : nat)
    (bytes_decoded result : Z) (i : Input.t) :
  Input.file i = l ->
  reads_only l (on_file l) (readVarint_loop wrap room bytes_decoded result i).
Proof.
  revert bytes_decoded result i.
  induction room as [|room IH]; intros bytes_decoded result i Hi; simpl.
  - apply reads_only_throw.
  - eapply reads_only_bind; [by apply reads_only_eof |].
    intros [[] i'] Hi'; [apply reads_only_throw |].
    eapply reads_only_bind; [by apply reads_only_readByte |].
    intros [c i''] Hi''.
    destruct (_ =? _); [by apply reads_only_ret | by apply IH].
Qed.

Lemma reads_only_readString_loop (size : nat) (buff : list Z) (i : Input.t) :
  Input.file i = l -> reads_only l (on_file l) (readString_loop size buff i).
Proof.
  revert buff i. induction size as [|size IH]; intros buff i Hi; simpl.
  - by apply reads_only_ret.
  - eapply reads_only_bind; [by apply reads_only_readByte |].
    intros [c i'] Hi'. by apply IH.
Qed.

Lemma reads_only_readString (i : Input.t) :
  Input.file i = l -> reads_only l (on_file l) (readString i).
Proof.
  intros Hi. unfold readString.
  eapply reads_only_bind; [by apply reads_only_readVarint_loop |].
  intros [size i'] Hi'. by apply reads_only_readString_loop.
Qed.

Lemma reads_only_seek (seek_pos : Z) (i : Input.t) :
  Input.file i = l ->
  reads_only l (λ i', Input.file i' = l) (Input_seek seek_pos i).
Proof.
  intros Hi. unfold Input_seek. rewrite Hi. apply reads_only_load.
  - by intros f f' _ ->.
  - intros f.
    eapply reads_only_bind; [apply reads_only_assert |]. intros _ _.
    simpl. rewrite Hi.
    eapply reads_only_bind; [apply reads_only_block_exists |]. intros _ _.
    apply reads_only_ret. by rewrite place_sentinel_file.
Qed.
End reads_only.

(** ** Reference counts *)

Lemma drop_ref_alive (l : nat) (f : RAMFile.t) (h : gmap nat RAMFile.t) :
  RAMFile.refs_ f <> 1 ->
  drop_ref l f h !! l = Some (RAMFile.set_refs (RAMFile.refs_ f - 1) f).
Proof.
  intros H. unfold drop_ref.
  destruct (Z.eqb_spec (RAMFile.refs_ f - 1) 0); [lia |].
  apply lookup_insert_eq.
Qed.

Lemma drop_ref_freed (l : nat) (f : RAMFile.t) (h : gmap nat RAMFile.t) :
  RAMFile.refs_ f = 1 -> drop_ref l f h !! l = None.
Proof. intros H. unfold drop_ref. rewrite H. apply lookup_delete_eq. Qed.

Lemma unrefReader_spec (w : World) (l : nat) (f : RAMFile.t) :
  heap w !! l = Some f -> RAMFile.refs_ f <> INT_MIN ->
  unrefReader l w = Ok tt (set_heap (drop_ref l f (heap w)) w).
Proof.
  intros Hf Hmin. unfold unrefReader, drop_ref.
  rewrite (bind_Ok _ _ _ _ _ (load_Some _ _ _ Hf)). unfold decr_int.
  destruct (Z.eqb_spec (RAMFile.refs_ f) INT_MIN) as [|_]; [done |].
  rewrite bind_ret. unfold store_refs, bind, load, store. rewrite Hf. simpl.
  rewrite Hf. destruct (Z.eqb_spec (RAMFile.refs_ f - 1) 0) as [H0|H0]; [|done].
  unfold delete_RAMFile, bind, load, assert. simpl.
  rewrite lookup_insert_eq. simpl. rewrite H0. simpl.
  unfold set_heap. simpl. by rewrite delete_insert_eq.
Qed.

Lemma deleteFile_committed (w : World) (fname : string) (l : nat) (f : RAMFile.t) :
  committed w fname l -> heap w !! l = Some f -> RAMFile.refs_ f <> INT_MIN ->
  deleteFile fname w =
    Ok tt {| files := delete fname (files w);
             heap := drop_ref l f (heap w);
             dummy_refs := dummy_refs w |}.
Proof.
  intros Hc Hf Hmin. unfold deleteFile, drop_ref. rewrite bind_get, Hc. simpl.
  unfold erase, decr_int, bind, load. simpl. rewrite Hf.
  destruct (Z.eqb_spec (RAMFile.refs_ f) INT_MIN) as [|_]; [done |].
  unfold ret, store, load. simpl. rewrite Hf. simpl. rewrite Hf.
  destruct (Z.eqb_spec (RAMFile.refs_ f - 1) 0) as [H0|H0]; [|done].
  unfold delete_RAMFile, bind, load, assert. simpl.
  rewrite lookup_insert_eq. simpl. rewrite H0. simpl.
  unfold set_heap. simpl. by rewrite delete_insert_eq.
Qed.

Lemma set_refs_id (f : RAMFile.t) : RAMFile.set_refs (RAMFile.refs_ f) f = f.
Proof. by destruct f. Qed.

Lemma set_refs_set_refs (n m : Z) (f : RAMFile.t) :
  RAMFile.set_refs n (RAMFile.set_refs m f) = RAMFile.set_refs n f.
Proof. reflexivity. Qed.

(** Closing fewer readers than there are references keeps the file. *)
Lemma close_all_spec (l : nat) (rs : list Input.t) (w : World) (f : RAMFile.t) :
  Forall (λ r, Input.file r = l) rs ->
  heap w !! l = Some f ->
  Z.of_nat (List.length rs) < RAMFile.refs_ f ->
  exists w',
    close_all rs w = Ok tt w' /\ files w' = files w /\
    dummy_refs w' = dummy_refs w /\
    heap w' = <[l := RAMFile.set_refs
                       (RAMFile.refs_ f - Z.of_nat (List.length rs)) f]> (heap w).
Proof.
  intros Hrs. revert w f. induction Hrs as [|r rs Hr Hrs IH]; intros w f Hf Hlt.
  - exists w. repeat split. simpl. rewrite Z.sub_0_r, set_refs_id.
    symmetry. by apply insert_id.
  - simpl in *. unfold Input_close. rewrite Hr.
    rewrite (bind_Ok _ _ _ _ _ (unrefReader_spec w l f Hf ltac:(unfold INT_MIN; lia))).
    unfold drop_ref. destruct (Z.eqb_spec (RAMFile.refs_ f - 1) 0); [lia |].
    set (w1 := set_heap _ w).
    destruct (IH w1 (RAMFile.set_refs (RAMFile.refs_ f - 1) f)) as (w' & Hc & Hfs & Hd & Hh).
    { unfold w1. simpl. apply lookup_insert_eq. }
    { simpl. lia. }
    exists w'. rewrite Hc, Hfs, Hd, Hh. repeat split.
    unfold w1. simpl. rewrite insert_insert_eq. f_equal.
    unfold RAMFile.set_refs. simpl. f_equal. lia.
Qed.

(** Closing the reader that holds the last reference frees the file. *)
Lemma close_last_spec (l : nat) (r : Input.t) (w : World) (f : RAMFile.t) :
  Input.file r = l -> heap w !! l = Some f -> RAMFile.refs_ f = 1 ->
  Input_close r w = Ok tt (set_heap (delete l (heap w)) w).
Proof.
  intros Hr Hf H1. unfold Input_close. rewrite Hr.
  rewrite (unrefReader_spec w l f Hf) by (unfold INT_MIN; lia).
  unfold drop_ref. by rewrite H1.
Qed.

Lemma close_all_app (rs rs' : list Input.t) (w : World) :
  close_all (rs ++ rs') w = bind (close_all rs) (λ _, close_all rs') w.
Proof.
  revert w. induction rs as [|r rs IH]; intros w; simpl; [done |].
  unfold bind in *. destruct (Input_close r w); [apply IH | done ..].
Qed.

(** Closing as many readers as there are references frees the file. *)
Lemma close_all_free (l : nat) (rs : list Input.t) (w : World) (f : RAMFile.t) :
  Forall (λ r, Input.file r = l) rs -> rs <> [] ->
  heap w !! l = Some f ->
  RAMFile.refs_ f = Z.of_nat (List.length rs) ->
  exists w', close_all rs w = Ok tt w' /\ files w' = files w /\
             heap w' = delete l (heap w).
Proof.
  intros Hrs Hne Hf Hrefs.
  destruct (exists_last Hne) as (rs' & r & ->).
  apply Forall_app in Hrs as [Hrs' Hr]. apply Forall_inv in Hr.
  rewrite length_app in Hrefs. simpl in Hrefs.
  destruct (close_all_spec l rs' w f Hrs' Hf) as (w1 & Hc & Hfs & _ & Hh); [lia |].
  rewrite close_all_app, (bind_Ok _ _ _ _ _ Hc). simpl.
  erewrite (bind_Ok _ _ _ _ tt); last first.
  { eapply (close_last_spec l r w1 _ Hr).
    - rewrite Hh. apply lookup_insert_eq.
    - simpl. lia. }
  eexists. split; [reflexivity |]. simpl. rewrite Hfs, Hh.
  split; [done |]. by rewrite delete_insert_eq.
Qed.

Lemma same_data_reads_alike (l : nat) (w w' : World) :
  same_data l w w' -> reads_alike l w w'.
Proof.
  intros Hs r Hr. repeat split; intros;
    eapply reads_only_outcome; try eassumption.
  - by apply reads_only_read.
  - by apply reads_only_readByte.
  - by apply reads_only_readInt32.
  - by apply reads_only_readInt64.
  - by apply reads_only_readVarint_loop.
  - by apply reads_only_readVarint_loop.
  - by apply reads_only_readString.
  - by apply reads_only_eof.
  - by apply reads_only_seek.
Qed.

Lemma same_data_set_refs (l : nat) (w w' : World) (f : RAMFile.t) (n : Z) :
  heap w !! l = Some f -> heap w' !! l = Some (RAMFile.set_refs n f) ->
  same_data l w w'.
Proof. unfold same_data. by intros -> ->. Qed.

Lemma two_readers_run :
  two_readers empty_world = Ok (reader_f, reader_f) world_two_readers.
Proof. vm_compute. reflexivity. Qed.

(** ** The example scenario of the specification *)

(** C2. In the example scenario the three values are read back, but eof()
    then returns false: the file has 16 bytes in one block, the reader took
    [last_block] to be 1 instead of 0, so that its sentinel is the end of the
    block and 4080 bytes still count as readable. *)
Theorem example_scenario_eof :
  exists i,
    outcome (example_scenario empty_world)
    = Returns (UINT64_MAX, bytes_of_string "hello", 300, false, i) /\
    Input.pos i = 16 /\ Input.current_block i = 0 /\ Input.last_block i = 1 /\
    Input.getNumReadableBytes i = 4080.
Proof.
  exists (Input.mk (Some 0) 0 16 4096 16 4096 0%nat 0 1 16).
  vm_compute. repeat split.
Qed.

(** ** deleteSegment *)

(** C4. deleteSegment stops at its assertion when a committed file has the
    prefix: the assertion requires the entry to be the dummy file. *)
Theorem deleteSegment_committed :
  outcome (delete_committed_segment empty_world)
  = Stops (AssertionFailed
      "Attempt to delete an uncommited file in exception handler; it is should not be possible with RAMDirectory's invariants, something is broken!").
Proof. vm_compute. reflexivity. Qed.

(** A placeholder with the prefix passes the assertion and is erased; the
    loop then steps from the erased entry. *)
Lemma deleteSegment_placeholder :
  outcome ((let* _ := obtainLock "seg1_lock" in deleteSegment "seg1_")
             empty_world)
  = Stops InvalidatedIterator.
Proof. vm_compute. reflexivity. Qed.

Lemma deleteSegment_loop_no_match (segment : string)
    (entries : list (string * fileptr)) (w : World) :
  Forall (λ e, has_prefix segment e.1 = false) entries ->
  deleteSegment_loop segment entries w = Ok tt w.
Proof.
  induction 1 as [|e entries He _ IH]; simpl; [done |]. by rewrite He.
Qed.

(** With no name that has the prefix, deleteSegment does nothing. *)
Lemma deleteSegment_no_match (segment : string) (w : World) :
  (forall fname, occupied w fname -> has_prefix segment fname = false) ->
  deleteSegment segment w = Ok tt w.
Proof.
  intros H. unfold deleteSegment. rewrite bind_get.
  apply deleteSegment_loop_no_match, Forall_forall.
  intros [fname p] Hin. apply H. exists p.
  by apply elem_of_map_to_list.
Qed.

(** ** Blocks *)

Lemma kBlockSize_eq : kBlockSize = 4096.
Proof. reflexivity. Qed.

Opaque kBlockSize.

Lemma at_lookup {A} (v : list A) (i : Z) :
  0 <= i -> at_ v i = v !! Z.to_nat i.
Proof. intros H. unfold at_. destruct (Z.ltb_spec i 0); [lia | done]. Qed.

Lemma at_Some_lt {A} (v : list A) (i : Z) (x : A) :
  at_ v i = Some x -> 0 <= i < vsize v.
Proof.
  unfold at_, vsize. destruct (Z.ltb_spec i 0); [done |].
  intros Hx%lookup_lt_Some. lia.
Qed.

Lemma vsize_nonneg {A} (v : list A) : 0 <= vsize v.
Proof. unfold vsize. lia. Qed.

Lemma vsize_app {A} (v v' : list A) : vsize (v ++ v') = vsize v + vsize v'.
Proof. unfold vsize. rewrite length_app. lia. Qed.

Lemma new_block_size : vsize new_block = kBlockSize.
Proof. unfold vsize, new_block. rewrite length_replicate, kBlockSize_eq. lia. Qed.

Lemma blit_nil (off : nat) (blk : block) : blit off [] blk = blk.
Proof. unfold blit. simpl. by rewrite Nat.add_0_r, take_drop. Qed.

Lemma blit_cons (off : nat) (c : Z) (cs : list Z) (blk : block) :
  (off < List.length blk)%nat ->
  blit (S off) cs (<[off := Some c]> blk) = blit off (c :: cs) blk.
Proof.
  intros H. unfold blit.
  rewrite (take_S_r _ _ (Some c)) by (by apply list_lookup_insert_eq).
  rewrite take_insert_ge by lia. rewrite drop_insert_lt by lia.
  rewrite <- app_assoc. simpl.
  by replace (off + S (List.length cs))%nat with (S (off + List.length cs)) by lia.
Qed.

Lemma blit_length (off : nat) (cs : list Z) (blk : block) :
  (off + List.length cs <= List.length blk)%nat ->
  List.length (blit off cs blk) = List.length blk.
Proof.
  intros H. unfold blit.
  rewrite !length_app, length_take, length_fmap, length_drop. lia.
Qed.

Lemma blit_lookup_lt (off : nat) (cs : list Z) (blk : block) (j : nat) :
  (j < off)%nat -> (off <= List.length blk)%nat ->
  blit off cs blk !! j = blk !! j.
Proof.
  intros H1 H2. unfold blit.
  rewrite lookup_app_l by (rewrite length_take; lia).
  by rewrite lookup_take_lt.
Qed.

Lemma blit_lookup_in (off : nat) (cs : list Z) (blk : block) (k : nat) (c : Z) :
  (off <= List.length blk)%nat -> cs !! k = Some c ->
  blit off cs blk !! (off + k)%nat = Some (Some c).
Proof.
  intros H1 H2. unfold blit.
  rewrite lookup_app_r by (rewrite length_take; lia).
  rewrite length_take, Nat.min_l by lia.
  replace (off + k - off)%nat with k by lia.
  rewrite lookup_app_l by (rewrite length_fmap; by eapply lookup_lt_Some).
  by rewrite list_lookup_fmap, H2.
Qed.

Lemma blit_insert_front (off : nat) (c : Z) (cs : list Z) (blk : block) :
  (off < List.length blk)%nat ->
  <[off := Some c]> (blit (S off) cs blk) = blit off (c :: cs) blk.
Proof.
  intros H. unfold blit.
  destruct (lookup_lt_is_Some_2 blk off H) as [y Hy].
  rewrite (take_S_r _ _ y Hy), <- app_assoc.
  rewrite insert_app_r_alt by (rewrite length_take; lia).
  rewrite length_take, Nat.min_l, Nat.sub_diag by lia. simpl.
  by replace (off + S (List.length cs))%nat with (S (off + List.length cs)) by lia.
Qed.

(** ** Stores into the current block of a writer *)

Lemma with_block_id (l : nat) (f : RAMFile.t) (cb : nat) (blk : block)
    (w : World) :
  heap w !! l = Some f -> RAMFile.blocks_ f !! cb = Some blk ->
  with_block l f cb blk w = w.
Proof.
  intros Hf Hb. unfold with_block. rewrite list_insert_id by done.
  replace (RAMFile.set_blocks (RAMFile.blocks_ f) f) with f by (by destruct f).
  rewrite insert_id by done. by destruct w.
Qed.

Lemma with_block_with_block (l : nat) (f : RAMFile.t) (cb : nat)
    (b1 b2 : block) (w : World) :
  with_block l (RAMFile.set_blocks (<[cb := b1]> (RAMFile.blocks_ f)) f) cb b2
             (with_block l f cb b1 w)
  = with_block l f cb b2 w.
Proof.
  unfold with_block, set_heap, RAMFile.set_blocks. simpl.
  by rewrite insert_insert_eq, list_insert_insert_eq.
Qed.

Lemma with_block_lookup (l : nat) (f : RAMFile.t) (cb : nat) (blk : block)
    (w : World) :
  heap (with_block l f cb blk w) !! l
  = Some (RAMFile.set_blocks (<[cb := blk]> (RAMFile.blocks_ f)) f).
Proof. unfold with_block. simpl. apply lookup_insert_eq. Qed.

Lemma poke_spec (l : nat) (f : RAMFile.t) (cb off : nat) (blk : block)
    (c : Z) (w : World) :
  heap w !! l = Some f -> RAMFile.blocks_ f !! cb = Some blk ->
  (off < List.length blk)%nat ->
  poke l (Z.of_nat cb) (Z.of_nat off) c w
  = Ok tt (with_block l f cb (<[off := Some c]> blk) w).
Proof.
  intros Hf Hb Hoff. unfold poke.
  rewrite (bind_Ok _ _ _ _ _ (load_Some _ _ _ Hf)).
  rewrite at_lookup, Nat2Z.id, Hb by lia.
  destruct (Z.leb_spec 0 (Z.of_nat off)); [|lia].
  destruct (Z.ltb_spec (Z.of_nat off) (vsize blk)); [|unfold vsize in *; lia].
  simpl. rewrite !Nat2Z.id. by apply (store_Some _ f).
Qed.

Section writer_stores.
Context (o : Output.t) (l : nat) (cb : nat).
Context (Hfile : Output.file o = l) (Hbuf : Output.buf o = Some (Z.of_nat cb)).

Lemma put_at_spec (i : Z) (c : Z) (off : nat) (f : RAMFile.t) (blk : block)
    (w : World) :
  heap w !! l = Some f -> RAMFile.blocks_ f !! cb = Some blk ->
  Output.bufCur o + i = Z.of_nat off -> (off < List.length blk)%nat ->
  put_at o i c w = Ok tt (with_block l f cb (<[off := Some c]> blk) w).
Proof.
  intros Hf Hb Hoff Hlt. unfold put_at. rewrite Hbuf, Hfile, Hoff.
  by apply poke_spec.
Qed.

Lemma memcpy_to_spec (ptr : list Z) (i : Z) (off : nat) (f : RAMFile.t)
    (blk : block) (w : World) :
  heap w !! l = Some f -> RAMFile.blocks_ f !! cb = Some blk ->
  Output.bufCur o + i = Z.of_nat off ->
  (off + List.length ptr <= List.length blk)%nat ->
  memcpy_to o i ptr w = Ok tt (with_block l f cb (blit off ptr blk) w).
Proof.
  revert i off f blk w.
  induction ptr as [|c ptr IH]; intros i off f blk w Hf Hb Hoff Hlen; simpl.
  - by rewrite blit_nil, with_block_id.
  - simpl in Hlen.
    rewrite (bind_Ok _ _ _ _ _ (put_at_spec i c off f blk w Hf Hb Hoff ltac:(lia))).
    rewrite (IH (i + 1) (S off)
               (RAMFile.set_blocks
                  (<[cb := <[off := Some c]> blk]> (RAMFile.blocks_ f)) f)
               (<[off := Some c]> blk)).
    + by rewrite with_block_with_block, blit_cons by lia.
    + apply with_block_lookup.
    + simpl. apply list_lookup_insert_eq. by eapply lookup_lt_Some.
    + lia.
    + rewrite length_insert. lia.
Qed.

(** One store of the switch in copyToBuffer: the bytes after it are in
    place already. *)
Lemma put_front (i : nat) (c : Z) (cs : list Z) (off : nat) (f : RAMFile.t)
    (blk : block) (w : World) :
  (cb < List.length (RAMFile.blocks_ f))%nat ->
  Output.bufCur o = Z.of_nat off ->
  (off + i + 1 + List.length cs <= List.length blk)%nat ->
  put_at o (Z.of_nat i) c (with_block l f cb (blit (S (off + i)) cs blk) w)
  = Ok tt (with_block l f cb (blit (off + i) (c :: cs) blk) w).
Proof.
  intros Hcb Hoff Hlen.
  rewrite (put_at_spec _ c (off + i)
             (RAMFile.set_blocks
                (<[cb := blit (S (off + i)) cs blk]> (RAMFile.blocks_ f)) f)
             (blit (S (off + i)) cs blk)).
  - by rewrite with_block_with_block, blit_insert_front by lia.
  - apply with_block_lookup.
  - simpl. by apply list_lookup_insert_eq.
  - lia.
  - rewrite blit_length; lia.
Qed.

(** Run the next store of the switch with [put_front]. *)
Ltac put_step H :=
  let H' := fresh in
  pose proof H as H';
  change (Z.of_nat 0) with 0 in H'; change (Z.of_nat 1) with 1 in H';
  change (Z.of_nat 2) with 2 in H'; change (Z.of_nat 3) with 3 in H';
  try unfold bind; rewrite H' by (simpl; lia); cbv beta iota; clear H'.

Lemma copyToBuffer_spec (ptr : list Z) (off : nat) (f : RAMFile.t)
    (blk : block) (w : World) :
  heap w !! l = Some f -> RAMFile.blocks_ f !! cb = Some blk ->
  Output.bufCur o = Z.of_nat off ->
  Output.bufEnd o = vsize blk -> vsize blk < 2 ^ 64 ->
  (off + List.length ptr <= List.length blk)%nat ->
  copyToBuffer ptr o w
  = Ok (Output.set_bufCur (Output.bufCur o + vsize ptr) o)
       (with_block l f cb (blit off ptr blk) w).
Proof.
  intros Hf Hb Hoff Hend Hsmall Hlen. unfold copyToBuffer.
  assert (Hav : (vsize ptr <=? Output.available o) = true).
  { apply Z.leb_le. unfold Output.available, u64.
    rewrite Z.mod_small; unfold vsize in *; lia. }
  rewrite Hav, (bind_Ok _ _ _ _ _ (assert_true _ w)).
  assert (Hcb : (cb < List.length (RAMFile.blocks_ f))%nat)
    by (by eapply lookup_lt_Some).
  assert (Hw : forall n, w = with_block l f cb (blit n [] blk) w)
    by (intros n; by rewrite blit_nil, with_block_id).
  pose proof (fun i c cs => put_front i c cs off f blk w Hcb Hoff) as Hput.
  destruct ptr as [|p0 [|p1 [|p2 [|p3 [|p4 ptr]]]]]; simpl in Hlen.
  - rewrite bind_ret, blit_nil, with_block_id by done. reflexivity.
  - rewrite (Hw (S (off + 0))) at 1.
    put_step (Hput 0%nat p0 []).
    by rewrite Nat.add_0_r.
  - rewrite (Hw (S (off + 1))) at 1.
    put_step (Hput 1%nat p1 []).
    replace (off + 1)%nat with (S (off + 0)) by lia.
    put_step (Hput 0%nat p0 [p1]).
    by rewrite Nat.add_0_r.
  - rewrite (Hw (S (off + 2))) at 1.
    put_step (Hput 2%nat p2 []).
    replace (off + 2)%nat with (S (off + 1)) by lia.
    put_step (Hput 1%nat p1 [p2]).
    replace (off + 1)%nat with (S (off + 0)) by lia.
    put_step (Hput 0%nat p0 [p1; p2]).
    by rewrite Nat.add_0_r.
  - rewrite (Hw (S (off + 3))) at 1.
    put_step (Hput 3%nat p3 []).
    replace (off + 3)%nat with (S (off + 2)) by lia.
    put_step (Hput 2%nat p2 [p3]).
    replace (off + 2)%nat with (S (off + 1)) by lia.
    put_step (Hput 1%nat p1 [p2; p3]).
    replace (off + 1)%nat with (S (off + 0)) by lia.
    put_step (Hput 0%nat p0 [p1; p2; p3]).
    by rewrite Nat.add_0_r.
  - erewrite (bind_Ok _ _ _ _ tt); [reflexivity |].
    apply memcpy_to_spec; try done; simpl; lia.
Qed.
End writer_stores.

(** ** The contents of a file *)

Ltac blocks_lia :=
  rewrite ?kBlockSize_eq in *; Z.to_euclidean_division_equations; lia.

Lemma block_split (cb r : Z) :
  0 <= r < kBlockSize ->
  (cb * kBlockSize + r) / kBlockSize = cb /\
  (cb * kBlockSize + r) mod kBlockSize = r.
Proof. intros H. split; blocks_lia. Qed.

Lemma cell_at (f : RAMFile.t) (cb : nat) (r : nat) (blk : block) :
  RAMFile.blocks_ f !! cb = Some blk -> Z.of_nat r < kBlockSize ->
  cell f (Z.of_nat cb * kBlockSize + Z.of_nat r) = blk !! r.
Proof.
  intros Hb Hr. unfold cell.
  destruct (block_split (Z.of_nat cb) (Z.of_nat r)) as [-> ->]; [lia |].
  rewrite at_lookup, Nat2Z.id, Hb by lia.
  by rewrite at_lookup, Nat2Z.id by lia.
Qed.

Lemma holds_nil (f : RAMFile.t) : holds f [].
Proof. by intros q c. Qed.

Lemma holds_alloc (f : RAMFile.t) (data : list Z) :
  holds f data -> holds (RAMFile.alloc f) data.
Proof.
  intros H q c Hq. specialize (H q c Hq). unfold cell in *. simpl.
  destruct (at_ (RAMFile.blocks_ f) _) as [blk|] eqn:Hb; [|done].
  apply at_Some_lt in Hb as Hlt. rewrite at_lookup in Hb |- * by lia.
  by rewrite (lookup_app_l_Some _ _ _ _ Hb).
Qed.

(** Storing [ptr] behind the bytes that are there adds [ptr] to them. *)
Lemma holds_blit (f : RAMFile.t) (cb off : nat) (blk : block)
    (written ptr : list Z) :
  holds f written -> RAMFile.blocks_ f !! cb = Some blk ->
  vsize blk = kBlockSize ->
  vsize written = Z.of_nat cb * kBlockSize + Z.of_nat off ->
  (off + List.length ptr <= List.length blk)%nat ->
  holds (RAMFile.set_blocks (<[cb := blit off ptr blk]> (RAMFile.blocks_ f)) f)
        (written ++ ptr).
Proof.
  intros Hh Hb Hsize Hpos Hlen q c Hq. unfold vsize in *.
  assert (Hcb : (cb < List.length (RAMFile.blocks_ f))%nat)
    by (by eapply lookup_lt_Some).
  apply lookup_app_Some in Hq as [Hq | [Hge Hq]].
  - specialize (Hh q c Hq). apply lookup_lt_Some in Hq as Hlt.
    unfold cell in *. simpl.
    destruct (at_ (RAMFile.blocks_ f) _) as [blk'|] eqn:Hb'; [|done].
    apply at_Some_lt in Hb' as Hlt'. rewrite at_lookup in Hb' |- * by lia.
    destruct (decide (Z.to_nat (Z.of_nat q / kBlockSize) = cb)) as [Heq|Hne].
    + rewrite Heq in *. rewrite list_lookup_insert_eq by done.
      assert (blk' = blk) as -> by congruence.
      rewrite at_lookup in Hh |- * by blocks_lia.
      rewrite blit_lookup_lt; [done | blocks_lia | lia].
    + by rewrite list_lookup_insert_ne, Hb' by done.
  - apply lookup_lt_Some in Hq as Hlt.
    replace (Z.of_nat q)
      with (Z.of_nat cb * kBlockSize
            + Z.of_nat (off + (q - List.length written))) by lia.
    rewrite (cell_at _ cb _ (blit off ptr blk)).
    + apply blit_lookup_in; [lia | done].
    + simpl. by apply list_lookup_insert_eq.
    + lia.
Qed.

(** ** The writer while it writes a file from its start *)

Lemma u64_small (x : Z) : 0 <= x < 2 ^ 64 -> u64 x = x.
Proof. intros H. unfold u64. by apply Z.mod_small. Qed.

Lemma same_file_refl (f : RAMFile.t) : same_file f f.
Proof. by split. Qed.

Lemma same_file_trans (f f' f'' : RAMFile.t) :
  same_file f f' -> same_file f' f'' -> same_file f f''.
Proof. intros [? ?] [? ?]. split; congruence. Qed.

Lemma with_file_with_file (l : nat) (f f' : RAMFile.t) (w : World) :
  with_file l f' (with_file l f w) = with_file l f' w.
Proof. unfold with_file, set_heap. simpl. by rewrite insert_insert_eq. Qed.

Lemma with_file_id (l : nat) (f : RAMFile.t) (w : World) :
  heap w !! l = Some f -> with_file l f w = w.
Proof. intros H. unfold with_file. rewrite insert_id by done. by destruct w. Qed.

Lemma with_file_lookup (l : nat) (f : RAMFile.t) (w : World) :
  heap (with_file l f w) !! l = Some f.
Proof. apply lookup_insert_eq. Qed.

Lemma created_writing (l : nat) (fname : string) :
  writing (Output.create l) (RAMFile.create fname) [].
Proof. split; simpl; [constructor | apply holds_nil | done ..]. Qed.

Lemma block_exists_Some (l : nat) (b : Z) (f : RAMFile.t) (w : World)
    (blk : block) :
  heap w !! l = Some f -> at_ (RAMFile.blocks_ f) b = Some blk ->
  block_exists l b w = Ok tt w.
Proof.
  intros Hf Hb. unfold block_exists.
  rewrite (bind_Ok _ _ _ _ _ (load_Some _ _ _ Hf)). by rewrite Hb.
Qed.

Section writer.
Context (l : nat).

Lemma init_spec (o : Output.t) (f : RAMFile.t) (w : World) :
  Output.file o = l -> heap w !! l = Some f ->
  writing o f [] -> Output.buf o = None ->
  exists o' f',
    Output_initInternalBuffer o w = Ok o' (with_file l f' w) /\
    writing o' f' [] /\ Output.buf o' = Some 0 /\ Output.bufCur o' = 0 /\
    Output.file o' = l /\ same_file f f'.
Proof.
  intros Hl Hf [Hbl Hh Hpos Hlen Hbuf] Hnone. rewrite Hnone in Hbuf.
  destruct Hbuf as (Hnil & Hcur & Hend & Hstart & Hcb & Hpos0).
  exists (Output.set_bufCur 0 (Output.set 0 kBlockSize o)), (RAMFile.alloc f).
  split_and!; try done.
  - unfold Output_initInternalBuffer. rewrite Hl.
    rewrite (bind_Ok _ _ _ _ _ (load_Some _ _ _ Hf)).
    rewrite (bind_Ok _ _ _ _ _ (store_Some _ _ (RAMFile.alloc f) _ Hf)).
    erewrite (bind_Ok _ _ _ _ tt); [reflexivity |].
    eapply (block_exists_Some _ _ (RAMFile.alloc f) _ new_block).
    + apply lookup_insert_eq.
    + simpl. by rewrite Hnil.
  - split; simpl; try done.
    + rewrite Hnil. simpl. constructor; [apply new_block_size | constructor].
    + rewrite Hnil. simpl. pose proof kBlockSize_eq. split_and!; try done; lia.
Qed.

Lemma flush_full_spec (o : Output.t) (f : RAMFile.t) (written : list Z)
    (w : World) :
  Output.file o = l -> heap w !! l = Some f ->
  writing o f written -> is_Some (Output.buf o) ->
  Output.bufCur o = kBlockSize -> Output.pos o < 2 ^ 64 ->
  exists o' f',
    flushNonEmpty o w = Ok o' (with_file l f' w) /\
    writing o' f' written /\ is_Some (Output.buf o') /\ Output.bufCur o' = 0 /\
    Output.file o' = l /\ same_file f f'.
Proof.
  intros Hl Hf [Hbl Hh Hpos Hlen Hbuf] [cb Hcb] Hfull Hsmall.
  rewrite Hcb in Hbuf.
  destruct Hbuf as (Hcb0 & Hcur & Hstart & Hend & Hrange & Hsize & Hpos').
  pose proof kBlockSize_eq as HB.
  assert (Hcb1 : cb + 1 < 2 ^ 64) by (rewrite HB in *; lia).
  set (f1 := RAMFile.set_length (Z.max (RAMFile.length f) (Output.pos o)) f).
  set (o' := Output.mk (Some (cb + 1)) 0 0 kBlockSize (Output.pos o) l (cb + 1)).
  exists o', (RAMFile.alloc f1). unfold flushNonEmpty.
  assert (Hne : negb (Output.getNumWritableBytes o =? 0) = true).
  { unfold Output.getNumWritableBytes. rewrite u64_small by lia.
    apply negb_true_iff, Z.eqb_neq. lia. }
  rewrite Hne, (bind_Ok _ _ _ _ _ (assert_true _ w)).
  assert (Hw : writeImpl o w
               = Ok (Output.set (cb + 1) kBlockSize
                       (Output.set_current_block (cb + 1) o))
                    (with_file l (RAMFile.alloc f1) w)).
  { unfold writeImpl.
    destruct (update_length_spec o w f) as (w1 & Hu & Hfs & Hd & Hh1);
      [by rewrite Hl |].
    rewrite (bind_Ok _ _ _ _ _ Hu), Hfull, Hend, Z.eqb_refl, Hl.
    assert (Hf1 : heap w1 !! l = Some f1)
      by (rewrite Hh1, Hl; apply lookup_insert_eq).
    rewrite (bind_Ok _ _ _ _ _ (load_Some _ _ _ Hf1)). simpl.
    rewrite Hcur, Hsize. replace (cb + 1 - 1) with cb by lia.
    rewrite u64_small, Z.eqb_refl by lia.
    rewrite (bind_Ok _ _ _ _ _ (store_Some _ _ (RAMFile.alloc f1) _ Hf1)).
    rewrite u64_small by lia. simpl. rewrite Hl.
    erewrite (bind_Ok _ _ _ _ tt); last first.
    { eapply (block_exists_Some _ _ (RAMFile.alloc f1) _ new_block).
      - apply lookup_insert_eq.
      - rewrite at_lookup by lia. simpl.
        rewrite lookup_app_r by (unfold vsize in *; lia).
        by replace (Z.to_nat (cb + 1) - List.length (RAMFile.blocks_ f))%nat
          with 0%nat by (unfold vsize in *; lia). }
    unfold ret. f_equal. unfold with_file, set_heap. simpl.
    by rewrite Hfs, Hd, Hh1, Hl, insert_insert_eq. }
  rewrite (bind_Ok _ _ _ _ _ Hw). split_and!; try done.
  - unfold ret, o', Output.set_bufCur, Output.set, Output.set_current_block.
    simpl. by rewrite Hl.
  - split; simpl; try done.
    + apply Forall_app. split; [done |].
      constructor; [apply new_block_size | constructor].
    + apply holds_alloc. intros q c Hq. apply (Hh q c Hq).
    + lia.
    + rewrite vsize_app. unfold vsize at 2. simpl. split_and!; try done; lia.
Qed.

Lemma copy_spec (o : Output.t) (f : RAMFile.t) (written ptr : list Z)
    (w : World) :
  Output.file o = l -> heap w !! l = Some f ->
  writing o f written -> is_Some (Output.buf o) ->
  Output.bufCur o + vsize ptr <= kBlockSize ->
  vsize written + vsize ptr < 2 ^ 64 ->
  exists f',
    copyToBuffer ptr o w
    = Ok (Output.set_bufCur (Output.bufCur o + vsize ptr) o) (with_file l f' w) /\
    writing (Output.set_pos (u64 (Output.pos o + vsize ptr))
               (Output.set_bufCur (Output.bufCur o + vsize ptr) o))
            f' (written ++ ptr) /\
    same_file f f'.
Proof.
  intros Hl Hf [Hbl Hh Hpos Hlen Hbuf] [cb Hcb] Hfit Hsmall.
  rewrite Hcb in Hbuf.
  destruct Hbuf as (Hcb0 & Hcur & Hstart & Hend & Hrange & Hsize & Hpos').
  pose proof kBlockSize_eq as HB. pose proof (vsize_nonneg ptr) as Hptr.
  assert (at_ (RAMFile.blocks_ f) cb = Some (default [] (at_ (RAMFile.blocks_ f) cb)))
    as Hb.
  { rewrite at_lookup by lia.
    destruct (lookup_lt_is_Some_2 (RAMFile.blocks_ f) (Z.to_nat cb)) as [b ->];
      [unfold vsize in *; lia | done]. }
  set (blk := default [] _) in Hb. rewrite at_lookup in Hb by lia.
  assert (Hblk : vsize blk = kBlockSize).
  { eapply (Forall_lookup_1 _ _ _ _ Hbl Hb). }
  set (off := Z.to_nat (Output.bufCur o)).
  exists (RAMFile.set_blocks
            (<[Z.to_nat cb := blit off ptr blk]> (RAMFile.blocks_ f)) f).
  split_and!.
  - apply (copyToBuffer_spec o l (Z.to_nat cb)); try done.
    + rewrite Hcb. f_equal. lia.
    + unfold off. lia.
    + congruence.
    + lia.
    + unfold vsize, off in *. lia.
  - split; simpl.
    + apply Forall_insert; [done |]. unfold vsize.
      rewrite blit_length; unfold vsize, off in *; lia.
    + apply holds_blit; try done; unfold vsize, off in *; lia.
    + rewrite u64_small, vsize_app; lia.
    + rewrite u64_small; lia.
    + rewrite Hcb. unfold vsize in *. rewrite length_insert.
      rewrite u64_small by lia. split_and!; try done; lia.
  - by split.
Qed.

Lemma copy_nil_spec (o : Output.t) (w : World) :
  copyToBuffer [] o w = Ok (Output.set_bufCur (Output.bufCur o + 0) o) w.
Proof.
  unfold copyToBuffer. simpl.
  assert (H : (vsize (@nil Z) <=? Output.available o) = true).
  { apply Z.leb_le. unfold Output.available, u64, vsize. simpl.
    apply Z.mod_pos_bound. lia. }
  by rewrite H.
Qed.

Lemma write_rec_spec (fuel : nat) (ptr : list Z) (o : Output.t)
    (f : RAMFile.t) (written : list Z) (w : World) :
  Output.file o = l -> heap w !! l = Some f ->
  writing o f written ->
  vsize written + vsize ptr < 2 ^ 64 ->
  (write_calls ptr o < fuel)%nat ->
  exists o' f',
    write_rec fuel ptr o w = Ok o' (with_file l f' w) /\
    writing o' f' (written ++ ptr) /\ Output.file o' = l /\ same_file f f'.
Proof.
  revert ptr o f written w.
  induction fuel as [|fuel IH]; intros ptr o f written w Hl Hf Hw Hsmall Hfuel;
    [lia |].
  pose proof kBlockSize_eq as HB. pose proof (vsize_nonneg ptr) as Hptr.
  pose proof (vsize_nonneg written) as Hwritten.
  pose proof Hw as [Hbl Hh Hpos Hlen Hbuf]. simpl.
  unfold write_calls in Hfuel.
  destruct (Output.buf o) as [cb|] eqn:Hcb.
  - destruct Hbuf as (Hcb0 & Hcur & Hstart & Hend & Hrange & Hsize & Hpos').
    assert (Hav : Output.available o = kBlockSize - Output.bufCur o).
    { unfold Output.available. rewrite Hend, u64_small; lia. }
    rewrite Hav. destruct (Z.ltb_spec (kBlockSize - Output.bufCur o) (vsize ptr))
      as [Hlt|Hge].
    + unfold Output.hasBuffer. rewrite Hcb, bool_decide_true by done. simpl.
      set (avail := Z.to_nat (kBlockSize - Output.bufCur o)).
      assert (Htake : vsize (take avail ptr) = kBlockSize - Output.bufCur o).
      { unfold vsize, avail in *. rewrite length_take. lia. }
      destruct (copy_spec o f written (take avail ptr) w Hl Hf Hw)
        as (f1 & Hcopy & Hw1 & Hs1); [by rewrite Hcb | lia | lia |].
      rewrite (bind_Ok _ _ _ _ _ Hcopy). rewrite Htake in *.
      set (o1 := Output.set_pos _ _) in *.
      destruct (flush_full_spec o1 f1 (written ++ take avail ptr) (with_file l f1 w))
        as (o2 & f2 & Hflush & Hw2 & Hbuf2 & Hcur2 & Hl2 & Hs2);
        [done | apply with_file_lookup | done
        | unfold o1; simpl; by rewrite Hcb | simpl; lia
        | simpl; rewrite u64_small; lia |].
      rewrite (bind_Ok _ _ _ _ _ Hflush), with_file_with_file.
      destruct (IH (drop avail ptr) o2 f2 (written ++ take avail ptr)
                  (with_file l f2 w))
        as (o3 & f3 & Hrec & Hw3 & Hl3 & Hs3);
        [done | apply with_file_lookup | done | | |].
      { rewrite vsize_app, Htake. unfold vsize in *. rewrite length_drop. lia. }
      { unfold write_calls in *. destruct Hbuf2 as [cb2 ->]. rewrite Hcur2.
        rewrite length_drop. unfold avail.
        destruct (Z.eqb_spec 0 kBlockSize); [lia |].
        destruct (Z.eqb_spec (Output.bufCur o) kBlockSize); unfold vsize in *; lia. }
      rewrite Hrec, with_file_with_file. exists o3, f3. split_and!; try done.
      * by rewrite <- app_assoc, take_drop in Hw3.
      * eauto using same_file_trans.
    + destruct (copy_spec o f written ptr w Hl Hf Hw) as (f1 & Hcopy & Hw1 & Hs1);
        [by rewrite Hcb | lia | lia |].
      rewrite (bind_Ok _ _ _ _ _ Hcopy). by eexists _, f1.
  - destruct Hbuf as (Hnil & Hcur & Hend & Hstart & Hcb0 & Hpos0).
    assert (Hav : Output.available o = 0).
    { unfold Output.available. by rewrite Hend, Hcur. }
    assert (written = []) as ->.
    { destruct written; [done |]. unfold vsize in *. simpl in *. lia. }
    rewrite Hav. destruct (Z.ltb_spec 0 (vsize ptr)) as [Hlt|Hge].
    + unfold Output.hasBuffer. rewrite Hcb, bool_decide_false by (by intros [? ?]).
      simpl.
      destruct (init_spec o f w Hl Hf Hw Hcb)
        as (o1 & f1 & Hinit & Hw1 & Hbuf1 & Hcur1 & Hl1 & Hs1).
      rewrite (bind_Ok _ _ _ _ _ Hinit).
      destruct (IH ptr o1 f1 [] (with_file l f1 w))
        as (o2 & f2 & Hrec & Hw2 & Hl2 & Hs2);
        [done | apply with_file_lookup | done | done | |].
      { unfold write_calls in *. rewrite Hbuf1, Hcur1.
        destruct (Z.eqb_spec 0 kBlockSize); lia. }
      rewrite Hrec, with_file_with_file. exists o2, f2. split_and!; try done.
      eauto using same_file_trans.
    + assert (ptr = []) as ->.
      { destruct ptr; [done |]. unfold vsize in *. simpl in *. lia. }
      rewrite (bind_Ok _ _ _ _ _ (copy_nil_spec o w)).
      eexists _, f. split_and!; [by rewrite with_file_id | | done | done].
      simpl. split; simpl; try done.
      * rewrite Hpos0. by rewrite u64_small by (unfold vsize; simpl; lia).
      * rewrite Hpos0, u64_small by (unfold vsize; simpl; lia).
        unfold vsize. simpl. lia.
      * rewrite Hcb, Hpos0, Hcur.
        rewrite u64_small by (unfold vsize; simpl; lia). by split_and!.
Qed.
End writer.

(** ** The reader of a committed file *)

Lemma holds_block (f : RAMFile.t) (data : list Z) (q : Z) :
  holds f data -> 0 <= q < vsize data ->
  exists blk, at_ (RAMFile.blocks_ f) (q / kBlockSize) = Some blk.
Proof.
  intros Hh Hq. unfold vsize in Hq.
  destruct (lookup_lt_is_Some_2 data (Z.to_nat q)) as [c Hc]; [lia |].
  specialize (Hh _ _ Hc). rewrite Z2Nat.id in Hh by lia. unfold cell in Hh.
  destruct (at_ _ (q / kBlockSize)) as [blk|]; [by exists blk | done].
Qed.

Section reader.
Context (l : nat) (f : RAMFile.t) (data : list Z) (w : World).
Context (Hf : heap w !! l = Some f) (Hdata : stored f data).

Lemma get_at_spec (i : Input.t) (q k : Z) (c : Z) :
  Input.file i = l -> reading i f q -> is_Some (Input.buf i) ->
  0 <= k -> Input.bufCur i + k < kBlockSize ->
  data !! Z.to_nat (q + k) = Some c ->
  get_at i k w = Ok c w.
Proof.
  intros Hl [Hlast Hbuf] [cb Hcb] Hk Hfit Hc. rewrite Hcb in Hbuf.
  destruct Hbuf as (Hcb0 & Hcur & Hlt & Hstart & Hend & Hsen & Hrange & Hq).
  pose proof (stored_holds _ _ Hdata _ _ Hc) as Hcell.
  rewrite Z2Nat.id in Hcell by blocks_lia. unfold cell in Hcell.
  replace (q + k) with (cb * kBlockSize + (Input.bufCur i + k)) in Hcell by lia.
  destruct (block_split cb (Input.bufCur i + k)) as [Hd Hm]; [lia |].
  rewrite Hd, Hm in Hcell.
  unfold get_at, peek. rewrite Hcb, Hl.
  rewrite (bind_Ok _ _ _ _ _ (load_Some _ _ _ Hf)).
  destruct (at_ (RAMFile.blocks_ f) cb) as [blk|]; [|done].
  by rewrite Hcell.
Qed.

Lemma memcpy_from_spec (i : Input.t) (q : Z) (n : nat) (k : Z) :
  Input.file i = l -> reading i f q -> is_Some (Input.buf i) ->
  0 <= k -> Input.bufCur i + k + Z.of_nat n <= kBlockSize ->
  0 <= q -> q + k + Z.of_nat n <= vsize data ->
  memcpy_from i k n w = Ok (take n (drop (Z.to_nat (q + k)) data)) w.
Proof.
  intros Hl Hr Hbuf. revert k.
  induction n as [|n IH]; intros k Hk Hfit Hq Hin; simpl; [done |].
  destruct (lookup_lt_is_Some_2 data (Z.to_nat (q + k))) as [c Hc];
    [unfold vsize in *; lia |].
  rewrite (bind_Ok _ _ _ _ _ (get_at_spec i q k c Hl Hr Hbuf Hk ltac:(lia) Hc)).
  rewrite (bind_Ok _ _ _ _ _ (IH (k + 1) ltac:(lia) ltac:(lia) Hq ltac:(lia))).
  unfold ret. do 2 f_equal.
  rewrite (drop_S _ _ _ Hc). simpl. do 3 f_equal. lia.
Qed.

(** As long as the position is inside the data, eof() answers false and
    leaves the reader with bytes in its buffer. *)
Lemma eof_spec (i : Input.t) (q : Z) :
  Input.file i = l -> reading i f q -> 0 <= q < vsize data ->
  exists i',
    eof i w = Ok (false, i') w /\ reading i' f q /\ Input.file i' = l /\
    is_Some (Input.buf i') /\ Input.bufCur i' < kBlockSize /\
    Input.pos i' = Input.pos i.
Proof.
  intros Hl Hr Hq. pose proof Hr as [Hlast Hbuf].
  pose proof kBlockSize_eq as HB.
  pose proof (stored_length _ _ Hdata) as Hlen.
  pose proof (stored_small _ _ Hdata) as Hsmall.
  unfold eof, Input.hasPendingData, Input.getNumReadableBytes.
  destruct (Input.buf i) as [cb|] eqn:Hcb.
  - destruct Hbuf as (Hcb0 & Hcur & Hlt & Hstart & Hend & Hsen & Hrange & Hq').
    rewrite Hsen, u64_small by lia.
    destruct (Z.ltb_spec 0 (kBlockSize - Input.bufCur i)) as [Hpend|Hfull].
    + exists i. rewrite Hcb. split_and!; try done; lia.
    + assert (Hcur' : Input.bufCur i = kBlockSize) by lia.
      assert (Hcb1 : q / kBlockSize = cb + 1) by blocks_lia.
      destruct (holds_block f data q (stored_holds _ _ Hdata) Hq) as [blk Hblk].
      rewrite Hcb1 in Hblk.
      assert (Hnl : (cb + 1 =? Input.last_block i) = false).
      { apply Z.eqb_neq. rewrite Hlast. blocks_lia. }
      unfold fillImpl, Input.hasPendingData, Input.getNumReadableBytes,
        Input.hasBuffer, bind, assert, ret. simpl.
      rewrite Hsen, Hcb, Hcur, Hl, bool_decide_true by done.
      rewrite !u64_small by blocks_lia.
      destruct (Z.ltb_spec 0 (kBlockSize - Input.bufCur i)); [lia |].
      destruct (Z.eqb_spec cb (Input.last_block i)); [lia |]. simpl.
      rewrite (block_exists_Some _ _ _ _ _ Hf Hblk), Hnl. simpl.
      eexists. split; [reflexivity |]. simpl. split_and!; try done; try lia.
      split; simpl; [done |]. split_and!; try done; try lia.
      all: rewrite Hlast; blocks_lia.
  - destruct Hbuf as (Hq0 & Hcur & Hsen & Hcb0).
    destruct (holds_block f data q (stored_holds _ _ Hdata) Hq) as [blk Hblk].
    assert (Hq1 : q / kBlockSize = 0) by blocks_lia. rewrite Hq1 in Hblk.
    assert (Hnl : (Input.last_block i =? 0) = false).
    { apply Z.eqb_neq. rewrite Hlast. blocks_lia. }
    unfold fillImpl, Input.hasPendingData, Input.getNumReadableBytes,
      Input.hasBuffer, Input_initInternalBuffer, bind, assert, ret. simpl.
    rewrite Hsen, Hcur, Hcb, Hl, bool_decide_false by (by intros [? ?]).
    simpl. rewrite (block_exists_Some _ _ _ _ _ Hf Hblk), Hnl. simpl.
    eexists. split; [reflexivity |]. simpl. split_and!; try done; try lia.
    split; simpl; [done |]. split_and!; try done; try lia.
    all: rewrite Hlast; blocks_lia.
Qed.

Lemma read_loop_spec (fuel : nat) (size : Z) (copied : list Z)
    (i : Input.t) (q : Z) :
  Input.file i = l -> reading i f q -> 0 <= q ->
  vsize copied <= size -> q + (size - vsize copied) <= vsize data ->
  (Z.to_nat (size - vsize copied) < fuel)%nat ->
  exists i',
    read_loop fuel size copied i w
    = Ok (copied ++ take (Z.to_nat (size - vsize copied))
                         (drop (Z.to_nat q) data), i') w /\
    reading i' f (q + (size - vsize copied)) /\ Input.file i' = l /\
    Input.pos i' = Input.pos i.
Proof.
  revert copied i q.
  induction fuel as [|fuel IH]; intros copied i q Hl Hr Hq Hle Hin Hfuel; [lia |].
  pose proof kBlockSize_eq as HB. simpl.
  destruct (Z.ltb_spec (vsize copied) size) as [Hlt|Hge].
  - destruct (eof_spec i q Hl Hr ltac:(lia))
      as (i1 & Heof & Hr1 & Hl1 & Hbuf1 & Hcur1 & Hpos1).
    rewrite (bind_Ok _ _ _ _ _ Heof). simpl.
    pose proof Hr1 as [Hlast1 Hb1]. destruct Hbuf1 as [cb Hcb].
    rewrite Hcb in Hb1.
    destruct Hb1 as (Hcb0 & Hcur & Hltb & Hstart & Hend & Hsen & Hrange & Hq').
    unfold Input.getNumReadableBytes. rewrite Hsen, u64_small by lia.
    set (n := Z.min (kBlockSize - Input.bufCur i1) (size - vsize copied)).
    assert (Hn : 0 < n <= size - vsize copied) by lia.
    assert (Hn' : Input.bufCur i1 + n <= kBlockSize) by lia.
    rewrite (bind_Ok _ _ _ _ _
      (memcpy_from_spec i1 q (Z.to_nat n) 0 Hl1 Hr1 ltac:(by rewrite Hcb)
         ltac:(lia) ltac:(lia) Hq ltac:(lia))).
    rewrite Z.add_0_r.
    set (bs := take (Z.to_nat n) (drop (Z.to_nat q) data)).
    assert (Hbs : vsize bs = n).
    { unfold bs, vsize in *. rewrite length_take, length_drop. lia. }
    destruct (IH (copied ++ bs) (Input.set_bufCur (Input.bufCur i1 + n) i1) (q + n))
      as (i2 & Hrec & Hr2 & Hl2 & Hpos2); try done.
    + split; simpl; [done |]. rewrite Hcb. split_and!; try done; lia.
    + lia.
    + rewrite vsize_app. lia.
    + rewrite vsize_app. lia.
    + rewrite vsize_app. lia.
    + rewrite Hrec. exists i2. rewrite vsize_app, Hbs in *. split_and!.
      * do 2 f_equal. rewrite <- app_assoc. f_equal. unfold bs.
        replace (Z.to_nat (q + n)) with (Z.to_nat q + Z.to_nat n)%nat by lia.
        rewrite <- drop_drop, take_take_drop. f_equal. lia.
      * by replace (q + (size - vsize copied))
          with (q + n + (size - (vsize copied + n))) by lia.
      * done.
      * simpl in Hpos2. congruence.
  - exists i. replace (size - vsize copied) with 0 by lia.
    rewrite app_nil_r, Z.add_0_r. by split_and!.
Qed.

Lemma read_spec (size : Z) (i : Input.t) (q : Z) :
  Input.file i = l -> reading i f q -> 0 <= q -> 0 <= size ->
  q + size <= vsize data ->
  exists i',
    read size i w
    = Ok (take (Z.to_nat size) (drop (Z.to_nat q) data), i') w /\
    reading i' f (q + size) /\ Input.file i' = l /\
    Input.pos i' = u64 (Input.pos i + size).
Proof.
  intros Hl Hr Hq Hsize Hin. unfold read.
  assert (H0 : vsize (@nil Z) = 0) by done.
  destruct (read_loop_spec (Z.to_nat size + 1) size [] i q Hl Hr Hq)
    as (i' & Hloop & Hr' & Hl' & Hpos'); [rewrite H0; lia ..|].
  rewrite (bind_Ok _ _ _ _ _ Hloop). rewrite H0, Z.sub_0_r in *. simpl.
  eexists. split; [reflexivity |]. unfold vsize in *.
  split_and!; simpl; try done.
  - destruct Hr' as [Hlast Hbuf]. by split.
  - rewrite length_take, length_drop, Hpos'. f_equal. lia.
Qed.

Lemma seek_spec (p : Z) (i : Input.t) (q : Z) :
  Input.file i = l -> reading i f q -> 0 <= p < vsize data ->
  exists i',
    Input_seek p i w = Ok i' w /\ reading i' f p /\ Input.file i' = l.
Proof.
  intros Hl [Hlast _] Hp. pose proof kBlockSize_eq as HB.
  pose proof (stored_length _ _ Hdata) as Hlen.
  destruct (holds_block f data p (stored_holds _ _ Hdata) Hp) as [blk Hblk].
  assert (Hnl : (p / kBlockSize =? Input.last_block i) = false).
  { apply Z.eqb_neq. rewrite Hlast. blocks_lia. }
  unfold Input_seek. rewrite Hl.
  rewrite (bind_Ok _ _ _ _ _ (load_Some _ _ _ Hf)).
  destruct (Z.ltb_spec p (RAMFile.length f)); [|lia].
  rewrite (bind_Ok _ _ _ _ _ (assert_true _ w)). simpl. rewrite Hl.
  rewrite (bind_Ok _ _ _ _ _ (block_exists_Some _ _ _ _ _ Hf Hblk)).
  rewrite Hnl. simpl. eexists. split; [reflexivity |]. split; [|done].
  split; simpl; [done |]. split_and!; try done; try blocks_lia.
  all: rewrite Hlast; blocks_lia.
Qed.
End reader.

Lemma opened_reading (l : nat) (f : RAMFile.t) (pos last last_bytes : Z) :
  last = (RAMFile.length f - 1) / kBlockSize + 1 ->
  reading (Input.mk None 0 0 0 pos 0 l 0 last last_bytes) f 0.
Proof. by split. Qed.

(** ** From the writer to the reader *)

(** Closing a writer commits what it has written. *)
Lemma close_written (o : Output.t) (f : RAMFile.t) (data : list Z) (w : World) :
  heap w !! Output.file o = Some f -> writing o f data ->
  placeholder w (RAMFile.name f) -> vsize data < 2 ^ 64 ->
  exists w' f',
    Output_close o w = Ok tt w' /\
    committed w' (RAMFile.name f) (Output.file o) /\
    heap w' !! Output.file o = Some f' /\ stored f' data /\
    RAMFile.refs_ f' = 1.
Proof.
  intros Hf [Hbl Hh Hpos Hlen Hbuf] Hph Hsmall.
  rewrite (Output_close_spec o w f Hf Hph), Z.max_r, Hpos by lia.
  eexists _, _. split; [reflexivity |]. split_and!.
  - apply lookup_insert_eq.
  - apply lookup_insert_eq.
  - by split.
  - done.
Qed.

(** Opening a committed file that is not empty gives a reader in front of
    its first byte. *)
Lemma open_written (fname : string) (l : nat) (f : RAMFile.t) (data : list Z)
    (w : World) :
  committed w fname l -> heap w !! l = Some f -> stored f data ->
  0 < vsize data -> RAMFile.refs_ f = 1 ->
  exists i w' f',
    openInput fname w = Ok i w' /\ heap w' !! l = Some f' /\
    stored f' data /\ reading i f' 0 /\ Input.file i = l.
Proof.
  intros Hc Hf [Hbl Hh Hlen Hsmall] Hpos Hrefs.
  pose proof kBlockSize_eq as HB.
  rewrite (openInput_committed w fname l f Hc Hf), Hrefs.
  destruct (Z.eqb_spec (RAMFile.length f) 0); [lia |]. simpl.
  eexists _, _, _. split; [reflexivity |]. split_and!.
  - apply lookup_insert_eq.
  - by split.
  - apply opened_reading. simpl. apply u64_small. blocks_lia.
  - done.
Qed.

Lemma fileLength_committed (fname : string) (l : nat) (f : RAMFile.t)
    (w : World) :
  committed w fname l -> heap w !! l = Some f ->
  fileLength fname w = Ok (RAMFile.length f) w.
Proof.
  intros Hc Hf. unfold fileLength. rewrite bind_get, Hc. simpl.
  by rewrite (bind_Ok _ _ _ _ _ (load_Some _ _ _ Hf)).
Qed.

(** ** Readers of a file that is deleted *)

Lemma reading_set_refs (i : Input.t) (f : RAMFile.t) (q n : Z) :
  reading i f q -> reading i (RAMFile.set_refs n f) q.
Proof. intros [? ?]. by split. Qed.

Lemma stored_set_refs (f : RAMFile.t) (data : list Z) (n : Z) :
  stored f data -> stored (RAMFile.set_refs n f) data.
Proof. intros [? ? ? ?]. by split. Qed.

Lemma reading_nonneg (i : Input.t) (f : RAMFile.t) (q : Z) :
  reading i f q -> 0 <= q.
Proof.
  intros [_ Hbuf]. pose proof kBlockSize_eq.
  destruct (Input.buf i); [nia | lia].
Qed.

(** A reader in front of position [q] of a file reads all the bytes from
    [q] on, whatever the reference count of the file is. *)
Lemma read_rest (l : nat) (f : RAMFile.t) (data : list Z) (w : World)
    (n : Z) (r : Input.t) (q : Z) :
  heap w !! l = Some (RAMFile.set_refs n f) -> stored f data ->
  Input.file r = l -> reading r f q -> q <= vsize data ->
  exists r',
    read (vsize data - q) r w = Ok (drop (Z.to_nat q) data, r') w.
Proof.
  intros Hf Hst Hl Hr Hq. pose proof (reading_nonneg _ _ _ Hr) as Hq0.
  destruct (read_spec l _ data w Hf (stored_set_refs f data n Hst)
              (vsize data - q) r q Hl (reading_set_refs _ _ _ n Hr) Hq0)
    as (r' & Hread & _); [lia | lia |].
  exists r'. rewrite Hread. do 2 f_equal.
  apply take_ge. rewrite length_drop. unfold vsize. lia.
Qed.

Lemma file_f_stored (refs : Z) : stored (file_f refs) [7].
Proof.
  split.
  - by repeat constructor.
  - intros [|q] c Hc; [|done]. by injection Hc as <-.
  - reflexivity.
  - by vm_compute.
Qed.

Lemma reader_f_reading (refs : Z) : reading reader_f (file_f refs) 0.
Proof. by apply opened_reading. Qed.

(** C7. A committed file [f] with open readers: the table holds one
    reference and every reader one. In whatever order the readers in [rs1]
    are closed, the file is deleted from the table and the readers in [rs2]
    are closed, the file stays allocated with its blocks and length as long
    as the readers in [rs3] are open. A reader of the file then reads the
    bytes that were stored in it, from its position to the end of the file,
    and every read operation has the outcome it had before the deletion. The
    file is freed when the last of the readers is closed. If all readers are
    closed first, the file stays allocated until deleteFile frees it. *)
Theorem refcount_liveness (w : World) (fname : string) (l : nat)
    (f : RAMFile.t) (rs1 rs2 rs3 : list Input.t) :
  committed w fname l ->
  heap w !! l = Some f ->
  Forall (λ r, Input.file r = l) (rs1 ++ rs2 ++ rs3) ->
  RAMFile.refs_ f = 1 + Z.of_nat (List.length (rs1 ++ rs2 ++ rs3)) ->
  rs3 <> [] ->
  (exists wa wb wc wd,
     close_all rs1 w = Ok tt wa /\
     deleteFile fname wa = Ok tt wb /\
     close_all rs2 wb = Ok tt wc /\
     close_all rs3 wc = Ok tt wd /\
     absent wb fname /\
     heap wa !! l
       = Some (RAMFile.set_refs (1 + Z.of_nat (List.length (rs2 ++ rs3))) f) /\
     heap wb !! l
       = Some (RAMFile.set_refs (Z.of_nat (List.length (rs2 ++ rs3))) f) /\
     heap wc !! l = Some (RAMFile.set_refs (Z.of_nat (List.length rs3)) f) /\
     (forall (data : list Z) (r : Input.t) (q : Z),
        stored f data -> Input.file r = l -> reading r f q ->
        q <= vsize data ->
        (exists r', read (vsize data - q) r wb
                    = Ok (drop (Z.to_nat q) data, r') wb) /\
        (exists r', read (vsize data - q) r wc
                    = Ok (drop (Z.to_nat q) data, r') wc)) /\
     reads_alike l w wb /\ reads_alike l w wc /\
     heap wd !! l = None) /\
  (exists wa wb,
     close_all (rs1 ++ rs2 ++ rs3) w = Ok tt wa /\
     committed wa fname l /\
     heap wa !! l = Some (RAMFile.set_refs 1 f) /\
     deleteFile fname wa = Ok tt wb /\
     absent wb fname /\ heap wb !! l = None).
Proof.
  intros Hc Hf Hrs Hrefs Hne.
  assert (Hlen3 : 0 < Z.of_nat (List.length rs3)) by (destruct rs3; simpl; [done | lia]).
  pose proof Hrs as Hall.
  apply Forall_app in Hrs as [Hrs1 Hrs]. apply Forall_app in Hrs as [Hrs2 Hrs3].
  rewrite !length_app in *. split.
  - destruct (close_all_spec l rs1 w f Hrs1 Hf) as (wa & Ha & Hfa & Hda & Hha); [lia |].
    set (fa := RAMFile.set_refs _ f) in Hha.
    assert (Hfa' : heap wa !! l = Some fa) by (rewrite Hha; apply lookup_insert_eq).
    assert (Hca : committed wa fname l) by (unfold committed; by rewrite Hfa).
    pose proof (deleteFile_committed wa fname l fa Hca Hfa'
                  ltac:(unfold INT_MIN, fa; simpl; lia)) as Hb.
    set (wb := {| files := _; heap := _; dummy_refs := _ |}) in Hb.
    set (fb := RAMFile.set_refs (Z.of_nat (List.length rs2 + List.length rs3)) f).
    assert (Hfb : heap wb !! l = Some fb).
    { unfold wb. cbn [heap].
      rewrite drop_ref_alive by (unfold fa; simpl; lia).
      f_equal. unfold fa, fb, RAMFile.set_refs. simpl. f_equal. lia. }
    destruct (close_all_spec l rs2 wb fb Hrs2 Hfb) as (wc & Hcc & Hfc & Hdc & Hhc);
      [unfold fb; simpl; lia |].
    set (fc := RAMFile.set_refs _ fb) in Hhc.
    assert (Hfc' : heap wc !! l = Some fc) by (rewrite Hhc; apply lookup_insert_eq).
    destruct (close_all_free l rs3 wc fc Hrs3 Hne Hfc') as (wd & Hd & _ & Hhd);
      [unfold fc, fb; simpl; lia |].
    exists wa, wb, wc, wd. split_and!; try assumption.
    + unfold absent, wb. simpl. apply lookup_delete_eq.
    + rewrite Hfa'. f_equal. unfold fa, RAMFile.set_refs. simpl. f_equal. lia.
    + rewrite Hfc'. f_equal. unfold fc, fb, RAMFile.set_refs. simpl. f_equal. lia.
    + intros data r q Hst Hl Hr Hq. split.
      * by apply (read_rest l f data wb _ r q Hfb).
      * by apply (read_rest l f data wc _ r q Hfc').
    + apply same_data_reads_alike. by eapply same_data_set_refs.
    + apply same_data_reads_alike. by eapply same_data_set_refs.
    + rewrite Hhd. apply lookup_delete_eq.
  - destruct (close_all_spec l _ w f Hall Hf) as (wa & Ha & Hfa & Hda & Hha);
      [rewrite !length_app; lia |].
    rewrite !length_app in Hha.
    set (fa := RAMFile.set_refs _ f) in Hha.
    assert (Hfa' : heap wa !! l = Some fa) by (rewrite Hha; apply lookup_insert_eq).
    assert (Hca : committed wa fname l) by (unfold committed; by rewrite Hfa).
    pose proof (deleteFile_committed wa fname l fa Hca Hfa'
                  ltac:(unfold INT_MIN, fa; simpl; lia)) as Hb.
    eexists wa, _. split_and!; try eassumption.
    + rewrite Hfa'. f_equal. unfold fa, RAMFile.set_refs. simpl. f_equal. lia.
    + unfold absent. simpl. apply lookup_delete_eq.
    + cbn [heap]. apply drop_ref_freed. unfold fa. simpl. lia.
Qed.

Lemma refcount_liveness_witness :
  committed world_two_readers "f" 0 /\
  heap world_two_readers !! 0%nat = Some (file_f 3) /\
  exists wb wc wd,
    deleteFile "f" world_two_readers = Ok tt wb /\
    Input_close reader_f wb = Ok tt wc /\
    Input_close reader_f wc = Ok tt wd /\
    heap wb !! 0%nat = Some (file_f 2) /\
    heap wc !! 0%nat = Some (file_f 1) /\
    (exists r', read 1 reader_f wb = Ok ([7], r') wb) /\
    (exists r', read 1 reader_f wc = Ok ([7], r') wc) /\
    heap wd !! 0%nat = None.
Proof.
  assert (H1 : committed world_two_readers "f" 0) by reflexivity.
  assert (H2 : heap world_two_readers !! 0%nat = Some (file_f 3)) by reflexivity.
  assert (H3 : Forall (λ r, Input.file r = 0%nat) ([] ++ [reader_f] ++ [reader_f]))
    by (repeat constructor).
  assert (H4 : RAMFile.refs_ (file_f 3)
               = 1 + Z.of_nat (List.length ([] ++ [reader_f] ++ [reader_f])))
    by reflexivity.
  assert (H5 : [reader_f] <> []) by discriminate.
  destruct (refcount_liveness world_two_readers "f" 0 (file_f 3)
              [] [reader_f] [reader_f] H1 H2 H3 H4 H5)
    as [(wa & wb & wc & wd & Ha & Hb & Hc & Hd & _ & _ & Hhb & Hhc & Hread
         & _ & _ & Hhd) _].
  injection Ha as <-.
  destruct (Hread [7] reader_f 0 (file_f_stored 3) eq_refl
              (reader_f_reading 3) ltac:(by vm_compute)) as [Hrb Hrc].
  split; [assumption |]. split; [assumption |].
  exists wb, wc, wd. split_and!; try assumption.
  - simpl in Hc. unfold bind in Hc. by destruct (Input_close reader_f wb) as [[] ?| |].
  - simpl in Hd. unfold bind in Hd. by destruct (Input_close reader_f wc) as [[] ?| |].
Defined.

(** ** Seek, then read to the end *)

Lemma write_spec (l : nat) (ptr : list Z) (o : Output.t) (f : RAMFile.t)
    (written : list Z) (w : World) :
  Output.file o = l -> heap w !! l = Some f ->
  writing o f written ->
  vsize written + vsize ptr < 2 ^ 64 ->
  exists o' f',
    write ptr o w = Ok o' (with_file l f' w) /\
    writing o' f' (written ++ ptr) /\ Output.file o' = l /\ same_file f f'.
Proof.
  intros Hl Hf Hw Hsmall. apply write_rec_spec; try done.
  unfold write_calls. destruct (Output.buf o); [destruct (_ =? _) |]; lia.
Qed.

Lemma write_all_spec (l : nat) (chunks : list (list Z)) (o : Output.t)
    (f : RAMFile.t) (written : list Z) (w : World) :
  Output.file o = l -> heap w !! l = Some f ->
  writing o f written ->
  vsize written + vsize (concat chunks) < 2 ^ 64 ->
  exists o' f',
    write_all chunks o w = Ok o' (with_file l f' w) /\
    writing o' f' (written ++ concat chunks) /\ Output.file o' = l /\
    same_file f f'.
Proof.
  revert o f written w.
  induction chunks as [|ptr chunks IH]; intros o f written w Hl Hf Hw Hsmall;
    simpl in *.
  - exists o, f. rewrite app_nil_r, with_file_id by done.
    by split_and!.
  - rewrite vsize_app in Hsmall.
    pose proof (vsize_nonneg ptr). pose proof (vsize_nonneg (concat chunks)).
    destruct (write_spec l ptr o f written w Hl Hf Hw)
      as (o1 & f1 & Hwrite & Hw1 & Hl1 & Hs1); [lia |].
    rewrite (bind_Ok _ _ _ _ _ Hwrite).
    destruct (IH o1 f1 (written ++ ptr) (with_file l f1 w) Hl1
                (with_file_lookup _ _ _) Hw1)
      as (o2 & f2 & Hall & Hw2 & Hl2 & Hs2); [rewrite vsize_app; lia |].
    rewrite Hall, with_file_with_file. exists o2, f2.
    rewrite <- app_assoc in Hw2. split_and!; try done.
    eauto using same_file_trans.
Qed.

Lemma holds_ext (f f' : RAMFile.t) (data : list Z) :
  RAMFile.blocks_ f' = RAMFile.blocks_ f -> holds f data -> holds f' data.
Proof. intros Hb Hh q c Hq. unfold cell. rewrite Hb. by apply Hh. Qed.

(** C3, as the code has it. A file is written from position 0 by any
    sequence of calls of write and committed, N > 0 bytes in all. For every
    position p with 0 <= p < N, a reader that seeks to p and reads N - p
    bytes gets the bytes from p to N of what was written, also when they
    lie in several blocks. *)
Theorem seek_then_read (w : World) (fname : string) (chunks : list (list Z))
    (p : Z) :
  absent w fname ->
  0 <= p < vsize (concat chunks) ->
  vsize (concat chunks) < 2 ^ 64 ->
  exists i,
    outcome (seek_and_read fname chunks p w)
    = Returns (drop (Z.to_nat p) (concat chunks), i).
Proof.
  intros Habs Hp Hsmall. unfold seek_and_read.
  set (data := concat chunks) in *.
  rewrite (bind_Ok _ _ _ _ _ (createOutput_absent w fname Habs)).
  set (l := fresh (dom (heap w))).
  set (w1 := {| files := _; heap := _; dummy_refs := _ |}).
  destruct (write_all_spec l chunks (Output.create l) (RAMFile.create fname) [] w1)
    as (o2 & f2 & Hall & Hw2 & Hl2 & [Hname Hrefs]);
    [done | apply lookup_insert_eq | apply created_writing | done |].
  rewrite (bind_Ok _ _ _ _ _ Hall). simpl in Hw2, Hname. fold data in Hw2.
  destruct (close_written o2 f2 data (with_file l f2 w1))
    as (w3 & f3 & Hclose & Hc3 & Hf3 & Hst3 & Hrefs3); try done.
  { rewrite Hl2. apply with_file_lookup. }
  { rewrite Hname. unfold placeholder. simpl. apply lookup_insert_eq. }
  rewrite (bind_Ok _ _ _ _ _ Hclose). rewrite Hl2, Hname in *.
  destruct (open_written fname l f3 data w3 Hc3 Hf3 Hst3 ltac:(lia) Hrefs3)
    as (i0 & w4 & f4 & Hopen & Hf4 & Hst4 & Hr4 & Hl4).
  rewrite (bind_Ok _ _ _ _ _ Hopen).
  destruct (seek_spec l f4 data w4 Hf4 Hst4 p i0 0 Hl4 Hr4 Hp)
    as (i1 & Hseek & Hr1 & Hl1).
  rewrite (bind_Ok _ _ _ _ _ Hseek).
  destruct (read_spec l f4 data w4 Hf4 Hst4 (vsize data - p) i1 p Hl1 Hr1)
    as (i2 & Hread & _); [lia .. |].
  rewrite Hread. exists i2. simpl. do 2 f_equal.
  apply take_ge. rewrite length_drop. unfold vsize. lia.
Qed.

Lemma seek_then_read_witness :
  exists i,
    outcome (seek_and_read "f" [replicate 4095 1; [2; 3; 4]; [5; 6]] 4097
               empty_world)
    = Returns ([4; 5; 6], i).
Proof.
  apply (seek_then_read empty_world "f" [replicate 4095 1; [2; 3; 4]; [5; 6]] 4097).
  - reflexivity.
  - vm_compute. split; [discriminate | reflexivity].
  - reflexivity.
Defined.

(** After the one byte of a file, a reader cannot be placed: seek stops at
    its assertion. *)
Lemma seek_to_end :
  outcome (seek_and_read "f" [[7]] 1 empty_world)
  = Stops (AssertionFailed "Seeking past the end of  file is not supported!").
Proof. vm_compute. reflexivity. Qed.

(** ** eof() behind the last byte *)

Section eof_at_end.
Context (l : nat) (f : RAMFile.t) (data : list Z) (w : World).
Context (Hdata : stored f data).

(** With the reader behind the last byte of the file, eof() does not
    answer true: bytes of the block count as pending, or the reader steps to
    the block after the last one. *)
Lemma eof_at_end (i : Input.t) :
  Input.file i = l -> reading i f (vsize data) -> 0 < vsize data ->
  (vsize data mod kBlockSize <> 0 -> eof i w = Ok (false, i) w) /\
  (forall i' w', eof i w <> Ok (true, i') w').
Proof.
  intros Hl [Hlast Hbuf] Hpos. pose proof kBlockSize_eq as HB.
  pose proof (stored_length _ _ Hdata) as Hlen.
  pose proof (stored_small _ _ Hdata) as Hsmall.
  destruct (Input.buf i) as [cb|] eqn:Hcb; [|lia].
  destruct Hbuf as (Hcb0 & Hcur & Hlt & Hstart & Hend & Hsen & Hrange & Hq).
  unfold eof, Input.hasPendingData, Input.getNumReadableBytes.
  rewrite Hsen, u64_small by lia.
  destruct (Z.ltb_spec 0 (kBlockSize - Input.bufCur i)) as [Hpend|Hfull].
  - split; [done | by intros i' w' [=]].
  - split; [intros Hmod; blocks_lia |]. intros i' w'.
    unfold fillImpl, Input.hasPendingData, Input.getNumReadableBytes,
      Input.hasBuffer, bind, assert, ret. simpl.
    rewrite Hsen, Hcb, Hcur, bool_decide_true by done.
    rewrite !u64_small by blocks_lia.
    destruct (Z.ltb_spec 0 (kBlockSize - Input.bufCur i)); [lia |].
    destruct (Z.eqb_spec cb (Input.last_block i)); [lia |]. simpl.
    by destruct (block_exists _ _ w).
Qed.
End eof_at_end.

(** X21. After all the bytes of a file were read, eof() does not return
    true; it returns false when the length of the file is not a multiple of
    the size of a block. *)
Theorem read_to_end_eof (w : World) (fname : string) (chunks : list (list Z)) :
  absent w fname ->
  0 < vsize (concat chunks) < 2 ^ 64 ->
  (vsize (concat chunks) mod kBlockSize <> 0 ->
   outcome (read_to_end fname chunks w) = Returns (concat chunks, false)) /\
  (forall bs, outcome (read_to_end fname chunks w) <> Returns (bs, true)).
Proof.
  intros Habs Hsize. unfold read_to_end.
  set (data := concat chunks) in *.
  rewrite (bind_Ok _ _ _ _ _ (createOutput_absent w fname Habs)).
  set (l := fresh (dom (heap w))).
  set (w1 := {| files := _; heap := _; dummy_refs := _ |}).
  destruct (write_all_spec l chunks (Output.create l) (RAMFile.create fname) [] w1)
    as (o2 & f2 & Hall & Hw2 & Hl2 & [Hname Hrefs]);
    [done | apply lookup_insert_eq | apply created_writing
    | change (vsize []) with 0; fold data; lia |].
  rewrite (bind_Ok _ _ _ _ _ Hall). simpl in Hw2, Hname. fold data in Hw2.
  destruct (close_written o2 f2 data (with_file l f2 w1))
    as (w3 & f3 & Hclose & Hc3 & Hf3 & Hst3 & Hrefs3); try done.
  { rewrite Hl2. apply with_file_lookup. }
  { rewrite Hname. unfold placeholder. simpl. apply lookup_insert_eq. }
  { lia. }
  rewrite (bind_Ok _ _ _ _ _ Hclose). rewrite Hl2, Hname in *.
  destruct (open_written fname l f3 data w3 Hc3 Hf3 Hst3 ltac:(lia) Hrefs3)
    as (i0 & w4 & f4 & Hopen & Hf4 & Hst4 & Hr4 & Hl4).
  rewrite (bind_Ok _ _ _ _ _ Hopen).
  destruct (read_spec l f4 data w4 Hf4 Hst4 (vsize data) i0 0 Hl4 Hr4)
    as (i1 & Hread & Hr1 & Hl1 & _); [lia .. |].
  rewrite (bind_Ok _ _ _ _ _ Hread). simpl.
  change (Z.to_nat 0) with 0%nat. rewrite drop_0, take_ge by (unfold vsize; lia).
  destruct (eof_at_end l f4 data w4 Hst4 i1 Hl1 Hr1 ltac:(lia))
    as [Hfalse Hnever].
  split.
  - intros Hmod. by rewrite (bind_Ok _ _ _ _ _ (Hfalse Hmod)).
  - intros bs. unfold bind at 1.
    destruct (eof i1 w4) as [[[] i2] w5| |] eqn:Heof; simpl; try done.
    by destruct (Hnever i2 w5).
Qed.

Lemma read_to_end_eof_witness :
  (vsize (concat [[1; 2]; [3]]) mod kBlockSize <> 0 ->
   outcome (read_to_end "f" [[1; 2]; [3]] empty_world)
   = Returns (concat [[1; 2]; [3]], false)) /\
  (forall bs,
     outcome (read_to_end "f" [[1; 2]; [3]] empty_world) <> Returns (bs, true)).
Proof.
  apply (read_to_end_eof empty_world "f" [[1; 2]; [3]]);
    [reflexivity | by vm_compute].
Defined.

(** ** Bytes and bits *)

Lemma lor_shiftl_add (a b n : Z) :
  0 <= n -> 0 <= a < 2 ^ n -> 0 <= b -> Z.lor a (b ≪ n) = a + b ≪ n.
Proof.
  intros Hn Ha Hb.
  assert (Hland : Z.land a (b ≪ n) = 0).
  { destruct (Z.eq_dec a 0) as [->|Ha0]; [apply Z.land_0_l |].
    apply Z.bits_inj'. intros k Hk. rewrite Z.land_spec, Z.bits_0.
    destruct (Z.lt_ge_cases k n).
    - rewrite Z.shiftl_spec_low by done. apply andb_false_r.
    - assert (Hlog : Z.log2 a < k).
      { apply Z.log2_lt_pow2; [lia |].
        eapply Z.lt_le_trans; [apply Ha |]. apply Z.pow_le_mono_r; lia. }
      by rewrite (Z.bits_above_log2 a k) by lia. }
  by rewrite <- Z.lxor_lor, <- Z.add_nocarry_lxor.
Qed.

Lemma lor_pow2_add (a b n : Z) :
  0 <= n -> 0 <= a < 2 ^ n -> 0 <= b -> Z.lor a (b * 2 ^ n) = a + b * 2 ^ n.
Proof.
  intros Hn Ha Hb. rewrite <- Z.shiftl_mul_pow2 by done.
  by apply lor_shiftl_add.
Qed.

(** A property of all bytes, checked on each of them. *)
Lemma byte_table (P : Z -> bool) :
  forallb P (seqZ 0 256) = true -> forall m, 0 <= m < 256 -> P m = true.
Proof.
  intros H m Hm. rewrite forallb_forall in H. apply H.
  apply list_elem_of_In, elem_of_seqZ. lia.
Qed.

Lemma u8_range (x : Z) : 0 <= u8 x < 256.
Proof. unfold u8. apply Z.mod_pos_bound. lia. Qed.

Lemma u8_small (x : Z) : 0 <= x < 256 -> u8 x = x.
Proof. intros H. unfold u8. by apply Z.mod_small. Qed.

(** The byte that carries seven bits of [v] and the continuation bit. *)
Lemma u8_lor_128 (v : Z) : u8 (Z.lor v 128) = v mod 128 + 128.
Proof.
  unfold u8. change (2 ^ 8) with (2 ^ 8). rewrite <- (Z.land_ones _ 8) by lia.
  rewrite Z.land_lor_distr_l, Z.land_ones by lia.
  change (Z.land 128 (Z.ones 8)) with 128.
  pose proof (Z.mod_pos_bound v (2 ^ 8) ltac:(lia)) as Hm.
  pose proof (byte_table (λ m, Z.lor m 128 =? m mod 128 + 128) eq_refl
                (v mod 2 ^ 8) Hm) as H.
  apply Z.eqb_eq in H. rewrite H.
  change (2 ^ 8) with 256. Z.to_euclidean_division_equations. lia.
Qed.

Lemma land_127 (b : Z) : Z.land b 127 = b mod 128.
Proof. change 127 with (Z.ones 7). by rewrite Z.land_ones by lia. Qed.

Lemma land_128_continues (b : Z) :
  0 <= b < 256 -> (Z.land b 128 =? 0) = (b <? 128).
Proof.
  intros Hb.
  pose proof (byte_table (λ m, Bool.eqb (Z.land m 128 =? 0) (m <? 128)) eq_refl
                b Hb) as H.
  by apply Bool.eqb_prop in H.
Qed.

(** ** The varint encoders *)

Lemma leb128_cons (b : Z) (bs : list Z) :
  128 <= b < 256 -> leb128 bs -> leb128 (b :: bs).
Proof. intros Hb Hbs. simpl. by destruct bs. Qed.

Lemma varint64_bytes_spec (room : nat) (v : Z) :
  (0 < room)%nat -> 0 <= v < 2 ^ (7 * Z.of_nat room) ->
  exists bs,
    varint64_bytes room v = Some bs /\ leb128 bs /\ leb_value bs = v /\
    List.length bs = leb_length room v /\ (List.length bs <= room)%nat.
Proof.
  revert v. induction room as [|room IH]; intros v Hroom Hv; [lia |].
  - simpl. destruct (Z.leb_spec 128 v) as [Hge|Hlt].
    + destruct (Z.ltb_spec v 128); [lia |].
      destruct (IH (v ≫ 7)) as (bs & -> & Hleb & Hval & Hlen & Hle).
      { destruct room; [simpl in Hv |]; lia. }
      { rewrite Z.shiftr_div_pow2 by lia. split; [apply Z.div_pos; lia |].
        apply Z.div_lt_upper_bound; [lia |].
        rewrite <- Z.pow_add_r by lia.
        replace (7 + 7 * Z.of_nat room) with (7 * Z.of_nat (S room)) by lia.
        lia. }
      rewrite Z.shiftr_div_pow2 in * by lia. change (2 ^ 7) with 128 in *.
      eexists. split; [reflexivity |]. rewrite u8_lor_128. split_and!.
      * apply leb128_cons; [|done]. Z.to_euclidean_division_equations. lia.
      * simpl. rewrite Hval. Z.to_euclidean_division_equations. lia.
      * simpl. by rewrite Hlen.
      * simpl. lia.
    + destruct (Z.ltb_spec v 128); [|lia].
      exists [u8 v]. rewrite u8_small by lia. split_and!; simpl; try done; try lia.
      Z.to_euclidean_division_equations. lia.
Qed.

(** writeVarint32 as it is written: the branch for 2^21 <= num < 2^28 stores
    the groups of [num / 128]. *)
Lemma varint32_bytes_spec (v : Z) :
  0 <= v < 2 ^ 32 ->
  leb128 (varint32_bytes v) /\
  leb_value (varint32_bytes v)
  = (if (2 ^ 21 <=? v) && (v <? 2 ^ 28) then v / 128 else v) /\
  List.length (varint32_bytes v)
  = if (2 ^ 21 <=? v) && (v <? 2 ^ 28) then 3%nat else leb_length 5 v.
Proof.
  intros Hv. unfold varint32_bytes.
  change (1 ≪ 7) with 128. change (1 ≪ 14) with 16384.
  change (1 ≪ 21) with 2097152. change (1 ≪ 28) with 268435456.
  change (2 ^ 21) with 2097152. change (2 ^ 28) with 268435456.
  rewrite !u8_lor_128, !Z.shiftr_div_pow2 by lia.
  change (2 ^ 7) with 128. change (2 ^ 14) with 16384.
  change (2 ^ 21) with 2097152. change (2 ^ 28) with 268435456.
  unfold u8, leb_length. change (2 ^ 8) with 256. change (2 ^ 32) with 4294967296 in Hv.
  repeat match goal with
         | |- context [Z.ltb ?a ?b] => destruct (Z.ltb_spec a b)
         | |- context [Z.leb ?a ?b] => destruct (Z.leb_spec a b)
         end; simpl; split_and!; try done;
    Z.to_euclidean_division_equations; lia.
Qed.

Lemma at_position_cons (data : list Z) (q : Z) (b : Z) (bs : list Z) :
  0 <= q -> at_position data q (b :: bs) ->
  data !! Z.to_nat q = Some b /\ at_position data (q + 1) bs /\
  q < vsize data.
Proof.
  unfold at_position. intros Hq H. simpl in H.
  destruct (drop (Z.to_nat q) data) as [|b' rest] eqn:Hd; [done |].
  simpl in H. injection H as -> Hrest.
  assert (Hb : data !! Z.to_nat q = Some b).
  { rewrite <- (Nat.add_0_r (Z.to_nat q)), <- lookup_drop. by rewrite Hd. }
  split_and!; [done | |].
  - replace (Z.to_nat (q + 1)) with (S (Z.to_nat q)) by lia.
    rewrite (drop_S _ _ _ Hb) in Hd. by injection Hd as ->.
  - apply lookup_lt_Some in Hb. unfold vsize. lia.
Qed.

Section decoders.
Context (l : nat) (f : RAMFile.t) (data : list Z) (w : World).
Context (Hf : heap w !! l = Some f) (Hdata : stored f data).

Lemma readByte_spec (i : Input.t) (q : Z) (b : Z) :
  Input.file i = l -> reading i f q -> 0 <= q ->
  data !! Z.to_nat q = Some b ->
  exists i',
    readByte i w = Ok (b, i') w /\ reading i' f (q + 1) /\ Input.file i' = l.
Proof.
  intros Hl Hr Hq Hb.
  assert (Hin : 0 <= q < vsize data).
  { apply lookup_lt_Some in Hb. unfold vsize. lia. }
  destruct (eof_spec l f data w Hf Hdata i q Hl Hr Hin)
    as (i1 & Heof & Hr1 & Hl1 & Hbuf1 & Hcur1 & _).
  unfold readByte. rewrite (bind_Ok _ _ _ _ _ Heof). simpl.
  set (i2 := Input.set_pos _ i1).
  assert (Hr2 : reading i2 f q) by (destruct Hr1; by split).
  rewrite (bind_Ok _ _ _ _ _
    (get_at_spec l f data w Hf Hdata i2 q 0 b Hl1 Hr2 Hbuf1 ltac:(lia)
       ltac:(simpl; lia) ltac:(by rewrite Z.add_0_r))).
  eexists. split; [reflexivity |]. split; [|done].
  destruct Hr1 as [Hlast Hbuf]. split; simpl; [done |].
  destruct Hbuf1 as [cb Hcb]. rewrite Hcb in *.
  destruct Hbuf as (? & ? & ? & ? & ? & ? & ? & ?). split_and!; try done; lia.
Qed.

(** The loop of readVarint32 and readVarint64 in front of a LEB128
    sequence that fits the width of the result. *)
Lemma readVarint_loop_spec (wrap : Z -> Z) (width : Z) (bs : list Z) :
  (forall x, 0 <= x < 2 ^ width -> wrap x = x) ->
  forall (room : nat) (k result : Z) (i : Input.t) (q : Z),
    Input.file i = l -> reading i f q -> 0 <= q ->
    at_position data q bs -> leb128 bs -> (List.length bs <= room)%nat ->
    0 <= k -> 0 <= result < 2 ^ (7 * k) ->
    result + leb_value bs ≪ (7 * k) < 2 ^ width ->
    exists i',
      readVarint_loop wrap room k result i w
      = Ok (result + leb_value bs ≪ (7 * k), i') w /\
      reading i' f (q + vsize bs) /\ Input.file i' = l.
Proof.
  intros Hwrap. induction bs as [|b bs IH];
    intros room k result i q Hl Hr Hq Hat Hleb Hroom Hk Hres Hfit; [done |].
  destruct room as [|room]; [simpl in Hroom; lia |].
  destruct (at_position_cons data q b bs Hq Hat) as (Hb & Hat' & Hin).
  destruct (eof_spec l f data w Hf Hdata i q Hl Hr ltac:(lia))
    as (i1 & Heof & Hr1 & Hl1 & _).
  destruct (readByte_spec i1 q b Hl1 Hr1 Hq Hb) as (i2 & Hread & Hr2 & Hl2).
  simpl readVarint_loop.
  rewrite (bind_Ok _ _ _ _ _ Heof). simpl.
  rewrite (bind_Ok _ _ _ _ _ Hread). simpl.
  assert (Hbyte : 0 <= b < 256).
  { simpl in Hleb. destruct bs; [lia | destruct Hleb; lia]. }
  rewrite u8_small, land_127, (land_128_continues b Hbyte) by done.
  assert (Hval : 0 <= leb_value bs).
  { clear. induction bs as [|b' bs IH]; simpl; [done |].
    Z.to_euclidean_division_equations. lia. }
  assert (Hpow : 0 < 2 ^ (7 * k)) by (apply Z.pow_pos_nonneg; lia).
  assert (Hgroup : 0 <= b mod 128 < 128) by (apply Z.mod_pos_bound; lia).
  simpl leb_value in Hfit |- *.
  rewrite !Z.shiftl_mul_pow2 in Hfit |- * by lia.
  assert (Hrest : 0 <= leb_value bs * 2 ^ (7 * k)) by nia.
  assert (Hthis : 0 <= b mod 128 * 2 ^ (7 * k)) by nia.
  rewrite Z.mul_add_distr_r, <- Z.mul_assoc in Hfit.
  rewrite Hwrap by lia. rewrite lor_pow2_add by lia.
  simpl in Hleb. destruct (Z.ltb_spec b 128) as [Hlast|Hmore].
  - destruct bs as [|b' bs']; [|destruct Hleb; lia].
    eexists. split; [|split; [|done]].
    + rewrite ?Z.shiftl_mul_pow2 by lia. simpl leb_value. unfold ret.
      do 2 f_equal. ring.
    + by replace (q + vsize [b]) with (q + 1) by (unfold vsize; simpl; lia).
  - destruct bs as [|b' bs']; [lia |]. destruct Hleb as [_ Hleb].
    assert (Hk1 : 2 ^ (7 * (k + 1)) = 128 * 2 ^ (7 * k)).
    { replace (7 * (k + 1)) with (7 + 7 * k) by lia.
      by rewrite Z.pow_add_r by lia. }
    destruct (IH room (k + 1) (result + b mod 128 * 2 ^ (7 * k)) i2 (q + 1))
      as (i3 & Hrec & Hr3 & Hl3); try done; try lia.
    + simpl in Hroom |- *. lia.
    + rewrite Hk1.
      assert (b mod 128 * 2 ^ (7 * k) <= 127 * 2 ^ (7 * k))
        by (apply Z.mul_le_mono_nonneg_r; lia).
      lia.
    + rewrite Z.shiftl_mul_pow2, Hk1 by lia.
      replace (leb_value (b' :: bs') * (128 * 2 ^ (7 * k)))
        with (128 * (leb_value (b' :: bs') * 2 ^ (7 * k))) by ring.
      lia.
    + rewrite Hrec. eexists. split; [|split; [|done]].
      * do 2 f_equal. rewrite !Z.shiftl_mul_pow2, Hk1 by lia.
        simpl leb_value. ring.
      * replace (q + vsize (b :: b' :: bs')) with (q + 1 + vsize (b' :: bs'));
          [done |]. unfold vsize. simpl. lia.
Qed.
End decoders.

(** A round trip of a value whose encoder writes [bs] and whose decoder
    reads [x] in front of [bs]. *)
Lemma roundtrip_spec {V : Type} (put : V -> Output.t -> M World Output.t)
    (get : Input.t -> M World (V * Input.t)) (fname : string) (v x : V)
    (bs : list Z) (w : World) :
  absent w fname -> 0 < vsize bs < 2 ^ 64 ->
  (forall o w', put v o w' = write bs o w') ->
  (forall l f w' i,
     heap w' !! l = Some f -> stored f bs -> Input.file i = l ->
     reading i f 0 -> exists i', get i w' = Ok (x, i') w') ->
  outcome (roundtrip put get fname v w) = Returns (x, vsize bs).
Proof.
  intros Habs Hbs Hput Hget. unfold roundtrip.
  rewrite (bind_Ok _ _ _ _ _ (createOutput_absent w fname Habs)).
  set (l := fresh (dom (heap w))).
  set (w1 := {| files := _; heap := _; dummy_refs := _ |}).
  destruct (write_spec l bs (Output.create l) (RAMFile.create fname) [] w1)
    as (o2 & f2 & Hwrite & Hw2 & Hl2 & [Hname Hrefs]);
    [done | apply lookup_insert_eq | apply created_writing
    | unfold vsize at 1; simpl; lia |].
  rewrite <- Hput in Hwrite. rewrite (bind_Ok _ _ _ _ _ Hwrite).
  simpl in Hw2, Hname.
  destruct (close_written o2 f2 bs (with_file l f2 w1))
    as (w3 & f3 & Hclose & Hc3 & Hf3 & Hst3 & Hrefs3); try done.
  { rewrite Hl2. apply with_file_lookup. }
  { rewrite Hname. unfold placeholder. simpl. apply lookup_insert_eq. }
  { lia. }
  rewrite (bind_Ok _ _ _ _ _ Hclose). rewrite Hl2, Hname in *.
  rewrite (bind_Ok _ _ _ _ _ (fileLength_committed fname l f3 w3 Hc3 Hf3)).
  destruct (open_written fname l f3 bs w3 Hc3 Hf3 Hst3 ltac:(lia) Hrefs3)
    as (i & w4 & f4 & Hopen & Hf4 & Hst4 & Hr4 & Hl4).
  rewrite (bind_Ok _ _ _ _ _ Hopen).
  destruct (Hget l f4 w4 i Hf4 Hst4 Hl4 Hr4) as [i' Hx].
  rewrite (bind_Ok _ _ _ _ _ Hx). simpl. by rewrite (stored_length _ _ Hst3).
Qed.

Lemma u32_small (x : Z) : 0 <= x < 2 ^ 32 -> u32 x = x.
Proof. intros H. unfold u32. by apply Z.mod_small. Qed.

Lemma at_position_self (bs : list Z) : at_position bs 0 bs.
Proof. unfold at_position. simpl. apply take_ge. lia. Qed.

Lemma at_position_bound (data : list Z) (q : Z) (bs : list Z) :
  0 <= q -> bs <> [] -> at_position data q bs -> q + vsize bs <= vsize data.
Proof.
  unfold at_position, vsize. intros Hq Hne H.
  apply (f_equal List.length) in H. rewrite length_take, length_drop in H.
  assert (0 < List.length bs)%nat by (destruct bs; simpl; [done | lia]). lia.
Qed.

(** ** The fixed-width decoders *)

(** Linear arithmetic with the powers of 2 of the goal computed. *)
Ltac pow2_lia :=
  repeat match goal with
         | |- context [2 ^ ?n] =>
             let v := eval compute in (2 ^ n) in change (2 ^ n) with v
         end;
  lia.

Section fixed.
Context (l : nat) (f : RAMFile.t) (data : list Z) (w : World).
Context (Hf : heap w !! l = Some f) (Hdata : stored f data).

Lemma readInt32_spec (i : Input.t) (q : Z) (b0 b1 b2 b3 : Z) :
  Input.file i = l -> reading i f q -> 0 <= q ->
  at_position data q [b0; b1; b2; b3] ->
  0 <= b0 < 256 -> 0 <= b1 < 256 -> 0 <= b2 < 256 -> 0 <= b3 < 256 ->
  exists i',
    readInt32 i w
    = Ok (b0 + b1 * 2 ^ 8 + b2 * 2 ^ 16 + b3 * 2 ^ 24, i') w /\
    reading i' f (q + 4) /\ Input.file i' = l.
Proof.
  intros Hl Hr Hq Hat H0 H1 H2 H3.
  pose proof (at_position_bound data q [b0; b1; b2; b3] Hq ltac:(done) Hat)
    as Hin.
  change (vsize [b0; b1; b2; b3]) with 4 in Hin.
  destruct (read_spec l f data w Hf Hdata 4 i q Hl Hr Hq ltac:(lia) Hin)
    as (i' & Hread & Hr' & Hl' & _).
  unfold at_position in Hat. simpl in Hat.
  change (Z.to_nat 4) with 4%nat in Hread. rewrite Hat in Hread.
  unfold readInt32. rewrite (bind_Ok _ _ _ _ _ Hread). simpl.
  exists i'. split; [|done]. unfold ret, byte_of. simpl. do 2 f_equal.
  rewrite !Z.shiftl_mul_pow2 by lia.
  rewrite !u32_small by pow2_lia.
  rewrite (lor_pow2_add b0 b1 8), (lor_pow2_add _ b2 16),
    (lor_pow2_add _ b3 24) by pow2_lia.
  reflexivity.
Qed.

Lemma readInt64_spec (i : Input.t) (q : Z) (b0 b1 b2 b3 b4 b5 b6 b7 : Z) :
  Input.file i = l -> reading i f q -> 0 <= q ->
  at_position data q [b0; b1; b2; b3; b4; b5; b6; b7] ->
  0 <= b0 < 256 -> 0 <= b1 < 256 -> 0 <= b2 < 256 -> 0 <= b3 < 256 ->
  0 <= b4 < 256 -> 0 <= b5 < 256 -> 0 <= b6 < 256 -> 0 <= b7 < 256 ->
  exists i',
    readInt64 i w
    = Ok (b0 + b1 * 2 ^ 8 + b2 * 2 ^ 16 + b3 * 2 ^ 24 + b4 * 2 ^ 32
          + b5 * 2 ^ 40 + b6 * 2 ^ 48 + b7 * 2 ^ 56, i') w /\
    reading i' f (q + 8) /\ Input.file i' = l.
Proof.
  intros Hl Hr Hq Hat H0 H1 H2 H3 H4 H5 H6 H7.
  pose proof (at_position_bound data q [b0; b1; b2; b3; b4; b5; b6; b7] Hq
                ltac:(done) Hat) as Hin.
  change (vsize [b0; b1; b2; b3; b4; b5; b6; b7]) with 8 in Hin.
  destruct (read_spec l f data w Hf Hdata 8 i q Hl Hr Hq ltac:(lia) Hin)
    as (i' & Hread & Hr' & Hl' & _).
  unfold at_position in Hat. simpl in Hat.
  change (Z.to_nat 8) with 8%nat in Hread. rewrite Hat in Hread.
  unfold readInt64. rewrite (bind_Ok _ _ _ _ _ Hread). simpl.
  exists i'. split; [|done]. unfold ret, byte_of. simpl. do 2 f_equal.
  rewrite !Z.shiftl_mul_pow2 by lia.
  rewrite !u64_small by pow2_lia.
  rewrite (lor_pow2_add b0 b1 8), (lor_pow2_add _ b2 16),
    (lor_pow2_add _ b3 24), (lor_pow2_add _ b4 32), (lor_pow2_add _ b5 40),
    (lor_pow2_add _ b6 48), (lor_pow2_add _ b7 56) by pow2_lia.
  reflexivity.
Qed.
End fixed.

(** ** Round trips of the codecs *)

Lemma bind_ret_r {S A} (m : M S A) (s : S) : bind m ret s = m s.
Proof. unfold bind. by destruct (m s). Qed.

(** X17. A number in the range of uint32_t that writeInt32 writes to a new
    file comes back from readInt32, and the file has 4 bytes. *)
Theorem int32_roundtrip (fname : string) (v : Z) (w : World) :
  absent w fname -> 0 <= v < 2 ^ 32 ->
  outcome (roundtrip writeInt32 readInt32 fname v w) = Returns (v, 4).
Proof.
  intros Habs Hv.
  apply (roundtrip_spec _ _ _ _ _
           [u8 v; u8 (v ≫ 8); u8 (v ≫ 16); u8 (v ≫ 24)]);
    [done | done | done |].
  intros l f w' i Hf Hst Hl Hr.
  destruct (readInt32_spec l f _ w' Hf Hst i 0 _ _ _ _ Hl Hr ltac:(lia)
              (at_position_self _) (u8_range _) (u8_range _) (u8_range _)
              (u8_range _)) as (i' & Hread & _).
  exists i'. rewrite Hread. do 2 f_equal.
  unfold u8. rewrite !Z.shiftr_div_pow2 by lia.
  change (2 ^ 32) with 4294967296 in Hv. change (2 ^ 8) with 256.
  change (2 ^ 16) with 65536. change (2 ^ 24) with 16777216.
  Z.to_euclidean_division_equations. lia.
Qed.

Lemma int32_roundtrip_witness :
  outcome (roundtrip writeInt32 readInt32 "f" 305419896 empty_world)
  = Returns (305419896, 4).
Proof.
  apply (int32_roundtrip "f" 305419896 empty_world); [reflexivity | lia].
Defined.

(** X18. A number in the range of uint64_t that writeInt64 writes to a new
    file comes back from readInt64, and the file has 8 bytes. *)
Theorem int64_roundtrip (fname : string) (v : Z) (w : World) :
  absent w fname -> 0 <= v < 2 ^ 64 ->
  outcome (roundtrip writeInt64 readInt64 fname v w) = Returns (v, 8).
Proof.
  intros Habs Hv.
  apply (roundtrip_spec _ _ _ _ _
           [u8 v; u8 (v ≫ 8); u8 (v ≫ 16); u8 (v ≫ 24);
            u8 (v ≫ 32); u8 (v ≫ 40); u8 (v ≫ 48); u8 (v ≫ 56)]);
    [done | done | done |].
  intros l f w' i Hf Hst Hl Hr.
  destruct (readInt64_spec l f _ w' Hf Hst i 0 _ _ _ _ _ _ _ _ Hl Hr ltac:(lia)
              (at_position_self _) (u8_range _) (u8_range _) (u8_range _)
              (u8_range _) (u8_range _) (u8_range _) (u8_range _)
              (u8_range _)) as (i' & Hread & _).
  exists i'. rewrite Hread. do 2 f_equal.
  unfold u8. rewrite !Z.shiftr_div_pow2 by lia.
  change (2 ^ 64) with 18446744073709551616 in Hv. change (2 ^ 8) with 256.
  change (2 ^ 16) with 65536. change (2 ^ 24) with 16777216.
  change (2 ^ 32) with 4294967296. change (2 ^ 40) with 1099511627776.
  change (2 ^ 48) with 281474976710656.
  change (2 ^ 56) with 72057594037927936.
  Z.to_euclidean_division_equations. lia.
Qed.

Lemma int64_roundtrip_witness :
  outcome (roundtrip writeInt64 readInt64 "f" 1311768467463790320 empty_world)
  = Returns (1311768467463790320, 8).
Proof.
  apply (int64_roundtrip "f" 1311768467463790320 empty_world);
    [reflexivity | lia].
Defined.

Lemma leb128_nonempty (bs : list Z) : leb128 bs -> (0 < List.length bs)%nat.
Proof. destruct bs; simpl; [done | lia]. Qed.

(** X19. Every number in the range of uint64_t that writeVarint64 writes to
    a new file comes back from readVarint64; the file has one byte for every
    group of seven bits up to the highest bit of the number, 10 bytes at
    most. *)
Theorem varint64_roundtrip (fname : string) (v : Z) (w : World) :
  absent w fname -> 0 <= v < 2 ^ 64 ->
  outcome (roundtrip writeVarint64 readVarint64 fname v w)
  = Returns (v, Z.of_nat (leb_length 10 v)) /\
  (leb_length 10 v <= 10)%nat.
Proof.
  intros Habs Hv.
  destruct (varint64_bytes_spec 10 v ltac:(lia))
    as (bs & Hbs & Hleb & Hval & Hlen & Hle).
  { change (7 * Z.of_nat 10) with 70.
    change (2 ^ 64) with 18446744073709551616 in Hv.
    change (2 ^ 70) with 1180591620717411303424. lia. }
  pose proof (leb128_nonempty bs Hleb) as Hne.
  split; [|lia]. rewrite <- Hlen.
  apply (roundtrip_spec _ _ _ _ _ bs);
    [done | unfold vsize; lia | |].
  - intros o w'. unfold writeVarint64.
    change (Z.to_nat kMaxVarintLength64) with 10%nat. by rewrite Hbs.
  - intros l f w' i Hf Hst Hl Hr.
    destruct (readVarint_loop_spec l f bs w' Hf Hst u64 64 bs u64_small
                10 0 0 i 0 Hl Hr ltac:(lia) (at_position_self bs) Hleb Hle
                ltac:(lia) ltac:(simpl; lia))
      as (i' & Hread & _).
    { rewrite Z.shiftl_mul_pow2 by lia. simpl. lia. }
    exists i'. unfold readVarint64.
    change (Z.to_nat kMaxVarintLength64) with 10%nat. rewrite Hread.
    change (7 * 0) with 0. by rewrite Z.shiftl_0_r, Hval.
Qed.

Lemma varint64_roundtrip_witness :
  outcome (roundtrip writeVarint64 readVarint64 "f" UINT64_MAX empty_world)
  = Returns (UINT64_MAX, Z.of_nat (leb_length 10 UINT64_MAX)) /\
  (leb_length 10 UINT64_MAX <= 10)%nat.
Proof.
  apply (varint64_roundtrip "f" UINT64_MAX empty_world);
    [reflexivity | unfold UINT64_MAX; lia].
Defined.

(** X20. A number in the range of uint32_t that writeVarint32 writes to a
    new file comes back from readVarint32, in one byte for every group of
    seven bits, unless it is in the range from 2^21 to 2^28 - 1: then three
    bytes are written and [v / 128] comes back. *)
Theorem varint32_roundtrip (fname : string) (v : Z) (w : World) :
  absent w fname -> 0 <= v < 2 ^ 32 ->
  outcome (roundtrip writeVarint32 readVarint32 fname v w)
  = Returns (if (2 ^ 21 <=? v) && (v <? 2 ^ 28)
             then (v / 128, 3) else (v, Z.of_nat (leb_length 5 v))).
Proof.
  intros Habs Hv.
  destruct (varint32_bytes_spec v Hv) as (Hleb & Hval & Hlen).
  pose proof (leb128_nonempty _ Hleb) as Hne.
  assert (Hle : (List.length (varint32_bytes v) <= 5)%nat).
  { rewrite Hlen. destruct (_ && _); [lia |]. unfold leb_length.
    repeat destruct (_ <? 128); lia. }
  assert (Hfit : leb_value (varint32_bytes v) < 2 ^ 32).
  { rewrite Hval. destruct (_ && _); [|lia].
    apply Z.div_lt_upper_bound; lia. }
  rewrite (roundtrip_spec writeVarint32 readVarint32 fname v
             (leb_value (varint32_bytes v)) (varint32_bytes v) w Habs
             ltac:(unfold vsize; lia) ltac:(done)).
  - rewrite Hval. unfold vsize. rewrite Hlen. by destruct (_ && _).
  - intros l f w' i Hf Hst Hl Hr.
    destruct (readVarint_loop_spec l f _ w' Hf Hst u32 32 _ u32_small
                5 0 0 i 0 Hl Hr ltac:(lia)
                (at_position_self (varint32_bytes v)) Hleb Hle
                ltac:(lia) ltac:(simpl; lia))
      as (i' & Hread & _).
    { rewrite Z.shiftl_mul_pow2 by lia. simpl. lia. }
    exists i'. unfold readVarint32.
    change (Z.to_nat kMaxVarintLength32) with 5%nat. rewrite Hread.
    change (7 * 0) with 0. by rewrite Z.shiftl_0_r.
Qed.

Lemma varint32_roundtrip_witness :
  outcome (roundtrip writeVarint32 readVarint32 "f" 300 empty_world)
  = Returns (if (2 ^ 21 <=? 300) && (300 <? 2 ^ 28)
             then (300 / 128, 3) else (300, Z.of_nat (leb_length 5 300))).
Proof.
  apply (varint32_roundtrip "f" 300 empty_world); [reflexivity | lia].
Defined.

(** C1. writeVarint32 leaves out the first byte of a value from 2^21 to
    2^28 - 1: 2^21 is written as the three bytes 0x80 0x80 0x01, not as the
    four bytes 0x80 0x80 0x80 0x01, and is read back as 2^14. *)
Theorem varint32_roundtrip_2097152 :
  varint32_bytes 2097152 = [128; 128; 1] /\
  outcome (roundtrip writeVarint32 readVarint32 "f" 2097152 empty_world)
  = Returns (16384, 3).
Proof. split; vm_compute; reflexivity. Qed.

(** ** rename *)

(** X1. rename throws FileNotFound when the source name is absent and
    FileAlreadyExists when the target name is occupied, the source itself
    included, and changes nothing then. Otherwise the target name takes over
    the entry of the source, the source becomes absent, and no other name and
    no file is touched. *)
Theorem rename_spec (w : World) (src target : string) :
  (absent w src -> rename src target w = Throw FileNotFoundException w) /\
  (occupied w src -> occupied w target ->
   rename src target w = Throw FileAlreadyExistsException w) /\
  (occupied w src -> rename src src w = Throw FileAlreadyExistsException w) /\
  (forall p, files w !! src = Some p -> absent w target ->
     exists w',
       rename src target w = Ok tt w' /\
       files w' !! target = Some p /\ absent w' src /\
       (forall fname, fname <> src -> fname <> target ->
          files w' !! fname = files w !! fname) /\
       heap w' = heap w /\ dummy_refs w' = dummy_refs w).
Proof.
  unfold rename, absent, occupied. rewrite !bind_get. split_and!.
  - by intros ->.
  - by intros [p ->] [p' ->].
  - by intros [p ->].
  - intros p Hsrc Htarget. rewrite Hsrc, Htarget.
    assert (Hne : src <> target) by (intros ->; congruence).
    eexists. split; [reflexivity |]. simpl. split_and!; try done.
    + by rewrite lookup_delete_ne, lookup_insert_eq.
    + apply lookup_delete_eq.
    + intros fname Hs Ht. by rewrite lookup_delete_ne, lookup_insert_ne.
Qed.

Lemma rename_Ok (w : World) (src target : string) (p : fileptr) :
  files w !! src = Some p -> absent w target ->
  rename src target w
  = Ok tt (set_files (delete src (<[target := p]> (files w))) w).
Proof.
  unfold rename, absent. rewrite bind_get. by intros -> ->.
Qed.

(** X2. A committed file that is renamed is the same file under the new
    name: fileLength and openInput on the new name do what they did on the old
    one, and the old name is free again: openInput throws FileNotFound and
    createOutput accepts it. *)
Theorem rename_committed (w : World) (src target : string) (l : nat) :
  committed w src l -> absent w target ->
  exists w',
    rename src target w = Ok tt w' /\
    committed w' target l /\ absent w' src /\
    outcome (fileLength target w') = outcome (fileLength src w) /\
    outcome (openInput target w') = outcome (openInput src w) /\
    openInput src w' = Throw FileNotFoundException w' /\
    exists o w'', createOutput src w' = Ok o w''.
Proof.
  intros Hc Ha. rewrite (rename_Ok w src target _ Hc Ha).
  assert (Hne : src <> target) by (intros ->; unfold committed, absent in *; congruence).
  set (w' := set_files _ w).
  assert (Hc' : committed w' target l).
  { unfold committed, w'. simpl. by rewrite lookup_delete_ne, lookup_insert_eq. }
  assert (Ha' : absent w' src).
  { unfold absent, w'. simpl. apply lookup_delete_eq. }
  exists w'. split_and!; try done.
  - unfold fileLength. rewrite !bind_get. unfold committed in *.
    rewrite Hc, Hc'. simpl. unfold bind, load. simpl.
    by destruct (heap w !! l).
  - destruct (heap w !! l) as [f|] eqn:Hf.
    + rewrite (openInput_committed w src l f Hc Hf).
      rewrite (openInput_committed w' target l f Hc' Hf).
      by repeat case_match.
    + unfold openInput. rewrite !bind_get. unfold committed in *.
      rewrite Hc, Hc'. unfold bind, new_RAMFileIndexInput, bind, load.
      simpl. by rewrite Hf.
  - unfold openInput. rewrite bind_get. unfold absent in Ha'. by rewrite Ha'.
  - eexists _, _. apply (createOutput_absent w' src Ha').
Qed.

Lemma rename_committed_witness :
  exists w',
    rename "f" "g" world_committed = Ok tt w' /\
    committed w' "g" 0 /\ absent w' "f" /\
    outcome (fileLength "g" w') = outcome (fileLength "f" world_committed) /\
    outcome (openInput "g" w') = outcome (openInput "f" world_committed) /\
    openInput "f" w' = Throw FileNotFoundException w' /\
    exists o w'', createOutput "f" w' = Ok o w''.
Proof.
  apply (rename_committed world_committed "f" "g" 0); reflexivity.
Defined.



(** ** fileExists and listAll *)

(** X4. listAll returns every occupied name once, the names that are
    reserved by a writer or a lock included, and fileExists answers true for
    exactly the names that listAll returns; neither changes the state. *)
Theorem fileExists_listAll (w : World) (fname : string) :
  exists names,
    listAll w = Ok names w /\ NoDup names /\
    (forall n, n ∈ names <-> occupied w n) /\
    fileExists fname w = Ok (bool_decide (fname ∈ names)) w.
Proof.
  exists ((map_to_list (files w)).*1). unfold listAll, fileExists.
  rewrite !bind_get.
  assert (Hin : forall n, n ∈ (map_to_list (files w)).*1 <-> occupied w n).
  { intros n. rewrite list_elem_of_fmap. unfold occupied. split.
    - intros ([n' p] & -> & Hin). exists p. by apply elem_of_map_to_list.
    - intros [p Hp]. exists (n, p). split; [done |].
      by apply elem_of_map_to_list. }
  split_and!; [done | apply NoDup_fst_map_to_list | done |].
  unfold ret. f_equal. destruct (files w !! fname) as [p|] eqn:Hp.
  - rewrite bool_decide_true; [done |]. apply Hin. by exists p.
  - rewrite bool_decide_false; [done |]. rewrite Hin. unfold occupied.
    rewrite Hp. by intros [? ?].
Qed.

(** ** Names in placeholder state *)

(** X5. On a name in placeholder state, a file that is being written or a
    lock, openInput and deleteFile throw nothing: both stop at their
    assertion. *)
Theorem placeholder_asserts (w : World) (fname : string) :
  placeholder w fname ->
  openInput fname w
  = Fatal (AssertionFailed
      "Attempt to read an uncommited file; a file may be read only after it were commited") /\
  deleteFile fname w
  = Fatal (AssertionFailed
      "Attempt to delete an uncommited file; a file may be deleted only after it were commited").
Proof.
  unfold placeholder, openInput, deleteFile. rewrite !bind_get.
  by intros ->.
Qed.

Lemma placeholder_asserts_witness :
  openInput "f" world_writing
  = Fatal (AssertionFailed
      "Attempt to read an uncommited file; a file may be read only after it were commited") /\
  deleteFile "f" world_writing
  = Fatal (AssertionFailed
      "Attempt to delete an uncommited file; a file may be deleted only after it were commited").
Proof. apply (placeholder_asserts world_writing "f"). reflexivity. Defined.

(** ** Opening and closing a reader *)

Lemma World_eq (w w' : World) :
  files w' = files w -> heap w' = heap w -> dummy_refs w' = dummy_refs w ->
  w' = w.
Proof. destruct w, w'. simpl. by intros -> -> ->. Qed.

(** X6. Opening a reader on a committed file that is not empty adds one to
    the reference count of the file and changes nothing else, and closing
    that reader gives back the state before it was opened. *)
Theorem open_close (w : World) (fname : string) (l : nat) (f : RAMFile.t) :
  committed w fname l -> heap w !! l = Some f ->
  RAMFile.length f <> 0 -> 1 <= RAMFile.refs_ f < INT_MAX ->
  exists i w',
    openInput fname w = Ok i w' /\ Input.file i = l /\
    files w' = files w /\
    heap w' = <[l := RAMFile.set_refs (RAMFile.refs_ f + 1) f]> (heap w) /\
    Input_close i w' = Ok tt w.
Proof.
  intros Hc Hf Hlen Hrefs. rewrite (openInput_committed w fname l f Hc Hf).
  rewrite (proj2 (Z.eqb_neq _ _) Hlen).
  rewrite (proj2 (Z.eqb_neq (RAMFile.refs_ f) INT_MAX)) by lia.
  eexists _, _. split_and!; try reflexivity.
  unfold Input_close. simpl.
  rewrite (unrefReader_spec _ l (RAMFile.set_refs (RAMFile.refs_ f + 1) f))
    by (first [apply lookup_insert_eq | simpl; unfold INT_MIN, INT_MAX in *; lia]).
  f_equal. apply World_eq; simpl; try done.
  unfold drop_ref. simpl.
  rewrite (proj2 (Z.eqb_neq (RAMFile.refs_ f + 1 - 1) 0)) by lia.
  rewrite insert_insert_eq, set_refs_set_refs.
  replace (RAMFile.refs_ f + 1 - 1) with (RAMFile.refs_ f) by lia.
  rewrite set_refs_id. by apply insert_id.
Qed.

Lemma open_close_witness :
  exists i w',
    openInput "f" world_committed = Ok i w' /\ Input.file i = 0%nat /\
    files w' = files world_committed /\
    heap w' = <[0%nat := RAMFile.set_refs (RAMFile.refs_ (file_f 1) + 1) (file_f 1)]>
                (heap world_committed) /\
    Input_close i w' = Ok tt world_committed.
Proof.
  apply (open_close world_committed "f" 0 (file_f 1));
    [reflexivity | reflexivity | discriminate | unfold INT_MAX; simpl; lia].
Defined.

(** ** deleteSegment, in general *)

Lemma has_prefix_spec (segment fname : string) :
  has_prefix segment fname = true <-> starts_with segment fname.
Proof.
  unfold has_prefix, starts_with. revert fname.
  induction segment as [|a segment IH]; intros fname.
  - split; [intros _; by exists fname |]. intros _.
    by destruct fname.
  - destruct fname as [|c fname].
    + split; [done |]. by intros [rest ?].
    + specialize (IH fname). simpl.
      rewrite andb_true_iff, bool_decide_eq_true in *.
      rewrite Nat.leb_le in *. split.
      * intros [Hlen [= -> Hsub]]. destruct IH as [IH _].
        destruct IH as [rest ->]; [split; [lia | done] |]. by exists rest.
      * intros [rest [= -> ->]]. destruct IH as [_ IH].
        destruct IH as [Hlen Hsub]; [by exists rest |].
        split; [lia |]. by rewrite <- Hsub.
Qed.

Lemma deleteSegment_entry_no_throw (entry : string * fileptr) (w w' : World)
    (c : Code) :
  deleteSegment_entry entry w <> Throw c w'.
Proof.
  unfold deleteSegment_entry, bind, assert, erase, load_ptr, decr_int,
    store_refs, delete_ptr, delete_RAMFile, load, store, bind, assert, ret,
    abort.
  repeat case_match; congruence.
Qed.

Lemma deleteSegment_loop_Ok (segment : string)
    (entries : list (string * fileptr)) (w w' : World) :
  deleteSegment_loop segment entries w = Ok tt w' ->
  w' = w /\ Forall (λ e, has_prefix segment e.1 = false) entries.
Proof.
  induction entries as [|e entries IH]; simpl.
  - intros [= <-]. by split.
  - destruct (has_prefix segment e.1) eqn:He.
    + unfold bind, abort. by destruct (deleteSegment_entry e w).
    + intros H. destruct (IH H) as [-> Hall]. split; [done |].
      by constructor.
Qed.

Lemma deleteSegment_loop_no_throw (segment : string)
    (entries : list (string * fileptr)) (w w' : World) (c : Code) :
  deleteSegment_loop segment entries w <> Throw c w'.
Proof.
  induction entries as [|e entries IH]; simpl; [done |].
  destruct (has_prefix segment e.1); [|done].
  unfold bind, abort.
  destruct (deleteSegment_entry e w) eqn:He; try done.
  by apply deleteSegment_entry_no_throw in He.
Qed.

(** X7. deleteSegment returns only when no name of the table begins with
    the segment, and it has changed nothing then; with a name that begins
    with the segment it does not return. It throws in no state. *)
Theorem deleteSegment_outcome (segment : string) (w : World) :
  (forall w',
     deleteSegment segment w = Ok tt w' <->
     w' = w /\
     forall fname, occupied w fname -> ~ starts_with segment fname) /\
  (forall c w', deleteSegment segment w <> Throw c w').
Proof.
  unfold deleteSegment. rewrite !bind_get. split.
  - intros w'. split.
    + intros H. apply deleteSegment_loop_Ok in H as [-> Hall].
      split; [done |]. intros fname [p Hp] Hstart.
      apply has_prefix_spec in Hstart.
      rewrite Forall_forall in Hall.
      specialize (Hall (fname, p) ltac:(by apply elem_of_map_to_list)).
      simpl in Hall. congruence.
    + intros [-> Hnone]. apply deleteSegment_loop_no_match, Forall_forall.
      intros [fname p] Hin. apply elem_of_map_to_list in Hin. simpl.
      destruct (has_prefix segment fname) eqn:Hp; [|done].
      destruct (Hnone fname); [by exists p | by apply has_prefix_spec].
  - intros c w'. apply deleteSegment_loop_no_throw.
Qed.

(** ** The length of a file that was written *)

(** X8. After a writer wrote to a new file and was closed, fileLength on
    the name returns the number of bytes that were written, also when
    nothing was written. *)
Theorem fileLength_written (w : World) (fname : string)
    (chunks : list (list Z)) :
  absent w fname -> vsize (concat chunks) < 2 ^ 64 ->
  outcome (write_and_measure fname chunks w)
  = Returns (vsize (concat chunks)).
Proof.
  intros Habs Hsize. unfold write_and_measure.
  rewrite (bind_Ok _ _ _ _ _ (createOutput_absent w fname Habs)).
  set (l := fresh (dom (heap w))).
  set (w1 := {| files := _; heap := _; dummy_refs := _ |}).
  destruct (write_all_spec l chunks (Output.create l) (RAMFile.create fname) [] w1)
    as (o2 & f2 & Hall & Hw2 & Hl2 & [Hname Hrefs]);
    [done | apply lookup_insert_eq | apply created_writing
    | change (vsize []) with 0; lia |].
  rewrite (bind_Ok _ _ _ _ _ Hall). simpl in Hw2, Hname.
  destruct (close_written o2 f2 (concat chunks) (with_file l f2 w1))
    as (w3 & f3 & Hclose & Hc3 & Hf3 & Hst3 & Hrefs3); try done.
  { rewrite Hl2. apply with_file_lookup. }
  { rewrite Hname. unfold placeholder. simpl. apply lookup_insert_eq. }
  rewrite (bind_Ok _ _ _ _ _ Hclose). rewrite Hl2, Hname in *.
  rewrite (fileLength_committed fname l f3 w3 Hc3 Hf3). simpl.
  by rewrite (stored_length _ _ Hst3).
Qed.

Lemma fileLength_written_witness :
  outcome (write_and_measure "f" [[1; 2; 3]; []; [4]] empty_world) = Returns 4.
Proof.
  apply (fileLength_written empty_world "f" [[1; 2; 3]; []; [4]]); reflexivity.
Defined.

(** ** Replacing a file that is open for reading *)

(** X9. When a committed file with an open reader is deleted and a new
    file is written and committed under the same name, the name refers to a
    new file with the new length, while every read operation of a reader of
    the old file has the outcome it had before. *)
Theorem replace_file_keeps_readers (w : World) (fname : string) (l : nat)
    (f : RAMFile.t) (chunks : list (list Z)) :
  committed w fname l -> heap w !! l = Some f ->
  2 <= RAMFile.refs_ f -> vsize (concat chunks) < 2 ^ 64 ->
  exists w' l',
    replace_file fname chunks w = Ok tt w' /\
    committed w' fname l' /\ l' <> l /\
    fileLength fname w' = Ok (vsize (concat chunks)) w' /\
    heap w' !! l = Some (RAMFile.set_refs (RAMFile.refs_ f - 1) f) /\
    reads_alike l w w'.
Proof.
  intros Hc Hf Hrefs Hsize. unfold replace_file.
  rewrite (bind_Ok _ _ _ _ _
             (deleteFile_committed w fname l f Hc Hf
                ltac:(unfold INT_MIN; lia))).
  set (w0 := {| files := _; heap := _; dummy_refs := _ |}).
  assert (Hl0 : heap w0 !! l = Some (RAMFile.set_refs (RAMFile.refs_ f - 1) f)).
  { unfold w0. simpl. apply drop_ref_alive. lia. }
  assert (Habs : absent w0 fname).
  { unfold absent, w0. simpl. apply lookup_delete_eq. }
  rewrite (bind_Ok _ _ _ _ _ (createOutput_absent w0 fname Habs)).
  set (l' := fresh (dom (heap w0))).
  assert (Hne : l' <> l).
  { intros Heq. pose proof (fresh_not_allocated w0) as Hfresh.
    fold l' in Hfresh. rewrite Heq in Hfresh. congruence. }
  set (w1 := {| files := _; heap := _; dummy_refs := _ |}).
  destruct (write_all_spec l' chunks (Output.create l') (RAMFile.create fname) [] w1)
    as (o2 & f2 & Hall & Hw2 & Hl2 & [Hname Hrefs2]);
    [done | apply lookup_insert_eq | apply created_writing
    | change (vsize []) with 0; lia |].
  rewrite (bind_Ok _ _ _ _ _ Hall). simpl in Hw2, Hname.
  assert (Hf2 : heap (with_file l' f2 w1) !! Output.file o2 = Some f2).
  { rewrite Hl2. apply with_file_lookup. }
  assert (Hp2 : placeholder (with_file l' f2 w1) (RAMFile.name f2)).
  { rewrite Hname. unfold placeholder. simpl. apply lookup_insert_eq. }
  rewrite (Output_close_spec o2 _ f2 Hf2 Hp2). rewrite Hl2, Hname.
  set (w' := {| files := _; heap := _; dummy_refs := _ |}).
  assert (Hl' : heap w' !! l = Some (RAMFile.set_refs (RAMFile.refs_ f - 1) f)).
  { unfold w'. simpl. by rewrite !lookup_insert_ne. }
  assert (Hc' : committed w' fname l').
  { unfold committed, w'. simpl. apply lookup_insert_eq. }
  exists w', l'. split_and!; try done.
  - rewrite (fileLength_committed fname l' _ w' Hc' (lookup_insert_eq _ _ _)).
    simpl. f_equal.
    pose proof (writing_length _ _ _ Hw2). pose proof (writing_pos _ _ _ Hw2).
    lia.
  - apply same_data_reads_alike.
    by apply (same_data_set_refs l w w' f (RAMFile.refs_ f - 1)).
Qed.

Lemma replace_file_keeps_readers_witness :
  exists w' l',
    replace_file "f" [[1; 2]] world_two_readers = Ok tt w' /\
    committed w' "f" l' /\ l' <> 0%nat /\
    fileLength "f" w' = Ok (vsize (concat [[1; 2]])) w' /\
    heap w' !! 0%nat
    = Some (RAMFile.set_refs (RAMFile.refs_ (file_f 3) - 1) (file_f 3)) /\
    reads_alike 0 world_two_readers w'.
Proof.
  apply (replace_file_keeps_readers world_two_readers "f" 0 (file_f 3) [[1; 2]]);
    [reflexivity | reflexivity | simpl; lia | reflexivity].
Defined.

(** ** The destructor of the directory *)

Lemma distinct_files_cons (e : string * fileptr)
    (entries : list (string * fileptr)) :
  distinct_files (e :: entries) ->
  distinct_files entries /\
  forall l, e.2 = heap_file l -> forall e', e' ∈ entries -> e'.2 <> heap_file l.
Proof.
  intros Hd. split.
  - intros i j n1 n2 l Hi Hj.
    by injection (Hd (S i) (S j) n1 n2 l Hi Hj).
  - intros l He [n' p'] Hin Hp'. simpl in Hp'. subst p'.
    apply list_elem_of_lookup in Hin as [j Hj].
    destruct e as [n p]. simpl in He. subst p.
    by specialize (Hd 0%nat (S j) n n' l eq_refl Hj).
Qed.

Lemma dtor_entry_free (l : nat) (f : RAMFile.t) (w : World) :
  heap w !! l = Some f -> RAMFile.refs_ f = 1 ->
  RAMDirectory_dtor_entry (heap_file l) w
  = Ok tt (set_heap (delete l (heap w)) w).
Proof.
  intros Hf Hrefs.
  unfold RAMDirectory_dtor_entry, delete_ptr, delete_RAMFile, store_refs,
    bind, load, store, assert, decr_int, ret.
  repeat (rewrite ?Hf, ?Hrefs, ?lookup_insert_eq; simpl).
  f_equal. unfold set_heap. simpl. f_equal. apply delete_insert_eq.
Qed.

Lemma dtor_entry_open (l : nat) (f : RAMFile.t) (w : World) :
  heap w !! l = Some f -> RAMFile.refs_ f <> 1 ->
  RAMDirectory_dtor_entry (heap_file l) w
  = Fatal (AssertionFailed "Attempt to deallocate a file that is open for reading!").
Proof.
  intros Hf Hrefs. unfold RAMDirectory_dtor_entry.
  rewrite (bind_Ok _ _ _ _ _ (load_Some l f w Hf)).
  by rewrite (proj2 (Z.eqb_neq _ _) Hrefs).
Qed.

Lemma dtor_loop_free (entries : list (string * fileptr)) (w : World) :
  distinct_files entries ->
  (forall n l, (n, heap_file l) ∈ entries ->
     exists f, heap w !! l = Some f /\ RAMFile.refs_ f = 1) ->
  exists w',
    RAMDirectory_dtor_loop entries w = Ok tt w' /\
    files w' = files w /\ dummy_refs w' = dummy_refs w /\
    (forall n l, (n, heap_file l) ∈ entries -> heap w' !! l = None) /\
    (forall l, (forall n, (n, heap_file l) ∉ entries) ->
       heap w' !! l = heap w !! l).
Proof.
  revert w. induction entries as [|[n p] entries IH]; intros w Hd Hall.
  - exists w. simpl. split_and!; try done. intros n l Hin. by inversion Hin.
  - apply distinct_files_cons in Hd as [Hd Hhead]. simpl in Hhead.
    destruct p as [|l].
    + destruct (IH w Hd) as (w' & Hrun & Hfiles & Hdummy & Hfreed & Hkept).
      { intros n' l' Hin. apply (Hall n' l'). by right. }
      exists w'. simpl. rewrite bind_ret. split_and!; try done.
      * intros n' l' Hin. apply (Hfreed n' l').
        by apply elem_of_cons in Hin as [[=] | Hin].
      * intros l' Hnot. apply Hkept. intros n' Hin.
        apply (Hnot n'). by right.
    + destruct (Hall n l) as (f & Hf & Hrefs); [by left |].
      destruct (IH (set_heap (delete l (heap w)) w) Hd)
        as (w' & Hrun & Hfiles & Hdummy & Hfreed & Hkept).
      { intros n' l' Hin. simpl.
        assert (l' <> l).
        { intros ->. by apply (Hhead l eq_refl (n', heap_file l) Hin). }
        rewrite lookup_delete_ne by done. apply (Hall n' l'). by right. }
      exists w'. simpl.
      rewrite (bind_Ok _ _ _ _ _ (dtor_entry_free l f w Hf Hrefs)).
      split_and!; try done.
      * intros n' l' Hin. apply elem_of_cons in Hin as [[= -> ->] | Hin].
        -- rewrite Hkept; [simpl; apply lookup_delete_eq |].
           intros n'' Hin. by apply (Hhead l eq_refl (n'', heap_file l) Hin).
        -- by apply (Hfreed n' l').
      * intros l' Hnot. rewrite Hkept.
        -- simpl. apply lookup_delete_ne. intros ->.
           apply (Hnot n). by left.
        -- intros n' Hin. apply (Hnot n'). by right.
Qed.

Lemma dtor_loop_open (entries : list (string * fileptr)) (w : World) :
  distinct_files entries ->
  (forall n l, (n, heap_file l) ∈ entries -> is_Some (heap w !! l)) ->
  (exists n l f, (n, heap_file l) ∈ entries /\ heap w !! l = Some f /\
                 RAMFile.refs_ f <> 1) ->
  RAMDirectory_dtor_loop entries w
  = Fatal (AssertionFailed "Attempt to deallocate a file that is open for reading!").
Proof.
  revert w. induction entries as [|[n p] entries IH];
    intros w Hd Halive (n0 & l0 & f0 & Hin0 & Hf0 & Hrefs0).
  - by inversion Hin0.
  - apply distinct_files_cons in Hd as [Hd Hhead]. simpl in Hhead. simpl.
    destruct p as [|l].
    + try rewrite bind_ret. apply IH; [done | |].
      * intros n' l' Hin. apply (Halive n' l'). by right.
      * exists n0, l0, f0. split_and!; try done.
        by apply elem_of_cons in Hin0 as [[=] | Hin0].
    + destruct (Halive n l) as [f Hf]; [by left |].
      destruct (decide (RAMFile.refs_ f = 1)) as [Hrefs | Hrefs].
      * rewrite (bind_Ok _ _ _ _ _ (dtor_entry_free l f w Hf Hrefs)).
        assert (Hne : forall n' l', (n', heap_file l') ∈ entries -> l' <> l).
        { intros n' l' Hin ->.
          by apply (Hhead l eq_refl (n', heap_file l) Hin). }
        apply elem_of_cons in Hin0 as [[= -> ->] | Hin0]; [congruence |].
        apply IH; [done | |].
        -- intros n' l' Hin. simpl.
           rewrite lookup_delete_ne by (symmetry; by eapply Hne).
           apply (Halive n' l'). by right.
        -- exists n0, l0, f0. split_and!; try done. simpl.
           rewrite lookup_delete_ne by (symmetry; by eapply Hne). done.
      * by rewrite (bind_Fatal _ _ _ _ (dtor_entry_open l f w Hf Hrefs)).
Qed.

Lemma table_distinct_files (w : World) :
  table_sound w -> distinct_files (map_to_list (files w)).
Proof.
  intros [_ Hinj] i j n1 n2 l Hi Hj.
  assert (n1 = n2) as <-.
  { apply (Hinj n1 n2 l); apply elem_of_map_to_list;
      by eapply list_elem_of_lookup_2. }
  apply (NoDup_lookup _ i j _ (NoDup_map_to_list (files w)) Hi Hj).
Qed.

(** X10. In a directory whose files are alive and belong to one name each,
    the destructor frees every committed file when none of them is open for
    reading, and leaves the other objects as they are; when a committed file
    has a reference count other than 1, a reader being open, it stops at its
    assertion. *)
Theorem RAMDirectory_dtor_spec (w : World) :
  table_sound w ->
  ((forall fname l f, committed w fname l -> heap w !! l = Some f ->
      RAMFile.refs_ f = 1) ->
   exists w',
     RAMDirectory_dtor w = Ok tt w' /\
     files w' = files w /\ dummy_refs w' = dummy_refs w /\
     (forall fname l, committed w fname l -> heap w' !! l = None) /\
     (forall l, (forall fname, ~ committed w fname l) ->
        heap w' !! l = heap w !! l)) /\
  ((exists fname l f, committed w fname l /\ heap w !! l = Some f /\
                      RAMFile.refs_ f <> 1) ->
   RAMDirectory_dtor w
   = Fatal (AssertionFailed "Attempt to deallocate a file that is open for reading!")).
Proof.
  intros Hsound. pose proof (table_distinct_files w Hsound) as Hd.
  destruct Hsound as [Halive _]. unfold RAMDirectory_dtor. rewrite !bind_get.
  split.
  - intros Hrefs.
    destruct (dtor_loop_free (map_to_list (files w)) w Hd)
      as (w' & Hrun & Hfiles & Hdummy & Hfreed & Hkept).
    { intros n l Hin. apply elem_of_map_to_list in Hin.
      destruct (Halive n l Hin) as [f Hf]. exists f. split; [done |].
      by apply (Hrefs n l f). }
    exists w'. split_and!; try done.
    + intros fname l Hc. apply (Hfreed fname l).
      by apply elem_of_map_to_list.
    + intros l Hnot. apply Hkept. intros n Hin.
      apply elem_of_map_to_list in Hin. by apply (Hnot n).
  - intros (fname & l & f & Hc & Hf & Hrefs).
    apply dtor_loop_open; [done | |].
    + intros n l' Hin. apply elem_of_map_to_list in Hin. by apply (Halive n l').
    + exists fname, l, f. split_and!; try done. by apply elem_of_map_to_list.
Qed.

Lemma world_committed_locked_sound : table_sound world_committed_locked.
Proof.
  assert (Hc : forall n l, committed world_committed_locked n l ->
                 n = "f" /\ l = 0%nat).
  { intros n l Hc. unfold committed in Hc. simpl in Hc.
    apply lookup_insert_Some in Hc as [[<- [= <-]] | [_ Hc]]; [done |].
    by apply lookup_singleton_Some in Hc as [_ [=]]. }
  split.
  - intros n l [_ ->]%Hc. by eexists.
  - by intros n1 n2 l [-> _]%Hc [-> _]%Hc.
Qed.

Lemma world_two_readers_sound : table_sound world_two_readers.
Proof.
  assert (Hc : forall n l, committed world_two_readers n l ->
                 n = "f" /\ l = 0%nat).
  { intros n l Hc. unfold committed in Hc. simpl in Hc.
    by apply lookup_singleton_Some in Hc as [<- [= <-]]. }
  split.
  - intros n l [_ ->]%Hc. by eexists.
  - by intros n1 n2 l [-> _]%Hc [-> _]%Hc.
Qed.

Lemma RAMDirectory_dtor_spec_witness :
  (exists w',
     RAMDirectory_dtor world_committed_locked = Ok tt w' /\
     files w' = files world_committed_locked /\
     dummy_refs w' = dummy_refs world_committed_locked /\
     (forall fname l, committed world_committed_locked fname l ->
        heap w' !! l = None) /\
     (forall l, (forall fname, ~ committed world_committed_locked fname l) ->
        heap w' !! l = heap world_committed_locked !! l)) /\
  RAMDirectory_dtor world_two_readers
  = Fatal (AssertionFailed "Attempt to deallocate a file that is open for reading!").
Proof.
  split.
  - apply (RAMDirectory_dtor_spec world_committed_locked
             world_committed_locked_sound).
    intros fname l f Hc Hf.
    destruct (decide (l = 0%nat)) as [-> | Hne].
    + by injection Hf as <-.
    + unfold world_committed_locked in Hf. simpl in Hf.
      by rewrite lookup_singleton_ne in Hf.
  - apply (RAMDirectory_dtor_spec world_two_readers world_two_readers_sound).
    exists "f", 0%nat, (file_f 3). by split_and!.
Defined.

(** ** Storing over the bytes of a file *)

Lemma overwrite_length (q : nat) (ptr content : list Z) :
  (q <= List.length content)%nat ->
  List.length (overwrite q ptr content)
  = Nat.max (List.length content) (q + List.length ptr).
Proof.
  intros Hq. unfold overwrite.
  rewrite !length_app, length_take, length_drop. lia.
Qed.

Lemma overwrite_vsize (q : nat) (ptr content : list Z) :
  (q <= List.length content)%nat ->
  vsize (overwrite q ptr content)
  = Z.max (vsize content) (Z.of_nat q + vsize ptr).
Proof. intros Hq. unfold vsize. rewrite overwrite_length by done. lia. Qed.

Lemma overwrite_nil (q : nat) (content : list Z) :
  overwrite q [] content = content.
Proof. unfold overwrite. simpl. by rewrite Nat.add_0_r, take_drop. Qed.

Lemma overwrite_end (ptr content : list Z) :
  overwrite (List.length content) ptr content = content ++ ptr.
Proof.
  unfold overwrite. rewrite take_ge, drop_ge by lia. by rewrite app_nil_r.
Qed.

Lemma overwrite_lookup_lt (q : nat) (ptr content : list Z) (j : nat) :
  (j < q)%nat -> (q <= List.length content)%nat ->
  overwrite q ptr content !! j = content !! j.
Proof.
  intros Hj Hq. unfold overwrite.
  rewrite lookup_app_l by (rewrite length_take; lia).
  by rewrite lookup_take_lt.
Qed.

Lemma overwrite_lookup_in (q : nat) (ptr content : list Z) (k : nat) :
  (k < List.length ptr)%nat -> (q <= List.length content)%nat ->
  overwrite q ptr content !! (q + k)%nat = ptr !! k.
Proof.
  intros Hk Hq. unfold overwrite.
  rewrite lookup_app_r by (rewrite length_take; lia).
  rewrite length_take, lookup_app_l by lia. f_equal. lia.
Qed.

Lemma overwrite_lookup_ge (q : nat) (ptr content : list Z) (j : nat) :
  (q + List.length ptr <= j)%nat -> (q <= List.length content)%nat ->
  overwrite q ptr content !! j = content !! j.
Proof.
  intros Hj Hq. unfold overwrite.
  rewrite lookup_app_r by (rewrite length_take; lia).
  rewrite length_take, lookup_app_r by lia.
  rewrite lookup_drop. f_equal. lia.
Qed.

Lemma overwrite_app (q : nat) (a b content : list Z) :
  (q <= List.length content)%nat ->
  overwrite (q + List.length a) b (overwrite q a content)
  = overwrite q (a ++ b) content.
Proof.
  intros Hq. apply list_eq. intros j.
  assert (Hq' : (q + List.length a <= List.length (overwrite q a content))%nat).
  { rewrite overwrite_length by done. lia. }
  destruct (decide (j < q)%nat).
  - rewrite !overwrite_lookup_lt by lia. done.
  - destruct (decide (j < q + List.length a)%nat).
    + rewrite overwrite_lookup_lt by lia.
      replace j with (q + (j - q))%nat by lia.
      rewrite (overwrite_lookup_in q a content) by lia.
      rewrite (overwrite_lookup_in q (a ++ b) content)
        by (rewrite ?length_app; lia).
      by rewrite lookup_app_l by lia.
    + destruct (decide (j < q + List.length a + List.length b)%nat).
      * replace j with (q + List.length a + (j - q - List.length a))%nat at 1
          by lia.
        rewrite overwrite_lookup_in by lia.
        replace j with (q + (j - q))%nat by lia.
        rewrite (overwrite_lookup_in q (a ++ b) content)
          by (rewrite ?length_app; lia).
        rewrite lookup_app_r by lia. f_equal. lia.
      * rewrite (overwrite_lookup_ge (q + List.length a)) by lia.
        rewrite (overwrite_lookup_ge q a) by lia.
        rewrite (overwrite_lookup_ge q (a ++ b)) by (rewrite ?length_app; lia).
        done.
Qed.

Lemma blit_lookup_ge (off : nat) (cs : list Z) (blk : block) (j : nat) :
  (off + List.length cs <= j)%nat -> (off <= List.length blk)%nat ->
  blit off cs blk !! j = blk !! j.
Proof.
  intros Hj Hoff. unfold blit.
  rewrite lookup_app_r by (rewrite length_take; lia).
  rewrite length_take, lookup_app_r by (rewrite length_fmap; lia).
  rewrite length_fmap, lookup_drop. f_equal. lia.
Qed.

(** Storing [ptr] at position [q] of the bytes that are there. *)
Lemma holds_overwrite (f : RAMFile.t) (cb off : nat) (blk : block)
    (content ptr : list Z) (q : nat) :
  holds f content -> RAMFile.blocks_ f !! cb = Some blk ->
  vsize blk = kBlockSize ->
  Z.of_nat q = Z.of_nat cb * kBlockSize + Z.of_nat off ->
  (q <= List.length content)%nat ->
  (off + List.length ptr <= List.length blk)%nat ->
  holds (RAMFile.set_blocks (<[cb := blit off ptr blk]> (RAMFile.blocks_ f)) f)
        (overwrite q ptr content).
Proof.
  intros Hh Hb Hsize Hpos Hq Hlen j c Hj. unfold vsize in *.
  assert (Hcb : (cb < List.length (RAMFile.blocks_ f))%nat)
    by (by eapply lookup_lt_Some).
  pose proof kBlockSize_eq as HB.
  destruct (decide (q <= j < q + List.length ptr)%nat) as [Hin | Hout].
  - replace j with (q + (j - q))%nat in Hj by lia.
    rewrite overwrite_lookup_in in Hj by lia.
    replace (Z.of_nat j)
      with (Z.of_nat cb * kBlockSize + Z.of_nat (off + (j - q))) by lia.
    rewrite (cell_at _ cb _ (blit off ptr blk)).
    + apply blit_lookup_in; [lia | done].
    + simpl. by apply list_lookup_insert_eq.
    + lia.
  - assert (Hc : content !! j = Some c).
    { destruct (decide (j < q)%nat).
      - by rewrite overwrite_lookup_lt in Hj by lia.
      - by rewrite overwrite_lookup_ge in Hj by lia. }
    specialize (Hh j c Hc). unfold cell in *. simpl.
    destruct (at_ (RAMFile.blocks_ f) _) as [blk'|] eqn:Hb'; [|done].
    apply at_Some_lt in Hb' as Hlt'. rewrite at_lookup in Hb' |- * by lia.
    destruct (decide (Z.to_nat (Z.of_nat j / kBlockSize) = cb)) as [Heq|Hne].
    + rewrite Heq in *. rewrite list_lookup_insert_eq by done.
      assert (blk' = blk) as -> by congruence.
      rewrite at_lookup in Hh |- * by blocks_lia.
      destruct (decide (j < q)%nat).
      * rewrite blit_lookup_lt; [done | blocks_lia | lia].
      * rewrite blit_lookup_ge; [done | blocks_lia | lia].
    + by rewrite list_lookup_insert_ne, Hb' by done.
Qed.

(** ** The writer at any position of its file *)

Lemma created_editing (l : nat) (fname : string) :
  editing (Output.create l) (RAMFile.create fname) [].
Proof.
  pose proof kBlockSize_eq.
  split; simpl; try done; try apply holds_nil; try constructor;
    change (vsize []) with 0; lia.
Qed.

Lemma editing_small (o : Output.t) (f : RAMFile.t) (content : list Z) :
  editing o f content -> Output.buf o = None -> content = [].
Proof.
  intros [_ _ _ _ Hroom _ Hbuf] Hnone. rewrite Hnone in Hbuf.
  destruct Hbuf as (Hnil & _). rewrite Hnil in Hroom.
  destruct content; [done |]. unfold vsize in Hroom. simpl in Hroom. lia.
Qed.

Section editor.
Context (l : nat).

Lemma ed_init (o : Output.t) (f : RAMFile.t) (content : list Z) (w : World) :
  Output.file o = l -> heap w !! l = Some f ->
  editing o f content -> Output.buf o = None ->
  exists o' f',
    Output_initInternalBuffer o w = Ok o' (with_file l f' w) /\
    editing o' f' content /\ Output.buf o' = Some 0 /\ Output.bufCur o' = 0 /\
    Output.file o' = l /\ same_file f f' /\ Output.pos o' = Output.pos o.
Proof.
  intros Hl Hf He Hnone. pose proof (editing_small o f content He Hnone) as ->.
  destruct He as [Hbl Hh Hpos Hlen Hroom Htight Hbuf]. rewrite Hnone in Hbuf.
  destruct Hbuf as (Hnil & Hcur & Hend & Hstart & Hcb & Hpos0).
  exists (Output.set_bufCur 0 (Output.set 0 kBlockSize o)), (RAMFile.alloc f).
  split_and!; try done.
  - unfold Output_initInternalBuffer. rewrite Hl.
    rewrite (bind_Ok _ _ _ _ _ (load_Some _ _ _ Hf)).
    rewrite (bind_Ok _ _ _ _ _ (store_Some _ _ (RAMFile.alloc f) _ Hf)).
    erewrite (bind_Ok _ _ _ _ tt); [reflexivity |].
    eapply (block_exists_Some _ _ (RAMFile.alloc f) _ new_block).
    + apply lookup_insert_eq.
    + simpl. by rewrite Hnil.
  - pose proof kBlockSize_eq as HB.
    split; simpl; try done; rewrite ?Hnil; simpl.
    + constructor; [apply new_block_size | constructor].
    + change (vsize []) with 0. change (vsize [new_block]) with 1. lia.
    + change (vsize []) with 0. change (vsize [new_block]) with 1. lia.
    + change (vsize [new_block]) with 1. split_and!; try done; lia.
Qed.

Lemma ed_writeImpl_full (o : Output.t) (f : RAMFile.t) (content : list Z)
    (w : World) :
  Output.file o = l -> heap w !! l = Some f ->
  editing o f content -> is_Some (Output.buf o) ->
  Output.bufCur o = kBlockSize -> vsize content < 2 ^ 64 ->
  exists cb' f',
    writeImpl o w
    = Ok (Output.mk (Some cb') 0 (Output.bufCur o) kBlockSize (Output.pos o)
            l cb')
         (with_file l f' w) /\
    editing (Output.mk (Some cb') 0 0 kBlockSize (Output.pos o) l cb')
            f' content /\
    same_file f f'.
Proof.
  intros Hl Hf [Hbl Hh Hpos Hlen Hroom Htight Hbuf] [cb Hcb] Hfull Hsmall.
  rewrite Hcb in Hbuf.
  destruct Hbuf as (Hcb0 & Hcur & Hstart & Hrange & Hend & Hsize & Hpos').
  pose proof kBlockSize_eq as HB.
  pose proof (vsize_nonneg (RAMFile.blocks_ f)) as Hn.
  assert (Hcb1 : cb + 1 < 2 ^ 64) by (rewrite HB in *; lia).
  assert (Hblocks : vsize (RAMFile.blocks_ f) - 1 < 2 ^ 64)
    by (rewrite HB in *; lia).
  set (f1 := RAMFile.set_length (Z.max (RAMFile.length f) (Output.pos o)) f).
  set (f2 := if decide (cb = vsize (RAMFile.blocks_ f) - 1)
             then RAMFile.alloc f1 else f1).
  exists (cb + 1), f2. split_and!.
  - unfold writeImpl.
    destruct (update_length_spec o w f) as (w1 & Hu & Hfs & Hd & Hh1);
      [by rewrite Hl |].
    rewrite (bind_Ok _ _ _ _ _ Hu), Hfull, Hend, Z.eqb_refl, Hl.
    assert (Hf1 : heap w1 !! l = Some f1)
      by (rewrite Hh1, Hl; apply lookup_insert_eq).
    rewrite (bind_Ok _ _ _ _ _ (load_Some _ _ _ Hf1)). simpl.
    rewrite Hcur, (u64_small (vsize _ - 1)), (u64_small (cb + 1)) by lia.
    assert (Hw1 : with_file l f1 w = w1).
    { unfold with_file, set_heap. destruct w1. simpl in *.
      by rewrite Hfs, Hd, Hh1, Hl. }
    unfold f2. destruct (decide (cb = _)) as [Heq | Hne].
    + rewrite (proj2 (Z.eqb_eq _ _) Heq).
      rewrite (bind_Ok _ _ _ _ _ (store_Some _ _ (RAMFile.alloc f1) _ Hf1)).
      simpl. rewrite Hl.
      erewrite (bind_Ok _ _ _ _ tt); last first.
      { eapply (block_exists_Some _ _ (RAMFile.alloc f1) _ new_block).
        - apply lookup_insert_eq.
        - rewrite at_lookup by lia. simpl.
          rewrite lookup_app_r by (unfold vsize in *; lia).
          by replace (Z.to_nat (cb + 1) - List.length (RAMFile.blocks_ f))%nat
            with 0%nat by (unfold vsize in *; lia). }
      unfold ret. f_equal.
      * unfold Output.set, Output.set_current_block. simpl.
        by rewrite Hl, Hfull.
      * rewrite <- Hw1. unfold with_file, set_heap. simpl.
        by rewrite insert_insert_eq.
    + rewrite (proj2 (Z.eqb_neq _ _) Hne). rewrite bind_ret. simpl. rewrite Hl.
      destruct (lookup_lt_is_Some_2 (RAMFile.blocks_ f) (Z.to_nat (cb + 1)))
        as [blk Hblk]; [unfold vsize in *; lia |].
      erewrite (bind_Ok _ _ _ _ tt); last first.
      { eapply (block_exists_Some _ _ f1 _ blk); [done |].
        by rewrite at_lookup by lia. }
      unfold ret. f_equal; [|done].
      unfold Output.set, Output.set_current_block. simpl. by rewrite Hl, Hfull.
  - unfold f2. destruct (decide (cb = _)) as [Heq | Hne].
    + split; simpl; try done.
      * apply Forall_app. split; [done |].
        constructor; [apply new_block_size | constructor].
      * apply holds_alloc. intros q c Hq. apply (Hh q c Hq).
      * lia.
      * rewrite vsize_app. change (vsize [new_block]) with 1. lia.
      * rewrite vsize_app. change (vsize [new_block]) with 1. lia.
      * rewrite vsize_app. change (vsize [new_block]) with 1.
        split_and!; try done; lia.
    + split; simpl; try done.
      * lia.
      * split_and!; try done; lia.
  - unfold f2. by destruct (decide _).
Qed.

Lemma ed_flush_full (o : Output.t) (f : RAMFile.t) (content : list Z)
    (w : World) :
  Output.file o = l -> heap w !! l = Some f ->
  editing o f content -> is_Some (Output.buf o) ->
  Output.bufCur o = kBlockSize -> vsize content < 2 ^ 64 ->
  exists o' f',
    flushNonEmpty o w = Ok o' (with_file l f' w) /\
    editing o' f' content /\ is_Some (Output.buf o') /\ Output.bufCur o' = 0 /\
    Output.file o' = l /\ same_file f f' /\ Output.pos o' = Output.pos o.
Proof.
  intros Hl Hf He Hsome Hfull Hsmall.
  destruct (ed_writeImpl_full o f content w Hl Hf He Hsome Hfull Hsmall)
    as (cb' & f' & Hw & He' & Hs).
  destruct He as [_ _ _ _ _ _ Hbuf]. destruct Hsome as [cb Hcb].
  rewrite Hcb in Hbuf.
  destruct Hbuf as (Hcb0 & Hcur & Hstart & Hrange & Hend & Hsize & Hpos').
  pose proof kBlockSize_eq as HB.
  eexists _, f'. unfold flushNonEmpty.
  assert (Hne : negb (Output.getNumWritableBytes o =? 0) = true).
  { unfold Output.getNumWritableBytes. rewrite u64_small by lia.
    apply negb_true_iff, Z.eqb_neq. lia. }
  rewrite Hne, (bind_Ok _ _ _ _ _ (assert_true _ w)).
  rewrite (bind_Ok _ _ _ _ _ Hw). split; [reflexivity |].
  by split_and!.
Qed.

Lemma ed_flush_partial (o : Output.t) (f : RAMFile.t) (content : list Z)
    (w : World) :
  Output.file o = l -> heap w !! l = Some f ->
  editing o f content -> is_Some (Output.buf o) ->
  Output.bufStart o < Output.bufCur o < kBlockSize ->
  exists f',
    flushNonEmpty o w
    = Ok (Output.set_bufStart (Output.bufCur o) o) (with_file l f' w) /\
    editing (Output.set_bufStart (Output.bufCur o) o) f' content /\
    same_file f f'.
Proof.
  intros Hl Hf [Hbl Hh Hpos Hlen Hroom Htight Hbuf] [cb Hcb] Hpart.
  pose proof Hbuf as Hbuf'. rewrite Hcb in Hbuf.
  destruct Hbuf as (Hcb0 & Hcur & Hstart & Hrange & Hend & Hsize & Hpos').
  pose proof kBlockSize_eq as HB.
  set (f1 := RAMFile.set_length (Z.max (RAMFile.length f) (Output.pos o)) f).
  exists f1. unfold flushNonEmpty.
  assert (Hne : negb (Output.getNumWritableBytes o =? 0) = true).
  { unfold Output.getNumWritableBytes. rewrite u64_small by lia.
    apply negb_true_iff, Z.eqb_neq. lia. }
  rewrite Hne, (bind_Ok _ _ _ _ _ (assert_true _ w)).
  destruct (update_length_spec o w f) as (w1 & Hu & Hfs & Hd & Hh1);
    [by rewrite Hl |].
  assert (Hw1 : with_file l f1 w = w1).
  { unfold with_file, set_heap. destruct w1. simpl in *.
    by rewrite Hfs, Hd, Hh1, Hl. }
  split_and!.
  - assert (Hw : writeImpl o w
                 = Ok (Output.set_bufStart (Output.bufCur o) o) w1).
    { unfold writeImpl. rewrite (bind_Ok _ _ _ _ _ Hu), Hend.
      by rewrite (proj2 (Z.eqb_neq _ _)) by lia. }
    rewrite (bind_Ok _ _ _ _ _ Hw), Hw1. unfold ret. f_equal.
  - split; simpl; try done; [lia |].
    rewrite Hcb. split_and!; try done; lia.
  - by split.
Qed.

Lemma ed_copy (o : Output.t) (f : RAMFile.t) (content ptr : list Z)
    (w : World) :
  Output.file o = l -> heap w !! l = Some f ->
  editing o f content -> is_Some (Output.buf o) ->
  Output.bufCur o + vsize ptr <= kBlockSize ->
  Output.pos o + vsize ptr < 2 ^ 64 ->
  exists f',
    copyToBuffer ptr o w
    = Ok (Output.set_bufCur (Output.bufCur o + vsize ptr) o) (with_file l f' w) /\
    editing (Output.set_pos (u64 (Output.pos o + vsize ptr))
               (Output.set_bufCur (Output.bufCur o + vsize ptr) o))
            f' (overwrite (Z.to_nat (Output.pos o)) ptr content) /\
    same_file f f'.
Proof.
  intros Hl Hf [Hbl Hh Hpos Hlen Hroom Htight Hbuf] [cb Hcb] Hfit Hsmall.
  rewrite Hcb in Hbuf.
  destruct Hbuf as (Hcb0 & Hcur & Hstart & Hrange & Hend & Hsize & Hpos').
  pose proof kBlockSize_eq as HB. pose proof (vsize_nonneg ptr) as Hptr.
  assert (at_ (RAMFile.blocks_ f) cb = Some (default [] (at_ (RAMFile.blocks_ f) cb)))
    as Hb.
  { rewrite at_lookup by lia.
    destruct (lookup_lt_is_Some_2 (RAMFile.blocks_ f) (Z.to_nat cb)) as [b ->];
      [unfold vsize in *; lia | done]. }
  set (blk := default [] _) in Hb. rewrite at_lookup in Hb by lia.
  assert (Hblk : vsize blk = kBlockSize).
  { eapply (Forall_lookup_1 _ _ _ _ Hbl Hb). }
  set (off := Z.to_nat (Output.bufCur o)).
  assert (Hq : (Z.to_nat (Output.pos o) <= List.length content)%nat)
    by (unfold vsize in *; lia).
  exists (RAMFile.set_blocks
            (<[Z.to_nat cb := blit off ptr blk]> (RAMFile.blocks_ f)) f).
  split_and!.
  - apply (copyToBuffer_spec o l (Z.to_nat cb)); try done.
    + rewrite Hcb. f_equal. lia.
    + unfold off. lia.
    + congruence.
    + lia.
    + unfold vsize, off in *. lia.
  - split; simpl.
    + apply Forall_insert; [done |]. unfold vsize.
      rewrite blit_length; unfold vsize, off in *; lia.
    + apply holds_overwrite; try done; unfold vsize, off in *; lia.
    + rewrite u64_small, overwrite_vsize by lia. lia.
    + rewrite u64_small, overwrite_vsize by lia. lia.
    + rewrite overwrite_vsize by lia. unfold vsize in *.
      rewrite length_insert. lia.
    + rewrite overwrite_vsize by lia. unfold vsize in *.
      rewrite length_insert. lia.
    + rewrite Hcb. unfold vsize in *. rewrite length_insert.
      rewrite u64_small by lia. split_and!; try done; lia.
  - by split.
Qed.

Lemma ed_write_rec (fuel : nat) (ptr : list Z) (o : Output.t)
    (f : RAMFile.t) (content : list Z) (w : World) :
  Output.file o = l -> heap w !! l = Some f ->
  editing o f content ->
  Output.pos o + vsize ptr < 2 ^ 64 -> vsize content < 2 ^ 64 ->
  (write_calls ptr o < fuel)%nat ->
  exists o' f',
    write_rec fuel ptr o w = Ok o' (with_file l f' w) /\
    editing o' f' (overwrite (Z.to_nat (Output.pos o)) ptr content) /\
    Output.file o' = l /\ same_file f f' /\
    Output.pos o' = Output.pos o + vsize ptr.
Proof.
  revert ptr o f content w.
  induction fuel as [|fuel IH];
    intros ptr o f content w Hl Hf Hw Hsmall Hcontent Hfuel; [lia |].
  pose proof kBlockSize_eq as HB. pose proof (vsize_nonneg ptr) as Hptr.
  pose proof (vsize_nonneg content) as Hwritten.
  pose proof Hw as [Hbl Hh Hpos Hlen Hroom Htight Hbuf]. simpl.
  unfold write_calls in Hfuel.
  destruct (Output.buf o) as [cb|] eqn:Hcb.
  - destruct Hbuf as (Hcb0 & Hcur & Hstart & Hrange & Hend & Hsize & Hpos').
    assert (Hav : Output.available o = kBlockSize - Output.bufCur o).
    { unfold Output.available. rewrite Hend, u64_small; lia. }
    rewrite Hav. destruct (Z.ltb_spec (kBlockSize - Output.bufCur o) (vsize ptr))
      as [Hlt|Hge].
    + unfold Output.hasBuffer. rewrite Hcb, bool_decide_true by done. simpl.
      set (avail := Z.to_nat (kBlockSize - Output.bufCur o)).
      assert (Htake : vsize (take avail ptr) = kBlockSize - Output.bufCur o).
      { unfold vsize, avail in *. rewrite length_take. lia. }
      destruct (ed_copy o f content (take avail ptr) w Hl Hf Hw)
        as (f1 & Hcopy & Hw1 & Hs1); [by rewrite Hcb | lia | lia |].
      rewrite (bind_Ok _ _ _ _ _ Hcopy). rewrite Htake in *.
      set (o1 := Output.set_pos _ _) in *.
      set (q := Z.to_nat (Output.pos o)) in *.
      assert (Hq : (q <= List.length content)%nat)
        by (unfold q, vsize in *; lia).
      assert (Hc1 : vsize (overwrite q (take avail ptr) content) < 2 ^ 64).
      { rewrite overwrite_vsize by done. unfold q. lia. }
      destruct (ed_flush_full o1 f1 (overwrite q (take avail ptr) content)
                  (with_file l f1 w))
        as (o2 & f2 & Hflush & Hw2 & Hbuf2 & Hcur2 & Hl2 & Hs2 & Hpos2);
        [done | apply with_file_lookup | done
        | unfold o1; simpl; by rewrite Hcb | simpl; lia | done |].
      rewrite (bind_Ok _ _ _ _ _ Hflush), with_file_with_file.
      assert (Hpos1 : Output.pos o2 = Output.pos o + (kBlockSize - Output.bufCur o)).
      { rewrite Hpos2. unfold o1. simpl. rewrite u64_small; lia. }
      destruct (IH (drop avail ptr) o2 f2 (overwrite q (take avail ptr) content)
                  (with_file l f2 w))
        as (o3 & f3 & Hrec & Hw3 & Hl3 & Hs3 & Hpos3);
        [done | apply with_file_lookup | done | | done | |].
      { rewrite Hpos1. unfold vsize in *. rewrite length_drop. lia. }
      { unfold write_calls in *. destruct Hbuf2 as [cb2 ->]. rewrite Hcur2.
        rewrite length_drop. unfold avail.
        destruct (Z.eqb_spec 0 kBlockSize); [lia |].
        destruct (Z.eqb_spec (Output.bufCur o) kBlockSize); unfold vsize in *; lia. }
      rewrite Hrec, with_file_with_file. exists o3, f3. split_and!; try done.
      * replace (Z.to_nat (Output.pos o2))
          with (q + List.length (take avail ptr))%nat in Hw3
          by (unfold q, vsize in *; lia).
        by rewrite overwrite_app, take_drop in Hw3.
      * eauto using same_file_trans.
      * rewrite Hpos3, Hpos1. unfold vsize in *. rewrite length_drop. lia.
    + destruct (ed_copy o f content ptr w Hl Hf Hw) as (f1 & Hcopy & Hw1 & Hs1);
        [by rewrite Hcb | lia | lia |].
      rewrite (bind_Ok _ _ _ _ _ Hcopy). eexists _, f1.
      split_and!; try done. simpl. rewrite u64_small; lia.
  - pose proof (editing_small o f content Hw Hcb) as ->.
    destruct Hbuf as (Hnil & Hcur & Hend & Hstart & Hcb0 & Hpos0).
    assert (Hav : Output.available o = 0).
    { unfold Output.available. by rewrite Hend, Hcur. }
    rewrite Hav. destruct (Z.ltb_spec 0 (vsize ptr)) as [Hlt|Hge].
    + unfold Output.hasBuffer. rewrite Hcb, bool_decide_false by (by intros [? ?]).
      simpl.
      destruct (ed_init o f [] w Hl Hf Hw Hcb)
        as (o1 & f1 & Hinit & Hw1 & Hbuf1 & Hcur1 & Hl1 & Hs1 & Hpos1).
      rewrite (bind_Ok _ _ _ _ _ Hinit).
      destruct (IH ptr o1 f1 [] (with_file l f1 w))
        as (o2 & f2 & Hrec & Hw2 & Hl2 & Hs2 & Hpos2);
        [done | apply with_file_lookup | done | by rewrite Hpos1 | done | |].
      { unfold write_calls in *. rewrite Hbuf1, Hcur1.
        destruct (Z.eqb_spec 0 kBlockSize); lia. }
      rewrite Hrec, with_file_with_file. exists o2, f2.
      rewrite Hpos1 in *. split_and!; try done.
      eauto using same_file_trans.
    + assert (ptr = []) as ->.
      { destruct ptr; [done |]. unfold vsize in *. simpl in *. lia. }
      rewrite (bind_Ok _ _ _ _ _ (copy_nil_spec o w)).
      rewrite overwrite_nil. change (vsize []) with 0. simpl.
      rewrite !Z.add_0_r, u64_small by lia.
      eexists _, f. split_and!; [by rewrite with_file_id | | done | done | done].
      simpl. split; simpl; try done.
      rewrite Hcb, Hcur. by split_and!.
Qed.

Lemma ed_write (ptr : list Z) (o : Output.t) (f : RAMFile.t)
    (content : list Z) (w : World) :
  Output.file o = l -> heap w !! l = Some f ->
  editing o f content ->
  Output.pos o + vsize ptr < 2 ^ 64 -> vsize content < 2 ^ 64 ->
  exists o' f',
    write ptr o w = Ok o' (with_file l f' w) /\
    editing o' f' (overwrite (Z.to_nat (Output.pos o)) ptr content) /\
    Output.file o' = l /\ same_file f f' /\
    Output.pos o' = Output.pos o + vsize ptr.
Proof.
  intros Hl Hf Hw Hsmall Hcontent. apply ed_write_rec; try done.
  unfold write_calls. repeat case_match; lia.
Qed.
End editor.

Section editor_calls.
Context (l : nat).

Lemma ed_store_byte (c : Z) (o : Output.t) (f : RAMFile.t)
    (content : list Z) (w : World) :
  Output.file o = l -> heap w !! l = Some f ->
  editing o f content -> is_Some (Output.buf o) ->
  Output.bufCur o < kBlockSize -> Output.pos o + 1 < 2 ^ 64 ->
  exists f',
    put_at (Output.set_pos (u64 (Output.pos o + 1)) o) 0 c w
    = Ok tt (with_file l f' w) /\
    editing (Output.set_bufCur (Output.bufCur o + 1)
               (Output.set_pos (u64 (Output.pos o + 1)) o))
            f' (overwrite (Z.to_nat (Output.pos o)) [c] content) /\
    same_file f f'.
Proof.
  intros Hl Hf [Hbl Hh Hpos Hlen Hroom Htight Hbuf] [cb Hcb] Hfit Hsmall.
  rewrite Hcb in Hbuf.
  destruct Hbuf as (Hcb0 & Hcur & Hstart & Hrange & Hend & Hsize & Hpos').
  pose proof kBlockSize_eq as HB.
  destruct (lookup_lt_is_Some_2 (RAMFile.blocks_ f) (Z.to_nat cb)) as [blk Hb];
    [unfold vsize in *; lia |].
  assert (Hblk : vsize blk = kBlockSize).
  { eapply (Forall_lookup_1 _ _ _ _ Hbl Hb). }
  set (off := Z.to_nat (Output.bufCur o)).
  assert (Hq : (Z.to_nat (Output.pos o) <= List.length content)%nat)
    by (unfold vsize in *; lia).
  assert (Hblit : <[off := Some c]> blk = blit off [c] blk).
  { rewrite <- blit_cons by (unfold vsize, off in *; lia). by rewrite blit_nil. }
  exists (RAMFile.set_blocks
            (<[Z.to_nat cb := blit off [c] blk]> (RAMFile.blocks_ f)) f).
  split_and!.
  - rewrite <- Hblit.
    apply (put_at_spec _ l (Z.to_nat cb)); try done.
    + simpl. rewrite Hcb. f_equal. lia.
    + simpl. unfold off. lia.
    + unfold vsize, off in *. lia.
  - split; simpl.
    + apply Forall_insert; [done |]. unfold vsize.
      rewrite blit_length; unfold vsize, off in *; simpl; lia.
    + apply holds_overwrite; try done; unfold vsize, off in *; simpl; lia.
    + rewrite u64_small, overwrite_vsize by lia. change (vsize [c]) with 1. lia.
    + rewrite u64_small, overwrite_vsize by lia. change (vsize [c]) with 1. lia.
    + rewrite overwrite_vsize by lia. change (vsize [c]) with 1.
      unfold vsize in *. rewrite length_insert. lia.
    + rewrite overwrite_vsize by lia. change (vsize [c]) with 1.
      unfold vsize in *. rewrite length_insert. lia.
    + rewrite Hcb. unfold vsize in *. rewrite length_insert.
      rewrite u64_small by lia. split_and!; try done; lia.
  - by split.
Qed.

Lemma ed_writeByte (c : Z) (o : Output.t) (f : RAMFile.t)
    (content : list Z) (w : World) :
  Output.file o = l -> heap w !! l = Some f ->
  editing o f content ->
  Output.pos o + 1 < 2 ^ 64 -> vsize content < 2 ^ 64 ->
  exists o' f',
    writeByte c o w = Ok o' (with_file l f' w) /\
    editing o' f' (overwrite (Z.to_nat (Output.pos o)) [c] content) /\
    Output.file o' = l /\ same_file f f' /\
    Output.pos o' = Output.pos o + 1.
Proof.
  intros Hl Hf He Hsmall Hcontent. pose proof kBlockSize_eq as HB.
  assert (Hstore : forall o f w,
    Output.file o = l -> heap w !! l = Some f -> editing o f content ->
    is_Some (Output.buf o) -> Output.bufCur o < kBlockSize ->
    Output.pos o + 1 < 2 ^ 64 ->
    exists o' f',
      (let o1 := Output.set_pos (u64 (Output.pos o + 1)) o in
       let* _ := put_at o1 0 c in
       ret (Output.set_bufCur (Output.bufCur o1 + 1) o1)) w
      = Ok o' (with_file l f' w) /\
      editing o' f' (overwrite (Z.to_nat (Output.pos o)) [c] content) /\
      Output.file o' = l /\ same_file f f' /\
      Output.pos o' = Output.pos o + 1).
  { clear o f w Hl Hf He Hsmall. intros o f w Hl Hf He Hsome Hfit Hsmall.
    destruct (ed_store_byte c o f content w Hl Hf He Hsome Hfit Hsmall)
      as (f' & Hput & He' & Hs).
    simpl. rewrite (bind_Ok _ _ _ _ _ Hput). eexists _, f'.
    split_and!; try done. simpl. rewrite u64_small; [done |].
    destruct He. lia. }
  pose proof He as [Hbl Hh Hpos Hlen Hroom Htight Hbuf].
  unfold writeByte. simpl.
  destruct (Output.buf o) as [cb|] eqn:Hcb.
  - destruct Hbuf as (Hcb0 & Hcur & Hstart & Hrange & Hend & Hsize & Hpos').
    assert (Hav : Output.available o = kBlockSize - Output.bufCur o).
    { unfold Output.available. rewrite Hend, u64_small; lia. }
    rewrite Hav.
    destruct (Z.eqb_spec (kBlockSize - Output.bufCur o) 0) as [Hfull | Hroom'].
    + unfold Output.hasBuffer. rewrite Hcb, bool_decide_true by done. simpl.
      destruct (ed_flush_full l o f content w Hl Hf He)
        as (o2 & f2 & Hflush & He2 & Hbuf2 & Hcur2 & Hl2 & Hs2 & Hpos2);
        [by rewrite Hcb | lia | done |].
      rewrite (bind_Ok _ _ _ _ _ Hflush).
      destruct (Hstore o2 f2 (with_file l f2 w))
        as (o3 & f3 & Hrun & He3 & Hl3 & Hs3 & Hpos3);
        [done | apply with_file_lookup | done | done | lia | lia |].
      simpl in Hrun. rewrite Hrun, with_file_with_file.
      exists o3, f3. rewrite Hpos2 in *. split_and!; try done.
      eauto using same_file_trans.
    + destruct (Hstore o f w) as (o3 & f3 & Hrun & He3 & Hl3 & Hs3 & Hpos3);
        [done | done | done | by rewrite Hcb | lia | lia |].
      simpl in Hrun. rewrite Hrun. by exists o3, f3.
  - destruct Hbuf as (Hnil & Hcur & Hend & Hstart & Hcb0 & Hpos0).
    assert (Hav : Output.available o = 0).
    { unfold Output.available. by rewrite Hend, Hcur. }
    rewrite Hav. simpl.
    unfold Output.hasBuffer. rewrite Hcb, bool_decide_false by (by intros [? ?]).
    simpl.
    destruct (ed_init l o f content w Hl Hf He Hcb)
      as (o1 & f1 & Hinit & He1 & Hbuf1 & Hcur1 & Hl1 & Hs1 & Hpos1).
    rewrite (bind_Ok _ _ _ _ _ Hinit).
    pose proof He1 as [_ _ _ _ _ _ Hbuf1']. rewrite Hbuf1 in Hbuf1'.
    destruct Hbuf1' as (_ & _ & _ & _ & Hend1 & _ & _).
    assert (Hav1 : Output.available o1 = kBlockSize).
    { unfold Output.available. rewrite Hend1, Hcur1, u64_small; lia. }
    rewrite Hav1. destruct (Z.eqb_spec kBlockSize 0) as [|_]; [lia |].
    destruct (Hstore o1 f1 (with_file l f1 w))
      as (o3 & f3 & Hrun & He3 & Hl3 & Hs3 & Hpos3);
      [done | apply with_file_lookup | done | by rewrite Hbuf1 | lia | lia |].
    simpl in Hrun. rewrite Hrun, with_file_with_file.
    exists o3, f3. rewrite Hpos1 in *. split_and!; try done.
    eauto using same_file_trans.
Qed.

Lemma ed_flush (o : Output.t) (f : RAMFile.t) (content : list Z) (w : World) :
  Output.file o = l -> heap w !! l = Some f ->
  editing o f content -> vsize content < 2 ^ 64 ->
  exists o' f',
    flush o w = Ok o' (with_file l f' w) /\
    editing o' f' content /\ Output.file o' = l /\ same_file f f' /\
    Output.pos o' = Output.pos o.
Proof.
  intros Hl Hf He Hcontent. pose proof kBlockSize_eq as HB.
  pose proof He as [Hbl Hh Hpos Hlen Hroom Htight Hbuf]. unfold flush.
  destruct (Z.eqb_spec (Output.bufCur o) (Output.bufStart o)) as [Heq | Hne];
    simpl.
  - exists o, f. split_and!; try done. by rewrite with_file_id.
  - destruct (Output.buf o) as [cb|] eqn:Hcb.
    + destruct Hbuf as (Hcb0 & Hcur & Hstart & Hrange & Hend & Hsize & Hpos').
      destruct (decide (Output.bufCur o = kBlockSize)) as [Hfull | Hpart].
      * destruct (ed_flush_full l o f content w Hl Hf He)
          as (o2 & f2 & Hflush & He2 & Hbuf2 & Hcur2 & Hl2 & Hs2 & Hpos2);
          [by rewrite Hcb | done | done |].
        by exists o2, f2.
      * destruct (ed_flush_partial l o f content w Hl Hf He)
          as (f2 & Hflush & He2 & Hs2); [by rewrite Hcb | lia |].
        by eexists _, f2.
    + destruct Hbuf as (Hnil & Hcur & Hend & Hstart & Hcb0 & Hpos0). lia.
Qed.

Lemma ed_seek (p : Z) (o : Output.t) (f : RAMFile.t) (content : list Z)
    (w : World) :
  Output.file o = l -> heap w !! l = Some f ->
  editing o f content -> 0 <= p <= vsize content ->
  exists o' f',
    Output_seek p o w = Ok o' (with_file l f' w) /\
    editing o' f' content /\ Output.file o' = l /\ same_file f f' /\
    Output.pos o' = p.
Proof.
  intros Hl Hf [Hbl Hh Hpos Hlen Hroom Htight Hbuf] Hp.
  pose proof kBlockSize_eq as HB.
  pose proof (vsize_nonneg (RAMFile.blocks_ f)) as Hn.
  set (f1 := RAMFile.set_length (Z.max (RAMFile.length f) (Output.pos o)) f).
  set (cb := p / kBlockSize).
  set (f2 := if decide (cb = vsize (RAMFile.blocks_ f))
             then RAMFile.alloc f1 else f1).
  set (o' := Output.mk (Some cb) 0 (p mod kBlockSize) kBlockSize p l cb).
  exists o', f2.
  destruct (update_length_spec o w f) as (w1 & Hu & Hfs & Hd & Hh1);
    [by rewrite Hl |].
  assert (Hf1 : heap w1 !! l = Some f1)
    by (rewrite Hh1, Hl; apply lookup_insert_eq).
  assert (Hw1 : with_file l f1 w = w1).
  { unfold with_file, set_heap. destruct w1. simpl in *.
    by rewrite Hfs, Hd, Hh1, Hl. }
  split_and!; try done.
  - unfold Output_seek. rewrite (bind_Ok _ _ _ _ _ Hu), Hl.
    rewrite (bind_Ok _ _ _ _ _ (load_Some _ _ _ Hf1)). simpl.
    rewrite (proj2 (Z.leb_le p _)) by lia.
    rewrite (bind_Ok _ _ _ _ _ (assert_true _ w1)). rewrite Hl. fold cb.
    unfold f2. destruct (decide (cb = _)) as [Heq | Hne].
    + rewrite (proj2 (Z.eqb_eq _ _) Heq).
      rewrite (bind_Ok _ _ _ _ _ (store_Some _ _ (RAMFile.alloc f1) _ Hf1)).
      erewrite (bind_Ok _ _ _ _ tt); last first.
      { eapply (block_exists_Some _ _ (RAMFile.alloc f1) _ new_block).
        - apply lookup_insert_eq.
        - rewrite at_lookup by (unfold cb; blocks_lia). simpl.
          rewrite lookup_app_r by (unfold vsize in *; lia).
          by replace (Z.to_nat cb - List.length (RAMFile.blocks_ f))%nat
            with 0%nat by (unfold vsize in *; lia). }
      unfold ret. f_equal.
      * unfold o', Output.set, Output.set_current_block, Output.set_bufCur,
          Output.set_pos. simpl. by rewrite Hl.
      * rewrite <- Hw1. unfold with_file, set_heap. simpl.
        by rewrite insert_insert_eq.
    + rewrite (proj2 (Z.eqb_neq _ _) Hne). rewrite bind_ret.
      assert (Hlt : 0 <= cb < vsize (RAMFile.blocks_ f)).
      { unfold cb in *. split; [blocks_lia |].
        assert (p / kBlockSize <= vsize (RAMFile.blocks_ f)); [|lia].
        apply Z.div_le_upper_bound; lia. }
      destruct (lookup_lt_is_Some_2 (RAMFile.blocks_ f) (Z.to_nat cb))
        as [blk Hblk]; [unfold vsize in *; lia |].
      erewrite (bind_Ok _ _ _ _ tt); last first.
      { eapply (block_exists_Some _ _ f1 _ blk); [done |].
        by rewrite at_lookup by lia. }
      unfold ret. f_equal; [|done].
      unfold o', Output.set, Output.set_current_block, Output.set_bufCur,
        Output.set_pos. simpl. by rewrite Hl.
  - assert (Hcb : 0 <= cb /\ cb * kBlockSize + p mod kBlockSize = p
                  /\ 0 <= p mod kBlockSize < kBlockSize)
      by (unfold cb; blocks_lia).
    unfold f2. destruct (decide (cb = _)) as [Heq | Hne].
    + split; simpl; try done.
      * apply Forall_app. split; [done |].
        constructor; [apply new_block_size | constructor].
      * apply holds_alloc. intros q c Hq. apply (Hh q c Hq).
      * lia.
      * rewrite vsize_app. change (vsize [new_block]) with 1. lia.
      * rewrite vsize_app. change (vsize [new_block]) with 1. lia.
      * rewrite vsize_app. change (vsize [new_block]) with 1.
        split_and!; try done; lia.
    + assert (Hlt : cb < vsize (RAMFile.blocks_ f)).
      { assert (p / kBlockSize <= vsize (RAMFile.blocks_ f)); [|unfold cb in *; lia].
        apply Z.div_le_upper_bound; lia. }
      split; simpl; try done.
      * lia.
      * split_and!; try done; lia.
  - unfold f2. by destruct (decide _).
Qed.

Lemma ed_seek_beyond (p : Z) (o : Output.t) (f : RAMFile.t)
    (content : list Z) (w : World) :
  Output.file o = l -> heap w !! l = Some f ->
  editing o f content -> vsize content < p ->
  Output_seek p o w
  = Fatal (AssertionFailed
      "Seeking past one-past-the-end of file is not supported!").
Proof.
  intros Hl Hf [Hbl Hh Hpos Hlen Hroom Htight Hbuf] Hp.
  set (f1 := RAMFile.set_length (Z.max (RAMFile.length f) (Output.pos o)) f).
  destruct (update_length_spec o w f) as (w1 & Hu & Hfs & Hd & Hh1);
    [by rewrite Hl |].
  assert (Hf1 : heap w1 !! l = Some f1)
    by (rewrite Hh1, Hl; apply lookup_insert_eq).
  unfold Output_seek. rewrite (bind_Ok _ _ _ _ _ Hu), Hl.
  rewrite (bind_Ok _ _ _ _ _ (load_Some _ _ _ Hf1)). simpl.
  by rewrite (proj2 (Z.leb_gt p _)) by lia.
Qed.

Lemma ed_close (o : Output.t) (f : RAMFile.t) (content : list Z) (w : World) :
  Output.file o = l -> heap w !! l = Some f -> editing o f content ->
  placeholder w (RAMFile.name f) -> vsize content < 2 ^ 64 ->
  exists f',
    Output_close o w
    = Ok tt {| files := <[RAMFile.name f := heap_file l]> (files w);
               heap := <[l := f']> (heap w);
               dummy_refs := dummy_refs w |} /\
    stored f' content /\ RAMFile.refs_ f' = 1.
Proof.
  intros Hl Hf [Hbl Hh Hpos Hlen Hroom Htight Hbuf] Hph Hsmall.
  rewrite <- Hl in Hf.
  rewrite (Output_close_spec o w f Hf Hph), Hl.
  eexists. split; [reflexivity |]. split; [|done]. by split.
Qed.
End editor_calls.

(** ** The calls on a writer *)

Lemma store_at_Some (bs : list Z) (st st' : list Z * Z) :
  file_state st -> store_at bs st = Some st' ->
  st.2 + vsize bs < 2 ^ 64 /\
  st' = (overwrite (Z.to_nat st.2) bs st.1, st.2 + vsize bs) /\
  file_state st'.
Proof.
  unfold store_at, file_state. intros [Hpos Hsmall].
  destruct (Z.ltb_spec (st.2 + vsize bs) (2 ^ 64)); [|done].
  intros [= <-]. pose proof (vsize_nonneg bs). simpl.
  rewrite overwrite_vsize by (unfold vsize in *; lia). split_and!; try done; lia.
Qed.

Lemma step_file_state (c : wcall) (st st' : list Z * Z) :
  file_state st -> step c st = Some st' -> file_state st'.
Proof.
  intros Hst. destruct c; cbn [step]; intros H;
    try (by apply (store_at_Some _ _ _ Hst) in H as (_ & _ & ?)).
  - destruct (varint64_bytes _ _); [|done].
    by apply (store_at_Some _ _ _ Hst) in H as (_ & _ & ?).
  - destruct (store_at _ st) as [st1|] eqn:H1; [|done].
    apply (store_at_Some _ _ _ Hst) in H1 as (_ & _ & Hst1).
    by apply (store_at_Some _ _ _ Hst1) in H as (_ & _ & ?).
  - by injection H as <-.
  - by injection H as <-.
  - destruct Hst as [Hpos Hsmall].
    destruct (Z.leb_spec 0 seek_pos); [|done].
    destruct (Z.leb_spec seek_pos (vsize st.1)); [|done].
    injection H as <-. by split.
Qed.

Section calls.
Context (l : nat).

Lemma store_at_spec (bs : list Z) (o : Output.t) (f : RAMFile.t)
    (st st' : list Z * Z) (w : World) :
  Output.file o = l -> heap w !! l = Some f ->
  editing o f st.1 -> Output.pos o = st.2 -> file_state st ->
  store_at bs st = Some st' ->
  called l f w st' (write bs o w).
Proof.
  intros Hl Hf He Hpos Hst Hstore.
  apply (store_at_Some _ _ _ Hst) in Hstore as (Hsmall & -> & Hst').
  destruct Hst as [_ Hcontent]. rewrite <- Hpos in *.
  destruct (ed_write l bs o f st.1 w Hl Hf He Hsmall Hcontent)
    as (o' & f' & Hrun & He' & Hl' & Hs & Hpos').
  by exists o', f'.
Qed.

Lemma called_called (f f1 : RAMFile.t) (w : World) (st : list Z * Z)
    (r : Result World Output.t) :
  same_file f f1 -> called l f1 (with_file l f1 w) st r -> called l f w st r.
Proof.
  intros Hs (o' & f' & -> & He & Hpos & Hl & Hs').
  exists o', f'. rewrite with_file_with_file.
  split_and!; eauto using same_file_trans.
Qed.

Lemma call_spec (c : wcall) (o : Output.t) (f : RAMFile.t)
    (st st' : list Z * Z) (w : World) :
  Output.file o = l -> heap w !! l = Some f ->
  editing o f st.1 -> Output.pos o = st.2 -> file_state st ->
  step c st = Some st' ->
  called l f w st' (call c o w).
Proof.
  intros Hl Hf He Hpos Hst Hstep.
  destruct c; cbn [step call] in Hstep |- *;
    try (by eapply store_at_spec).
  - (* writeByte *)
    apply (store_at_Some _ _ _ Hst) in Hstep as (Hsmall & -> & Hst').
    destruct Hst as [_ Hcontent]. rewrite <- Hpos in *.
    change (vsize [c]) with 1 in *.
    destruct (ed_writeByte l c o f st.1 w Hl Hf He Hsmall Hcontent)
      as (o' & f' & Hrun & He' & Hl' & Hs & Hpos').
    by exists o', f'.
  - (* writeVarint64 *)
    unfold writeVarint64. destruct (varint64_bytes _ _); [|done].
    by eapply store_at_spec.
  - (* writeString *)
    destruct (store_at _ st) as [st1|] eqn:H1; [|done].
    pose proof (store_at_Some _ _ _ Hst H1) as (_ & _ & Hst1).
    destruct (store_at_spec _ o f st st1 w Hl Hf He Hpos Hst H1)
      as (o1 & f1 & Hrun1 & He1 & Hpos1 & Hl1 & Hs1).
    unfold writeString, writeVarint32. rewrite (bind_Ok _ _ _ _ _ Hrun1).
    apply (called_called f f1); [done |].
    eapply store_at_spec; try done. apply with_file_lookup.
  - (* flush *)
    injection Hstep as <-. destruct Hst as [_ Hcontent].
    destruct (ed_flush l o f st.1 w Hl Hf He Hcontent)
      as (o' & f' & Hrun & He' & Hl' & Hs & Hpos').
    exists o', f'. split_and!; try done. congruence.
  - (* sync *)
    injection Hstep as <-. destruct Hst as [_ Hcontent].
    destruct (ed_flush l o f st.1 w Hl Hf He Hcontent)
      as (o' & f' & Hrun & He' & Hl' & Hs & Hpos').
    exists o', f'. split_and!; try done. congruence.
  - (* seek *)
    destruct (Z.leb_spec 0 seek_pos); [|done].
    destruct (Z.leb_spec seek_pos (vsize st.1)); [|done].
    injection Hstep as <-.
    destruct (ed_seek l seek_pos o f st.1 w Hl Hf He ltac:(lia))
      as (o' & f' & Hrun & He' & Hl' & Hs & Hpos').
    by exists o', f'.
Qed.

Lemma calls_spec (cs : list wcall) (o : Output.t) (f : RAMFile.t)
    (st st' : list Z * Z) (w : World) :
  Output.file o = l -> heap w !! l = Some f ->
  editing o f st.1 -> Output.pos o = st.2 -> file_state st ->
  steps cs st = Some st' ->
  called l f w st' (calls cs o w) /\ file_state st'.
Proof.
  revert o f st w.
  induction cs as [|c cs IH]; intros o f st w Hl Hf He Hpos Hst Hsteps;
    simpl in Hsteps |- *.
  - injection Hsteps as <-. split; [|done]. exists o, f.
    split_and!; try done. by rewrite with_file_id.
  - destruct (step c st) as [st1|] eqn:Hstep; [|done].
    pose proof (step_file_state c st st1 Hst Hstep) as Hst1.
    destruct (call_spec c o f st st1 w Hl Hf He Hpos Hst Hstep)
      as (o1 & f1 & Hrun1 & He1 & Hpos1 & Hl1 & Hs1).
    rewrite (bind_Ok _ _ _ _ _ Hrun1).
    destruct (IH o1 f1 st1 (with_file l f1 w) Hl1 (with_file_lookup _ _ _)
                He1 Hpos1 Hst1 Hsteps) as [Hcalled Hst'].
    split; [|done]. by apply (called_called f f1).
Qed.
End calls.

Lemma file_state_start : file_state ([], 0).
Proof. split; simpl; change (vsize []) with 0; lia. Qed.

(** The calls on the writer of a new file, and the file that closing the
    writer commits. *)
Lemma write_file_spec (fname : string) (cs : list wcall) (w : World)
    (content : list Z) (pos : Z) :
  absent w fname -> steps cs ([], 0) = Some (content, pos) ->
  exists l f,
    heap w !! l = None /\
    write_file fname cs w
    = Ok tt {| files := <[fname := heap_file l]> (files w);
               heap := <[l := f]> (heap w);
               dummy_refs := dummy_refs w |} /\
    stored f content /\ RAMFile.refs_ f = 1.
Proof.
  intros Habs Hsteps. unfold write_file.
  rewrite (bind_Ok _ _ _ _ _ (createOutput_absent w fname Habs)).
  set (l := fresh (dom (heap w))).
  set (w1 := {| files := _; heap := _; dummy_refs := _ |}).
  destruct (calls_spec l cs (Output.create l) (RAMFile.create fname) ([], 0)
              (content, pos) w1)
    as [(o2 & f2 & Hrun & He2 & Hpos2 & Hl2 & [Hname Hrefs]) [_ Hsmall]];
    [done | apply lookup_insert_eq | apply created_editing | done
    | apply file_state_start | done |].
  rewrite (bind_Ok _ _ _ _ _ Hrun). simpl in *.
  destruct (ed_close l o2 f2 content (with_file l f2 w1))
    as (f3 & Hclose & Hst3 & Hrefs3); try done.
  { apply with_file_lookup. }
  { rewrite Hname. unfold placeholder. simpl. apply lookup_insert_eq. }
  exists l, f3. split; [apply fresh_not_allocated |].
  rewrite Hclose, Hname. split; [|done]. f_equal. simpl.
  by rewrite !insert_insert_eq.
Qed.

(** ** The calls on a reader *)

Lemma slice_Some (content : list Z) (q n : Z) (bs : list Z) :
  slice content q n = Some bs ->
  0 <= n /\ q + n <= vsize content /\
  bs = take (Z.to_nat n) (drop (Z.to_nat q) content).
Proof.
  unfold slice. destruct (Z.leb_spec 0 n); [|done].
  destruct (Z.leb_spec (q + n) (vsize content)); [|done].
  by intros [= <-].
Qed.

Lemma slice_at_position (content : list Z) (q n : Z) (bs : list Z) :
  0 <= q -> slice content q n = Some bs ->
  at_position content q bs /\ vsize bs = n.
Proof.
  intros Hq H. apply slice_Some in H as (Hn & Hin & ->).
  assert (Hlen : List.length (take (Z.to_nat n) (drop (Z.to_nat q) content))
                 = Z.to_nat n).
  { rewrite length_take, length_drop. unfold vsize in *. lia. }
  split; [|unfold vsize; lia].
  unfold at_position. by rewrite Hlen.
Qed.

Lemma is_byte_spec (b : Z) : is_byte b = true <-> 0 <= b < 256.
Proof. unfold is_byte. rewrite andb_true_iff, Z.leb_le, Z.ltb_lt. done. Qed.

Lemma leb_decode_spec (room : nat) (data : list Z) (v n : Z) :
  leb_decode room data = Some (v, n) ->
  exists bs,
    bs = take (Z.to_nat n) data /\ vsize bs = n /\ leb128 bs /\
    leb_value bs = v /\ (List.length bs <= room)%nat.
Proof.
  revert data v n. induction room as [|room IH]; intros data v n; [done |].
  destruct data as [|b data]; [done |]. simpl.
  destruct (is_byte b) eqn:Hb; [|done]. apply is_byte_spec in Hb. simpl.
  destruct (Z.ltb_spec b 128) as [Hlast | Hmore].
  - intros [= <- <-]. exists [b]. simpl.
    split_and!; try done; try lia.
    rewrite Z.mod_small by lia. lia.
  - destruct (leb_decode room data) as [[v' n']|] eqn:Hrec; [|done].
    intros [= <- <-].
    destruct (IH data v' n' Hrec) as (bs & -> & Hlen & Hleb & Hval & Hroom).
    pose proof (leb128_nonempty _ Hleb) as Hne.
    exists (b :: take (Z.to_nat n') data).
    assert (Hn' : 0 < n') by (unfold vsize in *; lia).
    split_and!.
    + replace (Z.to_nat (n' + 1)) with (S (Z.to_nat n')) by lia. done.
    + unfold vsize in *. simpl. lia.
    + apply leb128_cons; [lia | done].
    + simpl. by rewrite Hval.
    + simpl. lia.
Qed.

Lemma take_at_position (data : list Z) (q : Z) (n : nat) :
  (n <= List.length (drop (Z.to_nat q) data))%nat ->
  at_position data q (take n (drop (Z.to_nat q) data)).
Proof.
  intros Hn. unfold at_position.
  by rewrite length_take, Nat.min_l by done.
Qed.

Section asking.
Context (l : nat) (f : RAMFile.t) (data : list Z) (w : World).
Context (Hf : heap w !! l = Some f) (Hdata : stored f data).

Lemma readString_loop_spec (n : nat) (buff : list Z) (i : Input.t) (q : Z) :
  Input.file i = l -> reading i f q -> 0 <= q ->
  q + Z.of_nat n <= vsize data ->
  exists i',
    readString_loop n buff i w
    = Ok (buff ++ take n (drop (Z.to_nat q) data), i') w /\
    reading i' f (q + Z.of_nat n) /\ Input.file i' = l.
Proof.
  revert buff i q. induction n as [|n IH]; intros buff i q Hl Hr Hq Hin; simpl.
  - exists i. rewrite app_nil_r, Z.add_0_r. by split_and!.
  - destruct (lookup_lt_is_Some_2 data (Z.to_nat q)) as [b Hb];
      [unfold vsize in *; lia |].
    destruct (readByte_spec l f data w Hf Hdata i q b Hl Hr Hq Hb)
      as (i1 & Hread & Hr1 & Hl1).
    rewrite (bind_Ok _ _ _ _ _ Hread). simpl.
    destruct (IH (buff ++ [b]) i1 (q + 1) Hl1 Hr1 ltac:(lia) ltac:(lia))
      as (i2 & Hrec & Hr2 & Hl2).
    exists i2. rewrite Hrec. split_and!; try done.
    + do 2 f_equal. rewrite <- app_assoc. f_equal.
      rewrite (drop_S _ _ _ Hb). simpl. do 3 f_equal. lia.
    + by replace (q + Z.of_nat (S n)) with (q + 1 + Z.of_nat n) by lia.
Qed.

Lemma varint_at_spec (wrap : Z -> Z) (width : Z) (room : nat) (i : Input.t)
    (q v q' : Z) :
  (forall x, 0 <= x < 2 ^ width -> wrap x = x) ->
  Input.file i = l -> reading i f q -> 0 <= q <= vsize data ->
  varint_at room (2 ^ width) data q = Some (v, q') ->
  exists i',
    readVarint_loop wrap room 0 0 i w = Ok (v, i') w /\
    reading i' f q' /\ Input.file i' = l /\ q <= q' <= vsize data.
Proof.
  intros Hwrap Hl Hr Hq. unfold varint_at.
  destruct (leb_decode room _) as [[v' n]|] eqn:Hdec; [|done].
  destruct (Z.ltb_spec v' (2 ^ width)) as [Hfit|]; [|done].
  intros [= <- <-].
  destruct (leb_decode_spec _ _ _ _ Hdec) as (bs & Hbs & Hlen & Hleb & Hval & Hroom).
  pose proof (leb128_nonempty _ Hleb) as Hne.
  assert (Hn : (Z.to_nat n <= List.length (drop (Z.to_nat q) data))%nat).
  { rewrite Hbs in Hlen. unfold vsize in Hlen. rewrite length_take in Hlen.
    lia. }
  assert (Hat : at_position data q bs).
  { rewrite Hbs. by apply take_at_position. }
  destruct (readVarint_loop_spec l f data w Hf Hdata wrap width bs Hwrap
              room 0 0 i q Hl Hr ltac:(lia) Hat Hleb Hroom
              ltac:(lia) ltac:(simpl; lia))
    as (i' & Hread & Hr' & Hl').
  { rewrite Z.shiftl_mul_pow2 by lia. simpl. lia. }
  exists i'. rewrite Hread. change (7 * 0) with 0.
  rewrite Z.shiftl_0_r, Hval, Hlen in *. split_and!; try done.
  - unfold vsize in *. lia.
  - rewrite length_drop in Hn. unfold vsize in *. lia.
Qed.

Lemma le_value_4 (b0 b1 b2 b3 : Z) :
  le_value [b0; b1; b2; b3] = b0 + b1 * 2 ^ 8 + b2 * 2 ^ 16 + b3 * 2 ^ 24.
Proof. simpl. lia. Qed.

Lemma le_value_8 (b0 b1 b2 b3 b4 b5 b6 b7 : Z) :
  le_value [b0; b1; b2; b3; b4; b5; b6; b7]
  = b0 + b1 * 2 ^ 8 + b2 * 2 ^ 16 + b3 * 2 ^ 24 + b4 * 2 ^ 32
    + b5 * 2 ^ 40 + b6 * 2 ^ 48 + b7 * 2 ^ 56.
Proof. simpl. lia. Qed.

Lemma ask_spec (c : rcall) (i : Input.t) (q : Z) (a : answer) (q' : Z) :
  Input.file i = l -> reading i f q -> 0 <= q <= vsize data ->
  parse c data q = Some (a, q') ->
  asked l f data w a q' (ask c i w).
Proof.
  intros Hl Hr Hq Hparse. destruct c; cbn [parse ask] in Hparse |- *.
  - (* readByte *)
    destruct (data !! Z.to_nat q) as [b|] eqn:Hb; [|done].
    injection Hparse as <- <-.
    destruct (readByte_spec l f data w Hf Hdata i q b Hl Hr ltac:(lia) Hb)
      as (i' & Hread & Hr' & Hl').
    exists i'. rewrite (bind_Ok _ _ _ _ _ Hread).
    apply lookup_lt_Some in Hb. unfold vsize in *.
    split_and!; try done; lia.
  - (* read *)
    destruct (slice data q size) as [bs|] eqn:Hs; [|done].
    injection Hparse as <- <-. apply slice_Some in Hs as (Hn & Hin & ->).
    destruct (read_spec l f data w Hf Hdata size i q Hl Hr ltac:(lia) Hn Hin)
      as (i' & Hread & Hr' & Hl' & _).
    exists i'. rewrite (bind_Ok _ _ _ _ _ Hread).
    split_and!; try done; lia.
  - (* readInt32 *)
    unfold fixed_at in Hparse.
    destruct (slice data q 4) as [bs|] eqn:Hs; [|done].
    destruct (forallb is_byte bs) eqn:Hbytes; [|done].
    injection Hparse as <- <-.
    pose proof (slice_Some _ _ _ _ Hs) as (_ & Hin & _).
    apply slice_at_position in Hs as [Hat Hlen]; [|lia].
    destruct bs as [|b0 [|b1 [|b2 [|b3 [|]]]]];
      try (unfold vsize in Hlen; simpl in Hlen; lia).
    simpl in Hbytes. rewrite !andb_true_iff, !is_byte_spec in Hbytes.
    destruct Hbytes as (H0 & H1 & H2 & H3 & _).
    destruct (readInt32_spec l f data w Hf Hdata i q b0 b1 b2 b3 Hl Hr
                ltac:(lia) Hat H0 H1 H2 H3) as (i' & Hread & Hr' & Hl').
    exists i'. rewrite (bind_Ok _ _ _ _ _ Hread), le_value_4.
    split_and!; try done; lia.
  - (* readInt64 *)
    unfold fixed_at in Hparse.
    destruct (slice data q 8) as [bs|] eqn:Hs; [|done].
    destruct (forallb is_byte bs) eqn:Hbytes; [|done].
    injection Hparse as <- <-.
    pose proof (slice_Some _ _ _ _ Hs) as (_ & Hin & _).
    apply slice_at_position in Hs as [Hat Hlen]; [|lia].
    destruct bs as [|b0 [|b1 [|b2 [|b3 [|b4 [|b5 [|b6 [|b7 [|]]]]]]]]];
      try (unfold vsize in Hlen; simpl in Hlen; lia).
    simpl in Hbytes. rewrite !andb_true_iff, !is_byte_spec in Hbytes.
    destruct Hbytes as (H0 & H1 & H2 & H3 & H4 & H5 & H6 & H7 & _).
    destruct (readInt64_spec l f data w Hf Hdata i q b0 b1 b2 b3 b4 b5 b6 b7
                Hl Hr ltac:(lia) Hat H0 H1 H2 H3 H4 H5 H6 H7)
      as (i' & Hread & Hr' & Hl').
    exists i'. rewrite (bind_Ok _ _ _ _ _ Hread), le_value_8.
    split_and!; try done; lia.
  - (* readVarint32 *)
    destruct (varint_at 5 _ data q) as [[n q1]|] eqn:Hv; [|done].
    injection Hparse as <- <-.
    destruct (varint_at_spec u32 32 5 i q n q1 u32_small Hl Hr Hq Hv)
      as (i' & Hread & Hr' & Hl' & Hq').
    exists i'. unfold readVarint32.
    change (Z.to_nat kMaxVarintLength32) with 5%nat.
    rewrite (bind_Ok _ _ _ _ _ Hread). split_and!; try done; lia.
  - (* readVarint64 *)
    destruct (varint_at 10 _ data q) as [[n q1]|] eqn:Hv; [|done].
    injection Hparse as <- <-.
    destruct (varint_at_spec u64 64 10 i q n q1 u64_small Hl Hr Hq Hv)
      as (i' & Hread & Hr' & Hl' & Hq').
    exists i'. unfold readVarint64.
    change (Z.to_nat kMaxVarintLength64) with 10%nat.
    rewrite (bind_Ok _ _ _ _ _ Hread). split_and!; try done; lia.
  - (* readString *)
    destruct (varint_at 5 _ data q) as [[n q1]|] eqn:Hv; [|done].
    destruct (slice data q1 n) as [bs|] eqn:Hs; [|done].
    injection Hparse as <- <-.
    destruct (varint_at_spec u32 32 5 i q n q1 u32_small Hl Hr Hq Hv)
      as (i1 & Hread & Hr1 & Hl1 & Hq1).
    apply slice_Some in Hs as (Hn & Hin & ->).
    destruct (readString_loop_spec (Z.to_nat n) [] i1 q1 Hl1 Hr1 ltac:(lia)
                ltac:(lia)) as (i2 & Hloop & Hr2 & Hl2).
    assert (Hrs : readString i w
                  = Ok (take (Z.to_nat n) (drop (Z.to_nat q1) data), i2) w).
    { unfold readString, readVarint32.
      change (Z.to_nat kMaxVarintLength32) with 5%nat.
      by rewrite (bind_Ok _ _ _ _ _ Hread). }
    exists i2. rewrite (bind_Ok _ _ _ _ _ Hrs). rewrite Z2Nat.id in Hr2 by lia.
    split_and!; try done; lia.
  - (* seek *)
    destruct (Z.leb_spec 0 seek_pos); [|done].
    destruct (Z.ltb_spec seek_pos (vsize data)); [|done].
    injection Hparse as <- <-.
    destruct (seek_spec l f data w Hf Hdata seek_pos i q Hl Hr ltac:(lia))
      as (i' & Hseek & Hr' & Hl').
    exists i'. rewrite (bind_Ok _ _ _ _ _ Hseek).
    split_and!; try done; lia.
Qed.

Lemma asks_spec (cs : list rcall) (i : Input.t) (q : Z) (answers : list answer) :
  Input.file i = l -> reading i f q -> 0 <= q <= vsize data ->
  parses cs data q = Some answers ->
  exists i', asks cs i w = Ok (answers, i') w /\ Input.file i' = l.
Proof.
  revert i q answers.
  induction cs as [|c cs IH]; intros i q answers Hl Hr Hq Hparses;
    simpl in Hparses |- *.
  - injection Hparses as <-. by exists i.
  - destruct (parse c data q) as [[a q1]|] eqn:Hparse; [|done].
    destruct (parses cs data q1) as [rest|] eqn:Hrest; [|done].
    injection Hparses as <-.
    destruct (ask_spec c i q a q1 Hl Hr Hq Hparse)
      as (i1 & Hask & Hr1 & Hl1 & Hq1).
    destruct (IH i1 q1 rest Hl1 Hr1 Hq1 Hrest) as (i2 & Hasks & Hl2).
    exists i2. rewrite (bind_Ok _ _ _ _ _ Hask). simpl.
    by rewrite (bind_Ok _ _ _ _ _ Hasks).
Qed.
End asking.

(** ** A file that is written, then read *)

(** Reading a committed file that no reader has open, with calls that find
    the bytes they ask for, leaves the state as it was. *)
Lemma read_file_spec (fname : string) (rs : list rcall) (w : World) (l : nat)
    (f : RAMFile.t) (content : list Z) (answers : list answer) :
  committed w fname l -> heap w !! l = Some f -> stored f content ->
  RAMFile.refs_ f = 1 -> content <> [] ->
  parses rs content 0 = Some answers ->
  read_file fname rs w = Ok answers w.
Proof.
  intros Hc Hf Hst Hrefs Hne Hparses. pose proof kBlockSize_eq as HB.
  pose proof (stored_length _ _ Hst) as Hlen.
  pose proof (stored_small _ _ Hst) as Hsmall.
  assert (Hpos : 0 < vsize content).
  { destruct content; [done |]. unfold vsize. simpl. lia. }
  set (i := Input.mk None 0 0 0 0 0 l 0
              (u64 ((RAMFile.length f - 1) / kBlockSize + 1))
              (u64 ((RAMFile.length f - 1) mod kBlockSize + 1))).
  set (f2 := RAMFile.set_refs (1 + 1) f).
  set (w2 := set_heap (<[l := f2]> (heap w)) w).
  assert (Hopen : openInput fname w = Ok i w2).
  { rewrite (openInput_committed w fname l f Hc Hf), Hrefs.
    by destruct (Z.eqb_spec (RAMFile.length f) 0); [lia |]. }
  unfold read_file. rewrite (bind_Ok _ _ _ _ _ Hopen).
  assert (Hf2 : heap w2 !! l = Some f2) by apply lookup_insert_eq.
  destruct (asks_spec l f2 content w2 Hf2 (stored_set_refs _ _ _ Hst) rs i 0
              answers eq_refl)
    as (i' & Hasks & Hl'); [| lia | done |].
  { apply opened_reading. simpl. apply u64_small. blocks_lia. }
  rewrite (bind_Ok _ _ _ _ _ Hasks). simpl.
  unfold Input_close. rewrite Hl'.
  rewrite (bind_Ok _ _ _ _ _
             (unrefReader_spec w2 l f2 Hf2 ltac:(simpl; unfold INT_MIN; lia))).
  unfold ret. f_equal. apply World_eq; simpl; try done.
  unfold drop_ref, f2. simpl.
  rewrite insert_insert_eq, set_refs_set_refs.
  change (1 + 1 - 1) with 1. rewrite <- Hrefs, set_refs_id.
  by apply insert_id.
Qed.

Lemma write_then_read_run (fname : string) (cs : list wcall)
    (rs : list rcall) (w : World) (content : list Z) (pos : Z)
    (answers : list answer) :
  absent w fname ->
  steps cs ([], 0) = Some (content, pos) -> content <> [] ->
  parses rs content 0 = Some answers ->
  exists w',
    write_file fname cs w = Ok tt w' /\
    write_then_read fname cs rs w = Ok answers w' /\
    fileLength fname w' = Ok (vsize content) w'.
Proof.
  intros Habs Hsteps Hne Hparses.
  destruct (write_file_spec fname cs w content pos Habs Hsteps)
    as (l & f & Hfresh & Hwrite & Hst & Hrefs).
  set (w' := {| files := _; heap := _; dummy_refs := _ |}) in Hwrite.
  assert (Hc : committed w' fname l) by apply lookup_insert_eq.
  assert (Hf : heap w' !! l = Some f) by apply lookup_insert_eq.
  exists w'. split_and!; [done | |].
  - unfold write_then_read. rewrite (bind_Ok _ _ _ _ _ Hwrite).
    by apply (read_file_spec fname rs w' l f content).
  - rewrite (fileLength_committed fname l f w' Hc Hf).
    by rewrite (stored_length _ _ Hst).
Qed.

(** X11. The writer and the reader work on a file as on one sequence of
    bytes. When the calls on the writer of a new file, taken as stores into a
    sequence of bytes at a position, give the bytes [content], and the calls
    on a reader find their answers in [content], then writing the file and
    reading it returns these answers; the directory reports the length of
    [content], and reading has left no trace in the state. *)
Theorem write_then_read_spec (fname : string) (cs : list wcall)
    (rs : list rcall) (w : World) (content : list Z) (pos : Z)
    (answers : list answer) :
  absent w fname ->
  steps cs ([], 0) = Some (content, pos) -> content <> [] ->
  parses rs content 0 = Some answers ->
  exists w',
    write_file fname cs w = Ok tt w' /\
    write_then_read fname cs rs w = Ok answers w' /\
    fileLength fname w' = Ok (vsize content) w'.
Proof. apply write_then_read_run. Qed.

Lemma write_then_read_spec_witness :
  exists w',
    write_file "f" [Write (replicate 4095 7); WriteInt32 258; Flush;
                    WriteString [104; 105]; Seek 4094; WriteByte 9]
      empty_world = Ok tt w' /\
    write_then_read "f"
      [Write (replicate 4095 7); WriteInt32 258; Flush;
       WriteString [104; 105]; Seek 4094; WriteByte 9]
      [SeekTo 4093; Read 2; ReadInt32; ReadString; SeekTo 0; ReadByte]
      empty_world
    = Ok [Moved; Bytes [7; 9]; Number 258; Bytes [104; 105]; Moved; Char 7] w' /\
    fileLength "f" w' = Ok (vsize (replicate 4094 7 ++ [9; 2; 1; 0; 0; 2; 104; 105])) w'.
Proof.
  apply (write_then_read_spec "f" _ _ empty_world
           (replicate 4094 7 ++ [9; 2; 1; 0; 0; 2; 104; 105]) 4095);
    [reflexivity | by vm_compute | done | by vm_compute].
Defined.

(** ** flush and sync *)

Lemma steps_writes (cs : list wcall) (st : list Z * Z) :
  steps (filter writes cs) st = steps cs st.
Proof.
  revert st. induction cs as [|c cs IH]; intros st; [done |].
  destruct c; rewrite ?filter_cons_True, ?filter_cons_False by (by simpl);
    cbn [steps]; try (destruct (step _ st); [apply IH | done]).
  all: cbn [step]; apply IH.
Qed.

(** X12. Calls of flush and sync among the calls on a writer do not change
    what is read from the file. *)
Theorem flush_transparent (fname : string) (cs : list wcall)
    (rs : list rcall) (w : World) (content : list Z) (pos : Z)
    (answers : list answer) :
  absent w fname ->
  steps cs ([], 0) = Some (content, pos) -> content <> [] ->
  parses rs content 0 = Some answers ->
  outcome (write_then_read fname cs rs w) = Returns answers /\
  outcome (write_then_read fname (filter writes cs) rs w) = Returns answers.
Proof.
  intros Habs Hsteps Hne Hparses. split.
  - destruct (write_then_read_run fname cs rs w content pos answers)
      as (w' & _ & -> & _); done.
  - destruct (write_then_read_run fname (filter writes cs) rs w content pos
                answers) as (w' & _ & -> & _); try done.
    by rewrite steps_writes.
Qed.

Lemma flush_transparent_witness :
  outcome (write_then_read "f"
             [Flush; Write [1; 2]; Sync; Flush; Write [3]; Flush]
             [Read 3] empty_world)
  = Returns [Bytes [1; 2; 3]] /\
  outcome (write_then_read "f"
             (filter writes [Flush; Write [1; 2]; Sync; Flush; Write [3]; Flush])
             [Read 3] empty_world)
  = Returns [Bytes [1; 2; 3]].
Proof.
  apply (flush_transparent "f" _ _ empty_world [1; 2; 3] 3);
    [reflexivity | by vm_compute | done | by vm_compute].
Defined.

(** ** seek on a writer *)

Lemma calls_app (cs cs' : list wcall) (o : Output.t) (w : World) :
  calls (cs ++ cs') o w = bind (calls cs o) (calls cs') w.
Proof.
  revert o w. induction cs as [|c cs IH]; intros o w; simpl; [done |].
  unfold bind. by destruct (call c o w).
Qed.

Lemma write_file_length (fname : string) (cs : list wcall) (w : World)
    (content : list Z) (pos : Z) :
  absent w fname -> steps cs ([], 0) = Some (content, pos) ->
  exists w',
    write_file fname cs w = Ok tt w' /\
    fileLength fname w' = Ok (vsize content) w'.
Proof.
  intros Habs Hsteps.
  destruct (write_file_spec fname cs w content pos Habs Hsteps)
    as (l & f & Hfresh & Hwrite & Hst & Hrefs).
  eexists. split; [done |].
  rewrite (fileLength_committed fname l f); try apply lookup_insert_eq.
  by rewrite (stored_length _ _ Hst).
Qed.

Lemma steps_app (cs cs' : list wcall) (st : list Z * Z) :
  steps (cs ++ cs') st
  = match steps cs st with Some st => steps cs' st | None => None end.
Proof.
  revert st. induction cs as [|c cs IH]; intros st; simpl; [done |].
  by destruct (step c st).
Qed.

(** X13. seek on a writer accepts the positions up to the end of what was
    written, and the file keeps its length. With a position behind the end
    seek stops at its assertion, so that a file cannot get a gap. *)
Theorem seek_beyond_end (fname : string) (cs : list wcall) (p : Z)
    (w : World) (content : list Z) (pos : Z) :
  absent w fname -> steps cs ([], 0) = Some (content, pos) ->
  (0 <= p <= vsize content ->
   exists w',
     write_file fname (cs ++ [Seek p]) w = Ok tt w' /\
     fileLength fname w' = Ok (vsize content) w') /\
  (vsize content < p ->
   outcome (write_file fname (cs ++ [Seek p]) w)
   = Stops (AssertionFailed
       "Seeking past one-past-the-end of file is not supported!")).
Proof.
  intros Habs Hsteps. split.
  - intros Hp. apply (write_file_length fname _ w content p Habs).
    rewrite steps_app, Hsteps. simpl.
    destruct (Z.leb_spec 0 p); [|lia].
    by destruct (Z.leb_spec p (vsize content)); [|lia].
  - intros Hp. unfold write_file.
    rewrite (bind_Ok _ _ _ _ _ (createOutput_absent w fname Habs)).
    set (l := fresh (dom (heap w))).
    set (w1 := {| files := _; heap := _; dummy_refs := _ |}).
    destruct (calls_spec l cs (Output.create l) (RAMFile.create fname) ([], 0)
                (content, pos) w1)
      as [(o2 & f2 & Hrun & He2 & Hpos2 & Hl2 & Hs2) _];
      [done | apply lookup_insert_eq | apply created_editing | done
      | apply file_state_start | done |].
    rewrite (bind_Fatal _ _ _ (AssertionFailed
               "Seeking past one-past-the-end of file is not supported!"));
      [done |].
    rewrite calls_app, (bind_Ok _ _ _ _ _ Hrun). cbn [calls call].
    apply bind_Fatal.
    apply (ed_seek_beyond l p o2 f2 content (with_file l f2 w1) Hl2
             (with_file_lookup _ _ _) He2 Hp).
Qed.

Lemma seek_beyond_end_witness :
  (exists w',
     write_file "f" ([Write [1; 2; 3]] ++ [Seek 3]) empty_world = Ok tt w' /\
     fileLength "f" w' = Ok (vsize [1; 2; 3]) w') /\
  outcome (write_file "f" ([Write [1; 2; 3]] ++ [Seek 4]) empty_world)
  = Stops (AssertionFailed
      "Seeking past one-past-the-end of file is not supported!").
Proof.
  split.
  - apply (seek_beyond_end "f" [Write [1; 2; 3]] 3 empty_world [1; 2; 3] 3);
      [reflexivity | by vm_compute | by vm_compute].
  - apply (seek_beyond_end "f" [Write [1; 2; 3]] 4 empty_world [1; 2; 3] 3);
      [reflexivity | by vm_compute | by vm_compute].
Defined.

(** ** Values in a sequence of bytes *)

Lemma drop_vsize_app (pre rest : list Z) :
  drop (Z.to_nat (vsize pre)) (pre ++ rest) = rest.
Proof. unfold vsize. rewrite Nat2Z.id. apply drop_app_length. Qed.

Lemma slice_app (pre bs post : list Z) :
  slice (pre ++ bs ++ post) (vsize pre) (vsize bs) = Some bs.
Proof.
  unfold slice. pose proof (vsize_nonneg bs). pose proof (vsize_nonneg post).
  rewrite !vsize_app.
  destruct (Z.leb_spec 0 (vsize bs)); [|lia].
  destruct (Z.leb_spec (vsize pre + vsize bs) (vsize pre + (vsize bs + vsize post)));
    [|lia].
  simpl. rewrite drop_vsize_app. unfold vsize. rewrite Nat2Z.id.
  by rewrite take_app_length.
Qed.

Lemma le_value_int32 (n : Z) :
  0 <= n < 2 ^ 32 -> le_value (int32_bytes n) = n.
Proof.
  intros Hn. unfold int32_bytes. rewrite le_value_4.
  unfold u8. rewrite !Z.shiftr_div_pow2 by lia.
  change (2 ^ 32) with 4294967296 in Hn. change (2 ^ 8) with 256.
  change (2 ^ 16) with 65536. change (2 ^ 24) with 16777216.
  Z.to_euclidean_division_equations. lia.
Qed.

Lemma le_value_int64 (n : Z) :
  0 <= n < 2 ^ 64 -> le_value (int64_bytes n) = n.
Proof.
  intros Hn. unfold int64_bytes. rewrite le_value_8.
  unfold u8. rewrite !Z.shiftr_div_pow2 by lia.
  change (2 ^ 64) with 18446744073709551616 in Hn. change (2 ^ 8) with 256.
  change (2 ^ 16) with 65536. change (2 ^ 24) with 16777216.
  change (2 ^ 32) with 4294967296. change (2 ^ 40) with 1099511627776.
  change (2 ^ 48) with 281474976710656.
  change (2 ^ 56) with 72057594037927936.
  Z.to_euclidean_division_equations. lia.
Qed.

Lemma is_byte_u8 (x : Z) : is_byte (u8 x) = true.
Proof. apply is_byte_spec, u8_range. Qed.

Lemma fixed_at_int32 (pre post : list Z) (n : Z) :
  0 <= n < 2 ^ 32 ->
  fixed_at (pre ++ int32_bytes n ++ post) (vsize pre) 4
  = Some (n, vsize pre + 4).
Proof.
  intros Hn. unfold fixed_at.
  change 4 with (vsize (int32_bytes n)) at 1. rewrite slice_app.
  assert (forallb is_byte (int32_bytes n) = true) as ->.
  { unfold int32_bytes. cbn [forallb]. by rewrite !is_byte_u8. }
  by rewrite le_value_int32.
Qed.

Lemma fixed_at_int64 (pre post : list Z) (n : Z) :
  0 <= n < 2 ^ 64 ->
  fixed_at (pre ++ int64_bytes n ++ post) (vsize pre) 8
  = Some (n, vsize pre + 8).
Proof.
  intros Hn. unfold fixed_at.
  change 8 with (vsize (int64_bytes n)) at 1. rewrite slice_app.
  assert (forallb is_byte (int64_bytes n) = true) as ->.
  { unfold int64_bytes. cbn [forallb]. by rewrite !is_byte_u8. }
  by rewrite le_value_int64.
Qed.

Lemma leb_decode_app (room : nat) (bs post : list Z) :
  leb128 bs -> (List.length bs <= room)%nat ->
  leb_decode room (bs ++ post) = Some (leb_value bs, vsize bs).
Proof.
  revert room. induction bs as [|b bs IH]; intros room Hleb Hroom; [done |].
  destruct room as [|room]; [simpl in Hroom; lia |]. simpl in Hleb |- *.
  destruct bs as [|b' bs'].
  - rewrite (proj2 (is_byte_spec b)) by lia. simpl.
    destruct (Z.ltb_spec b 128); [|lia].
    rewrite Z.mod_small by lia. do 2 f_equal. lia.
  - destruct Hleb as [Hb Hleb].
    rewrite (proj2 (is_byte_spec b)) by lia. simpl negb. cbv iota.
    destruct (Z.ltb_spec b 128); [lia |].
    rewrite (IH room Hleb) by (simpl in *; lia).
    do 2 f_equal. unfold vsize. simpl. lia.
Qed.

Lemma varint_at_leb (room : nat) (bound : Z) (pre bs post : list Z) :
  leb128 bs -> (List.length bs <= room)%nat -> leb_value bs < bound ->
  varint_at room bound (pre ++ bs ++ post) (vsize pre)
  = Some (leb_value bs, vsize pre + vsize bs).
Proof.
  intros Hleb Hroom Hfit. unfold varint_at.
  rewrite drop_vsize_app, leb_decode_app by done.
  by destruct (Z.ltb_spec (leb_value bs) bound); [|lia].
Qed.

Lemma whole_varint32_spec (n : Z) :
  whole_varint32 n = true ->
  0 <= n < 2 ^ 32 /\ leb128 (varint32_bytes n) /\
  leb_value (varint32_bytes n) = n /\
  (List.length (varint32_bytes n) <= 5)%nat.
Proof.
  unfold whole_varint32. rewrite !andb_true_iff, negb_true_iff.
  rewrite Z.leb_le, Z.ltb_lt. intros [Hn Hwhole].
  destruct (varint32_bytes_spec n Hn) as (Hleb & Hval & Hlen).
  rewrite Hwhole in Hval, Hlen. cbv iota in Hval, Hlen.
  split_and!; try done; try lia.
  rewrite Hlen. unfold leb_length. repeat destruct (_ <? 128); lia.
Qed.

Lemma varint_at_varint32 (pre post : list Z) (n : Z) :
  whole_varint32 n = true ->
  varint_at 5 (2 ^ 32) (pre ++ varint32_bytes n ++ post) (vsize pre)
  = Some (n, vsize pre + vsize (varint32_bytes n)).
Proof.
  intros (Hn & Hleb & Hval & Hlen)%whole_varint32_spec.
  rewrite varint_at_leb by (rewrite ?Hval; try done; lia). by rewrite Hval.
Qed.

Lemma varint64_bytes_Some (n : Z) :
  0 <= n < 2 ^ 64 ->
  exists bs,
    varint64_bytes (Z.to_nat kMaxVarintLength64) n = Some bs /\
    leb128 bs /\ leb_value bs = n /\ (List.length bs <= 10)%nat.
Proof.
  intros Hn. change (Z.to_nat kMaxVarintLength64) with 10%nat.
  destruct (varint64_bytes_spec 10 n ltac:(lia))
    as (bs & Hbs & Hleb & Hval & Hlen & Hle).
  { change (7 * Z.of_nat 10) with 70.
    change (2 ^ 64) with 18446744073709551616 in Hn.
    change (2 ^ 70) with 1180591620717411303424. lia. }
  by exists bs.
Qed.

Lemma fits_range (lo hi n : Z) :
  (lo <=? n) && (n <? hi) = true -> lo <= n < hi.
Proof. rewrite andb_true_iff, Z.leb_le, Z.ltb_lt. done. Qed.

(** The call that reads a value finds it where its bytes are. *)
Lemma parse_get (v : value) (pre post : list Z) :
  fits v = true ->
  parse (get_call v) (pre ++ encoding v ++ post) (vsize pre)
  = Some (answer_of v, vsize pre + vsize (encoding v)).
Proof.
  intros Hfits. destruct v; cbn [get_call parse encoding answer_of fits] in *.
  - unfold vsize at 1. rewrite Nat2Z.id.
    by rewrite lookup_app_r, Nat.sub_diag by lia.
  - by rewrite slice_app.
  - apply fits_range in Hfits. by rewrite fixed_at_int32.
  - apply fits_range in Hfits. by rewrite fixed_at_int64.
  - by rewrite varint_at_varint32.
  - apply fits_range in Hfits.
    destruct (varint64_bytes_Some n Hfits) as (bs & -> & Hleb & Hval & Hlen).
    simpl. rewrite varint_at_leb by (rewrite ?Hval; try done; lia).
    by rewrite Hval.
  - pose proof Hfits as (Hn & _)%whole_varint32_spec.
    rewrite u32_small by done. rewrite <- app_assoc.
    rewrite varint_at_varint32 by done.
    rewrite (app_assoc pre), <- vsize_app, slice_app.
    by rewrite !vsize_app, Z.add_assoc.
Qed.

(** The call that writes a value at the end of a file adds its bytes. *)
Lemma step_put (v : value) (content : list Z) :
  fits v = true -> vsize content + vsize (encoding v) < 2 ^ 64 ->
  step (put_call v) (content, vsize content)
  = Some (content ++ encoding v, vsize content + vsize (encoding v)).
Proof.
  assert (Hstore : forall bs content,
    vsize content + vsize bs < 2 ^ 64 ->
    store_at bs (content, vsize content)
    = Some (content ++ bs, vsize content + vsize bs)).
  { intros bs c Hsmall. unfold store_at. simpl.
    destruct (Z.ltb_spec (vsize c + vsize bs) (2 ^ 64)); [|lia].
    unfold vsize at 1. by rewrite Nat2Z.id, overwrite_end. }
  intros Hfits Hsmall. destruct v; cbn [put_call step encoding fits] in *;
    try (by apply Hstore).
  - apply fits_range in Hfits.
    destruct (varint64_bytes_Some n Hfits) as (bs & Hbs & _).
    rewrite Hbs in *. by apply Hstore.
  - rewrite vsize_app in Hsmall. pose proof (vsize_nonneg s).
    rewrite Hstore by lia. rewrite <- vsize_app, Hstore.
    + by rewrite <- app_assoc, !vsize_app, Z.add_assoc.
    + rewrite vsize_app. lia.
Qed.

Lemma steps_put (vals : list value) (content : list Z) :
  Forall (λ v, fits v = true) vals ->
  vsize content + vsize (concat (encoding <$> vals)) < 2 ^ 64 ->
  steps (put_call <$> vals) (content, vsize content)
  = Some (content ++ concat (encoding <$> vals),
          vsize content + vsize (concat (encoding <$> vals))).
Proof.
  intros Hfits. revert content.
  induction Hfits as [|v vals Hv _ IH]; intros content Hsmall;
    rewrite ?fmap_cons in *; cbn [concat steps] in *.
  - change (vsize []) with 0. by rewrite app_nil_r, Z.add_0_r.
  - rewrite vsize_app in Hsmall.
    pose proof (vsize_nonneg (concat (encoding <$> vals))).
    rewrite step_put by (try done; lia).
    rewrite <- vsize_app, IH by (rewrite vsize_app; lia).
    by rewrite <- app_assoc, !vsize_app, Z.add_assoc.
Qed.

Lemma parses_get (vals : list value) (pre post : list Z) :
  Forall (λ v, fits v = true) vals ->
  parses (get_call <$> vals) (pre ++ concat (encoding <$> vals) ++ post) (vsize pre)
  = Some (answer_of <$> vals).
Proof.
  intros Hfits. revert pre.
  induction Hfits as [|v vals Hv _ IH]; intros pre;
    rewrite ?fmap_cons; cbn [concat parses]; [done |].
  rewrite <- app_assoc, parse_get by done.
  rewrite <- vsize_app, (app_assoc pre), IH. done.
Qed.

(** X14. Values that are written one after the other to a new file are read
    back in their order by the calls that belong to them: bytes, fixed-width
    numbers, varints and strings in the range of their type, the varint32
    values and the lengths of strings outside the range from 2^21 to
    2^28 - 1. *)
Theorem values_roundtrip (fname : string) (vals : list value) (w : World) :
  absent w fname ->
  Forall (λ v, fits v = true) vals ->
  0 < vsize (concat (encoding <$> vals)) < 2 ^ 64 ->
  outcome (write_then_read fname (put_call <$> vals) (get_call <$> vals) w)
  = Returns (answer_of <$> vals).
Proof.
  intros Habs Hfits Hsize.
  destruct (write_then_read_run fname (put_call <$> vals) (get_call <$> vals) w
              (concat (encoding <$> vals))
              (vsize (concat (encoding <$> vals))) (answer_of <$> vals))
    as (w' & _ & -> & _); try done.
  - apply (steps_put vals [] Hfits). change (vsize []) with 0. lia.
  - intros Hnil. rewrite Hnil in Hsize. change (vsize []) with 0 in Hsize. lia.
  - pose proof (parses_get vals [] [] Hfits) as H.
    by rewrite app_nil_r in H.
Qed.

Lemma values_roundtrip_witness :
  outcome (write_then_read "f"
             (put_call <$> [VInt64 (2 ^ 64 - 1); VString [104; 105]; VVarint32 300;
                       VByte 7; VVarint64 (2 ^ 63); VInt32 65536;
                       VBytes [1; 2; 3]])
             (get_call <$> [VInt64 (2 ^ 64 - 1); VString [104; 105]; VVarint32 300;
                       VByte 7; VVarint64 (2 ^ 63); VInt32 65536;
                       VBytes [1; 2; 3]])
             empty_world)
  = Returns (answer_of <$> [VInt64 (2 ^ 64 - 1); VString [104; 105];
                            VVarint32 300; VByte 7; VVarint64 (2 ^ 63);
                            VInt32 65536; VBytes [1; 2; 3]]).
Proof.
  apply (values_roundtrip "f" _ empty_world);
    [reflexivity | by repeat constructor | by vm_compute].
Defined.

(** ** The position that a reader reports *)

Lemma Input_seek_pos (p : Z) (i i' : Input.t) (w w' : World) :
  Input_seek p i w = Ok i' w' -> Input.pos i' = Input.pos i.
Proof.
  unfold Input_seek, bind, load, assert, block_exists, bind, load, ret, abort,
    place_sentinel.
  repeat case_match; try done; intros [= <- <-]; reflexivity.
Qed.

(** X15. The position that a reader reports is the number of bytes it has
    read since it was opened: seek on a reader moves the reader and leaves
    this count as it is. *)
Theorem reader_position_counts_reads (w : World) (fname : string)
    (chunks : list (list Z)) (p n : Z) :
  absent w fname ->
  0 <= p -> 0 <= n -> p + n <= vsize (concat chunks) ->
  p < vsize (concat chunks) < 2 ^ 64 ->
  outcome (position_after_seek fname chunks p n w) = Returns n.
Proof.
  intros Habs Hp Hn Hin Hsize. unfold position_after_seek.
  set (data := concat chunks) in *.
  rewrite (bind_Ok _ _ _ _ _ (createOutput_absent w fname Habs)).
  set (l := fresh (dom (heap w))).
  set (w1 := {| files := _; heap := _; dummy_refs := _ |}).
  destruct (write_all_spec l chunks (Output.create l) (RAMFile.create fname) [] w1)
    as (o2 & f2 & Hall & Hw2 & Hl2 & [Hname Hrefs]);
    [done | apply lookup_insert_eq | apply created_writing
    | change (vsize []) with 0; fold data; lia |].
  rewrite (bind_Ok _ _ _ _ _ Hall). simpl in Hw2, Hname. fold data in Hw2.
  destruct (close_written o2 f2 data (with_file l f2 w1))
    as (w3 & f3 & Hclose & Hc3 & Hf3 & Hst3 & Hrefs3); try done.
  { rewrite Hl2. apply with_file_lookup. }
  { rewrite Hname. unfold placeholder. simpl. apply lookup_insert_eq. }
  { lia. }
  rewrite (bind_Ok _ _ _ _ _ Hclose). rewrite Hl2, Hname in *.
  assert (Hopen : exists i w4 f4,
    openInput fname w3 = Ok i w4 /\ heap w4 !! l = Some f4 /\
    stored f4 data /\ reading i f4 0 /\ Input.file i = l /\ Input.pos i = 0).
  { pose proof kBlockSize_eq as HB.
    pose proof (stored_length _ _ Hst3) as Hlen.
    rewrite (openInput_committed w3 fname l f3 Hc3 Hf3), Hrefs3.
    destruct (Z.eqb_spec (RAMFile.length f3) 0); [lia |]. simpl.
    eexists _, _, (RAMFile.set_refs (1 + 1) f3).
    split; [reflexivity |]. split_and!; try done.
    - apply lookup_insert_eq.
    - by apply stored_set_refs.
    - apply opened_reading. simpl. apply u64_small. blocks_lia. }
  destruct Hopen as (i0 & w4 & f4 & Hopen & Hf4 & Hst4 & Hr4 & Hl4 & Hpos4).
  rewrite (bind_Ok _ _ _ _ _ Hopen).
  destruct (seek_spec l f4 data w4 Hf4 Hst4 p i0 0 Hl4 Hr4 ltac:(lia))
    as (i1 & Hseek & Hr1 & Hl1).
  pose proof (Input_seek_pos _ _ _ _ _ Hseek) as Hpos1.
  rewrite (bind_Ok _ _ _ _ _ Hseek).
  destruct (read_spec l f4 data w4 Hf4 Hst4 n i1 p Hl1 Hr1 Hp Hn Hin)
    as (i2 & Hread & _ & _ & Hpos2).
  rewrite (bind_Ok _ _ _ _ _ Hread). simpl.
  unfold Input.getCurrentPosition. rewrite Hpos2, Hpos1, Hpos4.
  f_equal. apply u64_small. lia.
Qed.

Lemma reader_position_counts_reads_witness :
  outcome (position_after_seek "f" [[1; 2; 3]; [4; 5]] 3 2 empty_world)
  = Returns 2.
Proof.
  apply (reader_position_counts_reads empty_world "f" [[1; 2; 3]; [4; 5]] 3 2);
    [reflexivity | lia | lia | by vm_compute | by vm_compute].
Defined.

(** ** The test of the directory *)

Lemma thread_calls {A} (cs : list wcall) (k : Output.t -> M World A)
    (o : Output.t) (w : World) :
  thread cs k o w = bind (calls cs o) k w.
Proof.
  revert o w. induction cs as [|c cs IH]; intros o w; simpl; [done |].
  unfold bind at 1 2 3. destruct (call c o w); try done.
Qed.

Lemma ask_Number (m : M World (Z * Input.t)) (n : Z) (i' : Input.t)
    (w w' : World) :
  bind m (λ x, let '(n, i) := x in ret (Number n, i)) w
  = Ok (Number n, i') w' ->
  m w = Ok (n, i') w'.
Proof.
  unfold bind, ret. destruct (m w) as [[? ?] ?| |]; by intros [= -> -> ->].
Qed.

Lemma ask_Bytes (m : M World (list Z * Input.t)) (bs : list Z) (i' : Input.t)
    (w w' : World) :
  bind m (λ x, let '(s, i) := x in ret (Bytes s, i)) w
  = Ok (Bytes bs, i') w' ->
  m w = Ok (bs, i') w'.
Proof.
  unfold bind, ret. destruct (m w) as [[? ?] ?| |]; by intros [= -> -> ->].
Qed.

Lemma read_value (l : nat) (f : RAMFile.t) (data : list Z) (w : World)
    (v : value) (pre post : list Z) (i : Input.t) :
  heap w !! l = Some f -> stored f data ->
  fits v = true -> data = pre ++ encoding v ++ post ->
  Input.file i = l -> reading i f (vsize pre) ->
  exists i',
    ask (get_call v) i w = Ok (answer_of v, i') w /\
    reading i' f (vsize (pre ++ encoding v)) /\ Input.file i' = l.
Proof.
  intros Hf Hst Hfits Hdata Hl Hr.
  pose proof (parse_get v pre post Hfits) as Hparse. rewrite <- Hdata in Hparse.
  assert (Hq : 0 <= vsize pre <= vsize data).
  { pose proof (vsize_nonneg pre). pose proof (vsize_nonneg (encoding v)).
    pose proof (vsize_nonneg post). rewrite Hdata, !vsize_app. lia. }
  destruct (ask_spec l f data w Hf Hst (get_call v) i (vsize pre) _ _ Hl Hr Hq
              Hparse) as (i' & Hask & Hr' & Hl' & _).
  exists i'. by rewrite vsize_app.
Qed.

Lemma overwrite_front (a b rest : list Z) :
  List.length a = List.length b -> overwrite 0 a (b ++ rest) = a ++ rest.
Proof.
  intros Hlen. unfold overwrite. simpl. f_equal.
  rewrite Hlen. apply drop_app_length.
Qed.

Lemma vsize_int64_bytes (n : Z) : vsize (int64_bytes n) = 8.
Proof. reflexivity. Qed.

Lemma vsize_int32_bytes (n : Z) : vsize (int32_bytes n) = 4.
Proof. reflexivity. Qed.

Lemma encoding_size (v : value) :
  fits v = true ->
  vsize (encoding v)
  <= match v with
     | VBytes bs => vsize bs
     | VString s => 5 + vsize s
     | _ => 10
     end.
Proof.
  intros Hfits. destruct v; cbn [encoding fits] in *;
    rewrite ?vsize_int64_bytes, ?vsize_int32_bytes; try lia.
  - change (vsize [c]) with 1. lia.
  - apply whole_varint32_spec in Hfits as (_ & _ & _ & Hlen).
    unfold vsize. lia.
  - apply fits_range in Hfits.
    destruct (varint64_bytes_Some n Hfits) as (bs & -> & _ & _ & Hlen).
    simpl. unfold vsize. lia.
  - pose proof Hfits as (Hn & _)%whole_varint32_spec.
    rewrite u32_small by done.
    apply whole_varint32_spec in Hfits as (_ & _ & _ & Hlen).
    rewrite vsize_app. unfold vsize in *. lia.
Qed.

Section test.
Context (return_statement : list Z).
Context (max_uint32_t max_uint64_t varint32 varint64 : Z).
Context (Hs : fits (VString return_statement) = true).
Context (H32 : fits (VInt32 max_uint32_t) = true).
Context (H64 : fits (VInt64 max_uint64_t) = true).
Context (Hv32 : fits (VVarint32 varint32) = true).
Context (Hv64 : fits (VVarint64 varint64) = true).

Lemma test_values_fit :
  Forall (λ v, fits v = true)
    (test_values return_statement max_uint32_t varint32 varint64).
Proof. by repeat constructor. Qed.

Lemma test_values_size :
  vsize (concat (encoding <$>
           test_values return_statement max_uint32_t varint32 varint64))
  < 2 ^ 33.
Proof.
  unfold test_values. rewrite !fmap_cons. cbn [concat fmap list_fmap].
  rewrite !vsize_app. change (vsize []) with 0.
  pose proof (encoding_size _ Hs). pose proof (encoding_size _ H32).
  pose proof (encoding_size _ Hv32). pose proof (encoding_size _ Hv64).
  pose proof Hs as (Hn & _)%whole_varint32_spec. cbv beta iota in *.
  change (2 ^ 32) with 4294967296 in *. change (2 ^ 33) with 8589934592. lia.
Qed.

Lemma test_steps :
  steps [WriteInt64 0; WriteString return_statement; WriteVarint64 varint64;
         WriteInt32 max_uint32_t; WriteVarint32 varint32; Seek 0;
         WriteInt64 max_uint64_t] ([], 0)
  = Some (int64_bytes max_uint64_t
          ++ concat (encoding <$>
               test_values return_statement max_uint32_t varint32 varint64),
          8).
Proof.
  pose proof test_values_size as Hsize. pose proof test_values_fit as Hfit.
  change [WriteInt64 0; WriteString return_statement; WriteVarint64 varint64;
          WriteInt32 max_uint32_t; WriteVarint32 varint32; Seek 0;
          WriteInt64 max_uint64_t]
    with ((put_call <$> (VInt64 0 :: test_values return_statement
                           max_uint32_t varint32 varint64))
          ++ [Seek 0; WriteInt64 max_uint64_t]).
  set (vals := test_values _ _ _ _) in *.
  pose proof (vsize_nonneg (concat (encoding <$> vals))) as Hpos.
  change (2 ^ 33) with 8589934592 in Hsize.
  rewrite steps_app.
  assert (Hput : steps (put_call <$> (VInt64 0 :: vals)) ([], 0)
                 = Some (int64_bytes 0 ++ concat (encoding <$> vals),
                         8 + vsize (concat (encoding <$> vals)))).
  { pose proof (steps_put (VInt64 0 :: vals) []) as Hp.
    rewrite fmap_cons in Hp. cbn [concat encoding] in Hp.
    rewrite vsize_app, vsize_int64_bytes in Hp.
    change (vsize []) with 0 in Hp. rewrite Hp; [done | |].
    - by constructor.
    - change (2 ^ 64) with 18446744073709551616. lia. }
  rewrite Hput. cbn [concat encoding steps step app fst snd].
  destruct (Z.leb_spec 0 0); [|lia].
  destruct (Z.leb_spec 0 (vsize (int64_bytes 0 ++ concat (encoding <$> vals))));
    [|rewrite vsize_app in *; change (vsize (int64_bytes 0)) with 8 in *; lia].
  cbn [andb]. unfold store_at. cbn [fst snd].
  rewrite vsize_int64_bytes. change (0 + 8 <? 2 ^ 64) with true. cbv iota.
  change (Z.to_nat 0) with 0%nat. by rewrite overwrite_front.
Qed.

Lemma test_run (w : World) :
  files w = ∅ ->
  exists w',
    RAMDirectory_single_thread_test return_statement max_uint32_t
      max_uint64_t varint32 varint64 w = Ok tt w' /\
    heap w' = heap w.
Proof.
  intros Hnew. pose proof kBlockSize_eq as HB.
  assert (Habs : absent w "test_file").
  { unfold absent. rewrite Hnew. apply lookup_empty. }
  unfold RAMDirectory_single_thread_test.
  rewrite (bind_Ok _ _ _ _ _ (createOutput_absent w _ Habs)).
  set (l := fresh (dom (heap w))).
  set (w1 := {| files := _; heap := _; dummy_refs := _ |}).
  set (cs := [WriteInt64 0; WriteString return_statement;
              WriteVarint64 varint64; WriteInt32 max_uint32_t;
              WriteVarint32 varint32; Seek 0; WriteInt64 max_uint64_t]).
  pose proof (fun K => thread_calls (A := unit) cs K (Output.create l) w1)
    as Hprog.
  cbn [thread call cs] in Hprog. rewrite Hprog. clear Hprog.
  set (body := concat (encoding <$>
                 test_values return_statement max_uint32_t varint32 varint64)).
  set (content := int64_bytes max_uint64_t ++ body).
  destruct (calls_spec l cs (Output.create l) (RAMFile.create "test_file")
              ([], 0) (content, 8) w1)
    as [(o2 & f2 & Hrun & He2 & Hpos2 & Hl2 & [Hname Hrefs]) [_ Hsmall]];
    [done | apply lookup_insert_eq | apply created_editing | done
    | apply file_state_start | apply test_steps |].
  rewrite (bind_Ok _ _ _ _ _ Hrun). simpl in He2, Hname, Hsmall.
  set (w2 := with_file l f2 w1).
  assert (Hfiles2 : files w2 = {["test_file" := dummy]}).
  { simpl. by rewrite Hnew, insert_empty. }
  assert (Hlist : listAll w2 = Ok ["test_file"] w2).
  { unfold listAll. rewrite bind_get, Hfiles2, map_to_list_singleton.
    reflexivity. }
  rewrite (bind_Ok _ _ _ _ _ Hlist).
  change ((vsize ["test_file"] =? 1)
          && bool_decide (last ["test_file"] = Some "test_file")) with true.
  rewrite (bind_Ok _ _ _ _ _ (assert_true _ w2)).
  destruct (ed_close l o2 f2 content w2) as (f3 & Hclose & Hst3 & Hrefs3);
    try done.
  { apply with_file_lookup. }
  { rewrite Hname. unfold placeholder. rewrite Hfiles2.
    apply lookup_insert_eq. }
  rewrite (bind_Ok _ _ _ _ _ Hclose).
  rewrite Hname, Hfiles2, insert_singleton_eq.
  set (w3 := {| files := _; heap := _; dummy_refs := _ |}).
  assert (Hc3 : committed w3 "test_file" l) by apply lookup_insert_eq.
  assert (Hf3 : heap w3 !! l = Some f3) by apply lookup_insert_eq.
  pose proof (stored_length _ _ Hst3) as Hlen3.
  set (e1 := encoding (VInt64 max_uint64_t)).
  set (e2 := encoding (VString return_statement)).
  set (e3 := encoding (VVarint64 varint64)).
  set (e4 := encoding (VInt32 max_uint32_t)).
  set (e5 := encoding (VVarint32 varint32)).
  assert (Hdata : content = e1 ++ e2 ++ e3 ++ e4 ++ e5 ++ []) by reflexivity.
  assert (Hlong : 8 < vsize content).
  { rewrite Hdata, !vsize_app. change (vsize e1) with 8.
    change (vsize e4) with 4. pose proof (vsize_nonneg e2).
    pose proof (vsize_nonneg e3). pose proof (vsize_nonneg e5).
    change (vsize []) with 0. lia. }
  set (f4 := RAMFile.set_refs (1 + 1) f3).
  assert (Hopen : exists i w4,
    openInput "test_file" w3 = Ok i w4 /\ w4 = with_file l f4 w3 /\
    reading i f4 0 /\ Input.file i = l).
  { rewrite (openInput_committed w3 _ l f3 Hc3 Hf3), Hrefs3.
    destruct (Z.eqb_spec (RAMFile.length f3) 0); [lia |]. simpl.
    eexists _, _. split; [reflexivity |]. split_and!; try done.
    apply opened_reading. simpl. apply u64_small. blocks_lia. }
  destruct Hopen as (i0 & w4 & Hopen & -> & Hr0 & Hl0).
  rewrite (bind_Ok _ _ _ _ _ Hopen).
  set (w4 := with_file l f4 w3).
  assert (Hf4 : heap w4 !! l = Some f4) by apply with_file_lookup.
  assert (Hst4 : stored f4 content) by by apply stored_set_refs.
  destruct (read_value l f4 content w4 (VInt64 max_uint64_t) []
              (e2 ++ e3 ++ e4 ++ e5 ++ []) i0)
    as (i1 & Hask1 & Hr1 & Hl1); try done.
  cbn [get_call ask answer_of] in Hask1. apply ask_Number in Hask1.
  rewrite (bind_Ok _ _ _ _ _ Hask1). cbv beta iota.
  rewrite Z.eqb_refl, (bind_Ok _ _ _ _ _ (assert_true _ w4)).
  destruct (read_value l f4 content w4 (VString return_statement) e1
              (e3 ++ e4 ++ e5 ++ []) i1)
    as (i2 & Hask2 & Hr2 & Hl2'); try done.
  cbn [get_call ask answer_of] in Hask2. apply ask_Bytes in Hask2.
  rewrite (bind_Ok _ _ _ _ _ Hask2). cbv beta iota.
  rewrite bool_decide_true, (bind_Ok _ _ _ _ _ (assert_true _ w4)) by done.
  destruct (read_value l f4 content w4 (VVarint64 varint64) (e1 ++ e2)
              (e4 ++ e5 ++ []) i2)
    as (i3 & Hask3 & Hr3 & Hl3); try done;
    try by rewrite <- !app_assoc.
  cbn [get_call ask answer_of] in Hask3. apply ask_Number in Hask3.
  rewrite (bind_Ok _ _ _ _ _ Hask3). cbv beta iota.
  rewrite Z.eqb_refl, (bind_Ok _ _ _ _ _ (assert_true _ w4)).
  destruct (read_value l f4 content w4 (VInt32 max_uint32_t)
              ((e1 ++ e2) ++ e3) (e5 ++ []) i3)
    as (i4 & Hask4 & Hr4 & Hl4); try done;
    try by rewrite <- !app_assoc.
  cbn [get_call ask answer_of] in Hask4. apply ask_Number in Hask4.
  rewrite (bind_Ok _ _ _ _ _ Hask4). cbv beta iota.
  rewrite Z.eqb_refl, (bind_Ok _ _ _ _ _ (assert_true _ w4)).
  destruct (read_value l f4 content w4 (VVarint32 varint32)
              (((e1 ++ e2) ++ e3) ++ e4) [] i4)
    as (i5 & Hask5 & Hr5 & Hl5); try done;
    try by rewrite <- !app_assoc.
  cbn [get_call ask answer_of] in Hask5. apply ask_Number in Hask5.
  rewrite (bind_Ok _ _ _ _ _ Hask5). cbv beta iota.
  rewrite Z.eqb_refl, (bind_Ok _ _ _ _ _ (assert_true _ w4)).
  destruct (seek_spec l f4 content w4 Hf4 Hst4 8 i5 _ Hl5 Hr5 ltac:(lia))
    as (i6 & Hseek & Hr6 & Hl6).
  rewrite (bind_Ok _ _ _ _ _ Hseek).
  destruct (read_value l f4 content w4 (VString return_statement) e1
              (e3 ++ e4 ++ e5 ++ []) i6)
    as (i7 & Hask7 & Hr7 & Hl7); try done.
  cbn [get_call ask answer_of] in Hask7. apply ask_Bytes in Hask7.
  rewrite (bind_Ok _ _ _ _ _ Hask7). cbv beta iota.
  rewrite bool_decide_true, (bind_Ok _ _ _ _ _ (assert_true _ w4)) by done.
  unfold Input_close. rewrite Hl7.
  rewrite (bind_Ok _ _ _ _ _ (unrefReader_spec w4 l f4 Hf4 ltac:(done))).
  unfold drop_ref. change (RAMFile.refs_ f4 - 1 =? 0) with false. cbv iota.
  set (f5 := RAMFile.set_refs (RAMFile.refs_ f4 - 1) f4).
  set (w5 := set_heap _ w4).
  assert (Hf5 : heap w5 !! l = Some f5) by apply lookup_insert_eq.
  unfold RAMDirectory_dtor. rewrite bind_get.
  change (files w5) with ({["test_file" := heap_file l]} : gmap string fileptr).
  rewrite map_to_list_singleton. cbn [RAMDirectory_dtor_loop snd].
  rewrite (bind_Ok _ _ _ _ _ (dtor_entry_free l f5 w5 Hf5 ltac:(done))).
  eexists. split; [reflexivity |]. simpl.
  rewrite !delete_insert_eq. apply delete_id, fresh_not_allocated.
Qed.
End test.

(** X16. The test of the repository passes, with the values of main() and
    with every other string of bytes and numbers in the range of their types
    that writeVarint32 writes whole: on a new directory no assertion of the
    test fails and nothing is thrown, and when the reader and the directory
    have been destroyed every file that the test allocated is freed. *)
Theorem single_thread_test_passes (return_statement : list Z)
    (max_uint32_t max_uint64_t varint32 varint64 : Z) (w : World) :
  files w = ∅ ->
  forallb is_byte return_statement = true ->
  fits (VString return_statement) = true ->
  fits (VInt32 max_uint32_t) = true ->
  fits (VInt64 max_uint64_t) = true ->
  fits (VVarint32 varint32) = true ->
  fits (VVarint64 varint64) = true ->
  exists w',
    RAMDirectory_single_thread_test return_statement max_uint32_t
      max_uint64_t varint32 varint64 w = Ok tt w' /\
    heap w' = heap w.
Proof. intros Hnew _ Hs H32 H64 Hv32 Hv64. by apply test_run. Qed.

Lemma single_thread_test_passes_witness :
  exists w',
    RAMDirectory_single_thread_test test_return_statement UINT32_MAX
      UINT64_MAX 1928936378 565675526378912 empty_world = Ok tt w' /\
    heap w' = heap empty_world.
Proof.
  apply (single_thread_test_passes test_return_statement UINT32_MAX
           UINT64_MAX 1928936378 565675526378912 empty_world);
    by vm_compute.
Defined.

(** ** Streams touch their own file only *)

Section keeps.
Context (l : nat).

Lemma keeps_ret {A} (P : A -> Prop) (a : A) : P a -> keeps l P (ret a).
Proof.
  intros Ha w f Hf. split; [done |]. exists f.
  split; [by rewrite with_file_id | apply same_file_refl].
Qed.

Lemma keeps_throw {A} (P : A -> Prop) (c : Code) : keeps l P (throw c).
Proof.
  intros w f Hf. exists f.
  split; [by rewrite with_file_id | apply same_file_refl].
Qed.

Lemma keeps_abort {A} (P : A -> Prop) (e : fatal) :
  e <> DanglingPointer -> keeps l P (abort e).
Proof. by intros He w f Hf. Qed.

Lemma keeps_assert (b : bool) (msg : string) :
  keeps l (λ _, b = true) (assert b msg).
Proof. destruct b; [by apply keeps_ret | by apply keeps_abort]. Qed.

Lemma keeps_bind {A B} (P : A -> Prop) (Q : B -> Prop)
    (m : M World A) (k : A -> M World B) :
  keeps l P m -> (forall a, P a -> keeps l Q (k a)) -> keeps l Q (bind m k).
Proof.
  intros Hm Hk w f Hf. specialize (Hm w f Hf). unfold bind.
  destruct (m w) as [a w1 | c w1 | e]; simpl in *; [|done..].
  destruct Hm as (Ha & f1 & -> & Hs1).
  specialize (Hk a Ha (with_file l f1 w) f1 (with_file_lookup _ _ _)).
  destruct (k a (with_file l f1 w)) as [b w2 | c w2 | e]; simpl in *;
    [|  |done].
  - destruct Hk as (Hb & f2 & -> & Hs2). split; [done |]. exists f2.
    split; [apply with_file_with_file | by eapply same_file_trans].
  - destruct Hk as (f2 & -> & Hs2). exists f2.
    split; [apply with_file_with_file | by eapply same_file_trans].
Qed.

Lemma keeps_weaken {A} (P Q : A -> Prop) (m : M World A) :
  keeps l P m -> (forall a, P a -> Q a) -> keeps l Q m.
Proof.
  intros Hm HPQ w f Hf. specialize (Hm w f Hf).
  destruct (m w); simpl in *; [|done..]. destruct Hm as [? ?]. auto.
Qed.

(** The file that is loaded is the one of the state. *)
Lemma keeps_load {B} (Q : B -> Prop) (k : RAMFile.t -> M World B) :
  (forall w f, heap w !! l = Some f -> kept l Q f w (k f w)) ->
  keeps l Q (bind (load l) k).
Proof. intros Hk w f Hf. unfold bind, load. rewrite Hf. by apply Hk. Qed.

(** A store of the loaded file with other blocks or another length. *)
Lemma kept_store {B} (Q : B -> Prop) (k : unit -> M World B)
    (f g : RAMFile.t) (w : World) :
  heap w !! l = Some f -> same_file f g -> keeps l Q (k tt) ->
  kept l Q f w (bind (store l g) k w).
Proof.
  intros Hf Hs Hk. unfold bind, store. rewrite Hf.
  specialize (Hk (with_file l g w) g (with_file_lookup _ _ _)).
  fold (with_file l g w).
  destruct (k tt (with_file l g w)) as [b w2 | c w2 | e]; simpl in *;
    [|  |done].
  - destruct Hk as (Hb & f2 & -> & Hs2). split; [done |]. exists f2.
    split; [apply with_file_with_file | by eapply same_file_trans].
  - destruct Hk as (f2 & -> & Hs2). exists f2.
    split; [apply with_file_with_file | by eapply same_file_trans].
Qed.

Lemma keeps_block_exists (b : Z) : keeps l (λ _, True) (block_exists l b).
Proof.
  unfold block_exists. apply keeps_load. intros w f Hf.
  destruct (at_ _ _); [by apply keeps_ret | by apply keeps_abort].
Qed.

Lemma keeps_peek (b off : Z) : keeps l (λ _, True) (peek l b off).
Proof.
  unfold peek. apply keeps_load. intros w f Hf.
  destruct (at_ _ _) as [blk|]; [|by apply keeps_abort].
  destruct (at_ blk off) as [[c|]|];
    [by apply keeps_ret | by apply keeps_abort..].
Qed.

Lemma keeps_poke (b off c : Z) : keeps l (λ _, True) (poke l b off c).
Proof.
  unfold poke. apply keeps_load. intros w f Hf.
  destruct (at_ _ _) as [blk|]; [|by apply keeps_abort].
  destruct (_ && _); [|by apply keeps_abort].
  rewrite <- (bind_ret_r (store l _)).
  apply kept_store; [done | done | by apply keeps_ret].
Qed.

(** *** The writer *)

Lemma keeps_put_at (o : Output.t) (i c : Z) :
  Output.file o = l -> keeps l (λ _, True) (put_at o i c).
Proof.
  intros Ho. unfold put_at. rewrite Ho.
  destruct (Output.buf o); [apply keeps_poke | by apply keeps_abort].
Qed.

Lemma keeps_memcpy_to (o : Output.t) (i : Z) (ptr : list Z) :
  Output.file o = l -> keeps l (λ _, True) (memcpy_to o i ptr).
Proof.
  intros Ho. revert i. induction ptr as [|c ptr IH]; intros i; simpl.
  - by apply keeps_ret.
  - eapply keeps_bind; [by apply keeps_put_at |]. intros _ _. apply IH.
Qed.

Lemma keeps_Output_initInternalBuffer (o : Output.t) :
  Output.file o = l -> keeps l (to_file l) (Output_initInternalBuffer o).
Proof.
  intros Ho. unfold Output_initInternalBuffer. rewrite Ho.
  apply keeps_load. intros w f Hf. apply kept_store; [done | done |].
  eapply keeps_bind; [apply keeps_block_exists |]. intros _ _.
  by apply keeps_ret.
Qed.

Lemma keeps_update_length (o : Output.t) :
  Output.file o = l -> keeps l (λ _, True) (update_length o).
Proof.
  intros Ho. unfold update_length. rewrite Ho.
  apply keeps_load. intros w f Hf.
  destruct (_ <? _); [|by apply keeps_ret].
  rewrite <- (bind_ret_r (store l _)).
  apply kept_store; [done | done | by apply keeps_ret].
Qed.

Lemma keeps_writeImpl (o : Output.t) :
  Output.file o = l -> keeps l (to_file l) (writeImpl o).
Proof.
  intros Ho. unfold writeImpl.
  eapply keeps_bind; [by apply keeps_update_length |]. intros _ _.
  destruct (_ =? _); [|by apply keeps_ret].
  destruct o as [buf bs bc be pos l0 cb]. simpl in Ho. subst l0.
  cbn -[u64]. apply keeps_load. intros w f Hf.
  assert (Hrest : forall o', Output.file o' = l ->
    keeps l (to_file l)
      (let* _ := block_exists l (u64 (cb + 1)) in ret o')).
  { intros o' Ho'. eapply keeps_bind; [apply keeps_block_exists |].
    intros _ _. by apply keeps_ret. }
  destruct (_ =? _).
  - by apply kept_store; [| |apply Hrest].
  - unfold bind at 1, ret at 1. by apply Hrest.
Qed.

Lemma keeps_flushNonEmpty (o : Output.t) :
  Output.file o = l -> keeps l (to_file l) (flushNonEmpty o).
Proof.
  intros Ho. unfold flushNonEmpty.
  eapply keeps_bind; [apply keeps_assert |]. intros _ _.
  eapply keeps_bind; [by apply keeps_writeImpl |]. intros o' Ho'.
  by apply keeps_ret.
Qed.

Lemma keeps_flush (o : Output.t) :
  Output.file o = l -> keeps l (to_file l) (flush o).
Proof.
  intros Ho. unfold flush.
  destruct (negb _); [by apply keeps_flushNonEmpty | by apply keeps_ret].
Qed.

Lemma keeps_copyToBuffer (ptr : list Z) (o : Output.t) :
  Output.file o = l -> keeps l (to_file l) (copyToBuffer ptr o).
Proof.
  intros Ho. unfold copyToBuffer.
  eapply keeps_bind; [apply keeps_assert |]. intros _ _.
  apply (keeps_bind (λ _, True)); [|intros _ _; by apply keeps_ret].
  destruct ptr as [|p0 [|p1 [|p2 [|p3 [|p4 ptr]]]]];
    repeat first
      [ by apply keeps_ret | by apply keeps_put_at | by apply keeps_memcpy_to
      | eapply keeps_bind; [by apply keeps_put_at | intros _ _] ].
Qed.

Lemma keeps_writeByte_rec (fuel : nat) (c : Z) (o : Output.t) :
  Output.file o = l -> keeps l (to_file l) (writeByte_rec fuel c o).
Proof.
  revert o. induction fuel as [|fuel IH]; intros o Ho; simpl.
  - by apply keeps_abort.
  - assert (Hstore : forall o', Output.file o' = l ->
      keeps l (to_file l)
        (let* _ := put_at (Output.set_pos (u64 (Output.pos o' + 1)) o') 0 c in
         ret (Output.set_bufCur
                (Output.bufCur (Output.set_pos (u64 (Output.pos o' + 1)) o') + 1)
                (Output.set_pos (u64 (Output.pos o' + 1)) o')))).
    { intros o' Ho'. eapply keeps_bind; [by apply keeps_put_at |].
      intros _ _. by apply keeps_ret. }
    destruct (_ =? _); [|by apply Hstore].
    destruct (negb _).
    + eapply keeps_bind; [by apply keeps_Output_initInternalBuffer |].
      intros o' Ho'. by apply IH.
    + eapply keeps_bind; [by apply keeps_flushNonEmpty |].
      intros o' Ho'. by apply Hstore.
Qed.

Lemma keeps_write_rec (fuel : nat) (ptr : list Z) (o : Output.t) :
  Output.file o = l -> keeps l (to_file l) (write_rec fuel ptr o).
Proof.
  revert ptr o. induction fuel as [|fuel IH]; intros ptr o Ho; simpl.
  - by apply keeps_abort.
  - destruct (_ <? _).
    + destruct (negb _).
      * eapply keeps_bind; [by apply keeps_Output_initInternalBuffer |].
        intros o' Ho'. by apply IH.
      * eapply keeps_bind; [by apply keeps_copyToBuffer |]. intros o1 Ho1.
        eapply keeps_bind; [by apply keeps_flushNonEmpty |]. intros o2 Ho2.
        by apply IH.
    + eapply keeps_bind; [by apply keeps_copyToBuffer |]. intros o1 Ho1.
      by apply keeps_ret.
Qed.

Lemma keeps_write (ptr : list Z) (o : Output.t) :
  Output.file o = l -> keeps l (to_file l) (write ptr o).
Proof. apply keeps_write_rec. Qed.

Lemma keeps_Output_seek (seek_pos : Z) (o : Output.t) :
  Output.file o = l -> keeps l (to_file l) (Output_seek seek_pos o).
Proof.
  intros Ho. unfold Output_seek.
  eapply keeps_bind; [by apply keeps_update_length |]. intros _ _.
  destruct o as [buf bs bc be pos l0 cb]. simpl in Ho. subst l0.
  cbn -[u64]. apply keeps_load. intros w f Hf.
  destruct (_ <=? _); [|done].
  rewrite (bind_Ok _ _ _ _ _ (assert_true _ w)).
  assert (Hrest : forall o', Output.file o' = l ->
    keeps l (to_file l)
      (let* _ := block_exists l (seek_pos / kBlockSize) in ret o')).
  { intros o' Ho'. eapply keeps_bind; [apply keeps_block_exists |].
    intros _ _. by apply keeps_ret. }
  destruct (_ =? _).
  - by apply kept_store; [| |apply Hrest].
  - unfold bind at 1, ret at 1. by apply Hrest.
Qed.

(** Every call on a writer leaves the other files, the table and the
    reference count of its own file as they are, and does not throw. *)
Lemma keeps_call (c : wcall) (o : Output.t) :
  Output.file o = l -> keeps l (to_file l) (call c o).
Proof.
  intros Ho. destruct c; cbn [call].
  - by apply keeps_writeByte_rec.
  - by apply keeps_write.
  - by apply keeps_write.
  - by apply keeps_write.
  - by apply keeps_write.
  - unfold writeVarint64.
    destruct (varint64_bytes _ _); [by apply keeps_write | by apply keeps_abort].
  - unfold writeString, writeVarint32.
    eapply keeps_bind; [by apply keeps_write |]. intros o' Ho'.
    by apply keeps_write.
  - by apply keeps_flush.
  - by apply keeps_flush.
  - by apply keeps_Output_seek.
Qed.

(** *** The reader *)

Lemma keeps_get_at (i : Input.t) (k : Z) :
  Input.file i = l -> keeps l (λ _, True) (get_at i k).
Proof.
  intros Hi. unfold get_at. rewrite Hi.
  destruct (Input.buf i); [apply keeps_peek | by apply keeps_abort].
Qed.

Lemma keeps_memcpy_from (i : Input.t) (n : nat) (k : Z) :
  Input.file i = l -> keeps l (λ _, True) (memcpy_from i k n).
Proof.
  intros Hi. revert k. induction n as [|n IH]; intros k; simpl.
  - by apply keeps_ret.
  - eapply keeps_bind; [by apply keeps_get_at |]. intros c _.
    eapply keeps_bind; [apply IH |]. intros cs _. by apply keeps_ret.
Qed.

Lemma keeps_fillImpl (i : Input.t) :
  Input.file i = l -> keeps l (on_file l) (fillImpl i).
Proof.
  intros Hi. unfold fillImpl.
  eapply keeps_bind; [apply keeps_assert |]. intros _ _.
  destruct (negb (Input.hasBuffer i)).
  - eapply keeps_bind with (P := λ i', Input.file i' = l).
    + unfold Input_initInternalBuffer. rewrite Hi.
      eapply keeps_bind; [apply keeps_block_exists |]. intros _ _.
      apply keeps_ret. by rewrite place_sentinel_file.
    + intros i' Hi'. by apply keeps_ret.
  - destruct (_ =? _); [by apply keeps_ret |]. simpl. rewrite Hi.
    eapply keeps_bind; [apply keeps_block_exists |]. intros _ _.
    apply keeps_ret. unfold on_file. simpl.
    by rewrite place_sentinel_file.
Qed.

Lemma keeps_eof (i : Input.t) :
  Input.file i = l -> keeps l (on_file l) (eof i).
Proof.
  intros Hi. unfold eof. destruct (Input.hasPendingData i).
  - by apply keeps_ret.
  - eapply keeps_bind; [by apply keeps_fillImpl |].
    intros [filled i'] Hi'. by apply keeps_ret.
Qed.

Lemma keeps_readByte (i : Input.t) :
  Input.file i = l -> keeps l (on_file l) (readByte i).
Proof.
  intros Hi. unfold readByte.
  eapply keeps_bind; [by apply keeps_eof |].
  intros [[] i'] Hi'; [apply keeps_throw |].
  eapply keeps_bind; [by apply keeps_get_at |]. intros c _.
  by apply keeps_ret.
Qed.

Lemma keeps_read_loop (fuel : nat) (size : Z) (copied : list Z)
    (i : Input.t) :
  Input.file i = l -> keeps l (on_file l) (read_loop fuel size copied i).
Proof.
  revert copied i. induction fuel as [|fuel IH]; intros copied i Hi; simpl.
  - by apply keeps_abort.
  - destruct (_ <? _); [|by apply keeps_ret].
    eapply keeps_bind; [by apply keeps_eof |].
    intros [[] i'] Hi'; [by apply keeps_ret |].
    eapply keeps_bind; [by apply keeps_memcpy_from |].
    intros bs _. by apply IH.
Qed.

Lemma keeps_read (size : Z) (i : Input.t) :
  Input.file i = l -> keeps l (on_file l) (read size i).
Proof.
  intros Hi. unfold read.
  eapply keeps_bind; [by apply keeps_read_loop |].
  intros [copied i'] Hi'. by apply keeps_ret.
Qed.

Lemma keeps_readInt32 (i : Input.t) :
  Input.file i = l -> keeps l (on_file l) (readInt32 i).
Proof.
  intros Hi. unfold readInt32.
  eapply keeps_bind; [by apply keeps_read |].
  intros [buffer i'] Hi'.
  destruct (_ <? _); [apply keeps_throw | by apply keeps_ret].
Qed.

Lemma keeps_readInt64 (i : Input.t) :
  Input.file i = l -> keeps l (on_file l) (readInt64 i).
Proof.
  intros Hi. unfold readInt64.
  eapply keeps_bind; [by apply keeps_read |].
  intros [buffer i'] Hi'.
  destruct (_ <? _); [apply keeps_throw | by apply keeps_ret].
Qed.

Lemma keeps_readVarint_loop (wrap : Z -> Z) (room : nat)
    (bytes_decoded result : Z) (i : Input.t) :
  Input.file i = l ->
  keeps l (on_file l) (readVarint_loop wrap room bytes_decoded result i).
Proof.
  revert bytes_decoded result i.
  induction room as [|room IH]; intros bytes_decoded result i Hi; simpl.
  - apply keeps_throw.
  - eapply keeps_bind; [by apply keeps_eof |].
    intros [[] i'] Hi'; [apply keeps_throw |].
    eapply keeps_bind; [by apply keeps_readByte |].
    intros [c i''] Hi''.
    destruct (_ =? _); [by apply keeps_ret | by apply IH].
Qed.

Lemma keeps_readString_loop (size : nat) (buff : list Z) (i : Input.t) :
  Input.file i = l -> keeps l (on_file l) (readString_loop size buff i).
Proof.
  revert buff i. induction size as [|size IH]; intros buff i Hi; simpl.
  - by apply keeps_ret.
  - eapply keeps_bind; [by apply keeps_readByte |].
    intros [c i'] Hi'. by apply IH.
Qed.

Lemma keeps_readString (i : Input.t) :
  Input.file i = l -> keeps l (on_file l) (readString i).
Proof.
  intros Hi. unfold readString, readVarint32.
  eapply keeps_bind; [by apply keeps_readVarint_loop |].
  intros [size i'] Hi'. by apply keeps_readString_loop.
Qed.

Lemma keeps_Input_seek (seek_pos : Z) (i : Input.t) :
  Input.file i = l ->
  keeps l (λ i', Input.file i' = l) (Input_seek seek_pos i).
Proof.
  intros Hi. unfold Input_seek. rewrite Hi.
  apply keeps_load. intros w f Hf.
  destruct (_ <? _); [|done].
  rewrite (bind_Ok _ _ _ _ _ (assert_true _ w)). simpl. rewrite Hi.
  revert w f Hf.
  eapply keeps_bind; [apply keeps_block_exists |]. intros _ _.
  apply keeps_ret. by rewrite place_sentinel_file.
Qed.

(** Every call on a reader leaves the other files, the table and the
    reference count of its own file as they are. *)
Lemma keeps_ask (c : rcall) (i : Input.t) :
  Input.file i = l -> keeps l (on_file l) (ask c i).
Proof.
  intros Hi. destruct c; cbn [ask].
  - eapply keeps_bind; [by apply keeps_readByte |].
    intros [c i'] Hi'. by apply keeps_ret.
  - eapply keeps_bind; [by apply keeps_read |].
    intros [c i'] Hi'. by apply keeps_ret.
  - eapply keeps_bind; [by apply keeps_readInt32 |].
    intros [c i'] Hi'. by apply keeps_ret.
  - eapply keeps_bind; [by apply keeps_readInt64 |].
    intros [c i'] Hi'. by apply keeps_ret.
  - eapply keeps_bind; [by apply keeps_readVarint_loop |].
    intros [c i'] Hi'. by apply keeps_ret.
  - eapply keeps_bind; [by apply keeps_readVarint_loop |].
    intros [c i'] Hi'. by apply keeps_ret.
  - eapply keeps_bind; [by apply keeps_readString |].
    intros [c i'] Hi'. by apply keeps_ret.
  - eapply keeps_bind; [by apply keeps_Input_seek |].
    intros i' Hi'. by apply keeps_ret.
Qed.
End keeps.

(** ** The streams of a program *)

Section streams_on.
Context {A : Type} (file : A -> nat).

Lemma streams_on_nonneg (l : nat) (xs : list A) : 0 <= streams_on file l xs.
Proof. induction xs as [|x xs IH]; simpl; [done |]. case_match; lia. Qed.

Lemma streams_on_lookup (l : nat) (xs : list A) (k : nat) (x : A) :
  xs !! k = Some x -> file x = l -> 1 <= streams_on file l xs.
Proof.
  revert k. induction xs as [|y xs IH]; intros [|k] Hk Hx; simpl in *;
    try done.
  - injection Hk as ->. rewrite decide_True by done.
    pose proof (streams_on_nonneg l xs). lia.
  - specialize (IH k Hk Hx). case_match; lia.
Qed.

Lemma streams_on_insert (l : nat) (xs : list A) (k : nat) (x x' : A) :
  xs !! k = Some x -> file x' = file x ->
  streams_on file l (<[k := x']> xs) = streams_on file l xs.
Proof.
  revert k. induction xs as [|y xs IH]; intros [|k] Hk Hx; simpl in *;
    try done.
  - injection Hk as ->. by rewrite Hx.
  - by rewrite (IH k).
Qed.

Lemma streams_on_delete (l : nat) (xs : list A) (k : nat) (x : A) :
  xs !! k = Some x ->
  streams_on file l (delete k xs)
  = streams_on file l xs - (if decide (file x = l) then 1 else 0).
Proof.
  revert k. induction xs as [|y xs IH]; intros [|k] Hk; simpl in *;
    try done.
  - injection Hk as ->. lia.
  - rewrite (IH k Hk). lia.
Qed.
End streams_on.

(** ** The reference counts of a program *)

Lemma new_program_sound : sound new_program.
Proof. by split. Qed.

(** A call that keeps the table and the reference counts. *)
Lemma sound_frame (s : Program) (w' : World) (outs : list Output.t)
    (ins : list Input.t) :
  sound s ->
  (forall n l, committed w' n l <-> committed (dir s) n l) ->
  (forall l, RAMFile.refs_ <$> heap w' !! l
             = RAMFile.refs_ <$> heap (dir s) !! l) ->
  (forall l, streams_on Output.file l outs = writers s l) ->
  (forall l, streams_on Input.file l ins = readers s l) ->
  sound (mkProgram w' outs ins).
Proof.
  intros [Hn Hc Hd Hfr] Hcomm Hrefs Hw Hr.
  split; unfold readers, writers; simpl.
  - intros n1 n2 l H1%Hcomm H2%Hcomm. by apply (Hn n1 n2 l).
  - intros n l (f & Hf & Hcount)%Hcomm%Hc. specialize (Hrefs l).
    rewrite Hf in Hrefs. destruct (heap w' !! l) as [f'|]; [|done].
    injection Hrefs as Hrefs. exists f'. by rewrite Hw, Hr, Hrefs.
  - intros l f' Hf' Hnot. specialize (Hrefs l). rewrite Hf' in Hrefs.
    destruct (heap (dir s) !! l) as [f|] eqn:Hf; [|done].
    injection Hrefs as Hrefs. rewrite Hw, Hr, Hrefs. apply (Hd l f Hf).
    intros n Hcn%Hcomm. by apply (Hnot n).
  - intros l Hl. specialize (Hrefs l). rewrite Hl in Hrefs.
    destruct (heap (dir s) !! l) eqn:Hf; [done |]. rewrite Hw, Hr.
    by apply Hfr.
Qed.

(** A call on a stream of the file at [l] that is alive. *)
Lemma sound_kept {A} (s : Program) (l : nat) (f : RAMFile.t)
    (P : A -> Prop) (r : Result World A) (w' : World)
    (outs : list Output.t) (ins : list Input.t) :
  sound s -> heap (dir s) !! l = Some f -> kept l P f (dir s) r ->
  leaves r w' ->
  (forall l, streams_on Output.file l outs = writers s l) ->
  (forall l, streams_on Input.file l ins = readers s l) ->
  sound (mkProgram w' outs ins).
Proof.
  intros Hs Hf Hkept Hleaves Hw Hr.
  assert (exists f', w' = with_file l f' (dir s) /\ same_file f f')
    as (f' & -> & [_ Hrefs]).
  { destruct r; simpl in *; [by destruct Hkept as [_ ?]; subst | by subst
                            | done]. }
  apply (sound_frame s); try done. intros l'. simpl.
  destruct (decide (l' = l)) as [-> | Hne].
  - rewrite lookup_insert_eq, Hf. simpl. by rewrite Hrefs.
  - by rewrite lookup_insert_ne.
Qed.

(** ** What the calls that change the heap do *)

Lemma createOutput_Ok_inv (fname : string) (w w' : World) (o : Output.t) :
  createOutput fname w = Ok o w' ->
  absent w fname /\ o = Output.create (fresh (dom (heap w))) /\
  w' = {| files := <[fname := dummy]> (files w);
          heap := <[fresh (dom (heap w)) := RAMFile.create fname]> (heap w);
          dummy_refs := dummy_refs w |}.
Proof.
  destruct (files w !! fname) as [p|] eqn:Hp.
  - unfold createOutput. by rewrite bind_get, Hp.
  - rewrite (createOutput_absent w fname Hp). by intros [= <- <-].
Qed.

Lemma createOutput_Throw_inv (fname : string) (w w' : World) (c : Code) :
  createOutput fname w = Throw c w' -> w' = w.
Proof.
  destruct (files w !! fname) as [p|] eqn:Hp.
  - unfold createOutput. rewrite bind_get, Hp. by intros [= _ <-].
  - by rewrite (createOutput_absent w fname Hp).
Qed.

Lemma Output_close_Ok_inv (o : Output.t) (w w' : World) :
  Output_close o w = Ok tt w' ->
  exists f f',
    heap w !! Output.file o = Some f /\ placeholder w (RAMFile.name f) /\
    RAMFile.refs_ f' = 1 /\
    w' = {| files := <[RAMFile.name f := heap_file (Output.file o)]> (files w);
            heap := <[Output.file o := f']> (heap w);
            dummy_refs := dummy_refs w |}.
Proof.
  destruct (heap w !! Output.file o) as [f|] eqn:Hf.
  - destruct (decide (files w !! RAMFile.name f = Some dummy)) as [Hp | Hp].
    + rewrite (Output_close_spec o w f Hf Hp). intros [= <-].
      exists f, (RAMFile.set_refs 1
                   (RAMFile.set_length
                      (Z.max (RAMFile.length f) (Output.pos o)) f)).
      by split_and!.
    + unfold Output_close.
      destruct (update_length_spec o w f Hf) as (w1 & Hu & Hfs & Hd & Hh).
      rewrite (bind_Ok _ _ _ _ _ Hu).
      assert (Hf1 : heap w1 !! Output.file o
                    = Some (RAMFile.set_length
                              (Z.max (RAMFile.length f) (Output.pos o)) f))
        by (rewrite Hh; apply lookup_insert_eq).
      rewrite (bind_Ok _ _ _ _ _ (load_Some _ _ _ Hf1)).
      unfold commit. rewrite bind_get. simpl.
      by rewrite Hfs, bool_decide_false.
  - unfold Output_close, update_length, bind, load. by rewrite Hf.
Qed.

Lemma openInput_Ok_inv (fname : string) (w w' : World) (i : Input.t) :
  openInput fname w = Ok i w' ->
  exists l f,
    committed w fname l /\ heap w !! l = Some f /\ Input.file i = l /\
    w' = with_file l (RAMFile.set_refs (RAMFile.refs_ f + 1) f) w.
Proof.
  destruct (files w !! fname) as [[|l]|] eqn:Hp;
    try (unfold openInput; by rewrite bind_get, Hp).
  destruct (heap w !! l) as [f|] eqn:Hf.
  - rewrite (openInput_committed w fname l f Hp Hf).
    repeat case_match; try done. intros [= <- <-]. by exists l, f.
  - unfold openInput. rewrite bind_get, Hp.
    unfold new_RAMFileIndexInput, bind, load. by rewrite Hf.
Qed.

Lemma openInput_Throw_inv (fname : string) (w w' : World) (c : Code) :
  openInput fname w = Throw c w' -> w' = w.
Proof.
  destruct (files w !! fname) as [[|l]|] eqn:Hp;
    try (unfold openInput; rewrite bind_get, Hp; by intros [= _ <-]).
  destruct (heap w !! l) as [f|] eqn:Hf.
  - rewrite (openInput_committed w fname l f Hp Hf). by repeat case_match.
  - unfold openInput. rewrite bind_get, Hp.
    unfold new_RAMFileIndexInput, bind, load. by rewrite Hf.
Qed.

Lemma unrefReader_Ok_inv (l : nat) (w w' : World) :
  unrefReader l w = Ok tt w' ->
  exists f, heap w !! l = Some f /\ w' = set_heap (drop_ref l f (heap w)) w.
Proof.
  destruct (heap w !! l) as [f|] eqn:Hf.
  - destruct (decide (RAMFile.refs_ f = INT_MIN)) as [Hmin | Hmin].
    + unfold unrefReader. rewrite (bind_Ok _ _ _ _ _ (load_Some _ _ _ Hf)).
      unfold decr_int. by rewrite Hmin, Z.eqb_refl.
    + rewrite (unrefReader_spec w l f Hf Hmin). intros [= <-]. by exists f.
  - unfold unrefReader, bind, load. by rewrite Hf.
Qed.

Lemma deleteFile_leaves (fname : string) (w w' : World) :
  leaves (deleteFile fname w) w' ->
  w' = w \/
  exists l f,
    committed w fname l /\ heap w !! l = Some f /\
    w' = {| files := delete fname (files w);
            heap := drop_ref l f (heap w);
            dummy_refs := dummy_refs w |}.
Proof.
  destruct (files w !! fname) as [[|l]|] eqn:Hp.
  - unfold deleteFile. by rewrite bind_get, Hp.
  - destruct (heap w !! l) as [f|] eqn:Hf.
    + destruct (decide (RAMFile.refs_ f = INT_MIN)) as [Hmin | Hmin].
      * unfold deleteFile. rewrite bind_get, Hp. simpl.
        unfold erase, decr_int, bind, load. simpl.
        by rewrite Hf, Hmin, Z.eqb_refl.
      * rewrite (deleteFile_committed w fname l f Hp Hf Hmin). simpl.
        intros ->. right. by exists l, f.
    + unfold deleteFile. rewrite bind_get, Hp. simpl.
      unfold erase, bind, load. simpl. by rewrite Hf.
  - unfold deleteFile. rewrite bind_get, Hp. simpl. by left.
Qed.

(** The other calls on the directory leave the files, and the names of the
    committed files unless they rename one. *)
Lemma directory_call_leaves (c : dcall) (w w' : World) :
  leaves (directory_call c w) w' ->
  (exists fname, c = DeleteFile fname) \/
  heap w' = heap w /\
  ((forall n l, committed w' n l <-> committed w n l) \/
   exists src target p,
     files w !! src = Some p /\ absent w target /\
     files w' = delete src (<[target := p]> (files w))).
Proof.
  intros H.
  destruct c as [fname | src target | fname | fname | | fname | fname | segment];
    cbn [directory_call] in H; [by left; eexists | right ..].
  - destruct (files w !! src) as [p|] eqn:Hsrc;
      [destruct (files w !! target) as [q|] eqn:Htarget |].
    + unfold rename in H. rewrite bind_get, Hsrc, Htarget in H.
      simpl in H. subst w'. by split; [| left].
    + rewrite (rename_Ok w src target p Hsrc Htarget) in H. simpl in H.
      subst w'. split; [done |]. right. by exists src, target, p.
    + unfold rename in H. rewrite bind_get, Hsrc in H. simpl in H.
      subst w'. by split; [| left].
  - unfold fileLength, bind, get, ret, throw, load_ptr, load in H.
    repeat case_match; simplify_eq/=; by split; [| left].
  - unfold fileExists, bind, get, ret in H. simpl in H. subst w'.
    by split; [| left].
  - unfold listAll, bind, get, ret in H. simpl in H. subst w'.
    by split; [| left].
  - unfold obtainLock, bind, get, ret, assign in H.
    destruct (files w !! fname) as [p|] eqn:Hp; simpl in H; subst w'.
    + by split; [| left].
    + split; [done |]. left. intros n l. unfold committed. simpl.
      destruct (decide (n = fname)) as [-> | Hne].
      * rewrite lookup_insert_eq, Hp. by split.
      * by rewrite lookup_insert_ne.
  - unfold releaseLock in H. rewrite bind_get in H.
    destruct (files w !! fname) as [p|] eqn:Hp; simpl in H.
    + destruct (decide (p = dummy)) as [-> | Hne].
      * rewrite bool_decide_true in H by done. simpl in H. subst w'.
        split; [done |]. left. intros n l. unfold committed. simpl.
        destruct (decide (n = fname)) as [-> | Hne].
        -- rewrite lookup_delete_eq, Hp. by split.
        -- by rewrite lookup_delete_ne.
      * by rewrite bool_decide_false in H.
    + subst w'. by split; [| left].
  - unfold deleteSegment in H. rewrite bind_get in H.
    destruct (deleteSegment_loop segment (map_to_list (files w)) w)
      as [[] w1 | e w1 |] eqn:Hloop; simpl in H; [| |done].
    + apply deleteSegment_loop_Ok in Hloop as [-> _]. subst w'.
      by split; [| left].
    + by apply deleteSegment_loop_no_throw in Hloop.
Qed.

(** ** Every call keeps the reference counts right *)

Lemma sound_directory_call (s : Program) (c : dcall) (w' : World) :
  sound s -> leaves (directory_call c (dir s)) w' ->
  sound (mkProgram w' (outputs s) (inputs s)).
Proof.
  intros Hs Hleaves. pose proof Hs as [Hn Hc Hd Hfr].
  destruct (directory_call_leaves c (dir s) w' Hleaves)
    as [[fname ->] | [Hheap [Hcomm | (src & target & p & Hsrc & Htarget & Hfiles)]]].
  - (* deleteFile *)
    apply deleteFile_leaves in Hleaves
      as [-> | (l0 & f & Hc0 & Hf & ->)]; [by destruct s |].
    destruct (Hc fname l0 Hc0) as (f0 & Hf0 & Hrefs & Hwr).
    rewrite Hf in Hf0. injection Hf0 as <-.
    pose proof (streams_on_nonneg Input.file l0 (inputs s)) as Hpos.
    fold (readers s l0) in Hpos.
    assert (Hother : forall n l, n <> fname -> committed (dir s) n l ->
              l <> l0).
    { intros n l Hne Hcn ->. by apply Hne, (Hn n fname l0). }
    assert (Hheap : forall l, l <> l0 ->
              drop_ref l0 f (heap (dir s)) !! l = heap (dir s) !! l).
    { intros l Hne. unfold drop_ref.
      destruct (_ =? _); [by rewrite lookup_delete_ne
                         | by rewrite lookup_insert_ne]. }
    split; unfold readers, writers, committed in *; simpl.
    + intros n1 n2 l [_ H1]%lookup_delete_Some [_ H2]%lookup_delete_Some.
      by apply (Hn n1 n2 l).
    + intros n l [Hne Hcn]%lookup_delete_Some.
      rewrite Hheap by (by eapply Hother). by apply (Hc n l).
    + intros l f' Hf' Hnot. destruct (decide (l = l0)) as [-> | Hne].
      * unfold drop_ref in Hf'.
        destruct (Z.eqb_spec (RAMFile.refs_ f - 1) 0) as [H0 | H0].
        -- by rewrite lookup_delete_eq in Hf'.
        -- rewrite lookup_insert_eq in Hf'. injection Hf' as <-. simpl. lia.
      * rewrite Hheap in Hf' by done. apply (Hd l f' Hf').
        intros n Hcn. destruct (decide (n = fname)) as [-> | Hnf].
        -- congruence.
        -- apply (Hnot n). by apply lookup_delete_Some.
    + intros l Hl. destruct (decide (l = l0)) as [-> | Hne].
      * unfold drop_ref in Hl.
        destruct (Z.eqb_spec (RAMFile.refs_ f - 1) 0) as [H0 | H0];
          [lia | by rewrite lookup_insert_eq in Hl].
      * rewrite Hheap in Hl by done. by apply Hfr.
  - apply (sound_frame s); try done. intros l. by rewrite Hheap.
  - (* rename *)
    assert (Hne : src <> target) by (intros ->; unfold absent in *; congruence).
    assert (Hcomm : forall n l,
      committed w' n l <->
      n = target /\ p = heap_file l \/
      n <> src /\ n <> target /\ committed (dir s) n l).
    { intros n l. unfold committed. rewrite Hfiles, lookup_delete_Some.
      rewrite lookup_insert_Some. split.
      - intros [Hns [[<- <-] | [Hnt Hcn]]]; [by left | by right].
      - intros [[-> ->] | (Hns & Hnt & Hcn)]; split; try done; [by left |].
        by right. }
    assert (Hex : forall l,
      (exists n, committed w' n l) <-> (exists n, committed (dir s) n l)).
    { intros l. split.
      - intros [n [[-> ->] | (_ & _ & Hcn)]%Hcomm]; [by exists src |].
        by exists n.
      - intros [n Hcn]. destruct (decide (n = src)) as [-> | Hns].
        + exists target. apply Hcomm. left. split; [done |].
          unfold committed in Hcn. congruence.
        + exists n. apply Hcomm. right. split_and!; try done.
          intros ->. unfold committed, absent in *. congruence. }
    split; unfold readers, writers; simpl.
    + intros n1 n2 l [[-> ->] | (Hs1 & Ht1 & H1)]%Hcomm
                     [[-> Hp] | (Hs2 & Ht2 & H2)]%Hcomm; try done.
      * destruct Hs2. by apply (Hn n2 src l).
      * subst p. destruct Hs1. by apply (Hn n1 src l).
      * by apply (Hn n1 n2 l).
    + intros n l Hcn. destruct (proj1 (Hex l) (ex_intro _ n Hcn)) as [n0 Hc0].
      rewrite Hheap. by apply (Hc n0 l).
    + intros l f Hf Hnot. rewrite Hheap in Hf. apply (Hd l f Hf).
      intros n Hcn. destruct (proj2 (Hex l) (ex_intro _ n Hcn)) as [n0 Hc0].
      by apply (Hnot n0).
    + intros l Hl. rewrite Hheap in Hl. by apply Hfr.
Qed.

(** A stream of the program is a stream of a file that is alive. *)
Lemma sound_writer_alive (s : Program) (k : nat) (o : Output.t) :
  sound s -> outputs s !! k = Some o ->
  exists f, heap (dir s) !! Output.file o = Some f /\
            RAMFile.refs_ f = 0 /\ readers s (Output.file o) = 0 /\
            writers s (Output.file o) = 1 /\
            forall n, ~ committed (dir s) n (Output.file o).
Proof.
  intros [Hn Hc Hd Hfr] Hk.
  pose proof (streams_on_lookup Output.file _ _ k o Hk eq_refl) as Hw.
  fold (writers s (Output.file o)) in Hw.
  assert (Hnot : forall n, ~ committed (dir s) n (Output.file o)).
  { intros n (f & _ & _ & Hw0)%Hc. lia. }
  destruct (heap (dir s) !! Output.file o) as [f|] eqn:Hf.
  - exists f. destruct (Hd _ f Hf Hnot) as [Hrefs Hcases].
    split_and!; try done; lia.
  - destruct (Hfr _ Hf). lia.
Qed.

Lemma committed_or_not (w : World) (l : nat) :
  (exists n, committed w n l) \/ (forall n, ~ committed w n l).
Proof.
  destruct (decide (heap_file l ∈ (map_to_list (files w)).*2))
    as [Hin | Hnot].
  - left. apply list_elem_of_fmap in Hin as ([n p] & Hp & Hin).
    simpl in Hp. subst p. exists n. by apply elem_of_map_to_list in Hin.
  - right. intros n Hcn. apply Hnot. apply list_elem_of_fmap.
    exists (n, heap_file l). split; [done |]. by apply elem_of_map_to_list.
Qed.

Lemma sound_reader_alive (s : Program) (k : nat) (i : Input.t) :
  sound s -> inputs s !! k = Some i ->
  exists f, heap (dir s) !! Input.file i = Some f /\
            1 <= readers s (Input.file i) <= RAMFile.refs_ f /\
            writers s (Input.file i) = 0.
Proof.
  intros [Hn Hc Hd Hfr] Hk.
  pose proof (streams_on_lookup Input.file _ _ k i Hk eq_refl) as Hr.
  fold (readers s (Input.file i)) in Hr.
  destruct (heap (dir s) !! Input.file i) as [f|] eqn:Hf.
  - exists f. split; [done |].
    destruct (committed_or_not (dir s) (Input.file i)) as [[n Hcn] | Hnot].
    + destruct (Hc n _ Hcn) as (f0 & Hf0 & Hrefs & Hw).
      rewrite Hf in Hf0. injection Hf0 as <-. lia.
    + destruct (Hd _ f Hf Hnot) as [Hrefs Hcases]. lia.
  - destruct (Hfr _ Hf). lia.
Qed.

(** The invariant of the program: every step keeps the reference counts
    right. *)
Lemma sound_step (s s' : Program) : sound s -> program_step s s' -> sound s'.
Proof.
  intros Hs Hstep. pose proof Hs as [Hn Hc Hd Hfr].
  destruct Hstep as
    [ fname o w' Hrun | fname c w' Hrun | k c o o' w' Hk Hrun
    | k o w' Hk Hrun | fname i w' Hrun | fname c w' Hrun
    | k c i a i' w' Hk Hrun | k c i e i' w' Hk Hrun Hi'
    | k i b i' w' Hk Hrun | k i w' Hk Hrun | c w' Hrun ].
  - (* createOutput *)
    apply createOutput_Ok_inv in Hrun as (Habs & -> & ->).
    set (l0 := fresh (dom (heap (dir s)))).
    pose proof (fresh_not_allocated (dir s)) as Hfresh. fold l0 in Hfresh.
    destruct (Hfr l0 Hfresh) as [Hr0 Hw0].
    split; unfold readers, writers, committed in *; simpl.
    + intros n1 n2 l [[_ [=]] | [_ H1]]%lookup_insert_Some
                     [[_ [=]] | [_ H2]]%lookup_insert_Some.
      by apply (Hn n1 n2 l).
    + intros n l [[_ [=]] | [_ Hcn]]%lookup_insert_Some.
      destruct (Hc n l Hcn) as (f & Hf & Hrefs & Hw). exists f.
      assert (l0 <> l) by congruence.
      rewrite lookup_insert_ne, ?decide_False by done. split_and!; try done; lia.
    + intros l f Hf Hnot. destruct (decide (l0 = l)) as [<- | Hne].
      * rewrite lookup_insert_eq in Hf. injection Hf as <-. simpl. lia.
      * rewrite lookup_insert_ne in Hf by done.
        destruct (Hd l f Hf) as [Hrefs Hcases]; [|lia].
        intros n Hcn. apply (Hnot n). rewrite lookup_insert_ne; [done |].
        intros <-. unfold absent in Habs. congruence.
    + intros l [Hl Hne]%lookup_insert_None. rewrite ?decide_False by done.
      destruct (Hfr l Hl). lia.
  - apply createOutput_Throw_inv in Hrun as ->. by destruct s.
  - (* a call on a writer *)
    destruct (sound_writer_alive s k o Hs Hk) as (f & Hf & _).
    pose proof (keeps_call _ c o eq_refl (dir s) f Hf) as Hkept.
    rewrite Hrun in Hkept. apply (sound_kept s _ f _ _ w' _ _ Hs Hf Hkept);
      [done | | done].
    intros l. destruct Hkept as [Ho' _]. by apply (streams_on_insert _ _ _ _ o).
  - (* a writer is closed *)
    destruct (sound_writer_alive s k o Hs Hk)
      as (f & Hf & Hrefs & Hr0 & Hw1 & Hnot).
    apply Output_close_Ok_inv in Hrun as (f0 & f' & Hf0 & Hp & Hrefs' & ->).
    rewrite Hf in Hf0. injection Hf0 as <-.
    set (l0 := Output.file o) in *.
    assert (Hdel : forall l, streams_on Output.file l (delete k (outputs s))
              = streams_on Output.file l (outputs s)
                - (if decide (l0 = l) then 1 else 0)).
    { intros l. by apply streams_on_delete. }
    split; unfold readers, writers, committed in *; simpl;
      try setoid_rewrite Hdel.
    + intros n1 n2 l [[<- H1] | [Hne1 H1]]%lookup_insert_Some
                     [[<- H2] | [Hne2 H2]]%lookup_insert_Some; try done.
      * injection H1 as <-. by destruct (Hnot n2).
      * injection H2 as <-. by destruct (Hnot n1).
      * by apply (Hn n1 n2 l).
    + intros n l [[<- [= <-]] | [Hne Hcn]]%lookup_insert_Some.
      * exists f'. rewrite lookup_insert_eq, ?decide_True by done.
        split_and!; try done; lia.
      * destruct (Hc n l Hcn) as (f1 & Hf1 & Hrefs1 & Hw).
        assert (l0 <> l) by (intros <-; by destruct (Hnot n)).
        exists f1. rewrite lookup_insert_ne, ?decide_False by done.
        split_and!; try done; lia.
    + intros l f1 Hf1 Hnot'. destruct (decide (l0 = l)) as [<- | Hne].
      * destruct (Hnot' (RAMFile.name f)). apply lookup_insert_eq.
      * rewrite lookup_insert_ne in Hf1 by done. rewrite ?decide_False by done.
        destruct (Hd l f1 Hf1) as [Hrefs1 Hcases]; [|lia].
        intros n Hcn. apply (Hnot' n). rewrite lookup_insert_ne; [done |].
        intros <-. unfold placeholder in Hp. congruence.
    + intros l [Hl Hne]%lookup_insert_None. rewrite ?decide_False by done.
      destruct (Hfr l Hl). lia.
  - (* openInput *)
    apply openInput_Ok_inv in Hrun as (l0 & f & Hc0 & Hf & Hi & ->).
    destruct (Hc fname l0 Hc0) as (f0 & Hf0 & Hrefs & Hw).
    rewrite Hf in Hf0. injection Hf0 as <-.
    split; unfold readers, writers, committed in *; simpl; rewrite ?Hi.
    + apply Hn.
    + intros n l Hcn. destruct (Hc n l Hcn) as (f1 & Hf1 & Hrefs1 & Hw1).
      destruct (decide (l0 = l)) as [<- | Hne].
      * rewrite lookup_insert_eq. eexists. split; [done |]. simpl.
        rewrite Hf in Hf1. injection Hf1 as <-. lia.
      * rewrite lookup_insert_ne by done. exists f1. split_and!; try done; lia.
    + intros l f1 Hf1 Hnot. destruct (decide (l0 = l)) as [<- | Hne].
      * by destruct (Hnot fname).
      * rewrite lookup_insert_ne in Hf1 by done.
        destruct (Hd l f1 Hf1 Hnot). lia.
    + intros l [Hl Hne]%lookup_insert_None. rewrite ?decide_False by done.
      destruct (Hfr l Hl). lia.
  - apply openInput_Throw_inv in Hrun as ->. by destruct s.
  - (* a call on a reader *)
    destruct (sound_reader_alive s k i Hs Hk) as (f & Hf & _).
    pose proof (keeps_ask _ c i eq_refl (dir s) f Hf) as Hkept.
    rewrite Hrun in Hkept. apply (sound_kept s _ f _ _ w' _ _ Hs Hf Hkept);
      [done | done |].
    intros l. destruct Hkept as [Hi' _]. by apply (streams_on_insert _ _ _ _ i).
  - destruct (sound_reader_alive s k i Hs Hk) as (f & Hf & _).
    pose proof (keeps_ask _ c i eq_refl (dir s) f Hf) as Hkept.
    rewrite Hrun in Hkept. apply (sound_kept s _ f _ _ w' _ _ Hs Hf Hkept);
      [done | done |].
    intros l. by apply (streams_on_insert _ _ _ _ i).
  - destruct (sound_reader_alive s k i Hs Hk) as (f & Hf & _).
    pose proof (keeps_eof _ i eq_refl (dir s) f Hf) as Hkept.
    rewrite Hrun in Hkept. apply (sound_kept s _ f _ _ w' _ _ Hs Hf Hkept);
      [done | done |].
    intros l. destruct Hkept as [Hi' _]. by apply (streams_on_insert _ _ _ _ i).
  - (* a reader is closed *)
    destruct (sound_reader_alive s k i Hs Hk) as (f & Hf & Hr1 & Hw0).
    apply unrefReader_Ok_inv in Hrun as (f0 & Hf0 & ->).
    rewrite Hf in Hf0. injection Hf0 as <-.
    set (l0 := Input.file i) in *.
    assert (Hdel : forall l, streams_on Input.file l (delete k (inputs s))
              = streams_on Input.file l (inputs s)
                - (if decide (l0 = l) then 1 else 0)).
    { intros l. by apply streams_on_delete. }
    assert (Hheap : forall l, l0 <> l ->
              drop_ref l0 f (heap (dir s)) !! l = heap (dir s) !! l).
    { intros l Hne. unfold drop_ref.
      destruct (_ =? _); [by rewrite lookup_delete_ne
                         | by rewrite lookup_insert_ne]. }
    split; unfold readers, writers, committed in *; simpl;
      try setoid_rewrite Hdel.
    + apply Hn.
    + intros n l Hcn. destruct (Hc n l Hcn) as (f1 & Hf1 & Hrefs1 & Hw1).
      destruct (decide (l0 = l)) as [<- | Hne].
      * rewrite Hf in Hf1. injection Hf1 as <-. unfold drop_ref.
        destruct (Z.eqb_spec (RAMFile.refs_ f - 1) 0) as [H0 | H0]; [lia |].
        rewrite lookup_insert_eq. eexists. split; [done |]. simpl. lia.
      * rewrite Hheap by done. exists f1. split_and!; try done; lia.
    + intros l f1 Hf1 Hnot. destruct (decide (l0 = l)) as [<- | Hne].
      * destruct (Hd l0 f Hf Hnot) as [Hrefs Hcases]. unfold drop_ref in Hf1.
        destruct (Z.eqb_spec (RAMFile.refs_ f - 1) 0) as [H0 | H0].
        -- by rewrite lookup_delete_eq in Hf1.
        -- rewrite lookup_insert_eq in Hf1. injection Hf1 as <-. simpl. lia.
      * rewrite Hheap in Hf1 by done. destruct (Hd l f1 Hf1 Hnot). lia.
    + intros l Hl. destruct (decide (l0 = l)) as [<- | Hne].
      * unfold drop_ref in Hl.
        destruct (Z.eqb_spec (RAMFile.refs_ f - 1) 0) as [H0 | H0];
          [|by rewrite lookup_insert_eq in Hl].
        assert (Hnot : forall n, ~ committed (dir s) n l0).
        { intros n (f1 & Hf1 & Hrefs1 & _)%Hc. rewrite Hf in Hf1.
          injection Hf1 as <-. lia. }
        destruct (Hd l0 f Hf Hnot). lia.
      * rewrite Hheap in Hl by done. destruct (Hfr l Hl). lia.
  - by apply (sound_directory_call s c).
Qed.

Lemma reachable_sound (s : Program) : reachable s -> sound s.
Proof.
  intros Hreach.
  apply (rtc_ind_r (R := program_step) sound new_program);
    [apply new_program_sound | | done].
  intros y z _ Hstep Hy. by apply (sound_step y).
Qed.

(** ** What the reference counts give *)

Lemma program_committed_reachable : reachable program_committed.
Proof.
  set (o1 := Output.mk (Some 0) 0 1 4096 1 0 0).
  set (w1 := with_file 0 (RAMFile.set_refs 0
                            (RAMFile.set_length 0 (file_f 0)))
               world_writing).
  unfold reachable.
  apply (rtc_l _ _ (mkProgram world_writing [Output.create 0] []));
    [apply (step_createOutput new_program "f" (Output.create 0) world_writing);
     by vm_compute |].
  apply (rtc_l _ _ (mkProgram w1 [o1] []));
    [apply (step_call (mkProgram world_writing [Output.create 0] []) 0
              (WriteByte 7) (Output.create 0) o1 w1); by vm_compute |].
  apply rtc_once.
  apply (step_Output_close (mkProgram w1 [o1] []) 0 o1 world_committed);
    by vm_compute.
Qed.

Lemma program_two_readers_reachable : reachable program_two_readers.
Proof.
  set (w1 := with_file 0 (file_f 2) world_committed).
  unfold reachable. etrans; [apply program_committed_reachable |].
  apply (rtc_l _ _ (mkProgram w1 [] [reader_f]));
    [apply (step_openInput program_committed "f" reader_f w1);
     by vm_compute |].
  apply rtc_once.
  apply (step_openInput (mkProgram w1 [] [reader_f]) "f" reader_f
           world_two_readers); by vm_compute.
Qed.

(** X22. In every state that a program reaches from a new directory, a file
    that is alive is in one of three states: it is committed under one
    name, and its reference count is one more than the number of its
    readers; or it is the file of one open writer, with the count 0 and no
    reader; or it was deleted and is kept for its readers, of which its
    count is the number. *)
Theorem reference_counts (s : Program) (l : nat) (f : RAMFile.t) :
  reachable s -> heap (dir s) !! l = Some f ->
  (exists n, committed (dir s) n l /\
             forall n', committed (dir s) n' l -> n' = n) /\
  RAMFile.refs_ f = 1 + readers s l /\ writers s l = 0 \/
  (forall n, ~ committed (dir s) n l) /\
  (RAMFile.refs_ f = 0 /\ writers s l = 1 /\ readers s l = 0 \/
   RAMFile.refs_ f = readers s l /\ 1 <= readers s l /\ writers s l = 0).
Proof.
  intros [Hn Hc Hd Hfr]%reachable_sound Hf.
  destruct (committed_or_not (dir s) l) as [[n Hcn] | Hnot].
  - left. destruct (Hc n l Hcn) as (f0 & Hf0 & Hrefs & Hw).
    rewrite Hf in Hf0. injection Hf0 as <-. split; [|done].
    exists n. split; [done |]. intros n' Hcn'. by apply (Hn n' n l).
  - right. split; [done |]. destruct (Hd l f Hf Hnot) as [Hrefs Hcases]. lia.
Qed.

Lemma reference_counts_witness :
  (exists n, committed (dir program_two_readers) n 0 /\
             forall n', committed (dir program_two_readers) n' 0 -> n' = n) /\
  RAMFile.refs_ (file_f 3) = 1 + readers program_two_readers 0 /\
  writers program_two_readers 0 = 0 \/
  (forall n, ~ committed (dir program_two_readers) n 0) /\
  (RAMFile.refs_ (file_f 3) = 0 /\ writers program_two_readers 0 = 1 /\
   readers program_two_readers 0 = 0 \/
   RAMFile.refs_ (file_f 3) = readers program_two_readers 0 /\
   1 <= readers program_two_readers 0 /\ writers program_two_readers 0 = 0).
Proof.
  apply (reference_counts program_two_readers 0 (file_f 3));
    [apply program_two_readers_reachable | reflexivity].
Defined.

(** X23. A program that has closed its writers and its readers leaks no
    file: the destructor of the directory returns, its assertion holds for
    every file, and no file is left allocated. *)
Theorem no_file_leaks (s : Program) :
  reachable s -> outputs s = [] -> inputs s = [] ->
  exists w', RAMDirectory_dtor (dir s) = Ok tt w' /\ heap w' = ∅.
Proof.
  intros Hs%reachable_sound Houts Hins. pose proof Hs as [Hn Hc Hd Hfr].
  assert (Hr : forall l, readers s l = 0) by (intros l; unfold readers; by rewrite Hins).
  assert (Hw : forall l, writers s l = 0) by (intros l; unfold writers; by rewrite Houts).
  assert (Hsound : table_sound (dir s)).
  { split; [|done]. intros n l (f & Hf & _)%Hc. by exists f. }
  unfold RAMDirectory_dtor. rewrite bind_get.
  destruct (dtor_loop_free (map_to_list (files (dir s))) (dir s)
              (table_distinct_files _ Hsound))
    as (w' & Hrun & _ & _ & Hfreed & Hkept).
  { intros n l Hin%elem_of_map_to_list.
    destruct (Hc n l Hin) as (f & Hf & Hrefs & _). exists f.
    split; [done |]. rewrite Hr in Hrefs. lia. }
  exists w'. split; [done |]. apply map_eq. intros l. rewrite lookup_empty.
  destruct (committed_or_not (dir s) l) as [[n Hcn] | Hnot].
  - apply (Hfreed n l). by apply elem_of_map_to_list.
  - rewrite Hkept.
    + destruct (heap (dir s) !! l) as [f|] eqn:Hf; [|done].
      destruct (Hd l f Hf Hnot) as [_ Hcases].
      specialize (Hr l). specialize (Hw l). lia.
    + intros n Hin%elem_of_map_to_list. by apply (Hnot n).
Qed.

Lemma no_file_leaks_witness :
  exists w', RAMDirectory_dtor (dir program_committed) = Ok tt w' /\ heap w' = ∅.
Proof.
  apply (no_file_leaks program_committed);
    [apply program_committed_reachable | reflexivity | reflexivity].
Defined.

Lemma kept_finds_file {A} (l : nat) (P : A -> Prop) (f : RAMFile.t)
    (w : World) (r : Result World A) :
  kept l P f w r -> finds_file r.
Proof. intros Hkept ->. by simpl in Hkept. Qed.

Lemma Output_close_finds_file (o : Output.t) (w : World) (f : RAMFile.t) :
  heap w !! Output.file o = Some f -> finds_file (Output_close o w).
Proof.
  intros Hf. unfold finds_file.
  destruct (decide (files w !! RAMFile.name f = Some dummy)) as [Hp | Hp].
  - by rewrite (Output_close_spec o w f Hf Hp).
  - unfold Output_close.
    destruct (update_length_spec o w f Hf) as (w1 & Hu & Hfs & Hd & Hh).
    rewrite (bind_Ok _ _ _ _ _ Hu).
    assert (Hf1 : heap w1 !! Output.file o
                  = Some (RAMFile.set_length
                            (Z.max (RAMFile.length f) (Output.pos o)) f))
      by (rewrite Hh; apply lookup_insert_eq).
    rewrite (bind_Ok _ _ _ _ _ (load_Some _ _ _ Hf1)).
    unfold commit. rewrite bind_get. simpl.
    by rewrite Hfs, bool_decide_false.
Qed.

Lemma deleteSegment_loop_finds_file (segment : string)
    (entries : list (string * fileptr)) (w : World) :
  finds_file (deleteSegment_loop segment entries w).
Proof.
  unfold finds_file. induction entries as [|e entries IH]; simpl; [done |].
  destruct (has_prefix segment e.1); [|done].
  destruct e as [n [|l]]; unfold deleteSegment_entry; simpl.
  - unfold bind, assert, erase, load_ptr, decr_int, store_refs, delete_ptr,
      ret, abort. simpl.
    repeat case_match; congruence.
  - unfold bind, assert, abort. simpl. repeat case_match; congruence.
Qed.

Lemma directory_call_finds_file (s : Program) (c : dcall) :
  sound s -> finds_file (directory_call c (dir s)).
Proof.
  intros [Hn Hc Hd Hfr]. unfold finds_file.
  destruct c as [fname | src target | fname | fname | | fname | fname | segment];
    cbn [directory_call].
  - destruct (files (dir s) !! fname) as [[|l]|] eqn:Hp;
      try (unfold deleteFile; by rewrite bind_get, Hp).
    destruct (Hc fname l Hp) as (f & Hf & Hrefs & _).
    pose proof (streams_on_nonneg Input.file l (inputs s)) as Hpos.
    fold (readers s l) in Hpos.
    rewrite (deleteFile_committed (dir s) fname l f Hp Hf); [done |].
    unfold INT_MIN. lia.
  - unfold rename, bind, get, throw, assign, erase. repeat case_match; congruence.
  - destruct (files (dir s) !! fname) as [[|l]|] eqn:Hp;
      try (unfold fileLength, bind, get; by rewrite Hp).
    destruct (Hc fname l Hp) as (f & Hf & _).
    unfold fileLength, bind, get, load_ptr, load. by rewrite Hp, Hf.
  - done.
  - done.
  - unfold obtainLock, bind, get, assign, ret. repeat case_match; congruence.
  - unfold releaseLock, bind, get, assert, erase, ret, abort.
    repeat case_match; congruence.
  - unfold deleteSegment. rewrite bind_get.
    apply deleteSegment_loop_finds_file.
Qed.

(** X24. No call of a program finds a file freed: in every state that the
    program reaches from a new directory, the calls on the writers and the
    readers that it holds and the calls on the directory do not access a
    RAMFile that was deleted, and closing a reader returns. *)
Theorem no_use_after_free (s : Program) :
  reachable s ->
  (forall k o, outputs s !! k = Some o ->
     (forall c, finds_file (call c o (dir s))) /\
     finds_file (Output_close o (dir s))) /\
  (forall k i, inputs s !! k = Some i ->
     (forall c, finds_file (ask c i (dir s))) /\
     finds_file (eof i (dir s)) /\
     exists w', Input_close i (dir s) = Ok tt w') /\
  (forall fname,
     finds_file (createOutput fname (dir s)) /\
     finds_file (openInput fname (dir s))) /\
  (forall c, finds_file (directory_call c (dir s))).
Proof.
  intros Hs%reachable_sound. pose proof Hs as [Hn Hc Hd Hfr]. split_and!.
  - intros k o Hk.
    destruct (sound_writer_alive s k o Hs Hk) as (f & Hf & _). split.
    + intros c. by eapply (kept_finds_file _ _ f (dir s)), keeps_call.
    + by apply (Output_close_finds_file o (dir s) f).
  - intros k i Hk.
    destruct (sound_reader_alive s k i Hs Hk) as (f & Hf & Hr & _).
    split_and!.
    + intros c. by eapply (kept_finds_file _ _ f (dir s)), keeps_ask.
    + by eapply (kept_finds_file _ _ f (dir s)), keeps_eof.
    + eexists. apply (unrefReader_spec (dir s) _ f Hf). unfold INT_MIN. lia.
  - intros fname. unfold finds_file. split.
    + unfold createOutput, bind, get, throw, new_RAMFile, assign, ret.
      repeat case_match; congruence.
    + destruct (files (dir s) !! fname) as [[|l]|] eqn:Hp;
        try (unfold openInput; by rewrite bind_get, Hp).
      destruct (Hc fname l Hp) as (f & Hf & _).
      rewrite (openInput_committed (dir s) fname l f Hp Hf).
      repeat case_match; congruence.
  - intros c. by apply directory_call_finds_file.
Qed.

Lemma no_use_after_free_witness :
  (forall k o, outputs program_two_readers !! k = Some o ->
     (forall c, finds_file (call c o (dir program_two_readers))) /\
     finds_file (Output_close o (dir program_two_readers))) /\
  (forall k i, inputs program_two_readers !! k = Some i ->
     (forall c, finds_file (ask c i (dir program_two_readers))) /\
     finds_file (eof i (dir program_two_readers)) /\
     exists w', Input_close i (dir program_two_readers) = Ok tt w') /\
  (forall fname,
     finds_file (createOutput fname (dir program_two_readers)) /\
     finds_file (openInput fname (dir program_two_readers))) /\
  (forall c, finds_file (directory_call c (dir program_two_readers))).
Proof.
  apply (no_use_after_free program_two_readers),
    program_two_readers_reachable.
Defined.
